(** * Relation-graph resolution and visibility propagation

    A shallow embedding of the recipe relation engine of the web
    application ([web/lib/api/adminRecipes.ts] and [web/lib/recipes.ts]):
    the PTN reference extractor, the title matcher, the relation graph
    builder, the breadth-first component expander, the visibility
    propagator with its chain of write clients, and the read-only
    sub-recipe navigation resolver.

    Conventions of the embedding.
    - A JavaScript string is a [string], the list of its UTF-16 code
      units, and a string literal stands for the code units of its
      text. [trim], [\s], [.], [\b], the [i] flag and [[^a-z0-9]] are
      written out for every code unit. [toLowerCase] is a built-in that
      follows the case
      mappings of Unicode; it is a parameter of the development
      ([Runtime]), with the two facts about it that the proofs use. The
      examples are evaluated with [unicodeRuntime], whose [toLowerCase]
      is the lower-case mapping of Unicode 14.0.
    - A JavaScript [Set] is a duplicate-free list in insertion order and
      a [Map] is a [gmap]. The object that [findSubRecipeTargets] fills
      as a dictionary is a [TargetMap], with its own properties and its
      prototype: on an object the key [__proto__] names the prototype.
    - The content store is the list of published recipe documents, in the
      order in which the store enumerates them; every query of the source
      selects from it ([_type == "recipe"], drafts excluded), and a read
      of the store returns.
    - Asynchronous calls are sequential ([await] at every call), so the
      write path is a state-and-exception monad over the store. A write
      client is the function that answers a patch request; the list of
      clients of [getSanityWriteClients()] is a parameter.
    - [normalizeComparableText], [scoreTitleMatch] and
      [extractPtnReference] are defined twice in the source, with the same
      text; they are embedded once.

    The second part of the definitions covers the callers of the engine:
    the label lookup of the recipe page ([web/app/recipes/[id]/page.tsx]),
    the listing window of [listAdminRecipes] and [listAccessibleRecipes]
    with the pagination bar ([web/lib/pagination.ts]), the category
    counters, the [PATCH] handler of the admin route
    ([web/app/api/admin/recipes/route.ts]) and the page action of the
    owner table ([web/app/owner/actions.ts], [web/app/owner/page.tsx]).
    - A JavaScript number is [NaN], an infinity or a rational. The
      pagination bar rounds its sums and differences to doubles
      ([roundDouble]); the counts and page numbers of a listing are
      integers below 2^53, on which the arithmetic of doubles is exact.
    - The documents a listing query selects, in the order of the query,
      are a parameter of the listing; [requireApiKey] and the form data
      are parameters of the handler and of the action. *)

From Stdlib Require Import ZArith NArith QArith Qround List Lia.
From Stdlib Require Strings.Byte.
From Stdlib Require Import Strings.Ascii.
From stdpp Require Import base option list gmap.

#[local] Set Warnings "-clear-no-such-hyp,-register-all".

(** ** JavaScript strings *)

(** A UTF-16 code unit, a number below 65536. *)
Definition codeUnit : Type := N.

Bind Scope N_scope with codeUnit.

(** A string: its code units in order. *)
Inductive string :=
| EmptyString
| String (c : codeUnit) (s : string).

Fixpoint codeUnits (s : string) : list N :=
  match s with
  | EmptyString => []
  | String c s' => c :: codeUnits s'
  end.

Fixpoint ofCodeUnits (l : list N) : string :=
  match l with
  | [] => EmptyString
  | c :: l' => String c (ofCodeUnits l')
  end.

(** [StringToCodePoints]: a high surrogate followed by a low surrogate
    is one code point, every other code unit is a code point by
    itself. *)
Definition isHighSurrogate (c : codeUnit) : bool :=
  ((0xD800 <=? c) && (c <=? 0xDBFF))%N.

Definition isLowSurrogate (c : codeUnit) : bool :=
  ((0xDC00 <=? c) && (c <=? 0xDFFF))%N.

Fixpoint codePointsOf (s : string) : list N :=
  match s with
  | EmptyString => []
  | String c s' =>
      match s' with
      | EmptyString => [c]
      | String d s'' =>
          if isHighSurrogate c && isLowSurrogate d
          then (0x10000 + (c - 0xD800) * 0x400 + (d - 0xDC00))%N :: codePointsOf s''
          else c :: codePointsOf s'
      end
  end.

(** [CodePointsToString]. *)
Definition codeUnitsOf (codePoint : N) : list codeUnit :=
  if (codePoint <? 0x10000)%N then [codePoint]
  else [(0xD800 + (codePoint - 0x10000) / 0x400)%N;
        (0xDC00 + (codePoint - 0x10000) mod 0x400)%N].

Definition ofCodePoints (codePoints : list N) : string :=
  ofCodeUnits (flat_map codeUnitsOf codePoints).

(** A string literal stands for the code units of its text. The text of
    a literal is read in UTF-8: one to four bytes make a code point, in
    the shortest form, and a code point above U+FFFF makes two code
    units. *)
Definition isContinuation (b : N) : bool := ((0x80 <=? b) && (b <=? 0xBF))%N.

Fixpoint utf8CodePoints (bytes : list N) : option (list N) :=
  match bytes with
  | [] => Some []
  | b :: rest =>
      if (b <? 0x80)%N then option_map (cons b) (utf8CodePoints rest)
      else if ((0xC2 <=? b) && (b <=? 0xDF))%N then
        match rest with
        | b2 :: rest2 =>
            if isContinuation b2
            then option_map (cons ((b - 0xC0) * 0x40 + (b2 - 0x80))%N)
                   (utf8CodePoints rest2)
            else None
        | _ => None
        end
      else if ((0xE0 <=? b) && (b <=? 0xEF))%N then
        match rest with
        | b2 :: b3 :: rest3 =>
            let codePoint := ((b - 0xE0) * 0x1000 + (b2 - 0x80) * 0x40 + (b3 - 0x80))%N in
            if isContinuation b2 && isContinuation b3 && (0x800 <=? codePoint)%N
               && negb ((0xD800 <=? codePoint) && (codePoint <=? 0xDFFF))%N
            then option_map (cons codePoint) (utf8CodePoints rest3)
            else None
        | _ => None
        end
      else if ((0xF0 <=? b) && (b <=? 0xF4))%N then
        match rest with
        | b2 :: b3 :: b4 :: rest4 =>
            let codePoint :=
              ((b - 0xF0) * 0x40000 + (b2 - 0x80) * 0x1000 + (b3 - 0x80) * 0x40
               + (b4 - 0x80))%N in
            if isContinuation b2 && isContinuation b3 && isContinuation b4
               && (0x10000 <=? codePoint)%N && (codePoint <=? 0x10FFFF)%N
            then option_map (cons codePoint) (utf8CodePoints rest4)
            else None
        | _ => None
        end
      else None
  end.

Definition utf8Bytes (codePoint : N) : option (list N) :=
  if (codePoint <? 0x80)%N then Some [codePoint]
  else if (codePoint <? 0x800)%N
  then Some [(0xC0 + codePoint / 0x40)%N; (0x80 + codePoint mod 0x40)%N]
  else if (codePoint <? 0x10000)%N then
    if ((0xD800 <=? codePoint) && (codePoint <=? 0xDFFF))%N then None
    else Some [(0xE0 + codePoint / 0x1000)%N; (0x80 + (codePoint / 0x40) mod 0x40)%N;
               (0x80 + codePoint mod 0x40)%N]
  else if (codePoint <? 0x110000)%N
  then Some [(0xF0 + codePoint / 0x40000)%N; (0x80 + (codePoint / 0x1000) mod 0x40)%N;
             (0x80 + (codePoint / 0x40) mod 0x40)%N; (0x80 + codePoint mod 0x40)%N]
  else None.

Fixpoint allSome {A} (l : list (option A)) : option (list A) :=
  match l with
  | [] => Some []
  | Some x :: rest => option_map (cons x) (allSome rest)
  | None :: _ => None
  end.

Definition ofBytes (bytes : list Byte.byte) : option string :=
  option_map ofCodePoints (utf8CodePoints (map Byte.to_N bytes)).

(** A string is shown as a literal when it is the text of one: its code
    units are below 65536 and its surrogates come in pairs. *)
Definition toBytes (s : string) : option (list Byte.byte) :=
  if forallb (fun c => c <? 0x10000)%N (codeUnits s)
  then match allSome (map utf8Bytes (codePointsOf s)) with
       | Some bytes => allSome (map Byte.of_N (concat bytes))
       | None => None
       end
  else None.

Declare Scope js_scope.
Delimit Scope js_scope with js.
Bind Scope js_scope with string.
String Notation string ofBytes toBytes : js_scope.

Local Open Scope js_scope.
Local Open Scope Z_scope.

(** The code unit of an ASCII character. *)
Definition cu (a : Ascii.ascii) : codeUnit := Ascii.N_of_ascii a.
Arguments cu a%_char.

Fixpoint append (a b : string) : string :=
  match a with
  | EmptyString => b
  | String c a' => String c (append a' b)
  end.

Infix "+:+" := append (at level 60, right associativity) : js_scope.

(** [a === b] on strings. *)
Fixpoint strEq (a b : string) : bool :=
  match a, b with
  | EmptyString, EmptyString => true
  | String c a', String d b' => N.eqb c d && strEq a' b'
  | _, _ => false
  end.

#[global] Instance string_eq_dec : EqDecision string.
Proof. solve_decision. Defined.

Fixpoint ofCodeUnits_codeUnits (s : string) : ofCodeUnits (codeUnits s) = s :=
  match s with
  | EmptyString => eq_refl
  | String c s' => f_equal (String c) (ofCodeUnits_codeUnits s')
  end.

#[global] Instance string_countable : Countable string :=
  inj_countable' codeUnits ofCodeUnits ofCodeUnits_codeUnits.

(** ** JavaScript string primitives used by the source *)

Definition charCode (c : codeUnit) : N := c.

Definition isUpper (c : codeUnit) : bool :=
  ((65 <=? charCode c) && (charCode c <=? 90))%N.

Definition isLower (c : codeUnit) : bool :=
  ((97 <=? charCode c) && (charCode c <=? 122))%N.

Definition isDigit (c : codeUnit) : bool :=
  ((48 <=? charCode c) && (charCode c <=? 57))%N.

(** Line terminators, which [.] does not match: line feed, carriage
    return, U+2028 and U+2029. *)
Definition isLineTerminator (c : codeUnit) : bool :=
  ((charCode c =? 10) || (charCode c =? 13)
   || (charCode c =? 0x2028) || (charCode c =? 0x2029))%N.

(** [\s], which is also what [trim] removes: the white space of the
    language (tab, vertical tab, form feed, U+FEFF and the space
    separators U+0020, U+00A0, U+1680, U+2000 to U+200A, U+202F, U+205F,
    U+3000) and the line terminators. *)
Definition isWhiteSpace (c : codeUnit) : bool :=
  ((charCode c =? 9) || (charCode c =? 11) || (charCode c =? 12)
   || (charCode c =? 32) || (charCode c =? 0xA0) || (charCode c =? 0x1680)
   || ((0x2000 <=? charCode c) && (charCode c <=? 0x200A))
   || (charCode c =? 0x202F) || (charCode c =? 0x205F)
   || (charCode c =? 0x3000) || (charCode c =? 0xFEFF))%N
  || isLineTerminator c.

(** [\w]: the characters that make a word for [\b]. *)
Definition isWordChar (c : codeUnit) : bool :=
  isUpper c || isLower c || isDigit c || (charCode c =? 95)%N.

(** The class [[a-z0-9]] of [normalizeComparableText]. *)
Definition isLowerAlnum (c : codeUnit) : bool := isLower c || isDigit c.

(** The case folding of the [i] flag on the letters of the expression:
    among all code units only [P] and [p] fold to [p], and likewise for
    [t] and [n]. *)
Definition lowerChar (c : codeUnit) : codeUnit :=
  if isUpper c then (charCode c + 32)%N else c.

(** The text with its ASCII capital letters replaced by the small ones. *)
Fixpoint lowerAscii (s : string) : string :=
  match s with
  | EmptyString => EmptyString
  | String c s' => String (lowerChar c) (lowerAscii s')
  end.

Fixpoint allChars (p : codeUnit -> bool) (s : string) : bool :=
  match s with
  | EmptyString => true
  | String c s' => p c && allChars p s'
  end.

Definition isAscii (c : codeUnit) : bool := (charCode c <? 128)%N.

(** [String.prototype.toLowerCase] is a built-in of the language and
    follows the case mappings of the Unicode standard, whose tables
    depend on the version of the standard that the engine ships. It is a
    parameter of the development, together with the two facts about it
    that the proofs use and that hold for every version: a text of ASCII
    characters is lower-cased letter by letter, and a stretch of ASCII
    characters inside any text is lower-cased letter by letter and in
    its place, whatever becomes of the text before and after it. The
    mapping for the tables of Unicode 14.0 is [unicodeLower] below, and
    [unicodeRuntime] is the runtime it makes. *)
Class Runtime := {
  toLowerCase : string -> string;
  toLowerCase_ascii (s : string) :
    allChars isAscii s = true -> toLowerCase s = lowerAscii s;
  toLowerCase_segment (before s after : string) :
    allChars isAscii s = true ->
    exists before' after',
      toLowerCase (before +:+ s +:+ after) = before' +:+ lowerAscii s +:+ after'
}.

(** *** The lower-case mapping of the Unicode standard

    [toLowerCase] reads the text as code points, maps them to lower
    case, and writes the result as code units. *)

(** The simple lower-case mappings of the Unicode Character Database
    (UnicodeData.txt, version 14.0), in runs [(first, last, step,
    lower)]: the code points [first], [first + step], ... up to [last]
    map to [lower], [lower + step], ... in this order. Every other code
    point maps to itself. *)
Definition lowerCaseRanges : list (N * N * N * N) :=
  [(0x41, 0x5A, 1, 0x61); (0xC0, 0xD6, 1, 0xE0); (0xD8, 0xDE, 1, 0xF8);
   (0x100, 0x12E, 2, 0x101); (0x132, 0x136, 2, 0x133);
   (0x139, 0x147, 2, 0x13A); (0x14A, 0x176, 2, 0x14B);
   (0x178, 0x178, 1, 0xFF); (0x179, 0x17D, 2, 0x17A);
   (0x181, 0x181, 1, 0x253); (0x182, 0x184, 2, 0x183);
   (0x186, 0x186, 1, 0x254); (0x187, 0x187, 1, 0x188);
   (0x189, 0x18A, 1, 0x256); (0x18B, 0x18B, 1, 0x18C);
   (0x18E, 0x18E, 1, 0x1DD); (0x18F, 0x18F, 1, 0x259);
   (0x190, 0x190, 1, 0x25B); (0x191, 0x191, 1, 0x192);
   (0x193, 0x193, 1, 0x260); (0x194, 0x194, 1, 0x263);
   (0x196, 0x196, 1, 0x269); (0x197, 0x197, 1, 0x268);
   (0x198, 0x198, 1, 0x199); (0x19C, 0x19C, 1, 0x26F);
   (0x19D, 0x19D, 1, 0x272); (0x19F, 0x19F, 1, 0x275);
   (0x1A0, 0x1A4, 2, 0x1A1); (0x1A6, 0x1A6, 1, 0x280);
   (0x1A7, 0x1A7, 1, 0x1A8); (0x1A9, 0x1A9, 1, 0x283);
   (0x1AC, 0x1AC, 1, 0x1AD); (0x1AE, 0x1AE, 1, 0x288);
   (0x1AF, 0x1AF, 1, 0x1B0); (0x1B1, 0x1B2, 1, 0x28A);
   (0x1B3, 0x1B5, 2, 0x1B4); (0x1B7, 0x1B7, 1, 0x292);
   (0x1B8, 0x1B8, 1, 0x1B9); (0x1BC, 0x1BC, 1, 0x1BD);
   (0x1C4, 0x1C4, 1, 0x1C6); (0x1C5, 0x1C5, 1, 0x1C6);
   (0x1C7, 0x1C7, 1, 0x1C9); (0x1C8, 0x1C8, 1, 0x1C9);
   (0x1CA, 0x1CA, 1, 0x1CC); (0x1CB, 0x1DB, 2, 0x1CC);
   (0x1DE, 0x1EE, 2, 0x1DF); (0x1F1, 0x1F1, 1, 0x1F3);
   (0x1F2, 0x1F4, 2, 0x1F3); (0x1F6, 0x1F6, 1, 0x195);
   (0x1F7, 0x1F7, 1, 0x1BF); (0x1F8, 0x21E, 2, 0x1F9);
   (0x220, 0x220, 1, 0x19E); (0x222, 0x232, 2, 0x223);
   (0x23A, 0x23A, 1, 0x2C65); (0x23B, 0x23B, 1, 0x23C);
   (0x23D, 0x23D, 1, 0x19A); (0x23E, 0x23E, 1, 0x2C66);
   (0x241, 0x241, 1, 0x242); (0x243, 0x243, 1, 0x180);
   (0x244, 0x244, 1, 0x289); (0x245, 0x245, 1, 0x28C);
   (0x246, 0x24E, 2, 0x247); (0x370, 0x372, 2, 0x371);
   (0x376, 0x376, 1, 0x377); (0x37F, 0x37F, 1, 0x3F3);
   (0x386, 0x386, 1, 0x3AC); (0x388, 0x38A, 1, 0x3AD);
   (0x38C, 0x38C, 1, 0x3CC); (0x38E, 0x38F, 1, 0x3CD);
   (0x391, 0x3A1, 1, 0x3B1); (0x3A3, 0x3AB, 1, 0x3C3);
   (0x3CF, 0x3CF, 1, 0x3D7); (0x3D8, 0x3EE, 2, 0x3D9);
   (0x3F4, 0x3F4, 1, 0x3B8); (0x3F7, 0x3F7, 1, 0x3F8);
   (0x3F9, 0x3F9, 1, 0x3F2); (0x3FA, 0x3FA, 1, 0x3FB);
   (0x3FD, 0x3FF, 1, 0x37B); (0x400, 0x40F, 1, 0x450);
   (0x410, 0x42F, 1, 0x430); (0x460, 0x480, 2, 0x461);
   (0x48A, 0x4BE, 2, 0x48B); (0x4C0, 0x4C0, 1, 0x4CF);
   (0x4C1, 0x4CD, 2, 0x4C2); (0x4D0, 0x52E, 2, 0x4D1);
   (0x531, 0x556, 1, 0x561); (0x10A0, 0x10C5, 1, 0x2D00);
   (0x10C7, 0x10C7, 1, 0x2D27); (0x10CD, 0x10CD, 1, 0x2D2D);
   (0x13A0, 0x13EF, 1, 0xAB70); (0x13F0, 0x13F5, 1, 0x13F8);
   (0x1C90, 0x1CBA, 1, 0x10D0); (0x1CBD, 0x1CBF, 1, 0x10FD);
   (0x1E00, 0x1E94, 2, 0x1E01); (0x1E9E, 0x1E9E, 1, 0xDF);
   (0x1EA0, 0x1EFE, 2, 0x1EA1); (0x1F08, 0x1F0F, 1, 0x1F00);
   (0x1F18, 0x1F1D, 1, 0x1F10); (0x1F28, 0x1F2F, 1, 0x1F20);
   (0x1F38, 0x1F3F, 1, 0x1F30); (0x1F48, 0x1F4D, 1, 0x1F40);
   (0x1F59, 0x1F5F, 2, 0x1F51); (0x1F68, 0x1F6F, 1, 0x1F60);
   (0x1F88, 0x1F8F, 1, 0x1F80); (0x1F98, 0x1F9F, 1, 0x1F90);
   (0x1FA8, 0x1FAF, 1, 0x1FA0); (0x1FB8, 0x1FB9, 1, 0x1FB0);
   (0x1FBA, 0x1FBB, 1, 0x1F70); (0x1FBC, 0x1FBC, 1, 0x1FB3);
   (0x1FC8, 0x1FCB, 1, 0x1F72); (0x1FCC, 0x1FCC, 1, 0x1FC3);
   (0x1FD8, 0x1FD9, 1, 0x1FD0); (0x1FDA, 0x1FDB, 1, 0x1F76);
   (0x1FE8, 0x1FE9, 1, 0x1FE0); (0x1FEA, 0x1FEB, 1, 0x1F7A);
   (0x1FEC, 0x1FEC, 1, 0x1FE5); (0x1FF8, 0x1FF9, 1, 0x1F78);
   (0x1FFA, 0x1FFB, 1, 0x1F7C); (0x1FFC, 0x1FFC, 1, 0x1FF3);
   (0x2126, 0x2126, 1, 0x3C9); (0x212A, 0x212A, 1, 0x6B);
   (0x212B, 0x212B, 1, 0xE5); (0x2132, 0x2132, 1, 0x214E);
   (0x2160, 0x216F, 1, 0x2170); (0x2183, 0x2183, 1, 0x2184);
   (0x24B6, 0x24CF, 1, 0x24D0); (0x2C00, 0x2C2F, 1, 0x2C30);
   (0x2C60, 0x2C60, 1, 0x2C61); (0x2C62, 0x2C62, 1, 0x26B);
   (0x2C63, 0x2C63, 1, 0x1D7D); (0x2C64, 0x2C64, 1, 0x27D);
   (0x2C67, 0x2C6B, 2, 0x2C68); (0x2C6D, 0x2C6D, 1, 0x251);
   (0x2C6E, 0x2C6E, 1, 0x271); (0x2C6F, 0x2C6F, 1, 0x250);
   (0x2C70, 0x2C70, 1, 0x252); (0x2C72, 0x2C72, 1, 0x2C73);
   (0x2C75, 0x2C75, 1, 0x2C76); (0x2C7E, 0x2C7F, 1, 0x23F);
   (0x2C80, 0x2CE2, 2, 0x2C81); (0x2CEB, 0x2CED, 2, 0x2CEC);
   (0x2CF2, 0x2CF2, 1, 0x2CF3); (0xA640, 0xA66C, 2, 0xA641);
   (0xA680, 0xA69A, 2, 0xA681); (0xA722, 0xA72E, 2, 0xA723);
   (0xA732, 0xA76E, 2, 0xA733); (0xA779, 0xA77B, 2, 0xA77A);
   (0xA77D, 0xA77D, 1, 0x1D79); (0xA77E, 0xA786, 2, 0xA77F);
   (0xA78B, 0xA78B, 1, 0xA78C); (0xA78D, 0xA78D, 1, 0x265);
   (0xA790, 0xA792, 2, 0xA791); (0xA796, 0xA7A8, 2, 0xA797);
   (0xA7AA, 0xA7AA, 1, 0x266); (0xA7AB, 0xA7AB, 1, 0x25C);
   (0xA7AC, 0xA7AC, 1, 0x261); (0xA7AD, 0xA7AD, 1, 0x26C);
   (0xA7AE, 0xA7AE, 1, 0x26A); (0xA7B0, 0xA7B0, 1, 0x29E);
   (0xA7B1, 0xA7B1, 1, 0x287); (0xA7B2, 0xA7B2, 1, 0x29D);
   (0xA7B3, 0xA7B3, 1, 0xAB53); (0xA7B4, 0xA7C2, 2, 0xA7B5);
   (0xA7C4, 0xA7C4, 1, 0xA794); (0xA7C5, 0xA7C5, 1, 0x282);
   (0xA7C6, 0xA7C6, 1, 0x1D8E); (0xA7C7, 0xA7C9, 2, 0xA7C8);
   (0xA7D0, 0xA7D0, 1, 0xA7D1); (0xA7D6, 0xA7D8, 2, 0xA7D7);
   (0xA7F5, 0xA7F5, 1, 0xA7F6); (0xFF21, 0xFF3A, 1, 0xFF41);
   (0x10400, 0x10427, 1, 0x10428); (0x104B0, 0x104D3, 1, 0x104D8);
   (0x10570, 0x1057A, 1, 0x10597); (0x1057C, 0x1058A, 1, 0x105A3);
   (0x1058C, 0x10592, 1, 0x105B3); (0x10594, 0x10595, 1, 0x105BB);
   (0x10C80, 0x10CB2, 1, 0x10CC0); (0x118A0, 0x118BF, 1, 0x118C0);
   (0x16E40, 0x16E5F, 1, 0x16E60); (0x1E900, 0x1E921, 1, 0x1E922)]%N.

(** The code points with the property Cased and without the property
    Case_Ignorable (DerivedCoreProperties.txt), in runs [(first,
    last)]. *)
Definition casedRanges : list (N * N) :=
  [(0x41, 0x5A); (0x61, 0x7A); (0xAA, 0xAA); (0xB5, 0xB5); (0xBA, 0xBA);
   (0xC0, 0xD6); (0xD8, 0xF6); (0xF8, 0x1BA); (0x1BC, 0x1BF); (0x1C4, 0x293);
   (0x295, 0x2AF); (0x370, 0x373); (0x376, 0x377); (0x37B, 0x37D);
   (0x37F, 0x37F); (0x386, 0x386); (0x388, 0x38A); (0x38C, 0x38C);
   (0x38E, 0x3A1); (0x3A3, 0x3F5); (0x3F7, 0x481); (0x48A, 0x52F);
   (0x531, 0x556); (0x560, 0x588); (0x10A0, 0x10C5); (0x10C7, 0x10C7);
   (0x10CD, 0x10CD); (0x10D0, 0x10FA); (0x10FD, 0x10FF); (0x13A0, 0x13F5);
   (0x13F8, 0x13FD); (0x1C80, 0x1C88); (0x1C90, 0x1CBA); (0x1CBD, 0x1CBF);
   (0x1D00, 0x1D2B); (0x1D6B, 0x1D77); (0x1D79, 0x1D9A); (0x1E00, 0x1F15);
   (0x1F18, 0x1F1D); (0x1F20, 0x1F45); (0x1F48, 0x1F4D); (0x1F50, 0x1F57);
   (0x1F59, 0x1F59); (0x1F5B, 0x1F5B); (0x1F5D, 0x1F5D); (0x1F5F, 0x1F7D);
   (0x1F80, 0x1FB4); (0x1FB6, 0x1FBC); (0x1FBE, 0x1FBE); (0x1FC2, 0x1FC4);
   (0x1FC6, 0x1FCC); (0x1FD0, 0x1FD3); (0x1FD6, 0x1FDB); (0x1FE0, 0x1FEC);
   (0x1FF2, 0x1FF4); (0x1FF6, 0x1FFC); (0x2102, 0x2102); (0x2107, 0x2107);
   (0x210A, 0x2113); (0x2115, 0x2115); (0x2119, 0x211D); (0x2124, 0x2124);
   (0x2126, 0x2126); (0x2128, 0x2128); (0x212A, 0x212D); (0x212F, 0x2134);
   (0x2139, 0x2139); (0x213C, 0x213F); (0x2145, 0x2149); (0x214E, 0x214E);
   (0x2160, 0x217F); (0x2183, 0x2184); (0x24B6, 0x24E9); (0x2C00, 0x2C7B);
   (0x2C7E, 0x2CE4); (0x2CEB, 0x2CEE); (0x2CF2, 0x2CF3); (0x2D00, 0x2D25);
   (0x2D27, 0x2D27); (0x2D2D, 0x2D2D); (0xA640, 0xA66D); (0xA680, 0xA69B);
   (0xA722, 0xA76F); (0xA771, 0xA787); (0xA78B, 0xA78E); (0xA790, 0xA7CA);
   (0xA7D0, 0xA7D1); (0xA7D3, 0xA7D3); (0xA7D5, 0xA7D9); (0xA7F5, 0xA7F6);
   (0xA7FA, 0xA7FA); (0xAB30, 0xAB5A); (0xAB60, 0xAB68); (0xAB70, 0xABBF);
   (0xFB00, 0xFB06); (0xFB13, 0xFB17); (0xFF21, 0xFF3A); (0xFF41, 0xFF5A);
   (0x10400, 0x1044F); (0x104B0, 0x104D3); (0x104D8, 0x104FB);
   (0x10570, 0x1057A); (0x1057C, 0x1058A); (0x1058C, 0x10592);
   (0x10594, 0x10595); (0x10597, 0x105A1); (0x105A3, 0x105B1);
   (0x105B3, 0x105B9); (0x105BB, 0x105BC); (0x10C80, 0x10CB2);
   (0x10CC0, 0x10CF2); (0x118A0, 0x118DF); (0x16E40, 0x16E7F);
   (0x1D400, 0x1D454); (0x1D456, 0x1D49C); (0x1D49E, 0x1D49F);
   (0x1D4A2, 0x1D4A2); (0x1D4A5, 0x1D4A6); (0x1D4A9, 0x1D4AC);
   (0x1D4AE, 0x1D4B9); (0x1D4BB, 0x1D4BB); (0x1D4BD, 0x1D4C3);
   (0x1D4C5, 0x1D505); (0x1D507, 0x1D50A); (0x1D50D, 0x1D514);
   (0x1D516, 0x1D51C); (0x1D51E, 0x1D539); (0x1D53B, 0x1D53E);
   (0x1D540, 0x1D544); (0x1D546, 0x1D546); (0x1D54A, 0x1D550);
   (0x1D552, 0x1D6A5); (0x1D6A8, 0x1D6C0); (0x1D6C2, 0x1D6DA);
   (0x1D6DC, 0x1D6FA); (0x1D6FC, 0x1D714); (0x1D716, 0x1D734);
   (0x1D736, 0x1D74E); (0x1D750, 0x1D76E); (0x1D770, 0x1D788);
   (0x1D78A, 0x1D7A8); (0x1D7AA, 0x1D7C2); (0x1D7C4, 0x1D7CB);
   (0x1DF00, 0x1DF09); (0x1DF0B, 0x1DF1E); (0x1E900, 0x1E943);
   (0x1F130, 0x1F149); (0x1F150, 0x1F169); (0x1F170, 0x1F189)]%N.

(** The code points with the property Case_Ignorable, in runs [(first,
    last)]. *)
Definition caseIgnorableRanges : list (N * N) :=
  [(0x27, 0x27); (0x2E, 0x2E); (0x3A, 0x3A); (0x5E, 0x5E); (0x60, 0x60);
   (0xA8, 0xA8); (0xAD, 0xAD); (0xAF, 0xAF); (0xB4, 0xB4); (0xB7, 0xB8);
   (0x2B0, 0x36F); (0x374, 0x375); (0x37A, 0x37A); (0x384, 0x385);
   (0x387, 0x387); (0x483, 0x489); (0x559, 0x559); (0x55F, 0x55F);
   (0x591, 0x5BD); (0x5BF, 0x5BF); (0x5C1, 0x5C2); (0x5C4, 0x5C5);
   (0x5C7, 0x5C7); (0x5F4, 0x5F4); (0x600, 0x605); (0x610, 0x61A);
   (0x61C, 0x61C); (0x640, 0x640); (0x64B, 0x65F); (0x670, 0x670);
   (0x6D6, 0x6DD); (0x6DF, 0x6E8); (0x6EA, 0x6ED); (0x70F, 0x70F);
   (0x711, 0x711); (0x730, 0x74A); (0x7A6, 0x7B0); (0x7EB, 0x7F5);
   (0x7FA, 0x7FA); (0x7FD, 0x7FD); (0x816, 0x82D); (0x859, 0x85B);
   (0x888, 0x888); (0x890, 0x891); (0x898, 0x89F); (0x8C9, 0x902);
   (0x93A, 0x93A); (0x93C, 0x93C); (0x941, 0x948); (0x94D, 0x94D);
   (0x951, 0x957); (0x962, 0x963); (0x971, 0x971); (0x981, 0x981);
   (0x9BC, 0x9BC); (0x9C1, 0x9C4); (0x9CD, 0x9CD); (0x9E2, 0x9E3);
   (0x9FE, 0x9FE); (0xA01, 0xA02); (0xA3C, 0xA3C); (0xA41, 0xA42);
   (0xA47, 0xA48); (0xA4B, 0xA4D); (0xA51, 0xA51); (0xA70, 0xA71);
   (0xA75, 0xA75); (0xA81, 0xA82); (0xABC, 0xABC); (0xAC1, 0xAC5);
   (0xAC7, 0xAC8); (0xACD, 0xACD); (0xAE2, 0xAE3); (0xAFA, 0xAFF);
   (0xB01, 0xB01); (0xB3C, 0xB3C); (0xB3F, 0xB3F); (0xB41, 0xB44);
   (0xB4D, 0xB4D); (0xB55, 0xB56); (0xB62, 0xB63); (0xB82, 0xB82);
   (0xBC0, 0xBC0); (0xBCD, 0xBCD); (0xC00, 0xC00); (0xC04, 0xC04);
   (0xC3C, 0xC3C); (0xC3E, 0xC40); (0xC46, 0xC48); (0xC4A, 0xC4D);
   (0xC55, 0xC56); (0xC62, 0xC63); (0xC81, 0xC81); (0xCBC, 0xCBC);
   (0xCBF, 0xCBF); (0xCC6, 0xCC6); (0xCCC, 0xCCD); (0xCE2, 0xCE3);
   (0xD00, 0xD01); (0xD3B, 0xD3C); (0xD41, 0xD44); (0xD4D, 0xD4D);
   (0xD62, 0xD63); (0xD81, 0xD81); (0xDCA, 0xDCA); (0xDD2, 0xDD4);
   (0xDD6, 0xDD6); (0xE31, 0xE31); (0xE34, 0xE3A); (0xE46, 0xE4E);
   (0xEB1, 0xEB1); (0xEB4, 0xEBC); (0xEC6, 0xEC6); (0xEC8, 0xECD);
   (0xF18, 0xF19); (0xF35, 0xF35); (0xF37, 0xF37); (0xF39, 0xF39);
   (0xF71, 0xF7E); (0xF80, 0xF84); (0xF86, 0xF87); (0xF8D, 0xF97);
   (0xF99, 0xFBC); (0xFC6, 0xFC6); (0x102D, 0x1030); (0x1032, 0x1037);
   (0x1039, 0x103A); (0x103D, 0x103E); (0x1058, 0x1059); (0x105E, 0x1060);
   (0x1071, 0x1074); (0x1082, 0x1082); (0x1085, 0x1086); (0x108D, 0x108D);
   (0x109D, 0x109D); (0x10FC, 0x10FC); (0x135D, 0x135F); (0x1712, 0x1714);
   (0x1732, 0x1733); (0x1752, 0x1753); (0x1772, 0x1773); (0x17B4, 0x17B5);
   (0x17B7, 0x17BD); (0x17C6, 0x17C6); (0x17C9, 0x17D3); (0x17D7, 0x17D7);
   (0x17DD, 0x17DD); (0x180B, 0x180F); (0x1843, 0x1843); (0x1885, 0x1886);
   (0x18A9, 0x18A9); (0x1920, 0x1922); (0x1927, 0x1928); (0x1932, 0x1932);
   (0x1939, 0x193B); (0x1A17, 0x1A18); (0x1A1B, 0x1A1B); (0x1A56, 0x1A56);
   (0x1A58, 0x1A5E); (0x1A60, 0x1A60); (0x1A62, 0x1A62); (0x1A65, 0x1A6C);
   (0x1A73, 0x1A7C); (0x1A7F, 0x1A7F); (0x1AA7, 0x1AA7); (0x1AB0, 0x1ACE);
   (0x1B00, 0x1B03); (0x1B34, 0x1B34); (0x1B36, 0x1B3A); (0x1B3C, 0x1B3C);
   (0x1B42, 0x1B42); (0x1B6B, 0x1B73); (0x1B80, 0x1B81); (0x1BA2, 0x1BA5);
   (0x1BA8, 0x1BA9); (0x1BAB, 0x1BAD); (0x1BE6, 0x1BE6); (0x1BE8, 0x1BE9);
   (0x1BED, 0x1BED); (0x1BEF, 0x1BF1); (0x1C2C, 0x1C33); (0x1C36, 0x1C37);
   (0x1C78, 0x1C7D); (0x1CD0, 0x1CD2); (0x1CD4, 0x1CE0); (0x1CE2, 0x1CE8);
   (0x1CED, 0x1CED); (0x1CF4, 0x1CF4); (0x1CF8, 0x1CF9); (0x1D2C, 0x1D6A);
   (0x1D78, 0x1D78); (0x1D9B, 0x1DFF); (0x1FBD, 0x1FBD); (0x1FBF, 0x1FC1);
   (0x1FCD, 0x1FCF); (0x1FDD, 0x1FDF); (0x1FED, 0x1FEF); (0x1FFD, 0x1FFE);
   (0x200B, 0x200F); (0x2018, 0x2019); (0x2024, 0x2024); (0x2027, 0x2027);
   (0x202A, 0x202E); (0x2060, 0x2064); (0x2066, 0x206F); (0x2071, 0x2071);
   (0x207F, 0x207F); (0x2090, 0x209C); (0x20D0, 0x20F0); (0x2C7C, 0x2C7D);
   (0x2CEF, 0x2CF1); (0x2D6F, 0x2D6F); (0x2D7F, 0x2D7F); (0x2DE0, 0x2DFF);
   (0x2E2F, 0x2E2F); (0x3005, 0x3005); (0x302A, 0x302D); (0x3031, 0x3035);
   (0x303B, 0x303B); (0x3099, 0x309E); (0x30FC, 0x30FE); (0xA015, 0xA015);
   (0xA4F8, 0xA4FD); (0xA60C, 0xA60C); (0xA66F, 0xA672); (0xA674, 0xA67D);
   (0xA67F, 0xA67F); (0xA69C, 0xA69F); (0xA6F0, 0xA6F1); (0xA700, 0xA721);
   (0xA770, 0xA770); (0xA788, 0xA78A); (0xA7F2, 0xA7F4); (0xA7F8, 0xA7F9);
   (0xA802, 0xA802); (0xA806, 0xA806); (0xA80B, 0xA80B); (0xA825, 0xA826);
   (0xA82C, 0xA82C); (0xA8C4, 0xA8C5); (0xA8E0, 0xA8F1); (0xA8FF, 0xA8FF);
   (0xA926, 0xA92D); (0xA947, 0xA951); (0xA980, 0xA982); (0xA9B3, 0xA9B3);
   (0xA9B6, 0xA9B9); (0xA9BC, 0xA9BD); (0xA9CF, 0xA9CF); (0xA9E5, 0xA9E6);
   (0xAA29, 0xAA2E); (0xAA31, 0xAA32); (0xAA35, 0xAA36); (0xAA43, 0xAA43);
   (0xAA4C, 0xAA4C); (0xAA70, 0xAA70); (0xAA7C, 0xAA7C); (0xAAB0, 0xAAB0);
   (0xAAB2, 0xAAB4); (0xAAB7, 0xAAB8); (0xAABE, 0xAABF); (0xAAC1, 0xAAC1);
   (0xAADD, 0xAADD); (0xAAEC, 0xAAED); (0xAAF3, 0xAAF4); (0xAAF6, 0xAAF6);
   (0xAB5B, 0xAB5F); (0xAB69, 0xAB6B); (0xABE5, 0xABE5); (0xABE8, 0xABE8);
   (0xABED, 0xABED); (0xFB1E, 0xFB1E); (0xFBB2, 0xFBC2); (0xFE00, 0xFE0F);
   (0xFE13, 0xFE13); (0xFE20, 0xFE2F); (0xFE52, 0xFE52); (0xFE55, 0xFE55);
   (0xFEFF, 0xFEFF); (0xFF07, 0xFF07); (0xFF0E, 0xFF0E); (0xFF1A, 0xFF1A);
   (0xFF3E, 0xFF3E); (0xFF40, 0xFF40); (0xFF70, 0xFF70); (0xFF9E, 0xFF9F);
   (0xFFE3, 0xFFE3); (0xFFF9, 0xFFFB); (0x101FD, 0x101FD); (0x102E0, 0x102E0);
   (0x10376, 0x1037A); (0x10780, 0x10785); (0x10787, 0x107B0);
   (0x107B2, 0x107BA); (0x10A01, 0x10A03); (0x10A05, 0x10A06);
   (0x10A0C, 0x10A0F); (0x10A38, 0x10A3A); (0x10A3F, 0x10A3F);
   (0x10AE5, 0x10AE6); (0x10D24, 0x10D27); (0x10EAB, 0x10EAC);
   (0x10F46, 0x10F50); (0x10F82, 0x10F85); (0x11001, 0x11001);
   (0x11038, 0x11046); (0x11070, 0x11070); (0x11073, 0x11074);
   (0x1107F, 0x11081); (0x110B3, 0x110B6); (0x110B9, 0x110BA);
   (0x110BD, 0x110BD); (0x110C2, 0x110C2); (0x110CD, 0x110CD);
   (0x11100, 0x11102); (0x11127, 0x1112B); (0x1112D, 0x11134);
   (0x11173, 0x11173); (0x11180, 0x11181); (0x111B6, 0x111BE);
   (0x111C9, 0x111CC); (0x111CF, 0x111CF); (0x1122F, 0x11231);
   (0x11234, 0x11234); (0x11236, 0x11237); (0x1123E, 0x1123E);
   (0x112DF, 0x112DF); (0x112E3, 0x112EA); (0x11300, 0x11301);
   (0x1133B, 0x1133C); (0x11340, 0x11340); (0x11366, 0x1136C);
   (0x11370, 0x11374); (0x11438, 0x1143F); (0x11442, 0x11444);
   (0x11446, 0x11446); (0x1145E, 0x1145E); (0x114B3, 0x114B8);
   (0x114BA, 0x114BA); (0x114BF, 0x114C0); (0x114C2, 0x114C3);
   (0x115B2, 0x115B5); (0x115BC, 0x115BD); (0x115BF, 0x115C0);
   (0x115DC, 0x115DD); (0x11633, 0x1163A); (0x1163D, 0x1163D);
   (0x1163F, 0x11640); (0x116AB, 0x116AB); (0x116AD, 0x116AD);
   (0x116B0, 0x116B5); (0x116B7, 0x116B7); (0x1171D, 0x1171F);
   (0x11722, 0x11725); (0x11727, 0x1172B); (0x1182F, 0x11837);
   (0x11839, 0x1183A); (0x1193B, 0x1193C); (0x1193E, 0x1193E);
   (0x11943, 0x11943); (0x119D4, 0x119D7); (0x119DA, 0x119DB);
   (0x119E0, 0x119E0); (0x11A01, 0x11A0A); (0x11A33, 0x11A38);
   (0x11A3B, 0x11A3E); (0x11A47, 0x11A47); (0x11A51, 0x11A56);
   (0x11A59, 0x11A5B); (0x11A8A, 0x11A96); (0x11A98, 0x11A99);
   (0x11C30, 0x11C36); (0x11C38, 0x11C3D); (0x11C3F, 0x11C3F);
   (0x11C92, 0x11CA7); (0x11CAA, 0x11CB0); (0x11CB2, 0x11CB3);
   (0x11CB5, 0x11CB6); (0x11D31, 0x11D36); (0x11D3A, 0x11D3A);
   (0x11D3C, 0x11D3D); (0x11D3F, 0x11D45); (0x11D47, 0x11D47);
   (0x11D90, 0x11D91); (0x11D95, 0x11D95); (0x11D97, 0x11D97);
   (0x11EF3, 0x11EF4); (0x13430, 0x13438); (0x16AF0, 0x16AF4);
   (0x16B30, 0x16B36); (0x16B40, 0x16B43); (0x16F4F, 0x16F4F);
   (0x16F8F, 0x16F9F); (0x16FE0, 0x16FE1); (0x16FE3, 0x16FE4);
   (0x1AFF0, 0x1AFF3); (0x1AFF5, 0x1AFFB); (0x1AFFD, 0x1AFFE);
   (0x1BC9D, 0x1BC9E); (0x1BCA0, 0x1BCA3); (0x1CF00, 0x1CF2D);
   (0x1CF30, 0x1CF46); (0x1D167, 0x1D169); (0x1D173, 0x1D182);
   (0x1D185, 0x1D18B); (0x1D1AA, 0x1D1AD); (0x1D242, 0x1D244);
   (0x1DA00, 0x1DA36); (0x1DA3B, 0x1DA6C); (0x1DA75, 0x1DA75);
   (0x1DA84, 0x1DA84); (0x1DA9B, 0x1DA9F); (0x1DAA1, 0x1DAAF);
   (0x1E000, 0x1E006); (0x1E008, 0x1E018); (0x1E01B, 0x1E021);
   (0x1E023, 0x1E024); (0x1E026, 0x1E02A); (0x1E130, 0x1E13D);
   (0x1E2AE, 0x1E2AE); (0x1E2EC, 0x1E2EF); (0x1E8D0, 0x1E8D6);
   (0x1E944, 0x1E94B); (0x1F3FB, 0x1F3FF); (0xE0001, 0xE0001);
   (0xE0020, 0xE007F); (0xE0100, 0xE01EF)]%N.

Fixpoint simpleLower (ranges : list (N * N * N * N)) (c : N) : N :=
  match ranges with
  | [] => c
  | (first, last, step, lower) :: rest =>
      if ((first <=? c) && (c <=? last) && ((c - first) mod step =? 0))%N
      then (c - first + lower)%N
      else simpleLower rest c
  end.

Definition inRanges (ranges : list (N * N)) (c : N) : bool :=
  existsb (fun range => ((fst range <=? c) && (c <=? snd range))%N) ranges.

Definition isCaseIgnorable (c : N) : bool := inRanges caseIgnorableRanges c.

Definition isCased (c : N) : bool := inRanges casedRanges c.

(** The code points ahead are case-ignorable ones followed by a cased
    letter. *)
Fixpoint casedAhead (codePoints : list N) : bool :=
  match codePoints with
  | [] => false
  | c :: rest => if isCaseIgnorable c then casedAhead rest else isCased c
  end.

(** The lower-case mapping of a text (the default case conversion of the
    Unicode standard, with the rules of SpecialCasing.txt that do not
    depend on the language): a capital sigma at the end of a word, that
    is, after a cased letter and not before one, case-ignorable code
    points apart, becomes the final sigma; U+0130 becomes [i] and a
    combining dot; every other code point has its simple mapping.
    [afterCased] tells that the code points before are a cased letter
    followed by case-ignorable ones. *)
Fixpoint lowerCodePoints (afterCased : bool) (codePoints : list N) : list N :=
  match codePoints with
  | [] => []
  | c :: rest =>
      ((if (c =? 0x3A3)%N
        then [if afterCased && negb (casedAhead rest) then 0x3C2%N else 0x3C3%N]
        else if (c =? 0x130)%N then [0x69%N; 0x307%N]
        else [simpleLower lowerCaseRanges c])
       ++ lowerCodePoints (if isCaseIgnorable c then afterCased else isCased c) rest)%list
  end.

Definition unicodeLower (s : string) : string :=
  ofCodePoints (lowerCodePoints false (codePointsOf s)).

Definition isEmpty (s : string) : bool :=
  match s with EmptyString => true | String _ _ => false end.

(** JavaScript truthiness of a string, as in [filter(Boolean)]. *)
Definition truthy (s : string) : bool := negb (isEmpty s).

Fixpoint trimStart (s : string) : string :=
  match s with
  | EmptyString => EmptyString
  | String c s' => if isWhiteSpace c then trimStart s' else s
  end.

Fixpoint trimEnd (s : string) : string :=
  match s with
  | EmptyString => EmptyString
  | String c s' =>
      let r := trimEnd s' in
      if isWhiteSpace c && isEmpty r then EmptyString else String c r
  end.

Definition trim (s : string) : string := trimEnd (trimStart s).

Fixpoint startsWith (s search : string) {struct search} : bool :=
  match search, s with
  | EmptyString, _ => true
  | String _ _, EmptyString => false
  | String c search', String d s' => N.eqb c d && startsWith s' search'
  end.

Fixpoint includes (s search : string) : bool :=
  startsWith s search ||
  match s with
  | EmptyString => false
  | String _ s' => includes s' search
  end.

(** [s.split(sep)] for a separator of one character, generalised to a
    class of separator characters: the pieces between separators, empty
    pieces included. *)
Fixpoint splitWhere (sep : codeUnit -> bool) (s : string) : list string :=
  match s with
  | EmptyString => [EmptyString]
  | String c s' =>
      if sep c then EmptyString :: splitWhere sep s'
      else match splitWhere sep s' with
           | [] => [String c EmptyString]
           | w :: ws => String c w :: ws
           end
  end.

Definition split_space (s : string) : list string :=
  splitWhere (N.eqb (cu " ")) s.

(** [Array.prototype.join]. *)
Fixpoint join (sep : string) (parts : list string) : string :=
  match parts with
  | [] => EmptyString
  | [p] => p
  | p :: ps => p +:+ sep +:+ join sep ps
  end.

(** ** Title matcher *)

Section Resolution.
Context `{runtime : Runtime}.

(** [value.replace(/[^a-z0-9]+/g, " ")]: every maximal run of characters
    outside [[a-z0-9]] becomes one space. [inRun] tells that the previous
    character belonged to the run being replaced. *)
Fixpoint replaceNonAlnumRuns (inRun : bool) (s : string) : string :=
  match s with
  | EmptyString => EmptyString
  | String c s' =>
      if isLowerAlnum c then String c (replaceNonAlnumRuns false s')
      else if inRun then replaceNonAlnumRuns true s'
      else String (cu " ") (replaceNonAlnumRuns true s')
  end.

Definition normalizeComparableText (value : string) : string :=
  trim (replaceNonAlnumRuns false (toLowerCase value)).

(** [labelNorm.split(" ").filter(Boolean)]. *)
Definition tokensOf (norm : string) : list string :=
  List.filter truthy (split_space norm).

(** The body of the [for] loop over the label tokens: a label token
    counts when some title token starts with it or it starts with some
    title token. *)
Definition tokenFound (titleTokens : list string) (labelToken : string) : bool :=
  existsb (fun titleToken =>
             startsWith titleToken labelToken || startsWith labelToken titleToken)
          titleTokens.

Fixpoint countMatched (titleTokens labelTokens : list string) (matched : nat) : nat :=
  match labelTokens with
  | [] => matched
  | labelToken :: rest =>
      countMatched titleTokens rest
        (if tokenFound titleTokens labelToken then S matched else matched)
  end.

(** [matched / labelTokens.length]. The source divides two doubles and
    compares the quotient with the literals 0.9, 0.75 and 0.6. A quotient
    of two counts below 2^53 is rounded to the double nearest to the
    rational, rounding is monotone and rounds the rational 9/10 (3/4,
    3/5) to the literal itself, and a rational m/n different from 9/10
    is at least 1/(10n) away from it, which exceeds the spacing of doubles
    for every n a string can hold. The comparisons are therefore those of
    the rationals. *)
Definition ratioOf (matched len : nat) : Q :=
  (inject_Z (Z.of_nat matched) / inject_Z (Z.of_nat len))%Q.

Definition scoreTitleMatch (labelNorm titleNorm : string) : Z :=
  if isEmpty labelNorm || isEmpty titleNorm then 0
  else if strEq titleNorm labelNorm then 120
  else if startsWith titleNorm labelNorm then 110
  else if startsWith labelNorm titleNorm then 95
  else if includes titleNorm labelNorm then 85
  else
    let labelTokens := tokensOf labelNorm in
    let titleTokens := tokensOf titleNorm in
    if (length labelTokens =? 0)%nat || (length titleTokens =? 0)%nat then 0
    else
      let matched := countMatched titleTokens labelTokens 0 in
      let ratio := ratioOf matched (length labelTokens) in
      if Qle_bool (9 # 10) ratio then 78
      else if Qle_bool (3 # 4) ratio then 72
      else if Qle_bool (3 # 5) ratio then 68
      else 0.

(** The matcher as its callers use it: both arguments are normalised
    first ([resolveLabelTargetId], [findSubRecipeTargets]). *)
Definition score (label title : string) : Z :=
  scoreTitleMatch (normalizeComparableText label) (normalizeComparableText title).

(** ** Reference extractor *)

(** [(.+)$]: the rest of the text, not empty and free of line
    terminators. *)
Definition dotPlusToEnd (s : string) : option string :=
  if truthy s && allChars (fun c => negb (isLineTerminator c)) s
  then Some s else None.

(** [\s+(.+)$] with the backtracking order of the regular expression:
    the greedy [\s+] first takes one more white space character, and only
    when that fails is the capture tried at the current position. *)
Fixpoint spacesThenCapture (s : string) : option string :=
  match s with
  | EmptyString => None
  | String c s' =>
      if isWhiteSpace c then
        match spacesThenCapture s' with
        | Some capture => Some capture
        | None => dotPlusToEnd s'
        end
      else None
  end.

(** [PTN] under the [i] flag. *)
Definition ptnPrefix (s : string) : option string :=
  match s with
  | String p (String t (String n rest)) =>
      if N.eqb (lowerChar p) (cu "p") && N.eqb (lowerChar t) (cu "t")
         && N.eqb (lowerChar n) (cu "n")
      then Some rest else None
  | _ => None
  end.

Definition isWordCharOpt (c : option codeUnit) : bool :=
  match c with Some c => isWordChar c | None => false end.

Definition firstChar (s : string) : option codeUnit :=
  match s with EmptyString => None | String c _ => Some c end.

(** One attempt of [/\bPTN\b\s+(.+)$/i] at the current position, [prev]
    being the character before it. [\b] holds where exactly one side is
    a word character. *)
Definition matchPtnAt (prev : option codeUnit) (s : string) : option string :=
  if isWordCharOpt prev then None
  else match ptnPrefix s with
       | Some rest =>
           if isWordCharOpt (firstChar rest) then None
           else spacesThenCapture rest
       | None => None
       end.

(** [value.match(...)]: the leftmost position at which the expression
    matches; the result is capture group 1. *)
Fixpoint matchPtn (prev : option codeUnit) (s : string) : option string :=
  match matchPtnAt prev s with
  | Some capture => Some capture
  | None =>
      match s with
      | EmptyString => None
      | String c s' => matchPtn (Some c) s'
      end
  end.

(** [extractPtnReference(value)]; [None] as argument stands for a value
    that is not a string. *)
Definition extractPtnReference (value : option string) : option string :=
  match value with
  | None => None
  | Some v =>
      match matchPtn None v with
      | None => None
      | Some capture =>
          let token := trim capture in
          if truthy token then Some token else None
      end
  end.

Record Ingredient := mkIngredient {
  ing_item : option string;
  ing_text : option string
}.

(** [set.add(x)] on an insertion-ordered [Set]. *)
Definition setAdd (x : string) (set : list string) : list string :=
  if bool_decide (x ∈ set) then set else set ++ [x].

Definition setAddOpt (x : option string) (set : list string) : list string :=
  match x with Some v => setAdd v set | None => set end.

(** [[...new Set(values)]]. *)
Definition uniqueOf (values : list string) : list string :=
  fold_left (fun set v => setAdd v set) values [].

Definition collectPtnLabels (ingredients : option (list Ingredient)) : list string :=
  match ingredients with
  | None => []
  | Some lines =>
      fold_left
        (fun labels ingredient =>
           let fromItem := extractPtnReference (ing_item ingredient) in
           let fromText := extractPtnReference (ing_text ingredient) in
           setAddOpt fromText (setAddOpt fromItem labels))
        lines []
  end.

(** ** Content store *)

Record Visibility := mkVisibility {
  vis_public : option bool;
  vis_enterprise : option bool
}.

(** A published recipe document. [doc_title] and [doc_visibility] may be
    missing from a document, as the source allows ([row.title || ""],
    [row.visibility?.public]). *)
Record Doc := mkDoc {
  doc_id : string;
  doc_title : option string;
  doc_pluNumber : Z;
  doc_ingredients : option (list Ingredient);
  doc_visibility : option Visibility
}.

(** Projection of [ADMIN_RELATION_GRAPH_QUERY]. *)
Record RelationRecipeRow := mkRelationRow {
  row_id : string;
  row_title : option string;
  row_ingredients : option (list Ingredient)
}.

Definition relationRowOf (d : Doc) : RelationRecipeRow :=
  {| row_id := doc_id d; row_title := doc_title d;
     row_ingredients := doc_ingredients d |}.

Definition fetchRelationRows (store : list Doc) : list RelationRecipeRow :=
  map relationRowOf store.

(** ** Relation graph builder *)

Record TitleIndexRow := mkTitleIndexRow {
  tir_id : string;
  tir_norm : string
}.

(** [row.title || ""]. *)
Definition titleOrEmpty (t : option string) : string :=
  match t with Some s => s | None => EmptyString end.

Definition titleIndex (rows : list RelationRecipeRow) : list TitleIndexRow :=
  map (fun row => {| tir_id := row_id row;
                     tir_norm := normalizeComparableText (titleOrEmpty (row_title row)) |})
      rows.

(** The loop of [resolveLabelTargetId]: the first row with the highest
    score is kept. *)
Definition bestTitle (labelNorm : string) (titles : list TitleIndexRow)
  : option string * Z :=
  fold_left
    (fun best row =>
       let score := scoreTitleMatch labelNorm (tir_norm row) in
       if snd best <? score then (Some (tir_id row), score) else best)
    titles (None, 0).

Definition resolveLabelTargetId (label : string) (titles : list TitleIndexRow)
  : option string :=
  let labelNorm := normalizeComparableText label in
  if isEmpty labelNorm then None
  else
    let best := bestTitle labelNorm titles in
    if 72 <=? snd best then fst best else None.

(** [adjacency.get(a)?.add(b)]. *)
Definition addNeighbour (a b : string) (adjacency : gmap string (list string))
  : gmap string (list string) :=
  match adjacency !! a with
  | Some neighbours => <[a := setAdd b neighbours]> adjacency
  | None => adjacency
  end.

Definition emptyAdjacency (rows : list RelationRecipeRow) : gmap string (list string) :=
  fold_left (fun adjacency row => <[row_id row := []]> adjacency) rows ∅.

(** State of the edge loops: the adjacency map and [labelTargetCache]. *)
Definition GraphState : Type :=
  gmap string (list string) * gmap string (option string).

(** The body of the loop over the labels of one row. *)
Definition linkLabel (titles : list TitleIndexRow) (owner : string)
    (st : GraphState) (label : string) : GraphState :=
  let '(adjacency, cache) := st in
  let cache' :=
    match cache !! label with
    | Some _ => cache
    | None => <[label := resolveLabelTargetId label titles]> cache
    end in
  match cache' !! label with
  | Some (Some targetId) =>
      if isEmpty targetId || strEq targetId owner then (adjacency, cache')
      else (addNeighbour targetId owner (addNeighbour owner targetId adjacency), cache')
  | _ => (adjacency, cache')
  end.

Definition linkRow (titles : list TitleIndexRow) (st : GraphState)
    (row : RelationRecipeRow) : GraphState :=
  fold_left (linkLabel titles (row_id row)) (collectPtnLabels (row_ingredients row)) st.

Definition buildAdjacency (rows : list RelationRecipeRow) : gmap string (list string) :=
  fst (fold_left (linkRow (titleIndex rows)) rows (emptyAdjacency rows, ∅)).

(** ** Component expander *)

(** Traversal state: the [visited] set and the [queue]. *)
Definition Frontier : Type := list string * list string.

(** The loop over the seeds: a seed that is no key of the adjacency map,
    or that was seen already, is skipped. *)
Definition enqueueSeed (adjacency : gmap string (list string))
    (st : Frontier) (seed : string) : Frontier :=
  let '(visited, queue) := st in
  if negb (bool_decide (is_Some (adjacency !! seed))) || bool_decide (seed ∈ visited)
  then st
  else ((visited ++ [seed])%list, (queue ++ [seed])%list).

(** The loop over the neighbours of the current node. *)
Definition visitNeighbour (st : Frontier) (next : string) : Frontier :=
  let '(visited, queue) := st in
  if bool_decide (next ∈ visited) then st
  else ((visited ++ [next])%list, (queue ++ [next])%list).

(** The [while (queue.length > 0)] loop; every iteration shifts one
    element off the queue and [fuel] bounds the number of iterations.
    [if (!current) continue] skips the empty string, which is falsy. *)
Fixpoint drainQueue (fuel : nat) (adjacency : gmap string (list string))
    (visited queue : list string) : option (list string) :=
  match queue with
  | [] => Some visited
  | current :: rest =>
      match fuel with
      | O => None
      | S fuel' =>
          if isEmpty current then drainQueue fuel' adjacency visited rest
          else
            match adjacency !! current with
            | None => drainQueue fuel' adjacency visited rest
            | Some neighbours =>
                let st := fold_left visitNeighbour neighbours (visited, rest) in
                drainQueue fuel' adjacency (fst st) (snd st)
            end
      end
  end.

(** All neighbour entries of the adjacency map. *)
Definition allNeighbours (adjacency : gmap string (list string)) : list string :=
  concat (map snd (map_to_list adjacency)).

(** A node enters the queue at most once, as a seed or as a neighbour
    entry, which bounds the iterations of the loop. *)
Definition queueBudget (adjacency : gmap string (list string))
    (uniqueSeeds : list string) : nat :=
  length uniqueSeeds + length (allNeighbours adjacency).

(** Lines 222-242 of [resolveRelatedRecipeIds]: [[...visited]]. *)
Definition expandComponent (adjacency : gmap string (list string))
    (uniqueSeeds : list string) : option (list string) :=
  let st := fold_left (enqueueSeed adjacency) uniqueSeeds ([], []) in
  drainQueue (queueBudget adjacency uniqueSeeds) adjacency (fst st) (snd st).

(** [[...new Set(seedIds.map((id) => id.trim()).filter(Boolean))]]. *)
Definition uniqueTrimmed (values : list string) : list string :=
  uniqueOf (List.filter truthy (map trim values)).

Definition resolveRelatedRecipeIds (store : list Doc) (seedIds : list string)
  : option (list string) :=
  let uniqueSeeds := uniqueTrimmed seedIds in
  if (length uniqueSeeds =? 0)%nat then Some []
  else
    let rows := fetchRelationRows store in
    if (length rows =? 0)%nat then Some []
    else expandComponent (buildAdjacency rows) uniqueSeeds.

End Resolution.

(** ** Visibility propagator *)

Inductive AdminAudience := AudPublic | AudEnterprise.

(** The object written back: both flags are present. *)
Record NextVisibility := mkNext {
  next_public : bool;
  next_enterprise : bool
}.

(** [Boolean(row.visibility?.public)]. *)
Definition flagOf (get : Visibility -> option bool) (v : option Visibility) : bool :=
  match v with
  | Some vis => match get vis with Some b => b | None => false end
  | None => false
  end.

(** The object literal with the computed key [[audience]: value] last. *)
Definition nextVisibilityOf (current : option Visibility)
    (audience : AdminAudience) (value : bool) : NextVisibility :=
  match audience with
  | AudPublic =>
      {| next_public := value;
         next_enterprise := flagOf vis_enterprise current |}
  | AudEnterprise =>
      {| next_public := flagOf vis_public current;
         next_enterprise := value |}
  end.

(** What a [catch] clause can receive: an [Error] with its message, or
    any other value. *)
Inductive Thrown :=
| ErrorObject (message : string)
| OtherValue.

Inductive Completion (A : Type) :=
| Normal (a : A)
| Throw (e : Thrown).
Arguments Normal {A} a.
Arguments Throw {A} e.

(** A write client of [getSanityWriteClients()]: its [source] name and its
    answer to [patch(id).set(...).commit()], [None] when the store accepts
    the patch and the thrown value otherwise. *)
Record WriteClient := mkClient {
  source : string;
  commit : string -> NextVisibility -> option Thrown
}.

(** The store together with the record of commit calls made so far, as
    pairs of client source and recipe id. *)
Record World := mkWorld {
  store : list Doc;
  commitLog : list (string * string)
}.

Definition Js (A : Type) : Type := World -> Completion A * World.

Definition ret {A} (a : A) : Js A := fun w => (Normal a, w).

Definition throw {A} (e : Thrown) : Js A := fun w => (Throw e, w).

Definition bind {A B} (m : Js A) (k : A -> Js B) : Js B :=
  fun w =>
    match m w with
    | (Normal a, w') => k a w'
    | (Throw e, w') => (Throw e, w')
    end.

Notation "'let!' x ':=' m 'in' k" := (bind m (fun x => k))
  (at level 10, x name, m at level 100, k at level 200).
Notation "'await!' m 'in' k" := (bind m (fun _ => k))
  (at level 10, m at level 100, k at level 200).

Section Propagation.
Context `{runtime : Runtime}.

(** The effect of an accepted patch on the store: both flags of the
    document are set. *)
Definition patchDoc (recipeId : string) (next : NextVisibility) (d : Doc) : Doc :=
  if strEq (doc_id d) recipeId then
    {| doc_id := doc_id d; doc_title := doc_title d;
       doc_pluNumber := doc_pluNumber d;
       doc_ingredients := doc_ingredients d;
       doc_visibility :=
         Some {| vis_public := Some (next_public next);
                 vis_enterprise := Some (next_enterprise next) |} |}
  else d.

Definition applyPatch (recipeId : string) (next : NextVisibility)
    (docs : list Doc) : list Doc :=
  map (patchDoc recipeId next) docs.

Definition logCommit (src recipeId : string) (w : World) : World :=
  {| store := store w; commitLog := (commitLog w ++ [(src, recipeId)])%list |}.

(** The process environment read by the propagator. *)
Record Env := mkEnv {
  SANITY_API_WRITE_TOKEN : option string;
  SANITY_API_TOKEN : option string;
  SANITY_API_READ_TOKEN : option string;
  NEXT_PUBLIC_SANITY_PROJECT_ID : option string
}.

Definition envSet (v : option string) : bool :=
  match v with Some s => truthy s | None => false end.

Definition permissionError (attemptedSources : list string) : Thrown :=
  ErrorObject
    ("Sanity token lacks update permission for recipe documents. Tried: "
     +:+ join ", " attemptedSources
     +:+ ". Use a token with update grants (prefer SANITY_API_WRITE_TOKEN) and restart the dev server.").

Definition projectError (env : Env) : Thrown :=
  let projectId :=
    match NEXT_PUBLIC_SANITY_PROJECT_ID env with
    | Some p => p
    | None => "<missing-project-id>"
    end in
  ErrorObject
    ("Sanity write token does not belong to project " +:+ String 34 projectId
     +:+ String 34 ". Create a write token in that exact project and set SANITY_API_WRITE_TOKEN.").

Definition credentialError : Thrown :=
  ErrorObject "Failed to update recipe visibility due to missing or invalid Sanity token.".

Definition missingTokenError : Thrown :=
  ErrorObject "Missing Sanity API token for updates. Set SANITY_API_WRITE_TOKEN, SANITY_API_TOKEN, or SANITY_API_READ_TOKEN.".

(** [error instanceof Error ? error.message.toLowerCase() : ""]. *)
Definition messageOf (error : Thrown) : string :=
  match error with
  | ErrorObject m => toLowerCase m
  | OtherValue => EmptyString
  end.

Inductive FailureClass := HostMismatch | PermissionFailure | Fatal.

(** The two tests of the [catch] clause, in their order. *)
Definition classify (error : Thrown) : FailureClass :=
  let message := messageOf error in
  if includes message "session does not match project host" then HostMismatch
  else if includes message "insufficient permissions" then PermissionFailure
  else Fatal.

(** The [for] loop of [patchRecipeVisibility] with its three local
    variables, followed by the statements after the loop. *)
Fixpoint tryClients (env : Env) (clients : list WriteClient) (recipeId : string)
    (next : NextVisibility) (sawHostMismatch sawPermissionFailure : bool)
    (attemptedSources : list string) : Js unit :=
  match clients with
  | [] =>
      if sawPermissionFailure then throw (permissionError attemptedSources)
      else if sawHostMismatch then throw (projectError env)
      else throw credentialError
  | client :: rest =>
      fun w =>
        let attempted := (attemptedSources ++ [source client])%list in
        let w1 := logCommit (source client) recipeId w in
        match commit client recipeId next with
        | None =>
            (Normal tt,
             {| store := applyPatch recipeId next (store w1);
                commitLog := commitLog w1 |})
        | Some error =>
            match classify error with
            | HostMismatch =>
                tryClients env rest recipeId next true sawPermissionFailure attempted w1
            | PermissionFailure =>
                tryClients env rest recipeId next sawHostMismatch true attempted w1
            | Fatal => (Throw error, w1)
            end
        end
  end.

Definition patchRecipeVisibility (env : Env) (writeClients : list WriteClient)
    (recipeId : string) (next : NextVisibility) : Js unit :=
  tryClients env writeClients recipeId next false false [].

Definition assertWriteTokenConfigured (env : Env) : Js unit :=
  if negb (envSet (SANITY_API_WRITE_TOKEN env))
     && negb (envSet (SANITY_API_TOKEN env))
     && negb (envSet (SANITY_API_READ_TOKEN env))
  then throw missingTokenError
  else ret tt.

(** Projection of [ADMIN_VISIBILITY_ROWS_QUERY]. *)
Record VisibilityRow := mkVisRow {
  vrow_id : string;
  vrow_visibility : option Visibility
}.

Definition visibilityRowOf (d : Doc) : VisibilityRow :=
  {| vrow_id := doc_id d; vrow_visibility := doc_visibility d |}.

(** The rows selected by [_id in $ids]. *)
Definition currentRowsOf (docs : list Doc) (ids : list string) : list VisibilityRow :=
  map visibilityRowOf (List.filter (fun d => bool_decide (doc_id d ∈ ids)) docs).

Definition fetchVisibilityRows (ids : list string) : Js (list VisibilityRow) :=
  fun w => (Normal (currentRowsOf (store w) ids), w).

Record PropagationResult := mkResult {
  updatedIds : list string;
  relatedIds : list string
}.

(** The [for] loop over [currentRows]. *)
Fixpoint writeRows (env : Env) (writeClients : list WriteClient)
    (audience : AdminAudience) (value : bool)
    (rows : list VisibilityRow) (updated : list string) : Js (list string) :=
  match rows with
  | [] => ret updated
  | row :: rest =>
      let nextVisibility := nextVisibilityOf (vrow_visibility row) audience value in
      await! patchRecipeVisibility env writeClients (vrow_id row) nextVisibility in
      writeRows env writeClients audience value rest (updated ++ [vrow_id row])%list
  end.

(** [resolveRelatedRecipeIds] as a read of the store. The traversal always
    returns (lemma [resolveRelatedRecipeIds_returns] below); the second
    branch is unreachable. *)
Definition fetchRelatedRecipeIds (seedIds : list string) : Js (list string) :=
  fun w =>
    match resolveRelatedRecipeIds (store w) seedIds with
    | Some ids => (Normal ids, w)
    | None => (Normal [], w)
    end.

Definition setRecipesVisibility (env : Env) (writeClients : list WriteClient)
    (seedIds : list string) (audience : AdminAudience) (value : bool)
  : Js PropagationResult :=
  await! assertWriteTokenConfigured env in
  let uniqueSeedIds := uniqueTrimmed seedIds in
  if (length uniqueSeedIds =? 0)%nat then
    ret {| updatedIds := []; relatedIds := [] |}
  else
    let! related := fetchRelatedRecipeIds uniqueSeedIds in
    if (length related =? 0)%nat then
      ret {| updatedIds := []; relatedIds := [] |}
    else
      let! currentRows := fetchVisibilityRows related in
      if (length currentRows =? 0)%nat then
        ret {| updatedIds := []; relatedIds := related |}
      else
        let! updated := writeRows env writeClients audience value currentRows [] in
        ret {| updatedIds := updated; relatedIds := related |}.

End Propagation.

(** ** Sub-recipe navigation *)

Section Navigation.
Context `{runtime : Runtime}.

Inductive RecipeAudienceFilter := FilterPublic | FilterEnterprise | FilterAll.

(** The GROQ predicate [coalesce(visibility.public, false) == true] and
    its two siblings. *)
Definition visibilityPredicate (audience : RecipeAudienceFilter) (d : Doc) : bool :=
  match audience with
  | FilterPublic => flagOf vis_public (doc_visibility d)
  | FilterEnterprise => flagOf vis_enterprise (doc_visibility d)
  | FilterAll =>
      flagOf vis_public (doc_visibility d) || flagOf vis_enterprise (doc_visibility d)
  end.

Record NavigationOptions := mkNavOptions {
  audience : RecipeAudienceFilter;
  includeAll : bool
}.

Record SubRecipeTarget := mkTarget {
  target_id : string;
  target_title : option string;
  target_pluNumber : Z;
  directMatch : bool
}.

(** A [RecipeTitleRow] extended with [norm]. *)
Record NormalizedRow := mkNormRow {
  nrow_id : string;
  nrow_title : option string;
  nrow_pluNumber : Z;
  nrow_norm : string
}.

Definition fetchTitleRows (options : NavigationOptions) (docs : list Doc)
  : list NormalizedRow :=
  map (fun d => {| nrow_id := doc_id d; nrow_title := doc_title d;
                   nrow_pluNumber := doc_pluNumber d;
                   nrow_norm := normalizeComparableText (titleOrEmpty (doc_title d)) |})
      (if includeAll options then docs
       else List.filter (visibilityPredicate (audience options)) docs).

(** The inner loop of [findSubRecipeTargets]. *)
Definition bestTarget (labelNorm : string) (rows : list NormalizedRow)
  : option SubRecipeTarget * Z :=
  fold_left
    (fun best row =>
       let score := scoreTitleMatch labelNorm (nrow_norm row) in
       if snd best <? score then
         (Some {| target_id := nrow_id row; target_title := nrow_title row;
                  target_pluNumber := nrow_pluNumber row;
                  directMatch := 72 <=? score |}, score)
       else best)
    rows (None, 0).

(** The result is an ordinary object, [const result: Record<string,
    SubRecipeTarget | null> = {}]: it has its own properties, each
    holding a target or [null], and a prototype. The prototype is
    [Object.prototype] at first; it can become [null] or a target, see
    [assign]. *)
Inductive Prototype :=
| ObjectPrototype
| NullPrototype
| TargetPrototype (t : SubRecipeTarget).

Record TargetMap := mkTargetMap {
  own : gmap string (option SubRecipeTarget);
  proto : Prototype
}.

(** [o !! key]: the own property [key] of the object, [None] when the
    object has no such own property, [Some None] when it holds
    [null]. *)
#[global] Instance TargetMap_lookup : Lookup string (option SubRecipeTarget) TargetMap :=
  fun key result => own result !! key.

(** The object literal [{}]. *)
Definition emptyObject : TargetMap := {| own := ∅; proto := ObjectPrototype |}.

(** The accessor [__proto__] is a property of [Object.prototype]; an
    object inherits it unless its prototype is [null] (a target is an
    object literal and has [Object.prototype] as its prototype). *)
Definition inheritsProtoAccessor (p : Prototype) : bool :=
  match p with
  | NullPrototype => false
  | ObjectPrototype | TargetPrototype _ => true
  end.

(** [result[key] = value]. An own property is overwritten. Otherwise the
    property is looked up along the prototypes: for the key [__proto__]
    it is the accessor of [Object.prototype], whose setter makes the
    value, a target or [null], the prototype of the object and creates
    no property; for every other key it is missing or a writable data
    property (a member of [Object.prototype], a field of a target), and
    the assignment creates the own property. *)
Definition assign (key : string) (value : option SubRecipeTarget) (result : TargetMap)
  : TargetMap :=
  match own result !! key with
  | Some _ => {| own := <[key := value]> (own result); proto := proto result |}
  | None =>
      if strEq key "__proto__" && inheritsProtoAccessor (proto result)
      then {| own := own result;
              proto := match value with
                       | Some t => TargetPrototype t
                       | None => NullPrototype
                       end |}
      else {| own := <[key := value]> (own result); proto := proto result |}
  end.

(** The body of the loop over [uniqueLabels]. *)
Definition resolveTarget (rows : list NormalizedRow)
    (result : TargetMap) (label : string) : TargetMap :=
  let labelNorm := normalizeComparableText label in
  if isEmpty labelNorm then assign label None result
  else
    let best := bestTarget labelNorm rows in
    assign label (if 60 <=? snd best then fst best else None) result.

Definition findSubRecipeTargets (labels : list string) (options : NavigationOptions)
    (docs : list Doc) : TargetMap :=
  let uniqueLabels := uniqueTrimmed labels in
  if (length uniqueLabels =? 0)%nat then emptyObject
  else fold_left (resolveTarget (fetchTitleRows options docs)) uniqueLabels emptyObject.

End Navigation.

(** ** Specification vocabulary *)

Section Vocabulary.
Context `{runtime : Runtime}.

(** [s] starts with [search]. *)
Definition starts_with (s search : string) : Prop :=
  exists rest, s = search +:+ rest.

(** [s] contains [search] as a contiguous substring. *)
Definition contains (s search : string) : Prop :=
  exists before after, s = before +:+ search +:+ after.

(** An alphanumeric character: a small letter of [a] to [z] or a digit.
    Capital letters are gone after lower-casing. *)
Definition alphanumeric (c : codeUnit) : Prop :=
  (97 <= c <= 122)%N \/ (48 <= c <= 57)%N.

(** A word is one or more alphanumeric characters; a gap is any number
    of characters none of which is alphanumeric. *)
Definition is_word (w : string) : Prop :=
  w <> "" /\ forall c, c ∈ codeUnits w -> alphanumeric c.

Definition is_gap (g : string) : Prop :=
  forall c, c ∈ codeUnits g -> ~ alphanumeric c.

(** [words_of t ws]: the words [ws] are the runs of alphanumeric
    characters of the text [t], in their order. The text is a gap, then
    a word, then the rest of the text, which is empty or starts with a
    character that is not alphanumeric, so that the word is a whole
    run. *)
Inductive words_of : string -> list string -> Prop :=
| words_none gap :
    is_gap gap -> words_of gap []
| words_cons gap w rest ws :
    is_gap gap -> is_word w ->
    (forall c r, rest = String c r -> ~ alphanumeric c) ->
    words_of rest ws ->
    words_of (gap +:+ w +:+ rest) (w :: ws).

(** The words with one space between two of them and nothing at either
    end: the normalised text. *)
Fixpoint spaced (ws : list string) : string :=
  match ws with
  | [] => ""
  | w :: rest =>
      match rest with
      | [] => w
      | _ :: _ => w +:+ " " +:+ spaced rest
      end
  end.

(** The maximal runs of characters of [[a-z0-9]] in a text, computed. *)
Definition alnumWords (s : string) : list string :=
  List.filter truthy (splitWhere (fun c => negb (isLowerAlnum c)) s).

(** The normal form of a text, computed: its lower-cased alphanumeric
    words, one space between two of them and nothing at either end. *)
Definition normalForm (s : string) : string :=
  join " " (alnumWords (toLowerCase s)).

(** A label token matches when it is a prefix of some title token or
    some title token is a prefix of it. *)
Definition token_matches (titleTokens : list string) (labelToken : string) : Prop :=
  exists titleToken,
    titleToken ∈ titleTokens /\
    (starts_with titleToken labelToken \/ starts_with labelToken titleToken).

Inductive matched_count (titleTokens : list string) : list string -> nat -> Prop :=
| mc_nil : matched_count titleTokens [] 0
| mc_hit labelToken rest n :
    token_matches titleTokens labelToken ->
    matched_count titleTokens rest n ->
    matched_count titleTokens (labelToken :: rest) (S n)
| mc_miss labelToken rest n :
    ~ token_matches titleTokens labelToken ->
    matched_count titleTokens rest n ->
    matched_count titleTokens (labelToken :: rest) n.

(** The token-overlap tier of a ratio. *)
Inductive overlap_tier (ratio : Q) : Z -> Prop :=
| ot_90 : (9 # 10 <= ratio)%Q -> overlap_tier ratio 78
| ot_75 : (ratio < 9 # 10)%Q -> (3 # 4 <= ratio)%Q -> overlap_tier ratio 72
| ot_60 : (ratio < 3 # 4)%Q -> (3 # 5 <= ratio)%Q -> overlap_tier ratio 68
| ot_low : (ratio < 3 # 5)%Q -> overlap_tier ratio 0.

(** The tiers of the title matcher on two normalised strings and their
    tokens, the first matching tier deciding. *)
Inductive score_tier (labelNorm titleNorm : string)
    (labelTokens titleTokens : list string) : Z -> Prop :=
| st_empty :
    labelNorm = "" \/ titleNorm = "" ->
    score_tier labelNorm titleNorm labelTokens titleTokens 0
| st_equal :
    labelNorm <> "" -> titleNorm <> "" ->
    titleNorm = labelNorm ->
    score_tier labelNorm titleNorm labelTokens titleTokens 120
| st_title_starts :
    labelNorm <> "" -> titleNorm <> "" ->
    titleNorm <> labelNorm ->
    starts_with titleNorm labelNorm ->
    score_tier labelNorm titleNorm labelTokens titleTokens 110
| st_label_starts :
    labelNorm <> "" -> titleNorm <> "" ->
    titleNorm <> labelNorm ->
    ~ starts_with titleNorm labelNorm ->
    starts_with labelNorm titleNorm ->
    score_tier labelNorm titleNorm labelTokens titleTokens 95
| st_contains :
    labelNorm <> "" -> titleNorm <> "" ->
    titleNorm <> labelNorm ->
    ~ starts_with titleNorm labelNorm ->
    ~ starts_with labelNorm titleNorm ->
    contains titleNorm labelNorm ->
    score_tier labelNorm titleNorm labelTokens titleTokens 85
| st_overlap matched tier :
    labelNorm <> "" -> titleNorm <> "" ->
    titleNorm <> labelNorm ->
    ~ starts_with titleNorm labelNorm ->
    ~ starts_with labelNorm titleNorm ->
    ~ contains titleNorm labelNorm ->
    labelTokens <> [] ->
    matched_count titleTokens labelTokens matched ->
    overlap_tier (Z.of_nat matched # Pos.of_nat (length labelTokens)) tier ->
    score_tier labelNorm titleNorm labelTokens titleTokens tier.

(** The two classes of failure the write chain recovers from, told by
    the message of the error in lower case: a host mismatch, and a
    permission denial that is no host mismatch. A thrown value that is
    no error belongs to neither. *)
Definition host_mismatch (error : Thrown) : Prop :=
  exists message,
    error = ErrorObject message /\
    contains (toLowerCase message) "session does not match project host".

Definition permission_denial (error : Thrown) : Prop :=
  exists message,
    error = ErrorObject message /\
    ~ contains (toLowerCase message) "session does not match project host" /\
    contains (toLowerCase message) "insufficient permissions".

(** A client fails on a request with a failure of the given kind. *)
Definition fails_with (kind : Thrown -> Prop) (client : WriteClient)
    (recipeId : string) (next : NextVisibility) : Prop :=
  exists error, commit client recipeId next = Some error /\ kind error.

(** A client fails on a request recoverably. *)
Definition recoverable (client : WriteClient) (recipeId : string)
    (next : NextVisibility) : Prop :=
  fails_with (fun error => host_mismatch error \/ permission_denial error)
    client recipeId next.

(** Some client of the list fails on the request with a failure of the
    given kind. *)
Definition saw (kind : Thrown -> Prop) (clients : list WriteClient)
    (recipeId : string) (next : NextVisibility) : Prop :=
  exists client, client ∈ clients /\ fails_with kind client recipeId next.

(** The three errors of an exhausted chain: one that tells that update
    permission is lacking and names every source that was tried; one
    that tells that the token does not belong to the project and names
    the configured project, or its placeholder when none is configured;
    and one that tells that the token is missing or invalid. *)
Definition permission_error (sources : list string) (error : Thrown) : Prop :=
  exists message,
    error = ErrorObject message /\
    contains message "lacks update permission" /\
    forall name, name ∈ sources -> contains message name.

Definition project_error (env : Env) (error : Thrown) : Prop :=
  exists message,
    error = ErrorObject message /\
    contains message "does not belong to project" /\
    match NEXT_PUBLIC_SANITY_PROJECT_ID env with
    | Some projectId => contains message projectId
    | None => contains message "<missing-project-id>"
    end.

Definition credential_error (error : Thrown) : Prop :=
  exists message,
    error = ErrorObject message /\
    contains message "missing or invalid Sanity token".

(** The current flag of a document for an audience: the flag of its
    visibility object, and false when the object or the flag is
    missing. *)
Definition current_flag (audience : AdminAudience) (d : Doc) : bool :=
  match doc_visibility d, audience with
  | Some {| vis_public := Some flag |}, AudPublic => flag
  | Some {| vis_enterprise := Some flag |}, AudEnterprise => flag
  | _, _ => false
  end.

(** The document after the write of a request: the flag of the
    requested audience is the requested value, the flag of the other
    audience is the current one, both flags are present, and the rest of
    the document is as it was. *)
Definition written (audience : AdminAudience) (value : bool) (d : Doc) : Doc :=
  {| doc_id := doc_id d;
     doc_title := doc_title d;
     doc_pluNumber := doc_pluNumber d;
     doc_ingredients := doc_ingredients d;
     doc_visibility :=
       Some match audience with
            | AudPublic =>
                {| vis_public := Some value;
                   vis_enterprise := Some (current_flag AudEnterprise d) |}
            | AudEnterprise =>
                {| vis_public := Some (current_flag AudPublic d);
                   vis_enterprise := Some value |}
            end |}.

(** The best-match score of a label over a corpus of titles. *)
Definition bestMatchScore (label : string) (titles : list string) : Z :=
  fold_right Z.max 0 (map (score label) titles).

(** An edge of the adjacency structure and reachability along edges. *)
Definition edge (adjacency : gmap string (list string)) (a b : string) : Prop :=
  exists neighbours, adjacency !! a = Some neighbours /\ b ∈ neighbours.

Definition reachable (adjacency : gmap string (list string)) : string -> string -> Prop :=
  rtc (edge adjacency).

(** ** Proof vocabulary *)

(** The invariant of the edge loops: the keys are the ids of the corpus,
    every cached target is a key, and the edges are symmetric and
    irreflexive. *)
Definition graphInvariant (rows : list RelationRecipeRow) (st : GraphState) : Prop :=
  (forall k, is_Some (fst st !! k) <-> k ∈ map row_id rows) /\
  (forall label t, snd st !! label = Some (Some t) -> t ∈ map row_id rows) /\
  (forall a b, edge (fst st) a b -> edge (fst st) b a) /\
  (forall a, ~ edge (fst st) a a).

(** The neighbour entries that were not visited yet; with the length of
    the queue it measures the work left for the traversal. *)
Definition unvisited (universe visited : list string) : nat :=
  length (filter (fun x => x ∉ visited) universe).

(** The invariant of the traversal for a seed list: the queue is part of
    the visited set, every visited node is reachable from a seed that is
    a key, a visited node is still queued or has all its neighbours
    visited, and every seed that is a key is visited. *)
Definition traversalInvariant (adjacency : gmap string (list string))
    (seeds visited queue : list string) : Prop :=
  (forall x, x ∈ queue -> x ∈ visited) /\
  (forall x, x ∈ visited ->
             exists s, s ∈ seeds /\ is_Some (adjacency !! s) /\ reachable adjacency s x) /\
  (forall x, x ∈ visited -> x ∈ queue \/ forall y, edge adjacency x y -> y ∈ visited) /\
  (forall s, s ∈ seeds -> is_Some (adjacency !! s) -> s ∈ visited).

#[global] Instance FailureClass_eq_dec : EqDecision FailureClass.
Proof. solve_decision. Defined.

(** The failure of a client on a request is one the chain recovers
    from, as the [catch] clause classifies it. *)
Definition classifiedRecoverable (client : WriteClient) (recipeId : string)
    (next : NextVisibility) : Prop :=
  exists error, commit client recipeId next = Some error /\ classify error <> Fatal.

(** Some client of the list fails on the request with the given class. *)
Definition sawClass (class : FailureClass) (clients : list WriteClient)
    (recipeId : string) (next : NextVisibility) : bool :=
  existsb (fun client =>
             match commit client recipeId next with
             | Some error => bool_decide (classify error = class)
             | None => false
             end) clients.

(** The commit calls made when every client of the list is tried. *)
Definition attemptsOf (clients : list WriteClient) (recipeId : string)
  : list (string * string) :=
  map (fun client => (source client, recipeId)) clients.

(** The store after the write for one row was committed, and after the
    writes for a list of rows were. *)
Definition commitRow (audience : AdminAudience) (value : bool)
    (docs : list Doc) (row : VisibilityRow) : list Doc :=
  applyPatch (vrow_id row) (nextVisibilityOf (vrow_visibility row) audience value) docs.

Definition commitRows (audience : AdminAudience) (value : bool)
    (rows : list VisibilityRow) (docs : list Doc) : list Doc :=
  fold_left (commitRow audience value) rows docs.

(** The write chain accepts the request of a row, whatever the state of
    the store. *)
Definition accepted (env : Env) (clients : list WriteClient)
    (recipeId : string) (next : NextVisibility) : Prop :=
  forall w, exists w',
    patchRecipeVisibility env clients recipeId next w = (Normal tt, w') /\
    store w' = applyPatch recipeId next (store w) /\
    forall entry, entry ∈ commitLog w' -> entry ∈ commitLog w \/ snd entry = recipeId.

(** The request of the last row with a given id, if any. *)
Fixpoint lastRequest (audience : AdminAudience) (value : bool)
    (rows : list VisibilityRow) (recipeId : string) : option NextVisibility :=
  match rows with
  | [] => None
  | row :: rest =>
      match lastRequest audience value rest recipeId with
      | Some next => Some next
      | None =>
          if strEq (vrow_id row) recipeId
          then Some (nextVisibilityOf (vrow_visibility row) audience value)
          else None
      end
  end.

(** The recipe ids a propagation request resolves to. *)
Definition relatedOf (docs : list Doc) (seedIds : list string) : list string :=
  if (length (uniqueTrimmed seedIds) =? 0)%nat then []
  else match resolveRelatedRecipeIds docs (uniqueTrimmed seedIds) with
       | Some ids => ids
       | None => []
       end.

Definition tokenConfigured (env : Env) : bool :=
  envSet (SANITY_API_WRITE_TOKEN env)
  || envSet (SANITY_API_TOKEN env)
  || envSet (SANITY_API_READ_TOKEN env).

(** A document whose visibility object was replaced by a next state. *)
Definition withVisibility (d : Doc) (next : NextVisibility) : Doc :=
  patchDoc (doc_id d) next d.

(** The titles of the corpus a navigation request is resolved against. *)
Definition corpusTitles (options : NavigationOptions) (docs : list Doc) : list string :=
  map (fun row => titleOrEmpty (nrow_title row)) (fetchTitleRows options docs).

(** The entry the resolver stores for one label. *)
Definition entryOf (rows : list NormalizedRow) (label : string) : option SubRecipeTarget :=
  let labelNorm := normalizeComparableText label in
  if isEmpty labelNorm then None
  else
    let best := bestTarget labelNorm rows in
    if 60 <=? snd best then fst best else None.

(** The prototype an assignment to the key [__proto__] gives the
    result. *)
Definition prototypeOf (entry : option SubRecipeTarget) : Prototype :=
  match entry with
  | Some t => TargetPrototype t
  | None => NullPrototype
  end.

End Vocabulary.

(** ** Sample data *)

(** The chain A - B - C - D. *)
Definition chainGraph : gmap string (list string) :=
  <["A" := ["B"]]> (<["B" := ["A"; "C"]]> (<["C" := ["B"; "D"]]> (<["D" := ["C"]]> ∅))).

(** Two components, A - B and C - D. *)
Definition twoComponents : gmap string (list string) :=
  <["A" := ["B"]]> (<["B" := ["A"]]> (<["C" := ["D"]]> (<["D" := ["C"]]> ∅))).

(** One recipe without edges. *)
Definition loneRecipe : gmap string (list string) := <["a" := []]> ∅.

(** A small corpus: a main recipe that names four sub-recipes, the four
    sub-recipes, and an unrelated recipe. *)
Definition sampleDocs : list Doc :=
  [ mkDoc "m" (Some "Feast") 1
      (Some [ mkIngredient (Some "1 PTN Alpha Dip") None;
              mkIngredient None (Some "2 PTN Beta Dip");
              mkIngredient (Some "3 PTN Gamma Dip") (Some "3 PTN Gamma Dip");
              mkIngredient (Some "4 PTN Delta Dip") None ])
      None;
    mkDoc "a" (Some "Alpha Dip") 2 None
      (Some (mkVisibility (Some true) None));
    mkDoc "z" (Some "Bread") 3 (Some [mkIngredient (Some "flour") (Some "500 g flour")])
      (Some (mkVisibility (Some true) (Some false)));
    mkDoc "b" (Some "Beta Dip") 4 None None;
    mkDoc "c" (Some "Gamma Dip") 5 None (Some (mkVisibility None (Some true)));
    mkDoc "d" (Some "Delta Dip") 6 None None ].

Definition sampleWorld : World := {| store := sampleDocs; commitLog := [] |}.

Definition sampleEnv : Env :=
  {| SANITY_API_WRITE_TOKEN := Some "token-1";
     SANITY_API_TOKEN := Some "token-2";
     SANITY_API_READ_TOKEN := None;
     NEXT_PUBLIC_SANITY_PROJECT_ID := Some "kitchen" |}.

(** A client that accepts every patch. *)
Definition acceptingClient (name : string) : WriteClient :=
  {| source := name; commit := fun _ _ => None |}.

(** A client whose token belongs to another project. *)
Definition foreignClient (name : string) : WriteClient :=
  {| source := name;
     commit := fun _ _ => Some (ErrorObject "Session does not match project host") |}.

(** A client whose token may not update the given recipe. *)
Definition deniedClient (name recipeId : string) : WriteClient :=
  {| source := name;
     commit := fun id _ =>
                 if strEq id recipeId
                 then Some (ErrorObject "Insufficient permissions; permission update required")
                 else None |}.

(** A client that cannot reach the store. *)
Definition unreachableClient (name : string) : WriteClient :=
  {| source := name; commit := fun _ _ => Some (ErrorObject "fetch failed") |}.

Definition acceptingChain : list WriteClient :=
  [acceptingClient "SANITY_API_WRITE_TOKEN"].

Definition deniedChain : list WriteClient :=
  [deniedClient "SANITY_API_WRITE_TOKEN" "b"; deniedClient "SANITY_API_TOKEN" "b"].

Definition mixedChain : list WriteClient :=
  [foreignClient "SANITY_API_WRITE_TOKEN"; deniedClient "SANITY_API_TOKEN" "a";
   acceptingClient "SANITY_API_READ_TOKEN"].

(** The propagation of [enterprise := true] from the main recipe. *)
Definition sampleResult : PropagationResult :=
  {| updatedIds := ["m"; "a"; "b"; "c"; "d"];
     relatedIds := ["m"; "a"; "b"; "c"; "d"] |}.

(** The store and the log of commits after it: the unrelated recipe [z]
    is as before, the five members have their public flag as a boolean
    and are visible to the enterprise audience. *)
Definition sampleAfter : World :=
  {| store :=
       [ mkDoc "m" (Some "Feast") 1
           (Some [ mkIngredient (Some "1 PTN Alpha Dip") None;
                   mkIngredient None (Some "2 PTN Beta Dip");
                   mkIngredient (Some "3 PTN Gamma Dip") (Some "3 PTN Gamma Dip");
                   mkIngredient (Some "4 PTN Delta Dip") None ])
           (Some (mkVisibility (Some false) (Some true)));
         mkDoc "a" (Some "Alpha Dip") 2 None
           (Some (mkVisibility (Some true) (Some true)));
         mkDoc "z" (Some "Bread") 3
           (Some [mkIngredient (Some "flour") (Some "500 g flour")])
           (Some (mkVisibility (Some true) (Some false)));
         mkDoc "b" (Some "Beta Dip") 4 None
           (Some (mkVisibility (Some false) (Some true)));
         mkDoc "c" (Some "Gamma Dip") 5 None
           (Some (mkVisibility (Some false) (Some true)));
         mkDoc "d" (Some "Delta Dip") 6 None
           (Some (mkVisibility (Some false) (Some true))) ];
     commitLog :=
       [ ("SANITY_API_WRITE_TOKEN", "m"); ("SANITY_API_WRITE_TOKEN", "a");
         ("SANITY_API_WRITE_TOKEN", "b"); ("SANITY_API_WRITE_TOKEN", "c");
         ("SANITY_API_WRITE_TOKEN", "d") ] |}.

(** The same propagation when no token may update recipe [b], the third
    of the five members. *)
Definition rowsBefore : list VisibilityRow :=
  [mkVisRow "m" None; mkVisRow "a" (Some (mkVisibility (Some true) None))].

Definition rowFailing : VisibilityRow := mkVisRow "b" None.

Definition rowsAfter : list VisibilityRow :=
  [mkVisRow "c" (Some (mkVisibility None (Some true))); mkVisRow "d" None].

Definition storeCommitted : list Doc :=
  [ mkDoc "m" (Some "Feast") 1
      (Some [ mkIngredient (Some "1 PTN Alpha Dip") None;
              mkIngredient None (Some "2 PTN Beta Dip");
              mkIngredient (Some "3 PTN Gamma Dip") (Some "3 PTN Gamma Dip");
              mkIngredient (Some "4 PTN Delta Dip") None ])
      (Some (mkVisibility (Some false) (Some true)));
    mkDoc "a" (Some "Alpha Dip") 2 None
      (Some (mkVisibility (Some true) (Some true)));
    mkDoc "z" (Some "Bread") 3 (Some [mkIngredient (Some "flour") (Some "500 g flour")])
      (Some (mkVisibility (Some true) (Some false)));
    mkDoc "b" (Some "Beta Dip") 4 None None;
    mkDoc "c" (Some "Gamma Dip") 5 None (Some (mkVisibility None (Some true)));
    mkDoc "d" (Some "Delta Dip") 6 None None ].

(** After the two rows before [b]. *)
Definition sampleCommitted : World :=
  {| store := storeCommitted;
     commitLog :=
       [ ("SANITY_API_WRITE_TOKEN", "m"); ("SANITY_API_WRITE_TOKEN", "a") ] |}.

(** After the failure at [b]: both clients were asked, the store is as
    it was after the two rows. *)
Definition sampleFailed : World :=
  {| store := storeCommitted;
     commitLog :=
       [ ("SANITY_API_WRITE_TOKEN", "m"); ("SANITY_API_WRITE_TOKEN", "a");
         ("SANITY_API_WRITE_TOKEN", "b"); ("SANITY_API_TOKEN", "b") ] |}.

Definition sampleOptions : NavigationOptions :=
  {| audience := FilterPublic; includeAll := true |}.

(** The documents of a listing: 115 when a category is selected, 300
    without a category. *)
Definition sampleMatchesOf (category : option string) : list nat :=
  match category with
  | Some _ => seq 0 115
  | None => seq 0 300
  end.

(** ** Further vocabulary *)

Section Pages.
Context `{runtime : Runtime}.

(** The score of a title row for a normalised label. *)
Definition rowScore (labelNorm : string) (row : TitleIndexRow) : Z :=
  scoreTitleMatch labelNorm (tir_norm row).

(** A label among the ingredient lines of [owner] resolves to the other
    recipe [target]. *)
Definition links (rows : list RelationRecipeRow) (owner target : string) : Prop :=
  exists row label,
    row ∈ rows /\ row_id row = owner /\
    label ∈ collectPtnLabels (row_ingredients row) /\
    resolveLabelTargetId label (titleIndex rows) = Some target /\
    target <> "" /\ target <> owner.

(** The pairs of owner and label in the order in which the two edge
    loops visit them. *)
Definition labelPairs (rows : list RelationRecipeRow) : list (string * string) :=
  flat_map (fun row => map (fun label => (row_id row, label))
                         (collectPtnLabels (row_ingredients row))) rows.

Definition linkPair (titles : list TitleIndexRow) (st : GraphState)
    (p : string * string) : GraphState :=
  linkLabel titles (fst p) st (snd p).

(** A pair among [pairs] whose label resolves to another recipe. *)
Definition linkedBy (titles : list TitleIndexRow) (pairs : list (string * string))
    (owner target : string) : Prop :=
  exists label,
    (owner, label) ∈ pairs /\
    resolveLabelTargetId label titles = Some target /\
    target <> "" /\ target <> owner.

(** The invariant of the edge loops after the pairs [done]: the keys are
    the ids of the corpus, the cache holds what [resolveLabelTargetId]
    returns, and the edges are those the pairs account for. *)
Definition edgeInvariant (rows : list RelationRecipeRow)
    (done : list (string * string)) (st : GraphState) : Prop :=
  (forall k, is_Some (fst st !! k) <-> k ∈ map row_id rows) /\
  (forall label v, snd st !! label = Some v ->
                   v = resolveLabelTargetId label (titleIndex rows)) /\
  (forall a b, edge (fst st) a b <->
               linkedBy (titleIndex rows) done a b \/ linkedBy (titleIndex rows) done b a).

(** ** Recipe page *)

(** [src/web/app/recipes/[id]/page.tsx], lines 215-224: the label of a
    line is [fromItem ?? fromText]; blanks are filtered out and the
    labels are collected in a [Set]. *)
Definition lineLabel (ingredient : Ingredient) : option string :=
  match extractPtnReference (ing_item ingredient) with
  | Some fromItem => Some fromItem
  | None => extractPtnReference (ing_text ingredient)
  end.

Definition definedStrings (values : list (option string)) : list string :=
  flat_map (fun value => match value with
                         | Some s => if truthy s then [s] else []
                         | None => []
                         end) values.

Definition subRecipeLabels (ingredientRows : list Ingredient) : list string :=
  uniqueOf (definedStrings (map lineLabel ingredientRows)).

(** Lines 226-232: the lookup is skipped when no line has a label. *)
Definition subRecipeTargets (ingredientRows : list Ingredient)
    (options : NavigationOptions) (docs : list Doc) : TargetMap :=
  let labels := subRecipeLabels ingredientRows in
  if (0 <? length labels)%nat then findSubRecipeTargets labels options docs
  else emptyObject.

(** [subRecipeTargets[ptnLabel]], as far as the page uses the value: the
    target that is read, [None] when the value read is [null],
    [undefined] or another value without the fields of a target. An own
    property gives its value. Without an own property the value is
    inherited: for the key [__proto__] the getter of [Object.prototype]
    gives the prototype of the object, which is a target if one was
    assigned to that key; every other inherited value (a member of
    [Object.prototype], a field of a target) is no target. *)
Definition readTarget (targets : TargetMap) (key : string) : option SubRecipeTarget :=
  match own targets !! key with
  | Some entry => entry
  | None =>
      if strEq key "__proto__" then
        match proto targets with
        | TargetPrototype t => Some t
        | ObjectPrototype | NullPrototype => None
        end
      else None
  end.

(** Lines 509-513: the label shown for a line, read from the item or
    from [String(ingredient.text ?? "")], and the target read for it. *)
Definition ptnLabel (ingredient : Ingredient) : option string :=
  let text := match ing_text ingredient with Some t => t | None => EmptyString end in
  match extractPtnReference (ing_item ingredient) with
  | Some label => Some label
  | None => extractPtnReference (Some text)
  end.

Definition lineTarget (targets : TargetMap)
    (ingredient : Ingredient) : option SubRecipeTarget :=
  match ptnLabel ingredient with
  | Some label => readTarget targets label
  | None => None
  end.

(** Line 517: [target?.directMatch] decides whether the line links to a
    recipe. *)
Definition hasDirectLink (target : option SubRecipeTarget) : bool :=
  match target with Some t => directMatch t | None => false end.

(** ** Navigation vocabulary *)

(** The documents a navigation request is resolved against. *)
Definition scopeOf (options : NavigationOptions) (docs : list Doc) : list Doc :=
  if includeAll options then docs
  else List.filter (visibilityPredicate (audience options)) docs.

Definition normalizedRowOf (d : Doc) : NormalizedRow :=
  {| nrow_id := doc_id d; nrow_title := doc_title d;
     nrow_pluNumber := doc_pluNumber d;
     nrow_norm := normalizeComparableText (titleOrEmpty (doc_title d)) |}.

(** The target built from a document for a label. *)
Definition targetOf (label : string) (d : Doc) : SubRecipeTarget :=
  {| target_id := doc_id d; target_title := doc_title d;
     target_pluNumber := doc_pluNumber d;
     directMatch := 72 <=? score label (titleOrEmpty (doc_title d)) |}.

Definition docScore (label : string) (d : Doc) : Z :=
  score label (titleOrEmpty (doc_title d)).

End Pages.

(** ** Listing pages *)

(** A JavaScript number: [NaN], an infinity, or a finite value. The
    finite values that occur below are counts and page numbers, on which
    double arithmetic is exact; they are modelled as rationals. *)
Inductive JsNumber :=
| JsNaN
| JsInfinity (negative : bool)
| JsFinite (q : Q).

(** [normalizePage]: [Number.isFinite(undefined)] is false. *)
Definition normalizePage (value : option JsNumber) : Z :=
  let page := match value with
              | Some (JsFinite q) => Qfloor q
              | _ => 1
              end in
  if 0 <? page then page else 1.

Definition normalizePageSize (value : option JsNumber) : Z :=
  match value with
  | Some (JsFinite q) =>
      if Qeq_bool q (inject_Z 50) then 50
      else if Qeq_bool q (inject_Z 100) then 100
      else 10
  | _ => 10
  end.

(** [Math.ceil(total / pageSize)] for a count and a page size. *)
Definition ceilDiv (total pageSize : Z) : Z := - ((- total) / pageSize).

(** The GROQ slice [[$start...$end]], which excludes [$end]. *)
Definition slice {A} (start finish : Z) (l : list A) : list A :=
  take (Z.to_nat (finish - start)) (drop (Z.to_nat start) l).

Record ListingResult (A : Type) := mkListing {
  res_items : list A;
  res_total : Z;
  res_page : Z;
  res_pageSize : Z;
  res_totalPages : Z
}.
Arguments mkListing {A}.
Arguments res_items {A}.
Arguments res_total {A}.
Arguments res_page {A}.
Arguments res_pageSize {A}.
Arguments res_totalPages {A}.

(** Lines 326-349 of [listAdminRecipes], which are lines 274-318 of
    [listAccessibleRecipes]: [matches] is the ordered list of documents
    the filter of the two queries selects; the count query returns its
    length and the items query the slice of it. *)
Definition listRecipes {A} (matches : list A) (page pageSize : option JsNumber)
  : ListingResult A :=
  let page := normalizePage page in
  let pageSize := normalizePageSize pageSize in
  let total := Z.max 0 (Z.of_nat (length matches)) in
  let totalPages := Z.max 1 (ceilDiv total pageSize) in
  let resolvedPage := Z.min page totalPages in
  let start := (resolvedPage - 1) * pageSize in
  let finish := start + pageSize in
  {| res_items := slice start finish matches;
     res_total := total;
     res_page := resolvedPage;
     res_pageSize := pageSize;
     res_totalPages := totalPages |}.

(** The page number [p] as the caller passes it. *)
Definition pageNumber (p : Z) : option JsNumber := Some (JsFinite (inject_Z p)).

(** ** Compact pagination *)

Inductive PaginationToken :=
| PageToken (page : Z)
| Ellipsis.

(** The numbers of the source are doubles. Every integer up to 2^53 in
    absolute value is a double, and a sum or difference of two such
    integers is computed exactly when the result is one of them. A
    larger integer result is rounded to the nearest double, which keeps
    53 leading bits, a tie going to the even significand. *)
Definition roundDouble (z : Z) : Z :=
  let a := Z.abs z in
  if a <=? 2 ^ 53 then z
  else
    let unit := 2 ^ (Z.log2 a - 52) in
    let significand := a / unit in
    let rest := a mod unit in
    let up := (unit <? 2 * rest) || ((unit =? 2 * rest) && Z.odd significand) in
    Z.sgn z * ((if up then significand + 1 else significand) * unit).

(** A member of the [Set] of pages: [None] stands for [NaN]. *)
Definition addPage (page : option Z) (pages : list (option Z)) : list (option Z) :=
  if bool_decide (page ∈ pages) then pages else (pages ++ [page])%list.

(** [page >= 1 && page <= total]; false for [NaN]. *)
Definition inRange (total : Z) (page : option Z) : bool :=
  match page with
  | Some p => (1 <=? p) && (p <=? total)
  | None => false
  end.

Fixpoint insertAscending (x : Z) (sorted : list Z) : list Z :=
  match sorted with
  | [] => [x]
  | y :: rest => if x <=? y then x :: sorted else y :: insertAscending x rest
  end.

(** [sort((a, b) => a - b)]. *)
Definition sortAscending (l : list Z) : list Z :=
  fold_right insertAscending [] l.

(** The loop over [sorted], with [prev] the element before [value]. *)
Fixpoint tokensFrom (prev : option Z) (sorted : list Z) : list PaginationToken :=
  match sorted with
  | [] => []
  | value :: rest =>
      let gap := match prev with
                 | Some p => 1 <? roundDouble (value - p)
                 | None => false
                 end in
      ((if gap then [Ellipsis] else []) ++ PageToken value :: tokensFrom (Some value) rest)%list
  end.

(** Lines 13-27 of [buildCompactPagination], for [total] the floor of the
    number of pages and [current] the clamped current page ([None] when
    it is [NaN]): the pages to show, in ascending order. *)
Definition compactPages (total : Z) (current : option Z) : list Z :=
  let shifted k := option_map (fun c => roundDouble (c + k)) current in
  let pages := fold_left (fun pages page => addPage page pages)
                 [Some 1; Some total; shifted (-1); current; shifted 1] [] in
  let pages :=
    if match current with Some c => c <=? 3 | None => false end
    then addPage (Some 4) (addPage (Some 3) (addPage (Some 2) pages))
    else pages in
  let pages :=
    if match current with Some c => roundDouble (total - 2) <=? c | None => false end
    then addPage (Some (roundDouble (total - 3)))
           (addPage (Some (roundDouble (total - 2)))
              (addPage (Some (roundDouble (total - 1))) pages))
    else pages in
  sortAscending (omap id (List.filter (inRange total) pages)).

(** Lines 28-39. *)
Definition compactTokens (total : Z) (current : option Z) : list PaginationToken :=
  tokensFrom None (compactPages total current).

(** [Math.min(Math.max(1, Math.floor(currentPage)), total)]: [NaN] goes
    through, [Math.max(1, -Infinity)] is 1 and [Math.min(Infinity, total)]
    is [total]. *)
Definition clampCurrent (total : Z) (currentPage : JsNumber) : option Z :=
  match currentPage with
  | JsNaN => None
  | JsInfinity negative => Some (if negative then Z.min 1 total else total)
  | JsFinite c => Some (Z.min (Z.max 1 (Qfloor c)) total)
  end.

Definition buildCompactPagination (totalPages currentPage : JsNumber)
  : list PaginationToken :=
  match totalPages with
  | JsFinite q =>
      if Qle_bool q 1 then [PageToken 1]
      else
        let total := Z.max 1 (Qfloor q) in
        compactTokens total (clampCurrent total currentPage)
  | _ => [PageToken 1]
  end.

(** The page numbers among the tokens. *)
Definition pagesOf (tokens : list PaginationToken) : list Z :=
  omap (fun token => match token with PageToken p => Some p | Ellipsis => None end) tokens.

(** A list of numbers in strictly ascending order. *)
Fixpoint ascending (l : list Z) : Prop :=
  match l with
  | [] => True
  | x :: rest => (forall y, y ∈ rest -> x < y) /\ ascending rest
  end.

(** The pages the source puts into the [Set], before the range filter:
    the first and the last page, the current page and its two
    neighbours, three more pages at an end the current page is near. *)
Definition candidatePage (total : Z) (current : option Z) (page : Z) : Prop :=
  page = 1 \/ page = total \/
  match current with
  | Some c =>
      c - 1 <= page <= c + 1 \/
      (c <= 3 /\ 2 <= page <= 4) \/
      (total - 2 <= c /\ total - 3 <= page <= total - 1)
  | None => False
  end.

(** The pages of [compactPages] computed on the integers, without
    rounding. The two agree when the number of pages is below 2^53. *)
Definition exactPages (total : Z) (current : option Z) : list Z :=
  let shifted k := option_map (fun c => c + k) current in
  let pages := fold_left (fun pages page => addPage page pages)
                 [Some 1; Some total; shifted (-1); shifted 0; shifted 1] [] in
  let pages :=
    if match current with Some c => c <=? 3 | None => false end
    then addPage (Some 4) (addPage (Some 3) (addPage (Some 2) pages))
    else pages in
  let pages :=
    if match current with Some c => total - 2 <=? c | None => false end
    then addPage (Some (total - 3)) (addPage (Some (total - 2)) (addPage (Some (total - 1)) pages))
    else pages in
  sortAscending (omap id (List.filter (inRange total) pages)).

(** The last page [buildCompactPagination] shows for a number of
    pages. *)
Definition lastPage (totalPages : JsNumber) : Z :=
  match totalPages with
  | JsFinite q => if Qle_bool q 1 then 1 else Qfloor q
  | _ => 1
  end.

(** ** Category options *)

(** The loop of [listAdminCategories] (lines 309-314) and of
    [listAccessibleCategories] (lines 387-392 of [recipes.ts]) over the
    fetched rows, each with its optional [category]. The entries of the
    map are then sorted by name. *)
Definition countCategory (counts : gmap string Z) (row : option string)
  : gmap string Z :=
  match row with
  | None => counts
  | Some value =>
      let category := trim value in
      if isEmpty category then counts
      else <[category := match counts !! category with
                         | Some count => count
                         | None => 0
                         end + 1]> counts
  end.

Definition categoryCounts (rows : list (option string)) : gmap string Z :=
  fold_left countCategory rows ∅.

(** The number of rows whose trimmed category is [name]. *)
Definition occurrences (name : string) (rows : list (option string)) : Z :=
  Z.of_nat (length (List.filter
                      (fun row => match row with
                                  | Some value => strEq (trim value) name
                                  | None => false
                                  end) rows)).

(** ** Listing page *)

(** [normalizeCategory]: the trimmed category, [None] for [null]. *)
Definition normalizeCategory (value : option string) : option string :=
  match value with
  | Some v => if truthy (trim v) then Some (trim v) else None
  | None => None
  end.

(** [listAccessibleRecipes] as a function of the category of the
    request: [matchesOf] gives the ordered list of documents the filter
    of the two queries selects for a parameter [$category], the
    audience, the search text and the favourites being fixed. *)
Definition listAccessibleRecipes {A} (matchesOf : option string -> list A)
    (category : string) (page pageSize : option JsNumber) : ListingResult A :=
  listRecipes (matchesOf (normalizeCategory (Some category))) page pageSize.

(** [src/web/app/recipes/page.tsx], lines 163-166: the category the
    links of the page carry. The options [categories] have one entry for
    every key of the counts of [listAccessibleCategories], so
    [categories.some((category) => category.name === selectedCategory)]
    tells whether the selected category is a key of the counts. *)
Definition activeCategoryOf (selectedCategory : string) (counts : gmap string Z)
  : string :=
  if truthy selectedCategory && bool_decide (is_Some (counts !! selectedCategory))
  then selectedCategory else "".

(** ** Admin route *)

Section AdminRoute.
Context `{runtime : Runtime}.

(** A parsed JSON value. *)
Inductive Json :=
| JsonNull
| JsonBool (b : bool)
| JsonNumber (q : Q)
| JsonString (s : string)
| JsonArray (items : list Json)
| JsonObject (fields : list (string * Json)).

(** What [req.json()] yields, as far as [PATCH] reads it: a rejection,
    [null], or a value with its properties [id], [ids], [audience] and
    [value] ([None] for [undefined], as on a body that is no object). *)
Inductive RequestBody :=
| InvalidJson
| NullBody
| Fields (id ids audience value : option Json).

Inductive Response :=
| ErrorResponse (status : Z) (error : string)
| OkResponse (updatedCount relatedCount : Z).

(** [body.ids.filter((value) => typeof value === "string")]. *)
Definition stringsOf (items : list Json) : list string :=
  flat_map (fun value => match value with JsonString s => [s] | _ => [] end) items.

(** Lines 55-59 of [route.ts]. *)
Definition targetIdsOf (id ids : option Json) : list string :=
  let id := match id with Some (JsonString s) => trim s | _ => EmptyString end in
  let ids := match ids with
             | Some (JsonArray items) => map trim (stringsOf items)
             | _ => []
             end in
  uniqueOf (List.filter truthy (id :: ids)).

(** [ADMIN_AUDIENCES.includes(audience)]. *)
Definition audienceOf (audience : option Json) : option AdminAudience :=
  match audience with
  | Some (JsonString s) =>
      if strEq s "public" then Some AudPublic
      else if strEq s "enterprise" then Some AudEnterprise
      else None
  | _ => None
  end.

Definition audienceError : string :=
  "audience must be "
  +:+ String 34
       ("public"
        +:+ String 34
             (" or "
              +:+ String 34
                   ("enterprise" +:+ String 34 EmptyString))).

(** The [catch] clause of [PATCH]. *)
Definition failureResponse (error : Thrown) : Response :=
  let message := match error with
                 | ErrorObject m => m
                 | OtherValue => "Failed to update recipe visibility"
                 end in
  ErrorResponse (if includes (toLowerCase message) "permission" then 403 else 500) message.

(** Reading a property of [null] throws a [TypeError]. *)
Definition nullBodyError : Thrown :=
  ErrorObject "Cannot read properties of null (reading 'id')".

(** [PATCH], lines 44-93 of [route.ts]. [check] is the answer of
    [requireApiKey]: [None] when the key is accepted, the reason
    otherwise. *)
Definition PATCH (check : option string) (body : RequestBody)
    (env : Env) (writeClients : list WriteClient) : Js Response :=
  match check with
  | Some reason => ret (ErrorResponse 401 reason)
  | None =>
      match body with
      | InvalidJson => ret (ErrorResponse 400 "Invalid JSON body")
      | NullBody => throw nullBodyError
      | Fields id ids audience value =>
          let targetIds := targetIdsOf id ids in
          if (length targetIds =? 0)%nat then
            ret (ErrorResponse 400 "id or ids is required")
          else if existsb (fun targetId => startsWith targetId "drafts.") targetIds then
            ret (ErrorResponse 400 "draft ids are not supported")
          else
            match audienceOf audience with
            | None => ret (ErrorResponse 400 audienceError)
            | Some validatedAudience =>
                match value with
                | Some (JsonBool flag) =>
                    fun w =>
                      match setRecipesVisibility env writeClients targetIds
                              validatedAudience flag w with
                      | (Normal updated, w') =>
                          if (length (updatedIds updated) =? 0)%nat
                          then (Normal (ErrorResponse 404 "Not found"), w')
                          else (Normal (OkResponse
                                          (Z.of_nat (length (updatedIds updated)))
                                          (Z.of_nat (length (relatedIds updated)))), w')
                      | (Throw error, w') => (Normal (failureResponse error), w')
                      end
                | _ => ret (ErrorResponse 400 "value must be a boolean")
                end
            end
      end
  end.

(** The status of a response. *)
Definition statusOf (response : Response) : Z :=
  match response with
  | ErrorResponse status _ => status
  | OkResponse _ _ => 200
  end.

(** A request body that passes the checks of [PATCH]. *)
Definition validRequest (body : RequestBody) (targetIds : list string)
    (audience : AdminAudience) (flag : bool) : Prop :=
  exists id ids audienceField,
    body = Fields id ids audienceField (Some (JsonBool flag)) /\
    targetIds = targetIdsOf id ids /\
    targetIds <> [] /\
    (forall targetId, targetId ∈ targetIds -> startsWith targetId "drafts." = false) /\
    audienceOf audienceField = Some audience.

End AdminRoute.

(** ** Owner page and actions *)

(** [src/web/app/owner/page.tsx], lines 135-136: the range shown above
    the table. *)
Definition rangeFrom {A} (data : ListingResult A) : Z :=
  if res_total data =? 0 then 0 else (res_page data - 1) * res_pageSize data + 1.

Definition rangeTo {A} (data : ListingResult A) : Z :=
  if res_total data =? 0 then 0
  else Z.min (res_page data * res_pageSize data) (res_total data).

(** Line 131: the hidden [ids] field of the page forms. *)
Definition currentPageIds (ids : list string) : string := join "," ids.

Definition isComma (c : codeUnit) : bool := N.eqb c (cu ",").

Definition quoted (s : string) : string :=
  String 34 (s +:+ String 34 EmptyString).

(** [src/web/app/owner/actions.ts], lines 8-20. *)
Definition parseAudience (raw : string) : Completion AdminAudience :=
  if strEq raw "public" then Normal AudPublic
  else if strEq raw "enterprise" then Normal AudEnterprise
  else Throw (ErrorObject ("Invalid audience. Expected " +:+ quoted "public" +:+ " or "
                           +:+ quoted "enterprise" +:+ ".")).

Definition parseValue (raw : string) : Completion bool :=
  if negb (strEq raw "true") && negb (strEq raw "false")
  then Throw (ErrorObject ("Invalid value. Expected " +:+ quoted "true" +:+ " or "
                           +:+ quoted "false" +:+ "."))
  else Normal (strEq raw "true").

Definition audienceName (audience : AdminAudience) : string :=
  match audience with
  | AudPublic => "public"
  | AudEnterprise => "enterprise"
  end.

Definition valueName (value : bool) : string :=
  if value then "true" else "false".

(** Lines 30-53: the body [applyVisibility] sends to [PATCH], or the
    error it throws before sending. [getInternalApiOrigin], which
    belongs to another module, is taken to return. *)
Definition applyVisibility (adminApiKey : option string) (ids : list string)
    (audience : AdminAudience) (value : bool) : Completion RequestBody :=
  if negb (envSet adminApiKey)
  then Throw (ErrorObject "Missing server config: ADMIN_API_KEY not set")
  else
    let uniqueIds := uniqueTrimmed ids in
    if (length uniqueIds =? 0)%nat then Throw (ErrorObject "Missing recipe id")
    else Normal (Fields None (Some (JsonArray (map JsonString uniqueIds)))
                   (Some (JsonString (audienceName audience)))
                   (Some (JsonBool value))).

(** [String(formData.get(name) ?? "").trim()]. *)
Definition formField (value : option string) : string :=
  trim (match value with Some s => s | None => EmptyString end).

(** Lines 82-89 of [setPageVisibilityAction]. *)
Definition setPageVisibilityAction (adminApiKey : option string)
    (idsField audienceField valueField : option string) : Completion RequestBody :=
  let idsRaw := formField idsField in
  match parseAudience (formField audienceField) with
  | Throw error => Throw error
  | Normal audience =>
      match parseValue (formField valueField) with
      | Throw error => Throw error
      | Normal value =>
          let ids := uniqueOf (List.filter truthy
                                 (map trim (splitWhere isComma idsRaw))) in
          if (length ids =? 0)%nat
          then Throw (ErrorObject "No recipes in current page to update.")
          else applyVisibility adminApiKey ids audience value
      end
  end.

(** An id without white space and without a comma. *)
Definition plainId (id : string) : bool :=
  allChars (fun c => negb (isWhiteSpace c) && negb (isComma c)) id.

(** The reader's filter for an audience of the propagator. *)
Definition filterOf (audience : AdminAudience) : RecipeAudienceFilter :=
  match audience with
  | AudPublic => FilterPublic
  | AudEnterprise => FilterEnterprise
  end.

(** * Properties *)

(** ** The Unicode runtime *)

Lemma ascii_cases (p : N -> bool) :
  forallb p (map N.of_nat (seq 0 128)) = true ->
  forall c : N, (c < 128)%N -> p c = true.
Proof.
  intros Hall c Hc. rewrite forallb_forall in Hall. apply Hall.
  rewrite <- (N2Nat.id c). apply in_map. apply in_seq. lia.
Qed.

Lemma isAscii_lt (c : codeUnit) : isAscii c = true -> (c < 128)%N.
Proof. unfold isAscii, charCode. apply N.ltb_lt. Qed.

Lemma ascii_not_surrogate (c : codeUnit) :
  isAscii c = true -> isHighSurrogate c = false /\ isLowSurrogate c = false.
Proof.
  intros Hc. apply isAscii_lt in Hc. unfold isHighSurrogate, isLowSurrogate.
  split; apply andb_false_iff; left; apply N.leb_gt; lia.
Qed.

Lemma codePointsOf_cons (c : codeUnit) (s : string) :
  isHighSurrogate c = false -> codePointsOf (String c s) = c :: codePointsOf s.
Proof.
  intros Hc. destruct s as [|d s]; [reflexivity|].
  change (codePointsOf (String c (String d s)))
    with (if isHighSurrogate c && isLowSurrogate d
          then (0x10000 + (c - 0xD800) * 0x400 + (d - 0xDC00))%N :: codePointsOf s
          else c :: codePointsOf (String d s)).
  rewrite Hc. reflexivity.
Qed.

Lemma codePointsOf_ascii_app (s rest : string) :
  allChars isAscii s = true ->
  codePointsOf (s +:+ rest) = codeUnits s ++ codePointsOf rest.
Proof.
  induction s as [|c s IH]; intros Hs; [reflexivity|].
  cbn [allChars] in Hs. apply andb_true_iff in Hs as [Hc Hs].
  cbn [append codeUnits]. rewrite codePointsOf_cons by (apply ascii_not_surrogate, Hc).
  rewrite IH by exact Hs. reflexivity.
Qed.

Lemma codePointsOf_before (c : codeUnit) (before : string) :
  isAscii c = true ->
  (forall rest, codePointsOf (before +:+ String c rest)
                = codePointsOf before ++ c :: codePointsOf rest) /\
  (forall x rest, codePointsOf (String x before +:+ String c rest)
                  = codePointsOf (String x before) ++ c :: codePointsOf rest).
Proof.
  intros Hc. destruct (ascii_not_surrogate c Hc) as [Hhigh Hlow].
  induction before as [|y before [IH1 IH2]].
  - split.
    + intros rest. apply codePointsOf_cons, Hhigh.
    + intros x rest.
      change (codePointsOf (String x EmptyString +:+ String c rest))
        with (if isHighSurrogate x && isLowSurrogate c
              then (0x10000 + (x - 0xD800) * 0x400 + (c - 0xDC00))%N :: codePointsOf rest
              else x :: codePointsOf (String c rest)).
      rewrite Hlow, andb_false_r, codePointsOf_cons by exact Hhigh. reflexivity.
  - split; [exact (IH2 y)|].
    intros x rest.
    change (codePointsOf (String x (String y before) +:+ String c rest))
      with (if isHighSurrogate x && isLowSurrogate y
            then (0x10000 + (x - 0xD800) * 0x400 + (y - 0xDC00))%N
                 :: codePointsOf (before +:+ String c rest)
            else x :: codePointsOf (String y before +:+ String c rest)).
    change (codePointsOf (String x (String y before)))
      with (if isHighSurrogate x && isLowSurrogate y
            then (0x10000 + (x - 0xD800) * 0x400 + (y - 0xDC00))%N :: codePointsOf before
            else x :: codePointsOf (String y before)).
    rewrite IH1, IH2. destruct (isHighSurrogate x && isLowSurrogate y); reflexivity.
Qed.

Lemma lowerCodePoints_before (before rest : list N) (afterCased : bool) :
  exists lowered afterCased',
    lowerCodePoints afterCased (before ++ rest)
    = lowered ++ lowerCodePoints afterCased' rest.
Proof.
  revert afterCased. induction before as [|c before IH]; intros afterCased.
  - exists [], afterCased. reflexivity.
  - cbn [app lowerCodePoints].
    destruct (IH (if isCaseIgnorable c then afterCased else isCased c))
      as (lowered & afterCased' & ->).
    eexists _, afterCased'. rewrite app_assoc. reflexivity.
Qed.

Lemma lowerCodePoints_ascii (s : string) (rest : list N) (afterCased : bool) :
  allChars isAscii s = true ->
  exists afterCased',
    lowerCodePoints afterCased (codeUnits s ++ rest)
    = codeUnits (lowerAscii s) ++ lowerCodePoints afterCased' rest.
Proof.
  revert afterCased. induction s as [|c s IH]; intros afterCased Hs.
  - exists afterCased. reflexivity.
  - cbn [allChars] in Hs. apply andb_true_iff in Hs as [Hc Hs].
    cbn [codeUnits lowerAscii app lowerCodePoints].
    destruct (IH (if isCaseIgnorable c then afterCased else isCased c) Hs)
      as (afterCased' & ->).
    exists afterCased'.
    pose proof (ascii_cases
      (fun c => negb (c =? 0x3A3)%N && negb (c =? 0x130)%N
                && (simpleLower lowerCaseRanges c =? lowerChar c)%N)
      eq_refl c (isAscii_lt c Hc)) as Hcase.
    cbv beta in Hcase.
    apply andb_true_iff in Hcase as [Hcase Hlower].
    apply andb_true_iff in Hcase as [Hsigma Hdot].
    apply negb_true_iff in Hsigma, Hdot. apply N.eqb_eq in Hlower.
    rewrite Hsigma, Hdot, Hlower. reflexivity.
Qed.

Lemma ofCodeUnits_app (a b : list N) :
  ofCodeUnits (a ++ b) = ofCodeUnits a +:+ ofCodeUnits b.
Proof. induction a as [|c a IH]; [reflexivity|]. cbn. rewrite IH. reflexivity. Qed.

Lemma ofCodePoints_app (a b : list N) :
  ofCodePoints (a ++ b) = ofCodePoints a +:+ ofCodePoints b.
Proof. unfold ofCodePoints. rewrite flat_map_app. apply ofCodeUnits_app. Qed.

Lemma ofCodePoints_lowerAscii (s : string) :
  allChars isAscii s = true -> ofCodePoints (codeUnits (lowerAscii s)) = lowerAscii s.
Proof.
  induction s as [|c s IH]; intros Hs; [reflexivity|].
  cbn [allChars] in Hs. apply andb_true_iff in Hs as [Hc Hs].
  cbn [lowerAscii codeUnits]. change (?c :: ?l) with ([c] ++ l).
  rewrite ofCodePoints_app, IH by exact Hs.
  assert (codeUnitsOf (lowerChar c) = [lowerChar c]) as Hunit.
  { unfold codeUnitsOf.
    assert (lowerChar c < 0x10000)%N as Hlt.
    { apply isAscii_lt in Hc. unfold lowerChar, isUpper, charCode.
      destruct (_ && _); lia. }
    apply N.ltb_lt in Hlt. rewrite Hlt. reflexivity. }
  unfold ofCodePoints at 1. cbn [flat_map]. rewrite Hunit. reflexivity.
Qed.

Lemma unicodeLower_ascii (s : string) :
  allChars isAscii s = true -> unicodeLower s = lowerAscii s.
Proof.
  intros Hs. unfold unicodeLower.
  assert (codePointsOf s = codeUnits s ++ []) as ->.
  { assert (s = s +:+ EmptyString) as Hnil
      by (clear; induction s as [|c s IH]; [reflexivity|]; cbn; rewrite <- IH; reflexivity).
    rewrite Hnil at 1. apply codePointsOf_ascii_app, Hs. }
  destruct (lowerCodePoints_ascii s [] false Hs) as (afterCased' & ->).
  rewrite app_nil_r. apply ofCodePoints_lowerAscii, Hs.
Qed.

Lemma unicodeLower_segment (before s after : string) :
  allChars isAscii s = true ->
  exists before' after',
    unicodeLower (before +:+ s +:+ after) = before' +:+ lowerAscii s +:+ after'.
Proof.
  intros Hs. destruct s as [|c s].
  - exists EmptyString, (unicodeLower (before +:+ after)). reflexivity.
  - pose proof Hs as Hcs. cbn [allChars] in Hcs. apply andb_true_iff in Hcs as [Hc Hcs].
    unfold unicodeLower. cbn [append].
    rewrite (proj1 (codePointsOf_before c before Hc)).
    rewrite codePointsOf_ascii_app by exact Hcs.
    change (c :: codeUnits s ++ codePointsOf after)
      with (codeUnits (String c s) ++ codePointsOf after).
    destruct (lowerCodePoints_before (codePointsOf before)
                (codeUnits (String c s) ++ codePointsOf after) false)
      as (lowered & afterCased & ->).
    destruct (lowerCodePoints_ascii (String c s) (codePointsOf after) afterCased Hs)
      as (afterCased' & ->).
    exists (ofCodePoints lowered),
           (ofCodePoints (lowerCodePoints afterCased' (codePointsOf after))).
    rewrite !ofCodePoints_app, ofCodePoints_lowerAscii by exact Hs. reflexivity.
Qed.

(** The runtime whose [toLowerCase] is the lower-case mapping of the
    Unicode standard. The two facts hold of it, so that every property
    stated for a runtime holds of this one; it is the runtime of the
    examples. *)
#[global] Instance unicodeRuntime : Runtime :=
  {| toLowerCase := unicodeLower;
     toLowerCase_ascii := unicodeLower_ascii;
     toLowerCase_segment := unicodeLower_segment |}.

(** Lower-casing the ASCII texts of the program is a computation. *)
Ltac lower_ascii := rewrite !toLowerCase_ascii by reflexivity.

Section Properties.
Context `{runtime : Runtime}.

(** ** Strings *)

Lemma strEq_eq (a b : string) : strEq a b = true <-> a = b.
Proof.
  revert b. induction a as [|c a IH]; intros [|d b]; simpl;
    try (split; congruence).
  rewrite andb_true_iff, N.eqb_eq, IH. split; [intros [-> ->]; reflexivity|].
  intros [= -> ->]. auto.
Qed.

Lemma strEq_refl (a : string) : strEq a a = true.
Proof. apply strEq_eq. reflexivity. Qed.

Lemma strEq_neq (a b : string) : strEq a b = false <-> a <> b.
Proof.
  rewrite <- strEq_eq. destruct (strEq a b); split; congruence.
Qed.

Lemma strEq_sym (a b : string) : strEq a b = strEq b a.
Proof.
  destruct (strEq a b) eqn:E.
  - apply strEq_eq in E. subst. symmetry. apply strEq_refl.
  - apply strEq_neq in E. symmetry. apply strEq_neq. congruence.
Qed.

Lemma strEq_spec (a b : string) : reflect (a = b) (strEq a b).
Proof.
  destruct (strEq a b) eqn:E; constructor.
  - apply strEq_eq. exact E.
  - apply strEq_neq. exact E.
Qed.

Lemma append_assoc (a b c : string) : (a +:+ b) +:+ c = a +:+ b +:+ c.
Proof. induction a as [|x a IH]; [reflexivity|]. simpl. rewrite IH. reflexivity. Qed.

Lemma append_nil_r (a : string) : a +:+ "" = a.
Proof. induction a as [|x a IH]; [reflexivity|]. simpl. rewrite IH. reflexivity. Qed.

Lemma isEmpty_true (s : string) : isEmpty s = true <-> s = "".
Proof. destruct s; simpl; split; congruence. Qed.

Lemma isEmpty_false (s : string) : isEmpty s = false <-> s <> "".
Proof. destruct s; simpl; split; congruence. Qed.

Lemma truthy_true (s : string) : truthy s = true <-> s <> "".
Proof. unfold truthy. destruct s; simpl; split; congruence. Qed.

Lemma length_zero_nil {A} (l : list A) : (length l =? 0)%nat = true <-> l = [].
Proof. destruct l; simpl; split; congruence. Qed.

Lemma startsWith_spec (s search : string) :
  startsWith s search = true <-> starts_with s search.
Proof.
  revert s. induction search as [|c search IH]; intros s; simpl.
  - split; [intros _; exists s; reflexivity | reflexivity].
  - destruct s as [|d s].
    + split; [discriminate | intros [rest H]; discriminate].
    + rewrite andb_true_iff, N.eqb_eq, IH. split.
      * intros [-> [rest ->]]. exists rest. reflexivity.
      * intros [rest H]. simpl in H. injection H as -> ->.
        split; [reflexivity | exists rest; reflexivity].
Qed.

Lemma includes_spec (s search : string) :
  includes s search = true <-> contains s search.
Proof.
  induction s as [|d s IH].
  - simpl. rewrite orb_false_r, startsWith_spec. split.
    + intros [rest H]. exists "", rest. exact H.
    + intros [before [after H]]. destruct before; simpl in H.
      * exists after. exact H.
      * discriminate.
  - cbn [includes]. rewrite orb_true_iff, startsWith_spec, IH. split.
    + intros [[rest H] | [before [after H]]].
      * exists "", rest. exact H.
      * exists (String d before), after. simpl. congruence.
    + intros [before [after H]]. destruct before as [|e before]; simpl in H.
      * left. exists after. exact H.
      * right. injection H as _ H. exists before, after. exact H.
Qed.

Lemma tokenFound_spec (titleTokens : list string) (labelToken : string) :
  tokenFound titleTokens labelToken = true <-> token_matches titleTokens labelToken.
Proof.
  unfold tokenFound, token_matches. rewrite existsb_exists. split.
  - intros [t [Hin H]]. exists t. rewrite list_elem_of_In.
    rewrite orb_true_iff, !startsWith_spec in H. auto.
  - intros [t [Hin H]]. exists t. rewrite list_elem_of_In in Hin.
    rewrite orb_true_iff, !startsWith_spec. auto.
Qed.

Lemma countMatched_acc (titleTokens labelTokens : list string) (matched : nat) :
  countMatched titleTokens labelTokens matched
  = (matched + countMatched titleTokens labelTokens 0)%nat.
Proof.
  revert matched. induction labelTokens as [|l rest IH]; intros matched; simpl.
  - lia.
  - rewrite IH. rewrite (IH (if tokenFound titleTokens l then 1%nat else 0%nat)).
    destruct (tokenFound titleTokens l); lia.
Qed.

Lemma countMatched_spec (titleTokens labelTokens : list string) :
  matched_count titleTokens labelTokens (countMatched titleTokens labelTokens 0).
Proof.
  induction labelTokens as [|l rest IH]; simpl.
  - constructor.
  - rewrite countMatched_acc.
    destruct (tokenFound titleTokens l) eqn:Hf.
    + apply mc_hit; [apply tokenFound_spec; exact Hf | exact IH].
    + apply mc_miss; [|exact IH].
      rewrite <- tokenFound_spec, Hf. discriminate.
Qed.

Lemma matched_count_functional (titleTokens labelTokens : list string) (n m : nat) :
  matched_count titleTokens labelTokens n ->
  matched_count titleTokens labelTokens m -> n = m.
Proof.
  intros Hn. revert m. induction Hn; intros m Hm; inversion Hm; subst;
    try reflexivity; try contradiction; auto.
Qed.

Lemma ratioOf_fraction (matched len : nat) :
  len <> 0%nat ->
  (ratioOf matched len == Z.of_nat matched # Pos.of_nat len)%Q.
Proof.
  intros Hlen. destruct len as [|k]; [congruence|].
  unfold ratioOf, Qdiv, Qinv, Qmult, Qeq, inject_Z. simpl Qnum. simpl Qden.
  rewrite Pos.of_nat_succ. lia.
Qed.

Lemma overlap_tier_of_ratio (ratio : Q) :
  overlap_tier ratio
    (if Qle_bool (9 # 10) ratio then 78
     else if Qle_bool (3 # 4) ratio then 72
     else if Qle_bool (3 # 5) ratio then 68 else 0).
Proof.
  destruct (Qle_bool (9 # 10) ratio) eqn:H1.
  { apply ot_90. apply Qle_bool_iff. exact H1. }
  assert (ratio < 9 # 10)%Q as L1.
  { apply Qnot_le_lt. rewrite <- Qle_bool_iff, H1. discriminate. }
  destruct (Qle_bool (3 # 4) ratio) eqn:H2.
  { apply ot_75; [exact L1 | apply Qle_bool_iff; exact H2]. }
  assert (ratio < 3 # 4)%Q as L2.
  { apply Qnot_le_lt. rewrite <- Qle_bool_iff, H2. discriminate. }
  destruct (Qle_bool (3 # 5) ratio) eqn:H3.
  { apply ot_60; [exact L2 | apply Qle_bool_iff; exact H3]. }
  apply ot_low. apply Qnot_le_lt. rewrite <- Qle_bool_iff, H3. discriminate.
Qed.

Lemma overlap_tier_functional (ratio : Q) (a b : Z) :
  overlap_tier ratio a -> overlap_tier ratio b -> a = b.
Proof.
  intros Ha Hb.
  destruct Ha; destruct Hb; try reflexivity; exfalso;
    repeat match goal with
           | H : (_ <= _)%Q |- _ => unfold Qle in H; simpl in H
           | H : (_ < _)%Q |- _ => unfold Qlt in H; simpl in H
           end; lia.
Qed.

Lemma Qle_bool_proper_r (x y z : Q) : (y == z)%Q -> Qle_bool x y = Qle_bool x z.
Proof.
  intros E. destruct (Qle_bool x z) eqn:H.
  - apply Qle_bool_iff. rewrite E. apply Qle_bool_iff. exact H.
  - destruct (Qle_bool x y) eqn:H'; [|reflexivity].
    apply Qle_bool_iff in H'. rewrite E in H'. apply Qle_bool_iff in H'. congruence.
Qed.

Lemma contains_segment (before s after search : string) :
  contains s search -> contains (before +:+ s +:+ after) search.
Proof.
  intros (p & q & ->). exists (before +:+ p), (q +:+ after).
  rewrite !append_assoc. reflexivity.
Qed.

(** A stretch of ASCII characters of a text that contains a word in
    lower case, once lower-cased, makes the lower-cased text contain
    it. *)
Lemma toLowerCase_contains (before s after search : string) :
  allChars isAscii s = true ->
  includes (lowerAscii s) search = true ->
  includes (toLowerCase (before +:+ s +:+ after)) search = true.
Proof.
  intros Ha Hs. destruct (toLowerCase_segment before s after Ha) as (b' & a' & ->).
  apply includes_spec, contains_segment, includes_spec, Hs.
Qed.

(** ** Normalisation *)

Lemma alnum_not_space (c : codeUnit) : isLowerAlnum c = true -> isWhiteSpace c = false.
Proof.
  unfold isLowerAlnum, isLower, isDigit, isWhiteSpace, isLineTerminator, charCode.
  intros H. apply orb_true_iff in H.
  rewrite !andb_true_iff, !N.leb_le in H.
  repeat (apply orb_false_iff; split);
    rewrite ?andb_false_iff, ?N.eqb_neq, ?N.leb_gt; lia.
Qed.

Lemma space_is_white : isWhiteSpace (cu " ") = true.
Proof. reflexivity. Qed.

Lemma join_cons_char (sep : string) (c : codeUnit) (w : string) (ws : list string) :
  join sep (String c w :: ws) = String c (join sep (w :: ws)).
Proof. destruct ws; reflexivity. Qed.

Lemma trimEnd_cons_nonspace (c : codeUnit) (s : string) :
  isWhiteSpace c = false -> trimEnd (String c s) = String c (trimEnd s).
Proof. intros H. simpl. rewrite H. reflexivity. Qed.

Lemma filter_truthy_head (w : string) (ws l : list string) :
  List.filter truthy l = w :: ws -> exists c r, w = String c r.
Proof.
  intros H. assert (In w (List.filter truthy l)) as Hin by (rewrite H; left; reflexivity).
  apply filter_In in Hin as [_ Ht]. destruct w; [discriminate|eauto].
Qed.

(** Both forms of the replacement, trimmed at the end, in terms of the
    pieces between the replaced characters. *)
Lemma trimEnd_replace_pieces (t : string) :
  trimEnd (replaceNonAlnumRuns true t) = join " " (alnumWords t) /\
  trimEnd (replaceNonAlnumRuns false t)
  = match splitWhere (fun c => negb (isLowerAlnum c)) t with
    | hd :: tl => join " " (hd :: List.filter truthy tl)
    | [] => ""
    end.
Proof.
  unfold alnumWords. induction t as [|c t [IH1 IH2]].
  - split; reflexivity.
  - cbn [replaceNonAlnumRuns splitWhere].
    destruct (isLowerAlnum c) eqn:Hc; cbn [negb].
    + pose proof (alnum_not_space c Hc) as Hw.
      rewrite !trimEnd_cons_nonspace by exact Hw. rewrite IH2.
      destruct (splitWhere _ t) as [|hd tl].
      * split; reflexivity.
      * cbn [List.filter truthy isEmpty negb]. rewrite join_cons_char.
        split; reflexivity.
    + split.
      * rewrite IH1. reflexivity.
      * cbn [trimEnd]. rewrite IH1, space_is_white. cbn [andb].
        destruct (List.filter truthy (splitWhere _ t)) as [|w ws] eqn:Hf.
        -- reflexivity.
        -- destruct (filter_truthy_head _ _ _ Hf) as [a [r ->]].
           change (join " " ("" :: String a r :: ws))
             with (" " +:+ join " " (String a r :: ws)).
           rewrite join_cons_char. reflexivity.
Qed.

Lemma trimStart_replace_inRun (t : string) :
  trimStart (replaceNonAlnumRuns true t) = replaceNonAlnumRuns true t.
Proof.
  induction t as [|c t IH]; [reflexivity|].
  cbn [replaceNonAlnumRuns]. destruct (isLowerAlnum c) eqn:Hc.
  - cbn [trimStart]. rewrite (alnum_not_space c Hc). reflexivity.
  - exact IH.
Qed.

Lemma trimStart_replace (t : string) :
  trimStart (replaceNonAlnumRuns false t) = replaceNonAlnumRuns true t.
Proof.
  destruct t as [|c t]; [reflexivity|].
  cbn [replaceNonAlnumRuns]. destruct (isLowerAlnum c) eqn:Hc.
  - cbn [trimStart]. rewrite (alnum_not_space c Hc). reflexivity.
  - cbn [trimStart]. rewrite space_is_white. apply trimStart_replace_inRun.
Qed.

(** The normaliser of the source computes the normal form. *)
Lemma normalizeComparableText_normalForm (value : string) :
  normalizeComparableText value = normalForm value.
Proof.
  unfold normalizeComparableText, normalForm, trim.
  rewrite trimStart_replace. apply trimEnd_replace_pieces.
Qed.

Lemma trimStart_head (s : string) :
  trimStart s = "" \/ exists c r, trimStart s = String c r /\ isWhiteSpace c = false.
Proof.
  induction s as [|c s IH]; [left; reflexivity|].
  simpl. destruct (isWhiteSpace c) eqn:Hc; [exact IH|].
  right. exists c, s. split; [reflexivity | exact Hc].
Qed.

Lemma trim_head (s : string) :
  trim s = "" \/ exists c r, trim s = String c r /\ isWhiteSpace c = false.
Proof.
  unfold trim. destruct (trimStart_head s) as [-> | [c [r [-> Hc]]]].
  - left. reflexivity.
  - right. exists c, (trimEnd r). split; [apply trimEnd_cons_nonspace; exact Hc | exact Hc].
Qed.

Lemma tokensOf_nonempty (c : codeUnit) (r : string) :
  isWhiteSpace c = false -> tokensOf (String c r) <> [].
Proof.
  intros Hc. unfold tokensOf, split_space. cbn [splitWhere].
  destruct (N.eqb (cu " ") c) eqn:E.
  - apply N.eqb_eq in E. subst c. discriminate.
  - destruct (splitWhere _ r); simpl; discriminate.
Qed.

(** A normalised text that is not empty has a token: the guard on the
    token lists in [scoreTitleMatch] never fires after normalisation. *)
Lemma normalized_tokens (value : string) :
  normalizeComparableText value <> "" ->
  tokensOf (normalizeComparableText value) <> [].
Proof.
  unfold normalizeComparableText. intros Hne.
  destruct (trim_head (replaceNonAlnumRuns false (toLowerCase value)))
    as [E | [c [r [E Hc]]]]; [congruence|].
  rewrite E. apply tokensOf_nonempty. exact Hc.
Qed.

Lemma filter_all {A} (f : A -> bool) (l : list A) :
  (forall x, In x l -> f x = true) -> List.filter f l = l.
Proof.
  induction l as [|x l IH]; intros H; [reflexivity|].
  cbn [List.filter]. rewrite (H x) by (left; reflexivity).
  rewrite IH; [reflexivity|]. intros y Hy. apply H. right. exact Hy.
Qed.

Lemma splitWhere_pieces (sep : codeUnit -> bool) (t : string) :
  forall w, In w (splitWhere sep t) -> allChars (fun c => negb (sep c)) w = true.
Proof.
  induction t as [|c t IH]; intros w Hw; cbn [splitWhere] in Hw.
  - destruct Hw as [<- | []]. reflexivity.
  - destruct (sep c) eqn:Hc.
    + destruct Hw as [<- | Hw]; [reflexivity | apply IH, Hw].
    + destruct (splitWhere sep t) as [|w0 ws0].
      * destruct Hw as [<- | []]. cbn [allChars]. rewrite Hc. reflexivity.
      * destruct Hw as [<- | Hw].
        -- cbn [allChars]. rewrite Hc. apply IH. left. reflexivity.
        -- apply IH. right. exact Hw.
Qed.

Lemma splitWhere_whole (sep : codeUnit -> bool) (w : string) :
  allChars (fun c => negb (sep c)) w = true -> splitWhere sep w = [w].
Proof.
  induction w as [|c w IH]; intros H; [reflexivity|].
  cbn [allChars] in H. apply andb_true_iff in H as [Hc H]. apply negb_true_iff in Hc.
  cbn [splitWhere]. rewrite Hc, (IH H). reflexivity.
Qed.

Lemma splitWhere_app (sep : codeUnit -> bool) (w rest : string) (sc : codeUnit) :
  sep sc = true ->
  allChars (fun c => negb (sep c)) w = true ->
  splitWhere sep (w +:+ String sc rest) = w :: splitWhere sep rest.
Proof.
  intros Hsc. induction w as [|c w IH]; intros H.
  - simpl. rewrite Hsc. reflexivity.
  - cbn [allChars] in H. apply andb_true_iff in H as [Hc H]. apply negb_true_iff in Hc.
    change (String c w +:+ String sc rest) with (String c (w +:+ String sc rest)).
    cbn [splitWhere]. rewrite Hc, (IH H). reflexivity.
Qed.

Lemma splitWhere_join (sep : codeUnit -> bool) (sc : codeUnit) (ws : list string) :
  sep sc = true ->
  ws <> [] ->
  (forall w, In w ws -> allChars (fun c => negb (sep c)) w = true) ->
  splitWhere sep (join (String sc "") ws) = ws.
Proof.
  intros Hsc. induction ws as [|w ws IH]; intros Hne Hws; [congruence|].
  destruct ws as [|w2 ws].
  - cbn [join]. apply splitWhere_whole, Hws. left. reflexivity.
  - change (join (String sc "") (w :: w2 :: ws))
      with (w +:+ String sc (join (String sc "") (w2 :: ws))).
    rewrite splitWhere_app; [|exact Hsc | apply Hws; left; reflexivity].
    rewrite IH; [reflexivity | discriminate |].
    intros x Hx. apply Hws. right. exact Hx.
Qed.

Lemma allChars_weaken (p q : codeUnit -> bool) (s : string) :
  (forall c, p c = true -> q c = true) -> allChars p s = true -> allChars q s = true.
Proof.
  intros Hpq. induction s as [|c s IH]; [reflexivity|].
  cbn [allChars]. rewrite !andb_true_iff. intros [Hc Hs]. auto.
Qed.

Lemma allChars_app (p : codeUnit -> bool) (a b : string) :
  allChars p (a +:+ b) = allChars p a && allChars p b.
Proof.
  induction a as [|c a IH]; [reflexivity|].
  change (String c a +:+ b) with (String c (a +:+ b)). cbn [allChars].
  rewrite IH, andb_assoc. reflexivity.
Qed.

Lemma allChars_join (p : codeUnit -> bool) (sc : codeUnit) (ws : list string) :
  p sc = true ->
  (forall w, In w ws -> allChars p w = true) ->
  allChars p (join (String sc "") ws) = true.
Proof.
  intros Hsc. induction ws as [|w ws IH]; intros Hws; [reflexivity|].
  destruct ws as [|w2 ws].
  - apply Hws. left. reflexivity.
  - change (join (String sc "") (w :: w2 :: ws))
      with (w +:+ String sc (join (String sc "") (w2 :: ws))).
    rewrite allChars_app. cbn [allChars]. rewrite Hsc.
    rewrite (Hws w) by (left; reflexivity). rewrite IH; [reflexivity|].
    intros x Hx. apply Hws. right. exact Hx.
Qed.

Lemma lowerAscii_fixed (s : string) :
  allChars (fun c => negb (isUpper c)) s = true -> lowerAscii s = s.
Proof.
  induction s as [|c s IH]; [reflexivity|].
  cbn [allChars lowerAscii]. rewrite andb_true_iff. intros [Hc Hs].
  apply negb_true_iff in Hc. unfold lowerChar. rewrite Hc, (IH Hs). reflexivity.
Qed.

Lemma toLowerCase_fixed (s : string) :
  allChars isAscii s = true ->
  allChars (fun c => negb (isUpper c)) s = true -> toLowerCase s = s.
Proof.
  intros Ha Hu. rewrite (toLowerCase_ascii s Ha). apply lowerAscii_fixed, Hu.
Qed.

Lemma alnum_ascii (c : codeUnit) : isLowerAlnum c = true -> isAscii c = true.
Proof.
  unfold isLowerAlnum, isLower, isDigit, isAscii, charCode. intros H.
  apply orb_true_iff in H. rewrite !andb_true_iff, !N.leb_le in H.
  apply N.ltb_lt. lia.
Qed.

Lemma alnum_not_upper (c : codeUnit) : isLowerAlnum c = true -> isUpper c = false.
Proof.
  unfold isLowerAlnum, isLower, isDigit, isUpper, charCode. intros H.
  apply orb_true_iff in H. rewrite !andb_true_iff, !N.leb_le in H.
  apply andb_false_iff. rewrite !N.leb_gt. lia.
Qed.

Lemma alnum_not_blank (c : codeUnit) : isLowerAlnum c = true -> N.eqb (cu " ") c = false.
Proof.
  intros H. destruct (N.eqb (cu " ") c) eqn:E; [|reflexivity].
  apply N.eqb_eq in E. subst c. discriminate.
Qed.

Lemma alnumWords_words (t : string) :
  forall w, In w (alnumWords t) -> w <> "" /\ allChars isLowerAlnum w = true.
Proof.
  intros w Hw. unfold alnumWords in Hw. apply filter_In in Hw as [Hw Ht].
  split; [apply truthy_true; exact Ht|].
  apply splitWhere_pieces in Hw.
  eapply allChars_weaken; [|exact Hw]. intros c Hc. apply negb_true_iff in Hc.
  destruct (isLowerAlnum c); [reflexivity | discriminate].
Qed.

(** The words of a text made of words and single spaces are those
    words, for both ways of cutting the text. *)
Lemma tokens_of_joined (sep : codeUnit -> bool) (ws : list string) :
  sep (cu " ") = true ->
  (forall w, In w ws -> w <> "" /\ allChars (fun c => negb (sep c)) w = true) ->
  List.filter truthy (splitWhere sep (join " " ws)) = ws.
Proof.
  intros Hsep Hws. destruct ws as [|w ws]; [reflexivity|].
  rewrite splitWhere_join; [| exact Hsep | discriminate | intros x Hx; apply Hws, Hx].
  apply filter_all. intros x Hx. apply truthy_true, Hws, Hx.
Qed.

(** ** Title matcher *)

Lemma scoreTitleMatch_tier (labelNorm titleNorm : string) :
  (labelNorm <> "" -> tokensOf labelNorm <> []) ->
  (titleNorm <> "" -> tokensOf titleNorm <> []) ->
  score_tier labelNorm titleNorm (tokensOf labelNorm) (tokensOf titleNorm)
    (scoreTitleMatch labelNorm titleNorm).
Proof.
  intros HL HT. unfold scoreTitleMatch.
  destruct (isEmpty labelNorm) eqn:EL.
  { apply st_empty. left. apply isEmpty_true. exact EL. }
  destruct (isEmpty titleNorm) eqn:ET.
  { apply st_empty. right. apply isEmpty_true. exact ET. }
  apply isEmpty_false in EL, ET. cbn [orb].
  destruct (strEq titleNorm labelNorm) eqn:Eq.
  { apply st_equal; auto. apply strEq_eq. exact Eq. }
  apply strEq_neq in Eq.
  destruct (startsWith titleNorm labelNorm) eqn:S1.
  { apply st_title_starts; auto. apply startsWith_spec. exact S1. }
  assert (~ starts_with titleNorm labelNorm) as N1.
  { rewrite <- startsWith_spec, S1. discriminate. }
  destruct (startsWith labelNorm titleNorm) eqn:S2.
  { apply st_label_starts; auto. apply startsWith_spec. exact S2. }
  assert (~ starts_with labelNorm titleNorm) as N2.
  { rewrite <- startsWith_spec, S2. discriminate. }
  destruct (includes titleNorm labelNorm) eqn:S3.
  { apply st_contains; auto. apply includes_spec. exact S3. }
  assert (~ contains titleNorm labelNorm) as N3.
  { rewrite <- includes_spec, S3. discriminate. }
  specialize (HL EL). specialize (HT ET).
  assert (length (tokensOf labelNorm) <> 0%nat) as LenL.
  { destruct (tokensOf labelNorm); [congruence | discriminate]. }
  assert (length (tokensOf titleNorm) <> 0%nat) as LenT.
  { destruct (tokensOf titleNorm); [congruence | discriminate]. }
  apply Nat.eqb_neq in LenL as GL. apply Nat.eqb_neq in LenT as GT.
  cbv zeta. rewrite GL, GT. cbn [orb].
  pose proof (ratioOf_fraction
                (countMatched (tokensOf titleNorm) (tokensOf labelNorm) 0)
                (length (tokensOf labelNorm)) LenL) as R.
  rewrite !(Qle_bool_proper_r _ _ _ R).
  eapply st_overlap; auto.
  - apply countMatched_spec.
  - apply overlap_tier_of_ratio.
Qed.

(** The tiers determine the score. *)
Lemma score_tier_functional (labelNorm titleNorm : string)
    (labelTokens titleTokens : list string) (a b : Z) :
  score_tier labelNorm titleNorm labelTokens titleTokens a ->
  score_tier labelNorm titleNorm labelTokens titleTokens b -> a = b.
Proof.
  intros Ha Hb. destruct Ha; destruct Hb; try reflexivity;
    try (exfalso; tauto); try (exfalso; congruence).
  match goal with
  | H1 : matched_count _ _ ?m, H2 : matched_count _ _ ?n |- _ =>
      pose proof (matched_count_functional _ _ _ _ H1 H2); subst
  end.
  eapply overlap_tier_functional; eassumption.
Qed.

Lemma alphanumeric_iff (c : codeUnit) : isLowerAlnum c = true <-> alphanumeric c.
Proof.
  unfold isLowerAlnum, isLower, isDigit, alphanumeric, charCode.
  rewrite orb_true_iff, !andb_true_iff, !N.leb_le. tauto.
Qed.

Lemma allChars_forall (p : codeUnit -> bool) (s : string) :
  allChars p s = true <-> forall c, c ∈ codeUnits s -> p c = true.
Proof.
  induction s as [|d s IH]; cbn [allChars codeUnits].
  - split; [intros _ c Hc; inversion Hc | reflexivity].
  - rewrite andb_true_iff, IH. split.
    + intros [Hd Hs] c Hc. apply elem_of_cons in Hc as [-> | Hc]; auto.
    + intros H. split; [apply H; left | intros c Hc; apply H; right; exact Hc].
Qed.

Lemma is_gap_chars (g : string) :
  is_gap g <-> allChars (fun c => negb (isLowerAlnum c)) g = true.
Proof.
  unfold is_gap. rewrite allChars_forall. split; intros H c Hc.
  - apply negb_true_iff. destruct (isLowerAlnum c) eqn:E; [|reflexivity].
    exfalso. apply (H c Hc), alphanumeric_iff, E.
  - intros Ha. apply alphanumeric_iff in Ha. specialize (H c Hc).
    rewrite Ha in H. discriminate.
Qed.

Lemma is_word_chars (w : string) :
  is_word w <-> w <> "" /\ allChars isLowerAlnum w = true.
Proof.
  unfold is_word. rewrite allChars_forall. split; intros [Hne H]; (split; [exact Hne|]);
    intros c Hc; apply alphanumeric_iff, H, Hc.
Qed.

Lemma alnumWords_cons_gap (c : codeUnit) (t : string) :
  isLowerAlnum c = false -> alnumWords (String c t) = alnumWords t.
Proof. intros Hc. unfold alnumWords. cbn [splitWhere]. rewrite Hc. reflexivity. Qed.

Lemma alnumWords_gap (g t : string) :
  is_gap g -> alnumWords (g +:+ t) = alnumWords t.
Proof.
  rewrite is_gap_chars. induction g as [|c g IH]; intros Hg; [reflexivity|].
  cbn [allChars] in Hg. apply andb_true_iff in Hg as [Hc Hg].
  apply negb_true_iff in Hc.
  change (String c g +:+ t) with (String c (g +:+ t)).
  rewrite (alnumWords_cons_gap _ _ Hc). apply IH, Hg.
Qed.

Lemma splitWhere_word (sep : codeUnit -> bool) (w rest : string) :
  allChars (fun c => negb (sep c)) w = true ->
  splitWhere sep (w +:+ rest)
  = match splitWhere sep rest with
    | hd :: tl => (w +:+ hd) :: tl
    | [] => [w]
    end.
Proof.
  induction w as [|c w IH]; intros Hw.
  - simpl. destruct (splitWhere sep rest) eqn:E; [|reflexivity].
    destruct rest as [|d rest]; [discriminate|]. cbn [splitWhere] in E.
    destruct (sep d); [discriminate|]. destruct (splitWhere sep rest); discriminate.
  - cbn [allChars] in Hw. apply andb_true_iff in Hw as [Hc Hw].
    apply negb_true_iff in Hc.
    change (String c w +:+ rest) with (String c (w +:+ rest)).
    cbn [splitWhere]. rewrite Hc, (IH Hw).
    destruct (splitWhere sep rest); reflexivity.
Qed.

Lemma alnumWords_word (w rest : string) :
  is_word w ->
  (forall c r, rest = String c r -> ~ alphanumeric c) ->
  alnumWords (w +:+ rest) = w :: alnumWords rest.
Proof.
  rewrite is_word_chars. intros [Hne Hw] Hrest. unfold alnumWords.
  rewrite splitWhere_word
    by (eapply allChars_weaken; [|exact Hw]; intros c Hc; rewrite Hc; reflexivity).
  assert (truthy w = true) as Ht by (apply truthy_true; exact Hne).
  destruct rest as [|c r].
  - simpl. rewrite append_nil_r. cbn [List.filter]. rewrite Ht. reflexivity.
  - cbn [splitWhere].
    destruct (isLowerAlnum c) eqn:Hc.
    { exfalso. apply (Hrest c r eq_refl), alphanumeric_iff, Hc. }
    cbn [negb List.filter truthy isEmpty]. rewrite append_nil_r.
    fold (truthy w). rewrite Ht. reflexivity.
Qed.

(** The words of a text are the runs the normaliser keeps. *)
Lemma words_of_alnumWords (t : string) (ws : list string) :
  words_of t ws -> alnumWords t = ws.
Proof.
  induction 1 as [gap Hgap | gap w rest ws Hgap Hw Hrest _ IH].
  - rewrite <- (append_nil_r gap), (alnumWords_gap _ _ Hgap). reflexivity.
  - rewrite (alnumWords_gap _ _ Hgap), (alnumWords_word _ _ Hw Hrest), IH. reflexivity.
Qed.

Lemma words_of_functional (t : string) (ws ws' : list string) :
  words_of t ws -> words_of t ws' -> ws = ws'.
Proof.
  intros H H'. apply words_of_alnumWords in H, H'. congruence.
Qed.

Lemma is_gap_nil : is_gap "".
Proof. intros c Hc. inversion Hc. Qed.

Lemma is_gap_cons (c : codeUnit) (g : string) :
  ~ alphanumeric c -> is_gap g -> is_gap (String c g).
Proof.
  intros Hc Hg d Hd. cbn [codeUnits] in Hd.
  apply elem_of_cons in Hd as [-> | Hd]; [exact Hc | apply Hg, Hd].
Qed.

Lemma is_word_cons (c : codeUnit) (w : string) :
  alphanumeric c -> (w = "" \/ is_word w) -> is_word (String c w).
Proof.
  intros Hc Hw. split; [discriminate|]. intros d Hd. cbn [codeUnits] in Hd.
  apply elem_of_cons in Hd as [-> | Hd]; [exact Hc|].
  destruct Hw as [-> | [_ Hw]]; [inversion Hd | apply Hw, Hd].
Qed.

(** Every text has its words. *)
Lemma words_of_total (t : string) : exists ws, words_of t ws.
Proof.
  induction t as [|c t [ws IH]].
  - exists []. apply words_none, is_gap_nil.
  - destruct (isLowerAlnum c) eqn:Hc.
    + apply alphanumeric_iff in Hc.
      inversion IH as [gap Hgap | gap w rest ws' Hgap Hw Hrest Hws]; subst.
      * exists [String c ""].
        apply (words_cons "" (String c "") t []);
          [apply is_gap_nil | apply is_word_cons; auto | | apply words_none, Hgap].
        intros d r ->. apply (Hgap d). cbn [codeUnits]. left.
      * destruct gap as [|d gap].
        -- exists (String c w :: ws').
           apply (words_cons "" (String c w) rest ws');
             [apply is_gap_nil | apply is_word_cons; auto | exact Hrest | exact Hws].
        -- exists (String c "" :: w :: ws').
           apply (words_cons "" (String c "") (String d gap +:+ w +:+ rest) (w :: ws'));
             [apply is_gap_nil | apply is_word_cons; auto | | exact IH].
           intros e r [= <- _]. apply (Hgap d). cbn [codeUnits]. left.
    + assert (~ alphanumeric c) as Hn.
      { intros Ha. apply alphanumeric_iff in Ha. congruence. }
      inversion IH as [gap Hgap | gap w rest ws' Hgap Hw Hrest Hws]; subst.
      * exists []. apply words_none, is_gap_cons; assumption.
      * exists (w :: ws').
        apply (words_cons (String c gap) w rest ws');
          [apply is_gap_cons; assumption | exact Hw | exact Hrest | exact Hws].
Qed.

Lemma alnumWords_words_of (t : string) : words_of t (alnumWords t).
Proof.
  destruct (words_of_total t) as [ws H].
  rewrite (words_of_alnumWords t ws H). exact H.
Qed.

Lemma join_spaced (ws : list string) : join " " ws = spaced ws.
Proof.
  induction ws as [|w [|w2 ws] IH]; [reflexivity | reflexivity|].
  change (join " " (w :: w2 :: ws)) with (w +:+ " " +:+ join " " (w2 :: ws)).
  rewrite IH. reflexivity.
Qed.

(** The tokens of a normalised text are the words it was made of. *)
Lemma tokensOf_normalForm (value : string) :
  tokensOf (normalForm value) = alnumWords (toLowerCase value).
Proof.
  unfold tokensOf, split_space, normalForm.
  apply tokens_of_joined; [reflexivity|].
  intros w Hin. destruct (alnumWords_words _ w Hin) as [Hne Hal]. split; [exact Hne|].
  eapply allChars_weaken; [|exact Hal]. intros c Hc.
  rewrite (alnum_not_blank c Hc). reflexivity.
Qed.

(** C1. For every label and title, with the words of the lower-cased
    label and of the lower-cased title (their runs of alphanumeric
    characters): [score] normalises both strings to their words
    separated by single spaces, and returns the value of the first
    matching tier: 0 when either normalised string is empty, 120 when
    the two are equal, 110 when the title starts with the label, 95 when
    the label starts with the title, 85 when the title contains the
    label, and otherwise 78, 72, 68 or 0 as the ratio of the label words
    that are a prefix of some title word, or have one as a prefix, to
    all label words reaches 0.9, 0.75, 0.6 or none of them. *)
Theorem score_tiers (label title : string) (labelWords titleWords : list string) :
  words_of (toLowerCase label) labelWords ->
  words_of (toLowerCase title) titleWords ->
  normalizeComparableText label = spaced labelWords /\
  normalizeComparableText title = spaced titleWords /\
  score_tier (spaced labelWords) (spaced titleWords) labelWords titleWords
    (score label title).
Proof.
  intros HL HT.
  apply words_of_alnumWords in HL, HT.
  assert (normalizeComparableText label = spaced labelWords) as EL.
  { rewrite normalizeComparableText_normalForm. unfold normalForm.
    rewrite HL. apply join_spaced. }
  assert (normalizeComparableText title = spaced titleWords) as ET.
  { rewrite normalizeComparableText_normalForm. unfold normalForm.
    rewrite HT. apply join_spaced. }
  split; [exact EL|]. split; [exact ET|].
  pose proof (scoreTitleMatch_tier (normalizeComparableText label)
                (normalizeComparableText title)
                (normalized_tokens label) (normalized_tokens title)) as H.
  rewrite !normalizeComparableText_normalForm, !tokensOf_normalForm in H.
  rewrite <- !normalizeComparableText_normalForm, HL, HT, EL, ET in H.
  unfold score. rewrite EL, ET. exact H.
Qed.

Lemma scoreTitleMatch_range (labelNorm titleNorm : string) :
  In (scoreTitleMatch labelNorm titleNorm) [0; 68; 72; 78; 85; 95; 110; 120].
Proof.
  unfold scoreTitleMatch.
  repeat match goal with
         | |- context [if ?b then _ else _] => destruct b
         end; simpl; tauto.
Qed.

(** C10. The title matcher only ever returns one of the eight values 0,
    68, 72, 78, 85, 95, 110 and 120, so the thresholds 72 and 60 of its
    consumers split the results into the values from 72 up, the value 68
    and the value 0. *)
Theorem score_range (label title : string) :
  In (score label title) [0; 68; 72; 78; 85; 95; 110; 120] /\
  (72 <= score label title <-> In (score label title) [72; 78; 85; 95; 110; 120]) /\
  (60 <= score label title < 72 <-> score label title = 68) /\
  (score label title < 60 <-> score label title = 0).
Proof.
  unfold score.
  pose proof (scoreTitleMatch_range (normalizeComparableText label)
                (normalizeComparableText title)) as H.
  split; [exact H|]. simpl in *. lia.
Qed.

(** ** Relation graph *)

Lemma elem_of_setAdd (x y : string) (set : list string) :
  y ∈ setAdd x set <-> y ∈ set \/ y = x.
Proof.
  unfold setAdd. case_bool_decide as Hx.
  - split; [auto|]. intros [H | ->]; assumption.
  - rewrite elem_of_app, list_elem_of_singleton. reflexivity.
Qed.

Lemma addNeighbour_keys (a b k : string) (adjacency : gmap string (list string)) :
  is_Some (addNeighbour a b adjacency !! k) <-> is_Some (adjacency !! k).
Proof.
  unfold addNeighbour. destruct (adjacency !! a) as [ns|] eqn:Ha; [|reflexivity].
  destruct (decide (a = k)) as [->|Hne].
  - rewrite lookup_insert_eq, Ha. split; eauto.
  - rewrite lookup_insert_ne by exact Hne. reflexivity.
Qed.

Lemma addNeighbour_edge (a b x y : string) (adjacency : gmap string (list string)) :
  is_Some (adjacency !! a) ->
  edge (addNeighbour a b adjacency) x y <-> edge adjacency x y \/ (x = a /\ y = b).
Proof.
  intros [ns Ha]. unfold addNeighbour, edge. rewrite Ha.
  destruct (decide (a = x)) as [->|Hne].
  - setoid_rewrite lookup_insert_eq. split.
    + intros [ns' [E Hy]]. injection E as <-.
      apply elem_of_setAdd in Hy as [Hy | ->]; [left; eauto | right; auto].
    + intros [[ns' [E Hy]] | [_ ->]].
      * exists (setAdd b ns). split; [reflexivity|].
        apply elem_of_setAdd. left. congruence.
      * exists (setAdd b ns). split; [reflexivity|].
        apply elem_of_setAdd. right. reflexivity.
  - setoid_rewrite (lookup_insert_ne adjacency a x _ Hne). split.
    + intros H. left. exact H.
    + intros [H | [-> _]]; [exact H | congruence].
Qed.

Lemma emptyAdjacency_fold (rows : list RelationRecipeRow)
    (init : gmap string (list string)) (k : string) :
  fold_left (fun adjacency row => <[row_id row := []]> adjacency) rows init !! k
  = if bool_decide (k ∈ map row_id rows) then Some [] else init !! k.
Proof.
  revert init. induction rows as [|row rows IH]; intros init; cbn [fold_left map].
  - rewrite bool_decide_eq_false_2; [reflexivity | apply not_elem_of_nil].
  - rewrite IH. destruct (decide (k ∈ map row_id rows)) as [Hin|Hnin].
    + rewrite !bool_decide_eq_true_2; [reflexivity | | exact Hin].
      apply elem_of_cons. right. exact Hin.
    + rewrite (bool_decide_eq_false_2 _ Hnin).
      destruct (decide (k = row_id row)) as [->|Hne].
      * rewrite lookup_insert_eq, bool_decide_eq_true_2; [reflexivity|].
        apply elem_of_cons. left. reflexivity.
      * rewrite lookup_insert_ne by congruence.
        rewrite bool_decide_eq_false_2; [reflexivity|].
        rewrite elem_of_cons. tauto.
Qed.

Lemma emptyAdjacency_lookup (rows : list RelationRecipeRow) (k : string) :
  emptyAdjacency rows !! k
  = if bool_decide (k ∈ map row_id rows) then Some [] else None.
Proof. unfold emptyAdjacency. rewrite emptyAdjacency_fold, lookup_empty. reflexivity. Qed.

Lemma bestTitle_fold_id (labelNorm : string) (titles : list TitleIndexRow)
    (init : option string * Z) (t : string) :
  fst (fold_left
         (fun best row =>
            let score := scoreTitleMatch labelNorm (tir_norm row) in
            if snd best <? score then (Some (tir_id row), score) else best)
         titles init) = Some t ->
  fst init = Some t \/ t ∈ map tir_id titles.
Proof.
  revert init. induction titles as [|row titles IH]; intros init H; simpl in *.
  - left. exact H.
  - apply IH in H as [H | H].
    + destruct (snd init <? _); simpl in H.
      * injection H as <-. right. apply elem_of_cons. left. reflexivity.
      * left. exact H.
    + right. apply elem_of_cons. right. exact H.
Qed.

Lemma resolveLabelTargetId_id (label : string) (titles : list TitleIndexRow) (t : string) :
  resolveLabelTargetId label titles = Some t -> t ∈ map tir_id titles.
Proof.
  unfold resolveLabelTargetId, bestTitle.
  destruct (isEmpty _); [discriminate|].
  destruct (72 <=? _); [|discriminate].
  intros H. apply bestTitle_fold_id in H as [H | H]; [discriminate | exact H].
Qed.

Lemma titleIndex_ids (rows : list RelationRecipeRow) :
  map tir_id (titleIndex rows) = map row_id rows.
Proof. unfold titleIndex. rewrite map_map. reflexivity. Qed.

Lemma linkLabel_invariant (rows : list RelationRecipeRow) (owner label : string)
    (st : GraphState) :
  owner ∈ map row_id rows ->
  graphInvariant rows st ->
  graphInvariant rows (linkLabel (titleIndex rows) owner st label).
Proof.
  intros Howner. destruct st as [adjacency cache].
  intros (Hkeys & Hcache & Hsym & Hirr). simpl in *.
  unfold linkLabel.
  set (cache' := match cache !! label with
                 | Some _ => cache
                 | None => <[label := resolveLabelTargetId label (titleIndex rows)]> cache
                 end).
  assert (forall l t, cache' !! l = Some (Some t) -> t ∈ map row_id rows) as Hcache'.
  { intros l t. unfold cache'. destruct (cache !! label) eqn:E; [apply Hcache|].
    destruct (decide (label = l)) as [->|Hne].
    - rewrite lookup_insert_eq. intros H. injection H as H.
      apply resolveLabelTargetId_id in H. rewrite titleIndex_ids in H. exact H.
    - rewrite lookup_insert_ne by exact Hne. apply Hcache. }
  destruct (cache' !! label) as [[targetId|]|] eqn:Ht;
    try (repeat split; simpl; auto; apply Hkeys).
  destruct (isEmpty targetId || strEq targetId owner) eqn:Hskip;
    [repeat split; simpl; auto; apply Hkeys|].
  apply orb_false_iff in Hskip as [_ Hneq]. apply strEq_neq in Hneq.
  pose proof (Hcache' _ _ Ht) as Htarget.
  assert (is_Some (adjacency !! owner)) as Ko by (apply Hkeys; exact Howner).
  assert (is_Some (addNeighbour owner targetId adjacency !! targetId)) as Kt.
  { apply addNeighbour_keys, Hkeys. exact Htarget. }
  repeat split; simpl.
  - intros H. apply Hkeys. rewrite !addNeighbour_keys in H. exact H.
  - intros H. rewrite !addNeighbour_keys. apply Hkeys. exact H.
  - exact Hcache'.
  - intros a b. rewrite !(addNeighbour_edge targetId owner) by exact Kt.
    rewrite !(addNeighbour_edge owner targetId) by exact Ko.
    intros [[H | [-> ->]] | [-> ->]]; auto.
  - intros a. rewrite (addNeighbour_edge targetId owner) by exact Kt.
    rewrite (addNeighbour_edge owner targetId) by exact Ko.
    intros [[H | [-> E]] | [-> E]]; [eapply Hirr; exact H | congruence | congruence].
Qed.

Lemma linkRow_invariant (rows : list RelationRecipeRow) (row : RelationRecipeRow)
    (st : GraphState) :
  row ∈ rows ->
  graphInvariant rows st ->
  graphInvariant rows (linkRow (titleIndex rows) st row).
Proof.
  intros Hrow. unfold linkRow.
  assert (row_id row ∈ map row_id rows) as Howner.
  { apply list_elem_of_In, in_map, list_elem_of_In. exact Hrow. }
  generalize (collectPtnLabels (row_ingredients row)) as labels.
  intros labels. revert st. induction labels as [|label labels IH]; intros st Hinv.
  - exact Hinv.
  - simpl. apply IH. apply linkLabel_invariant; assumption.
Qed.

Lemma buildAdjacency_invariant (rows : list RelationRecipeRow) :
  graphInvariant rows
    (fold_left (linkRow (titleIndex rows)) rows (emptyAdjacency rows, ∅)).
Proof.
  assert (forall part st,
             (forall row, row ∈ part -> row ∈ rows) ->
             graphInvariant rows st ->
             graphInvariant rows (fold_left (linkRow (titleIndex rows)) part st)) as Hfold.
  { induction part as [|row part IH]; intros st Hsub Hinv; [exact Hinv|].
    simpl. apply IH.
    - intros r Hr. apply Hsub. apply elem_of_cons. right. exact Hr.
    - apply linkRow_invariant; [|exact Hinv]. apply Hsub. apply elem_of_cons. left. reflexivity. }
  apply Hfold; [auto|].
  repeat split; simpl.
  - intros [ns H]. rewrite emptyAdjacency_lookup in H.
    case_bool_decide; [assumption | discriminate].
  - intros H. rewrite emptyAdjacency_lookup, bool_decide_eq_true_2 by exact H. eauto.
  - intros label t H. rewrite lookup_empty in H. discriminate.
  - intros a b [ns [H Hb]]. rewrite emptyAdjacency_lookup in H.
    case_bool_decide; [|discriminate]. injection H as <-. inversion Hb.
  - intros a [ns [H Hb]]. rewrite emptyAdjacency_lookup in H.
    case_bool_decide; [|discriminate]. injection H as <-. inversion Hb.
Qed.

(** C5. The relation graph built over any corpus is undirected and has
    no self-loop: a recipe [b] is in the adjacency set of [a] exactly
    when [a] is in the adjacency set of [b], and no recipe is in its own
    adjacency set. *)
Theorem buildAdjacency_undirected (rows : list RelationRecipeRow) (a b : string) :
  (edge (buildAdjacency rows) a b <-> edge (buildAdjacency rows) b a) /\
  ~ edge (buildAdjacency rows) a a.
Proof.
  destruct (buildAdjacency_invariant rows) as (_ & _ & Hsym & Hirr).
  unfold buildAdjacency. split; [split; apply Hsym | apply Hirr].
Qed.

(** ** Component expander *)

Lemma unvisited_add_le (universe visited : list string) (x : string) :
  (unvisited universe (visited ++ [x]) <= unvisited universe visited)%nat.
Proof.
  unfold unvisited. induction universe as [|u universe IH]; [reflexivity|].
  rewrite !filter_cons.
  destruct (decide (u ∉ visited ++ [x])) as [H1|H1],
           (decide (u ∉ visited)) as [H2|H2]; simpl; try lia.
  exfalso. apply H2. intros Hu. apply H1. apply elem_of_app. left. exact Hu.
Qed.

Lemma unvisited_add_lt (universe visited : list string) (x : string) :
  x ∈ universe -> x ∉ visited ->
  (unvisited universe (visited ++ [x]) < unvisited universe visited)%nat.
Proof.
  unfold unvisited. intros Hx Hnv.
  induction universe as [|u universe IH]; [inversion Hx|].
  rewrite !filter_cons.
  pose proof (unvisited_add_le universe visited x) as Hle. unfold unvisited in Hle.
  destruct (decide (u = x)) as [->|Hne].
  - rewrite decide_False, decide_True by
      (try exact Hnv; intros H; apply H; apply elem_of_app; right;
       apply list_elem_of_singleton; reflexivity).
    simpl. lia.
  - apply elem_of_cons in Hx as [Hx | Hx]; [congruence|]. specialize (IH Hx).
    destruct (decide (u ∉ visited ++ [x])) as [H1|H1],
             (decide (u ∉ visited)) as [H2|H2]; simpl; try lia.
    exfalso. apply H2. intros Hu. apply H1. apply elem_of_app. left. exact Hu.
Qed.

Lemma allNeighbours_elem (adjacency : gmap string (list string))
    (k : string) (neighbours : list string) (x : string) :
  adjacency !! k = Some neighbours -> x ∈ neighbours -> x ∈ allNeighbours adjacency.
Proof.
  intros Hk Hx. unfold allNeighbours. apply list_elem_of_In, in_concat.
  exists neighbours. split; [|apply list_elem_of_In; exact Hx].
  apply in_map_iff. exists (k, neighbours). split; [reflexivity|].
  apply list_elem_of_In, elem_of_map_to_list. exact Hk.
Qed.

(** The loop over the neighbours adds the unvisited ones to both the
    visited set and the queue, and does not increase the measure. *)
Lemma visitNeighbours_fold (universe neighbours visited queue : list string) :
  (forall x, x ∈ neighbours -> x ∈ universe) ->
  let st := fold_left visitNeighbour neighbours (visited, queue) in
  (forall x, x ∈ fst st <-> x ∈ visited \/ x ∈ neighbours) /\
  (forall x, x ∈ snd st <-> x ∈ queue \/ (x ∈ neighbours /\ x ∉ visited)) /\
  (length (snd st) + unvisited universe (fst st)
   <= length queue + unvisited universe visited)%nat.
Proof.
  revert visited queue. cbv zeta. induction neighbours as [|n neighbours IH];
    intros visited queue Hsub; cbn [fold_left].
  - simpl. split_and!; [set_solver | set_solver | lia].
  - assert (forall x, x ∈ neighbours -> x ∈ universe) as Hsub' by set_solver.
    assert (visitNeighbour (visited, queue) n
            = if bool_decide (n ∈ visited) then (visited, queue)
              else (visited ++ [n], queue ++ [n])) as -> by reflexivity.
    case_bool_decide as Hn.
    + destruct (IH visited queue Hsub') as (HV & HQ & HM).
      split_and!; [| |exact HM].
      * intros x. rewrite HV. set_solver.
      * intros x. rewrite HQ. set_solver.
    + destruct (IH (visited ++ [n]) (queue ++ [n]) Hsub') as (HV & HQ & HM).
      assert (n ∈ universe) as Hu by set_solver.
      pose proof (unvisited_add_lt universe visited n Hu Hn) as Hlt.
      rewrite length_app in HM. simpl in HM.
      split_and!; [| |lia].
      * intros x. rewrite HV. set_solver.
      * intros x. rewrite HQ. destruct (decide (x = n)); set_solver.
Qed.

(** The loop over the seeds keeps exactly the seeds that are keys. *)
Lemma enqueueSeeds_fold (adjacency : gmap string (list string))
    (seeds visited queue : list string) :
  let st := fold_left (enqueueSeed adjacency) seeds (visited, queue) in
  (forall x, x ∈ fst st <-> x ∈ visited \/ (x ∈ seeds /\ is_Some (adjacency !! x))) /\
  (forall x, x ∈ snd st ->
             x ∈ queue \/ (x ∈ seeds /\ is_Some (adjacency !! x))) /\
  (forall x, x ∈ fst st -> x ∈ visited \/ x ∈ snd st) /\
  (forall x, x ∈ queue -> x ∈ snd st) /\
  (length (snd st) <= length queue + length seeds)%nat.
Proof.
  revert visited queue. cbv zeta. induction seeds as [|s seeds IH];
    intros visited queue; cbn [fold_left].
  - simpl. split_and!; [set_solver | set_solver | set_solver | set_solver | lia].
  - assert (enqueueSeed adjacency (visited, queue) s
            = if negb (bool_decide (is_Some (adjacency !! s)))
                 || bool_decide (s ∈ visited)
              then (visited, queue)
              else (visited ++ [s], queue ++ [s])) as -> by reflexivity.
    destruct (negb (bool_decide (is_Some (adjacency !! s)))
              || bool_decide (s ∈ visited)) eqn:Hskip.
    + destruct (IH visited queue) as (HV & HQ & HP & HK & HL).
      assert (~ is_Some (adjacency !! s) \/ s ∈ visited) as Hs.
      { apply orb_true_iff in Hskip as [Hskip | Hskip].
        - left. apply negb_true_iff, bool_decide_eq_false in Hskip. exact Hskip.
        - right. apply bool_decide_eq_true in Hskip. exact Hskip. }
      split_and!; [| | exact HP | exact HK | simpl; lia].
      * intros x. rewrite HV. set_solver.
      * intros x Hx. apply HQ in Hx. set_solver.
    + apply orb_false_iff in Hskip as [Hkey Hnew].
      apply negb_false_iff, bool_decide_eq_true in Hkey.
      apply bool_decide_eq_false in Hnew.
      destruct (IH (visited ++ [s]) (queue ++ [s])) as (HV & HQ & HP & HK & HL).
      rewrite length_app in HL. simpl in HL.
      split_and!; [| | | | simpl; lia].
      * intros x. rewrite HV. set_solver.
      * intros x Hx. apply HQ in Hx. set_solver.
      * intros x Hx. apply HP in Hx. set_solver.
      * intros x Hx. apply HK. set_solver.
Qed.

(** The loop terminates within its budget. *)
Lemma drainQueue_returns (adjacency : gmap string (list string)) (fuel : nat) :
  forall visited queue,
    (length queue + unvisited (allNeighbours adjacency) visited <= fuel)%nat ->
    is_Some (drainQueue fuel adjacency visited queue).
Proof.
  induction fuel as [|fuel IH]; intros visited queue Hm.
  - destruct queue; simpl in *; [eauto | lia].
  - destruct queue as [|current rest]; [simpl; eauto|].
    cbn [drainQueue]. simpl in Hm.
    destruct (isEmpty current); [apply IH; lia|].
    destruct (adjacency !! current) as [neighbours|] eqn:Hc; [|apply IH; lia].
    destruct (visitNeighbours_fold (allNeighbours adjacency) neighbours visited rest)
      as (_ & _ & HM).
    { intros x Hx. eapply allNeighbours_elem; eassumption. }
    apply IH. simpl in HM. lia.
Qed.

Lemma unvisited_le (universe visited : list string) :
  (unvisited universe visited <= length universe)%nat.
Proof. unfold unvisited. apply length_filter. Qed.

Lemma expandComponent_returns (adjacency : gmap string (list string))
    (uniqueSeeds : list string) :
  is_Some (expandComponent adjacency uniqueSeeds).
Proof.
  unfold expandComponent, queueBudget. apply drainQueue_returns.
  destruct (enqueueSeeds_fold adjacency uniqueSeeds [] []) as (_ & _ & _ & _ & HL).
  pose proof (unvisited_le (allNeighbours adjacency)
                (fst (fold_left (enqueueSeed adjacency) uniqueSeeds ([], [])))).
  simpl in HL. lia.
Qed.

Lemma drainQueue_mono (adjacency : gmap string (list string)) (fuel : nat) :
  forall visited queue result,
    drainQueue fuel adjacency visited queue = Some result ->
    forall x, x ∈ visited -> x ∈ result.
Proof.
  induction fuel as [|fuel IH]; intros visited queue result Hrun x Hx.
  - destruct queue; simpl in Hrun; [congruence | discriminate].
  - destruct queue as [|current rest]; [simpl in Hrun; congruence|].
    cbn [drainQueue] in Hrun.
    destruct (isEmpty current); [eapply IH; eassumption|].
    destruct (adjacency !! current) as [neighbours|]; [|eapply IH; eassumption].
    eapply IH; [exact Hrun|].
    destruct (visitNeighbours_fold neighbours neighbours visited rest) as (HV & _);
      [auto|].
    apply HV. left. exact Hx.
Qed.

Lemma drainQueue_invariant (adjacency : gmap string (list string))
    (seeds : list string) (fuel : nat) :
  (forall y, ~ edge adjacency "" y) ->
  forall visited queue result,
    traversalInvariant adjacency seeds visited queue ->
    drainQueue fuel adjacency visited queue = Some result ->
    traversalInvariant adjacency seeds result [].
Proof.
  intros Hempty. induction fuel as [|fuel IH];
    intros visited queue result Hinv Hrun.
  - destruct queue; simpl in Hrun; [congruence | discriminate].
  - destruct queue as [|current rest]; [simpl in Hrun; congruence|].
    cbn [drainQueue] in Hrun.
    destruct Hinv as (HQ & HR & HC & HS).
    destruct (isEmpty current) eqn:Hcur.
    { apply isEmpty_true in Hcur. subst current.
      eapply IH; [|exact Hrun]. split_and!; [set_solver | exact HR | | exact HS].
      intros x Hx. destruct (HC x Hx) as [Hq | Hcl]; [|auto].
      apply elem_of_cons in Hq as [-> | Hq]; [|auto].
      right. intros y Hy. exfalso. eapply Hempty. exact Hy. }
    destruct (adjacency !! current) as [neighbours|] eqn:Hadj.
    2:{ eapply IH; [|exact Hrun]. split_and!; [set_solver | exact HR | | exact HS].
        intros x Hx. destruct (HC x Hx) as [Hq | Hcl]; [|auto].
        apply elem_of_cons in Hq as [-> | Hq]; [|auto].
        right. intros y [ns [Hns _]]. congruence. }
    destruct (visitNeighbours_fold neighbours neighbours visited rest) as (HV & HQ' & _);
      [auto|].
    eapply IH; [|exact Hrun]. split_and!.
    + intros x Hx. apply HQ' in Hx. apply HV. set_solver.
    + intros x Hx. apply HV in Hx as [Hx | Hx]; [auto|].
      destruct (HR current) as (s & Hs & Hk & Hreach); [set_solver|].
      exists s. split_and!; [exact Hs | exact Hk|].
      eapply rtc_r; [exact Hreach|]. exists neighbours. auto.
    + intros x Hx. apply HV in Hx as [Hx | Hx].
      * destruct (HC x Hx) as [Hq | Hcl].
        -- apply elem_of_cons in Hq as [-> | Hq].
           ++ right. intros y [ns [Hns Hy]]. apply HV. right. congruence.
           ++ left. apply HQ'. auto.
        -- right. intros y Hy. apply HV. left. auto.
      * destruct (decide (x ∈ visited)) as [Hin | Hnin].
        -- destruct (HC x Hin) as [Hq | Hcl].
           ++ apply elem_of_cons in Hq as [-> | Hq].
              ** right. intros y [ns [Hns Hy]]. apply HV. right. congruence.
              ** left. apply HQ'. auto.
           ++ right. intros y Hy. apply HV. left. auto.
        -- left. apply HQ'. auto.
    + intros s Hs Hk. apply HV. left. auto.
Qed.

Lemma enqueueSeeds_invariant (adjacency : gmap string (list string))
    (seeds : list string) :
  traversalInvariant adjacency seeds
    (fst (fold_left (enqueueSeed adjacency) seeds ([], [])))
    (snd (fold_left (enqueueSeed adjacency) seeds ([], []))).
Proof.
  destruct (enqueueSeeds_fold adjacency seeds [] []) as (HV & HQ & HP & _ & _).
  split_and!.
  - intros x Hx. apply HV. apply HQ in Hx. set_solver.
  - intros x Hx. apply HV in Hx as [Hx | [Hx Hk]]; [inversion Hx|].
    exists x. split_and!; [exact Hx | exact Hk | apply rtc_refl].
  - intros x Hx. apply HP in Hx as [Hx | Hx]; [inversion Hx | auto].
  - intros s Hs Hk. apply HV. auto.
Qed.

(** C6, amended. When the empty id has no neighbours, the component
    expander returns, for every adjacency structure and seed list,
    exactly the ids reachable along zero or more edges from a seed that
    is a key of the adjacency structure. *)
Theorem expandComponent_reachable (adjacency : gmap string (list string))
    (seeds : list string) :
  (forall y, ~ edge adjacency "" y) ->
  exists visited,
    expandComponent adjacency seeds = Some visited /\
    forall x, x ∈ visited <->
              exists s, s ∈ seeds /\ is_Some (adjacency !! s) /\ reachable adjacency s x.
Proof.
  intros Hempty.
  destruct (expandComponent_returns adjacency seeds) as [visited Hrun].
  exists visited. split; [exact Hrun|].
  unfold expandComponent in Hrun.
  pose proof (drainQueue_invariant adjacency seeds _ Hempty _ _ _
                (enqueueSeeds_invariant adjacency seeds) Hrun)
    as (_ & HR & HC & HS).
  assert (forall a b, reachable adjacency a b -> a ∈ visited -> b ∈ visited) as Hclosed.
  { intros a b Hreach. induction Hreach as [a | a m b Hedge _ IH]; [auto|].
    intros Ha. apply IH. destruct (HC a Ha) as [Hq | Hcl]; [inversion Hq | auto]. }
  intros x. split; [apply HR|].
  intros (s & Hs & Hk & Hreach). eapply Hclosed; [exact Hreach | auto].
Qed.

Lemma expandComponent_seed (adjacency : gmap string (list string))
    (seeds visited : list string) (s : string) :
  expandComponent adjacency seeds = Some visited ->
  s ∈ seeds -> is_Some (adjacency !! s) -> s ∈ visited.
Proof.
  unfold expandComponent. intros Hrun Hs Hk.
  eapply drainQueue_mono; [exact Hrun|].
  destruct (enqueueSeeds_fold adjacency seeds [] []) as (HV & _).
  apply HV. auto.
Qed.

(** Every recipe of the corpus is a key of the relation graph. *)
Lemma buildAdjacency_keys (rows : list RelationRecipeRow) (k : string) :
  is_Some (buildAdjacency rows !! k) <-> k ∈ map row_id rows.
Proof.
  destruct (buildAdjacency_invariant rows) as (Hkeys & _). apply Hkeys.
Qed.

(** The seeds that are recipes of the corpus are part of the ids the
    request resolves to. *)
Lemma resolveRelatedRecipeIds_seed (docs : list Doc) (seedIds : list string) (s : string) :
  s ∈ uniqueTrimmed seedIds ->
  s ∈ map doc_id docs ->
  exists ids, resolveRelatedRecipeIds docs seedIds = Some ids /\ s ∈ ids.
Proof.
  intros Hs Hd. unfold resolveRelatedRecipeIds.
  destruct (length (uniqueTrimmed seedIds) =? 0)%nat eqn:Hu.
  { apply length_zero_nil in Hu. rewrite Hu in Hs. inversion Hs. }
  destruct (length (fetchRelationRows docs) =? 0)%nat eqn:Hr.
  { apply length_zero_nil in Hr. unfold fetchRelationRows in Hr.
    destruct docs; [inversion Hd | discriminate]. }
  destruct (expandComponent_returns (buildAdjacency (fetchRelationRows docs))
              (uniqueTrimmed seedIds)) as [ids Hrun].
  exists ids. split; [exact Hrun|].
  eapply expandComponent_seed; [exact Hrun | exact Hs|].
  apply buildAdjacency_keys. unfold fetchRelationRows. rewrite map_map. exact Hd.
Qed.

Lemma resolveRelatedRecipeIds_returns (docs : list Doc) (seedIds : list string) :
  is_Some (resolveRelatedRecipeIds docs seedIds).
Proof.
  unfold resolveRelatedRecipeIds.
  destruct (length (uniqueTrimmed seedIds) =? 0)%nat; [eauto|].
  destruct (length (fetchRelationRows docs) =? 0)%nat; [eauto|].
  apply expandComponent_returns.
Qed.

(** C3, amended. For every seed of the list: when the seed is a key of
    the adjacency structure it is in the returned component, and when it
    is the sole seed and has no neighbours it is returned as a
    singleton; when it is not a key, the seed loop does not add it. *)
Theorem keyed_seed_in_component (adjacency : gmap string (list string))
    (seeds : list string) (s : string) :
  s ∈ seeds ->
  exists visited,
    expandComponent adjacency seeds = Some visited /\
    (is_Some (adjacency !! s) -> s ∈ visited) /\
    (seeds = [s] -> adjacency !! s = Some [] -> visited = [s]) /\
    (adjacency !! s = None ->
     (s ∉ fst (fold_left (enqueueSeed adjacency) seeds ([], []))) /\
     (s ∉ snd (fold_left (enqueueSeed adjacency) seeds ([], [])))).
Proof.
  intros Hs.
  destruct (expandComponent_returns adjacency seeds) as [visited Hrun].
  exists visited. split_and!; [exact Hrun | | |].
  - intros Hk. eapply expandComponent_seed; eassumption.
  - intros -> Hnone.
    assert (is_Some (adjacency !! s)) as Hk by (rewrite Hnone; eauto).
    unfold expandComponent, queueBudget in Hrun.
    cbn [fold_left enqueueSeed length] in Hrun.
    rewrite bool_decide_eq_true_2 in Hrun by exact Hk.
    rewrite bool_decide_eq_false_2 in Hrun by apply not_elem_of_nil.
    cbn in Hrun. rewrite Hnone in Hrun.
    destruct (isEmpty s); cbn in Hrun;
      destruct (length (allNeighbours adjacency)); cbn in Hrun; congruence.
  - intros Hnone.
    destruct (enqueueSeeds_fold adjacency seeds [] []) as (HV & HQ & _).
    split.
    + intros Hin. apply HV in Hin as [Hin | [_ [x Hx]]]; [inversion Hin | congruence].
    + intros Hin. apply HQ in Hin as [Hin | [_ [x Hx]]]; [inversion Hin | congruence].
Qed.

(** ** Write chain *)

Lemma tryClients_prefix (env : Env) (recipeId : string) (next : NextVisibility)
    (pre rest : list WriteClient) :
  (forall client, client ∈ pre -> classifiedRecoverable client recipeId next) ->
  forall sawHost sawPerm attempted w,
    tryClients env (pre ++ rest) recipeId next sawHost sawPerm attempted w
    = tryClients env rest recipeId next
        (sawHost || sawClass HostMismatch pre recipeId next)
        (sawPerm || sawClass PermissionFailure pre recipeId next)
        (attempted ++ map source pre)
        {| store := store w; commitLog := commitLog w ++ attemptsOf pre recipeId |}.
Proof.
  induction pre as [|client pre IH]; intros Hrec sawHost sawPerm attempted w.
  - simpl. rewrite !orb_false_r, !app_nil_r. destruct w; reflexivity.
  - assert (forall c, c ∈ pre -> classifiedRecoverable c recipeId next) as Hrec'
      by set_solver.
    destruct (Hrec client) as (error & Hcommit & Hclass); [set_solver|].
    cbn [app tryClients sawClass existsb attemptsOf map]. rewrite Hcommit.
    fold (sawClass HostMismatch pre recipeId next).
    fold (sawClass PermissionFailure pre recipeId next).
    fold (attemptsOf pre recipeId).
    destruct (classify error) eqn:Hc; [| |congruence].
    + rewrite (IH Hrec'). cbn [logCommit store commitLog].
      repeat case_bool_decide; try congruence.
      rewrite <- !List.app_assoc. cbn [app orb]. rewrite ?orb_true_r. reflexivity.
    + rewrite (IH Hrec'). cbn [logCommit store commitLog].
      repeat case_bool_decide; try congruence.
      rewrite <- !List.app_assoc. cbn [app orb]. rewrite ?orb_true_r. reflexivity.
Qed.

Lemma attemptsOf_app (a b : list WriteClient) (recipeId : string) :
  attemptsOf (a ++ b) recipeId = attemptsOf a recipeId ++ attemptsOf b recipeId.
Proof. unfold attemptsOf. apply map_app. Qed.

Lemma classify_host (error : Thrown) :
  classify error = HostMismatch <-> host_mismatch error.
Proof.
  unfold classify, host_mismatch, messageOf. cbv zeta. destruct error as [m|].
  - destruct (includes (toLowerCase m) "session does not match project host") eqn:E.
    + split; [intros _ | reflexivity]. exists m. split; [reflexivity|].
      apply includes_spec, E.
    + split.
      * destruct (includes (toLowerCase m) "insufficient permissions"); discriminate.
      * intros (m' & [= <-] & H). apply includes_spec in H. congruence.
  - split; [discriminate | intros (m & E & _); discriminate].
Qed.

Lemma classify_permission (error : Thrown) :
  classify error = PermissionFailure <-> permission_denial error.
Proof.
  unfold classify, permission_denial, messageOf. cbv zeta. destruct error as [m|].
  - destruct (includes (toLowerCase m) "session does not match project host") eqn:E.
    + split; [discriminate|]. intros (m' & [= <-] & H & _).
      exfalso. apply H, includes_spec, E.
    + destruct (includes (toLowerCase m) "insufficient permissions") eqn:E2.
      * split; [intros _ | reflexivity]. exists m. split; [reflexivity|]. split.
        -- rewrite <- includes_spec, E. discriminate.
        -- apply includes_spec, E2.
      * split; [discriminate|]. intros (m' & [= <-] & _ & H).
        apply includes_spec in H. congruence.
  - split; [discriminate | intros (m & E & _); discriminate].
Qed.

Lemma classify_fatal (error : Thrown) :
  classify error = Fatal <-> ~ host_mismatch error /\ ~ permission_denial error.
Proof.
  rewrite <- classify_host, <- classify_permission.
  destruct (classify error); split; intros H;
    try discriminate; try (split; discriminate); try reflexivity;
    destruct H as [H1 H2]; congruence.
Qed.

Lemma recoverable_classified (client : WriteClient) (recipeId : string)
    (next : NextVisibility) :
  recoverable client recipeId next <-> classifiedRecoverable client recipeId next.
Proof.
  unfold recoverable, fails_with, classifiedRecoverable.
  split; intros (error & Hcommit & H); exists error; (split; [exact Hcommit|]).
  - rewrite classify_fatal. tauto.
  - rewrite <- classify_host, <- classify_permission.
    destruct (classify error); auto. congruence.
Qed.

Lemma sawClass_true (class : FailureClass) (clients : list WriteClient)
    (recipeId : string) (next : NextVisibility) :
  sawClass class clients recipeId next = true
  <-> saw (fun error => classify error = class) clients recipeId next.
Proof.
  unfold sawClass, saw, fails_with. rewrite existsb_exists. split.
  - intros (client & Hin & H). exists client. split; [apply list_elem_of_In, Hin|].
    destruct (commit client recipeId next) as [error|]; [|discriminate].
    exists error. split; [reflexivity | apply bool_decide_eq_true in H; exact H].
  - intros (client & Hin & error & Hcommit & H). exists client.
    split; [apply list_elem_of_In, Hin|]. rewrite Hcommit. apply bool_decide_eq_true, H.
Qed.

Lemma saw_iff (kind kind' : Thrown -> Prop) (clients : list WriteClient)
    (recipeId : string) (next : NextVisibility) :
  (forall error, kind error <-> kind' error) ->
  saw kind clients recipeId next <-> saw kind' clients recipeId next.
Proof.
  intros H. unfold saw, fails_with.
  split; intros (client & Hin & error & Hcommit & Hk); exists client;
    (split; [exact Hin|]); exists error; (split; [exact Hcommit|]); apply H, Hk.
Qed.

Lemma contains_refl (s : string) : contains s s.
Proof. exists "", "". rewrite append_nil_r. reflexivity. Qed.

Lemma contains_prefix (s after search : string) :
  contains s search -> contains (s +:+ after) search.
Proof. intros H. exact (contains_segment "" s after search H). Qed.

Lemma contains_suffix (before s search : string) :
  contains s search -> contains (before +:+ s) search.
Proof.
  intros H. rewrite <- (append_nil_r s). apply contains_segment, H.
Qed.

Lemma contains_join (sep : string) (parts : list string) (part : string) :
  part ∈ parts -> contains (join sep parts) part.
Proof.
  induction parts as [|p ps IH]; intros Hin; [inversion Hin|].
  destruct ps as [|p2 ps].
  - apply list_elem_of_singleton in Hin as ->. apply contains_refl.
  - change (join sep (p :: p2 :: ps)) with (p +:+ sep +:+ join sep (p2 :: ps)).
    apply elem_of_cons in Hin as [-> | Hin].
    + apply contains_prefix, contains_refl.
    + apply contains_suffix, contains_suffix, IH, Hin.
Qed.

Lemma permissionError_names (sources : list string) :
  permission_error sources (permissionError sources).
Proof.
  eexists. split; [reflexivity|]. split.
  - apply contains_prefix, includes_spec. reflexivity.
  - intros name Hin. apply contains_suffix, contains_prefix, contains_join, Hin.
Qed.

Lemma projectError_names (env : Env) : project_error env (projectError env).
Proof.
  unfold projectError. cbv zeta. eexists. split; [reflexivity|]. split.
  - apply contains_prefix, includes_spec. reflexivity.
  - destruct (NEXT_PUBLIC_SANITY_PROJECT_ID env) as [projectId|].
    + apply contains_suffix.
      change (String 34 projectId +:+ ?rest) with (String 34 "" +:+ projectId +:+ rest).
      apply contains_segment, contains_refl.
    + apply includes_spec. reflexivity.
Qed.

Lemma credentialError_names : credential_error credentialError.
Proof.
  eexists. split; [reflexivity|]. apply includes_spec. reflexivity.
Qed.

(** C2. For every recipe write: after the clients that fail with a host
    mismatch or a permission denial the next client of the chain is
    tried; a client that accepts ends the chain with the patch applied; a
    failure of any other kind is thrown unchanged, no later client is
    tried and the loop over the recipes stops with that error; when every
    client fails recoverably an error is thrown after every client was
    tried: an error that tells of the lacking permission and names the
    attempted sources if a permission denial was seen, else an error
    that names the configured project if a host mismatch was seen, else
    the error of a missing or invalid token. *)
Theorem write_chain_classification (env : Env) (clients : list WriteClient)
    (recipeId : string) (next : NextVisibility) (w : World) :
  (forall pre client post,
      clients = pre ++ client :: post ->
      (forall c, c ∈ pre -> recoverable c recipeId next) ->
      commit client recipeId next = None ->
      patchRecipeVisibility env clients recipeId next w
      = (Normal tt,
         {| store := applyPatch recipeId next (store w);
            commitLog := commitLog w ++ attemptsOf (pre ++ [client]) recipeId |})) /\
  (forall pre client post error,
      clients = pre ++ client :: post ->
      (forall c, c ∈ pre -> recoverable c recipeId next) ->
      commit client recipeId next = Some error ->
      ~ host_mismatch error ->
      ~ permission_denial error ->
      patchRecipeVisibility env clients recipeId next w
      = (Throw error,
         {| store := store w;
            commitLog := commitLog w ++ attemptsOf (pre ++ [client]) recipeId |})) /\
  ((forall c, c ∈ clients -> recoverable c recipeId next) ->
   exists error,
     patchRecipeVisibility env clients recipeId next w
     = (Throw error,
        {| store := store w;
           commitLog := commitLog w ++ attemptsOf clients recipeId |}) /\
     (saw permission_denial clients recipeId next ->
      permission_error (map source clients) error) /\
     (~ saw permission_denial clients recipeId next ->
      saw host_mismatch clients recipeId next ->
      project_error env error) /\
     (~ saw permission_denial clients recipeId next ->
      ~ saw host_mismatch clients recipeId next ->
      credential_error error)) /\
  (forall audience value row rows updated error w',
      vrow_id row = recipeId ->
      nextVisibilityOf (vrow_visibility row) audience value = next ->
      patchRecipeVisibility env clients recipeId next w = (Throw error, w') ->
      writeRows env clients audience value (row :: rows) updated w = (Throw error, w')).
Proof.
  unfold patchRecipeVisibility. split_and!.
  - intros pre client post -> Hrec Hcommit.
    rewrite (tryClients_prefix _ _ _ _ _ (fun c Hc => proj1 (recoverable_classified _ _ _)
                                                         (Hrec c Hc))).
    cbn [tryClients]. rewrite Hcommit. unfold logCommit. cbn [store commitLog].
    rewrite attemptsOf_app, <- List.app_assoc. reflexivity.
  - intros pre client post error -> Hrec Hcommit Hhost Hperm.
    assert (classify error = Fatal) as Hclass by (apply classify_fatal; auto).
    rewrite (tryClients_prefix _ _ _ _ _ (fun c Hc => proj1 (recoverable_classified _ _ _)
                                                         (Hrec c Hc))).
    cbn [tryClients]. rewrite Hcommit, Hclass. unfold logCommit. cbn [store commitLog].
    rewrite attemptsOf_app, <- List.app_assoc. reflexivity.
  - intros Hrec.
    pose proof (tryClients_prefix env recipeId next clients []
                  (fun c Hc => proj1 (recoverable_classified _ _ _) (Hrec c Hc))
                  false false [] w) as Hrun.
    rewrite app_nil_r in Hrun. rewrite Hrun. clear Hrun.
    cbn [tryClients orb app].
    pose proof (sawClass_true PermissionFailure clients recipeId next) as Hperm.
    rewrite (saw_iff _ _ _ _ _ classify_permission) in Hperm.
    pose proof (sawClass_true HostMismatch clients recipeId next) as Hhost.
    rewrite (saw_iff _ _ _ _ _ classify_host) in Hhost.
    destruct (sawClass PermissionFailure clients recipeId next).
    { eexists. split; [reflexivity|]. split_and!.
      - intros _. apply permissionError_names.
      - intros H. exfalso. apply H, Hperm. reflexivity.
      - intros H. exfalso. apply H, Hperm. reflexivity. }
    destruct (sawClass HostMismatch clients recipeId next).
    { eexists. split; [reflexivity|]. split_and!.
      - intros H. apply Hperm in H. discriminate.
      - intros _ _. apply projectError_names.
      - intros _ H. exfalso. apply H, Hhost. reflexivity. }
    eexists. split; [reflexivity|]. split_and!.
    + intros H. apply Hperm in H. discriminate.
    + intros _ H. apply Hhost in H. discriminate.
    + intros _ _. apply credentialError_names.
  - intros audience value row rows updated error w' Hid Hnext Hpatch.
    cbn [writeRows]. unfold bind, patchRecipeVisibility.
    rewrite Hid, Hnext, Hpatch. reflexivity.
Qed.

(** ** Propagation *)

Lemma tryClients_world (env : Env) (recipeId : string) (next : NextVisibility)
    (clients : list WriteClient) :
  forall sawHost sawPerm attempted w,
    let r := tryClients env clients recipeId next sawHost sawPerm attempted w in
    (forall v, fst (tryClients env clients recipeId next sawHost sawPerm attempted v)
               = fst r) /\
    store (snd r) = match fst r with
                    | Normal _ => applyPatch recipeId next (store w)
                    | Throw _ => store w
                    end /\
    (forall entry, entry ∈ commitLog (snd r) ->
                   entry ∈ commitLog w \/ snd entry = recipeId).
Proof.
  cbv zeta. induction clients as [|client rest IH];
    intros sawHost sawPerm attempted w; cbn [tryClients].
  - destruct sawPerm; [|destruct sawHost]; simpl; auto.
  - destruct (commit client recipeId next) as [error|].
    + assert (forall entry,
                 entry ∈ commitLog (logCommit (source client) recipeId w) ->
                 entry ∈ commitLog w \/ snd entry = recipeId) as Hlog.
      { intros entry. unfold logCommit. simpl. set_solver. }
      destruct (classify error).
      * destruct (IH true sawPerm (attempted ++ [source client])
                    (logCommit (source client) recipeId w)) as (H1 & H2 & H3).
        split_and!; [intros v; rewrite (H1 (logCommit (source client) recipeId v));
                     reflexivity | exact H2 |].
        intros entry He. apply H3 in He as [He | He]; auto.
      * destruct (IH sawHost true (attempted ++ [source client])
                    (logCommit (source client) recipeId w)) as (H1 & H2 & H3).
        split_and!; [intros v; rewrite (H1 (logCommit (source client) recipeId v));
                     reflexivity | exact H2 |].
        intros entry He. apply H3 in He as [He | He]; auto.
      * simpl. split_and!; auto.
    + simpl. split_and!; auto. intros entry. set_solver.
Qed.

Lemma patch_accepted (env : Env) (clients : list WriteClient) (recipeId : string)
    (next : NextVisibility) (w w' : World) :
  patchRecipeVisibility env clients recipeId next w = (Normal tt, w') ->
  accepted env clients recipeId next.
Proof.
  unfold patchRecipeVisibility. intros Hrun v.
  destruct (tryClients_world env recipeId next clients false false [] v) as (H1 & H2 & H3).
  specialize (H1 w). rewrite Hrun in H1. simpl in H1.
  destruct (tryClients env clients recipeId next false false [] v) as [[[]|e] v'] eqn:E;
    simpl in *; [|discriminate].
  exists v'. auto.
Qed.

Lemma patch_throw_store (env : Env) (clients : list WriteClient) (recipeId : string)
    (next : NextVisibility) (w w' : World) (e : Thrown) :
  patchRecipeVisibility env clients recipeId next w = (Throw e, w') ->
  store w' = store w /\
  forall entry, entry ∈ commitLog w' -> entry ∈ commitLog w \/ snd entry = recipeId.
Proof.
  unfold patchRecipeVisibility. intros Hrun.
  destruct (tryClients_world env recipeId next clients false false [] w) as (_ & H2 & H3).
  rewrite Hrun in H2, H3. simpl in *. auto.
Qed.

Lemma writeRows_app (env : Env) (clients : list WriteClient)
    (audience : AdminAudience) (value : bool) (a b : list VisibilityRow) :
  forall updated w,
    writeRows env clients audience value (a ++ b) updated w
    = match writeRows env clients audience value a updated w with
      | (Normal u, w1) => writeRows env clients audience value b u w1
      | (Throw e, w1) => (Throw e, w1)
      end.
Proof.
  induction a as [|row a IH]; intros updated w; cbn [app writeRows].
  - reflexivity.
  - unfold bind.
    destruct (patchRecipeVisibility env clients (vrow_id row) _ w) as [[[]|e] w1];
      [apply IH | reflexivity].
Qed.

(** A run of the loop that returns has committed the write of every
    row, in order. *)
Lemma writeRows_returns (env : Env) (clients : list WriteClient)
    (audience : AdminAudience) (value : bool) (rows : list VisibilityRow) :
  forall updated w updated' w',
    writeRows env clients audience value rows updated w = (Normal updated', w') ->
    store w' = commitRows audience value rows (store w) /\
    updated' = updated ++ map vrow_id rows /\
    (forall row, row ∈ rows ->
                 accepted env clients (vrow_id row)
                   (nextVisibilityOf (vrow_visibility row) audience value)) /\
    (forall entry, entry ∈ commitLog w' ->
                   entry ∈ commitLog w \/ snd entry ∈ map vrow_id rows).
Proof.
  induction rows as [|row rows IH]; intros updated w updated' w' Hrun;
    cbn [writeRows] in Hrun.
  - injection Hrun as <- <-. rewrite app_nil_r. split_and!; auto. set_solver.
  - unfold bind in Hrun.
    destruct (patchRecipeVisibility env clients (vrow_id row) _ w) as [[[]|e] w1] eqn:Hp;
      [|discriminate].
    pose proof (patch_accepted _ _ _ _ _ _ Hp) as Hacc.
    destruct (Hacc w) as (w1' & Hp' & Hstore & Hlog).
    rewrite Hp in Hp'. injection Hp' as <-.
    destruct (IH _ _ _ _ Hrun) as (H1 & H2 & H3 & H4).
    split_and!.
    + rewrite H1, Hstore. reflexivity.
    + rewrite H2, <- List.app_assoc. reflexivity.
    + intros r Hr. apply elem_of_cons in Hr as [-> | Hr]; auto.
    + intros entry He. apply H4 in He as [He | He].
      * apply Hlog in He as [He | He]; [auto|]. right. rewrite He. set_solver.
      * right. set_solver.
Qed.

(** Conversely, the loop returns when every request is accepted. *)
Lemma writeRows_accepted (env : Env) (clients : list WriteClient)
    (audience : AdminAudience) (value : bool) (rows : list VisibilityRow) :
  (forall row, row ∈ rows ->
               accepted env clients (vrow_id row)
                 (nextVisibilityOf (vrow_visibility row) audience value)) ->
  forall updated w, exists w',
    writeRows env clients audience value rows updated w
    = (Normal (updated ++ map vrow_id rows), w') /\
    store w' = commitRows audience value rows (store w).
Proof.
  induction rows as [|row rows IH]; intros Hacc updated w; cbn [writeRows].
  - exists w. rewrite app_nil_r. auto.
  - destruct (Hacc row) with (w := w) as (w1 & Hp & Hstore & _); [set_solver|].
    unfold bind. rewrite Hp.
    destruct (IH (fun r Hr => Hacc r (list_elem_of_further _ _ _ Hr))
                (updated ++ [vrow_id row]) w1) as (w' & Hrun & Hst).
    exists w'. rewrite Hrun, <- List.app_assoc. split; [reflexivity|].
    rewrite Hst, Hstore. reflexivity.
Qed.

Lemma patchDoc_id (recipeId : string) (next : NextVisibility) (d : Doc) :
  doc_id (patchDoc recipeId next d) = doc_id d.
Proof. unfold patchDoc. destruct (strEq _ _); reflexivity. Qed.

Lemma patchDoc_relationRow (recipeId : string) (next : NextVisibility) (d : Doc) :
  relationRowOf (patchDoc recipeId next d) = relationRowOf d.
Proof. unfold patchDoc. destruct (strEq _ _); reflexivity. Qed.

Lemma withVisibility_patchDoc (recipeId : string) (next next' : NextVisibility) (d : Doc) :
  withVisibility (patchDoc recipeId next' d) next = withVisibility d next.
Proof.
  unfold withVisibility. rewrite patchDoc_id. unfold patchDoc.
  rewrite !strEq_refl. destruct (strEq (doc_id d) recipeId); simpl.
  - rewrite strEq_refl. reflexivity.
  - rewrite strEq_refl. reflexivity.
Qed.

Lemma commitRows_closed (audience : AdminAudience) (value : bool)
    (rows : list VisibilityRow) :
  forall docs,
    commitRows audience value rows docs
    = map (fun d => match lastRequest audience value rows (doc_id d) with
                    | Some next => withVisibility d next
                    | None => d
                    end) docs.
Proof.
  unfold commitRows. induction rows as [|row rows IH]; intros docs; cbn [fold_left].
  - simpl. rewrite map_id. reflexivity.
  - rewrite IH. unfold commitRow, applyPatch. rewrite map_map.
    apply map_ext. intros d. rewrite patchDoc_id. cbn [lastRequest].
    destruct (lastRequest audience value rows (doc_id d)).
    + apply withVisibility_patchDoc.
    + unfold withVisibility, patchDoc. rewrite (strEq_sym (vrow_id row)).
      destruct (strEq (doc_id d) (vrow_id row)) eqn:E; [|reflexivity].
      rewrite strEq_refl. reflexivity.
Qed.

Lemma lastRequest_none (audience : AdminAudience) (value : bool)
    (rows : list VisibilityRow) (recipeId : string) :
  recipeId ∉ map vrow_id rows -> lastRequest audience value rows recipeId = None.
Proof.
  induction rows as [|row rows IH]; intros Hnin; [reflexivity|].
  cbn [lastRequest]. rewrite IH by set_solver.
  destruct (strEq (vrow_id row) recipeId) eqn:E; [|reflexivity].
  apply strEq_eq in E. exfalso. apply Hnin. simpl. rewrite E. set_solver.
Qed.

Lemma lastRequest_some (audience : AdminAudience) (value : bool)
    (rows : list VisibilityRow) (recipeId : string) :
  recipeId ∈ map vrow_id rows ->
  exists row, row ∈ rows /\ vrow_id row = recipeId /\
              lastRequest audience value rows recipeId
              = Some (nextVisibilityOf (vrow_visibility row) audience value).
Proof.
  induction rows as [|row rows IH]; intros Hin; [inversion Hin|].
  cbn [lastRequest].
  destruct (decide (recipeId ∈ map vrow_id rows)) as [Hrest | Hrest].
  - destruct (IH Hrest) as (r & Hr & Hid & Hlast). rewrite Hlast.
    exists r. split_and!; [set_solver | exact Hid | reflexivity].
  - rewrite lastRequest_none by exact Hrest.
    simpl in Hin. apply elem_of_cons in Hin as [-> | Hin]; [|contradiction].
    rewrite strEq_refl. exists row. split_and!; [set_solver | reflexivity..].
Qed.

Lemma currentRowsOf_ids (docs : list Doc) (ids : list string) (recipeId : string) :
  recipeId ∈ map vrow_id (currentRowsOf docs ids)
  <-> recipeId ∈ map doc_id docs /\ recipeId ∈ ids.
Proof.
  unfold currentRowsOf. rewrite map_map. cbn [visibilityRowOf vrow_id].
  rewrite !list_elem_of_In, in_map_iff. split.
  - intros (d & <- & Hd). apply filter_In in Hd as [Hd Hp].
    apply bool_decide_eq_true in Hp.
    split; [apply in_map; exact Hd | apply list_elem_of_In; exact Hp].
  - intros [Hd Hi]. apply in_map_iff in Hd as (d & <- & Hd).
    exists d. split; [reflexivity|]. apply filter_In. split; [exact Hd|].
    apply bool_decide_eq_true, list_elem_of_In. exact Hi.
Qed.

Lemma currentRowsOf_nil (docs : list Doc) : currentRowsOf docs [] = [].
Proof.
  unfold currentRowsOf. induction docs as [|d docs IH]; [reflexivity|].
  cbn [List.filter]. rewrite bool_decide_eq_false_2 by apply not_elem_of_nil. exact IH.
Qed.

Lemma tokenConfigured_assert (env : Env) (w : World) :
  assertWriteTokenConfigured env w
  = if tokenConfigured env then (Normal tt, w) else (Throw missingTokenError, w).
Proof.
  unfold assertWriteTokenConfigured, tokenConfigured.
  destruct (envSet (SANITY_API_WRITE_TOKEN env)), (envSet (SANITY_API_TOKEN env)),
    (envSet (SANITY_API_READ_TOKEN env)); reflexivity.
Qed.

(** The entry point up to the write loop: the token check, the
    resolution of the component and the read of the current rows. *)
Lemma setRecipesVisibility_unfold (env : Env) (clients : list WriteClient)
    (seedIds : list string) (audience : AdminAudience) (value : bool) (w : World) :
  setRecipesVisibility env clients seedIds audience value w
  = if tokenConfigured env then
      let related := relatedOf (store w) seedIds in
      let rows := currentRowsOf (store w) related in
      match writeRows env clients audience value rows [] w with
      | (Normal updated, w') =>
          (Normal {| updatedIds := updated; relatedIds := related |}, w')
      | (Throw e, w') => (Throw e, w')
      end
    else (Throw missingTokenError, w).
Proof.
  unfold setRecipesVisibility, relatedOf, bind at 1. rewrite tokenConfigured_assert.
  destruct (tokenConfigured env); [|reflexivity]. cbv zeta.
  destruct (length (uniqueTrimmed seedIds) =? 0)%nat eqn:Hu.
  { rewrite currentRowsOf_nil. reflexivity. }
  unfold bind at 1, fetchRelatedRecipeIds.
  destruct (resolveRelatedRecipeIds (store w) (uniqueTrimmed seedIds)) as [related|].
  2:{ cbn [length Nat.eqb]. rewrite currentRowsOf_nil. reflexivity. }
  destruct (length related =? 0)%nat eqn:Hr.
  { apply length_zero_nil in Hr. subst related. rewrite currentRowsOf_nil. reflexivity. }
  unfold bind at 1, fetchVisibilityRows.
  destruct (length (currentRowsOf (store w) related) =? 0)%nat eqn:Hc.
  { apply length_zero_nil in Hc. rewrite Hc. reflexivity. }
  unfold bind.
  destruct (writeRows env clients audience value _ [] w) as [[updated|e] w']; reflexivity.
Qed.

Lemma lastRequest_unique (audience : AdminAudience) (value : bool)
    (docs : list Doc) (ids : list string) (d : Doc) :
  NoDup (map doc_id docs) ->
  d ∈ docs ->
  lastRequest audience value (currentRowsOf docs ids) (doc_id d)
  = if bool_decide (doc_id d ∈ ids)
    then Some (nextVisibilityOf (doc_visibility d) audience value)
    else None.
Proof.
  induction docs as [|d0 docs IH]; intros Hnd Hd; [inversion Hd|].
  cbn [map] in Hnd. apply NoDup_cons in Hnd as [Hfresh Hnd].
  assert (forall i, i ∉ map doc_id docs ->
                    lastRequest audience value (currentRowsOf docs ids) i = None) as Hnone.
  { intros i Hi. apply lastRequest_none. rewrite currentRowsOf_ids. tauto. }
  unfold currentRowsOf in *. cbn [List.filter].
  apply elem_of_cons in Hd as [-> | Hd].
  - case_bool_decide as Hin; cbn [map lastRequest].
    + rewrite (Hnone _ Hfresh). cbn [visibilityRowOf vrow_id vrow_visibility].
      rewrite strEq_refl. reflexivity.
    + apply Hnone. exact Hfresh.
  - assert (doc_id d0 <> doc_id d) as Hne.
    { intros E. apply Hfresh. rewrite E.
      apply list_elem_of_In, in_map, list_elem_of_In. exact Hd. }
    destruct (bool_decide (doc_id d0 ∈ ids)); cbn [map lastRequest].
    + rewrite (IH Hnd Hd). cbn [visibilityRowOf vrow_id].
      apply strEq_neq in Hne. rewrite Hne.
      destruct (bool_decide (doc_id d ∈ ids)); reflexivity.
    + apply IH; assumption.
Qed.

Lemma withVisibility_visibility (d : Doc) (next : NextVisibility) :
  doc_visibility (withVisibility d next)
  = Some {| vis_public := Some (next_public next);
            vis_enterprise := Some (next_enterprise next) |}.
Proof. unfold withVisibility, patchDoc. rewrite strEq_refl. reflexivity. Qed.

Lemma written_next (audience : AdminAudience) (value : bool) (d : Doc) :
  withVisibility d (nextVisibilityOf (doc_visibility d) audience value)
  = written audience value d.
Proof.
  unfold withVisibility, patchDoc, written, current_flag. rewrite strEq_refl.
  destruct d as [id title plu ingredients [[[p|] [e|]]|]], audience; reflexivity.
Qed.

(** C4. In a store whose documents have distinct ids, a propagation that
    returns has written every recipe of the expanded component, and no
    other document: the flag of the requested audience is the requested
    value, the flag of the other audience is the current one (a missing
    flag reading as false), both flags are written, and nothing else of
    the document has changed. *)
Theorem propagation_frame (env : Env) (clients : list WriteClient)
    (seedIds : list string) (audience : AdminAudience) (value : bool)
    (w w' : World) (result : PropagationResult) :
  NoDup (map doc_id (store w)) ->
  setRecipesVisibility env clients seedIds audience value w = (Normal result, w') ->
  store w'
  = map (fun d =>
           if bool_decide (doc_id d ∈ relatedIds result)
           then written audience value d
           else d) (store w).
Proof.
  intros Hnd Hrun.
  rewrite setRecipesVisibility_unfold in Hrun.
  destruct (tokenConfigured env); [|discriminate]. cbv zeta in Hrun.
  destruct (writeRows env clients audience value _ [] w) as [[updated|e] w1] eqn:Hw;
    [|discriminate].
  injection Hrun as <- <-. cbn [relatedIds].
  destruct (writeRows_returns _ _ _ _ _ _ _ _ _ Hw) as (Hstore & _).
  rewrite Hstore, commitRows_closed. apply map_ext_in. intros d Hd.
  rewrite lastRequest_unique by (try apply list_elem_of_In; assumption).
  destruct (bool_decide _); [apply written_next | reflexivity].
Qed.

(** C7. When the rows of the component are [pre ++ row :: post], the
    writes for [pre] were committed and the write for [row] throws, the
    propagation throws that same error; the store is the one in which
    the writes for [pre] are committed, and no commit was attempted for
    any other recipe. *)
Theorem partial_failure_visible (env : Env) (clients : list WriteClient)
    (seedIds : list string) (audience : AdminAudience) (value : bool)
    (w w1 w2 : World) (pre post : list VisibilityRow) (row : VisibilityRow)
    (updated : list string) (error : Thrown) :
  tokenConfigured env = true ->
  currentRowsOf (store w) (relatedOf (store w) seedIds) = pre ++ row :: post ->
  writeRows env clients audience value pre [] w = (Normal updated, w1) ->
  patchRecipeVisibility env clients (vrow_id row)
    (nextVisibilityOf (vrow_visibility row) audience value) w1 = (Throw error, w2) ->
  setRecipesVisibility env clients seedIds audience value w = (Throw error, w2) /\
  store w2 = commitRows audience value pre (store w) /\
  updated = map vrow_id pre /\
  (forall entry, entry ∈ commitLog w2 ->
                 entry ∈ commitLog w \/ snd entry ∈ map vrow_id (pre ++ [row])).
Proof.
  intros Htoken Hrows Hpre Hfail.
  destruct (writeRows_returns _ _ _ _ _ _ _ _ _ Hpre) as (Hstore & Hupd & _ & Hlog).
  destruct (patch_throw_store _ _ _ _ _ _ _ Hfail) as (Hstore2 & Hlog2).
  split_and!.
  - rewrite setRecipesVisibility_unfold, Htoken. cbv zeta.
    rewrite Hrows, writeRows_app, Hpre. cbn [writeRows]. unfold bind.
    rewrite Hfail. reflexivity.
  - rewrite Hstore2. exact Hstore.
  - exact Hupd.
  - intros entry He. apply Hlog2 in He as [He | He].
    + apply Hlog in He as [He | He]; [auto|]. right. rewrite map_app. set_solver.
    + right. rewrite map_app, He. set_solver.
Qed.

Lemma nextVisibilityOf_idempotent (d : Doc) (current : option Visibility)
    (audience : AdminAudience) (value : bool) :
  nextVisibilityOf
    (doc_visibility (withVisibility d (nextVisibilityOf current audience value)))
    audience value
  = nextVisibilityOf current audience value.
Proof. rewrite withVisibility_visibility. destruct audience; reflexivity. Qed.

Lemma commitRows_fixed (audience : AdminAudience) (value : bool)
    (rows : list VisibilityRow) (docs : list Doc) :
  (forall row, row ∈ rows -> commitRow audience value docs row = docs) ->
  commitRows audience value rows docs = docs.
Proof.
  unfold commitRows. induction rows as [|row rows IH]; intros Hfix; [reflexivity|].
  cbn [fold_left]. rewrite Hfix by set_solver. apply IH. set_solver.
Qed.

Lemma filter_map_commute {A} (P : A -> bool) (g : A -> A) (l : list A) :
  (forall x, P (g x) = P x) ->
  List.filter P (map g l) = map g (List.filter P l).
Proof.
  intros HP. induction l as [|x l IH]; [reflexivity|].
  cbn [map List.filter]. rewrite HP. destruct (P x); cbn [map]; congruence.
Qed.

(** The store after a committed run, read again. *)
Lemma committed_store_rows (env : Env) (clients : list WriteClient)
    (audience : AdminAudience) (value : bool) (docs : list Doc) (ids : list string) :
  let rows := currentRowsOf docs ids in
  let docs' := commitRows audience value rows docs in
  (forall row, row ∈ rows ->
               accepted env clients (vrow_id row)
                 (nextVisibilityOf (vrow_visibility row) audience value)) ->
  fetchRelationRows docs' = fetchRelationRows docs /\
  map vrow_id (currentRowsOf docs' ids) = map vrow_id rows /\
  (forall row, row ∈ currentRowsOf docs' ids ->
               accepted env clients (vrow_id row)
                 (nextVisibilityOf (vrow_visibility row) audience value)) /\
  commitRows audience value (currentRowsOf docs' ids) docs' = docs'.
Proof.
  cbv zeta. intros Hacc. rewrite commitRows_closed.
  set (rows := currentRowsOf docs ids).
  set (g := fun d => match lastRequest audience value rows (doc_id d) with
                     | Some next => withVisibility d next
                     | None => d
                     end).
  assert (forall d, doc_id (g d) = doc_id d) as Hgid.
  { intros d. unfold g. destruct (lastRequest _ _ _ _); [apply patchDoc_id | reflexivity]. }
  assert (currentRowsOf (map g docs) ids
          = map (fun d => visibilityRowOf (g d))
                (List.filter (fun d => bool_decide (doc_id d ∈ ids)) docs)) as Hrows'.
  { unfold currentRowsOf. rewrite filter_map_commute, map_map; [reflexivity|].
    intros d. rewrite Hgid. reflexivity. }
  assert (forall d, d ∈ docs -> doc_id d ∈ ids ->
                    exists row, row ∈ rows /\ vrow_id row = doc_id d /\
                                g d = withVisibility d
                                        (nextVisibilityOf (vrow_visibility row) audience value))
    as Hg.
  { intros d Hd Hi.
    destruct (lastRequest_some audience value rows (doc_id d)) as (row & Hr & Hid & Hlast).
    - apply currentRowsOf_ids. split; [|exact Hi].
      apply list_elem_of_In, in_map, list_elem_of_In. exact Hd.
    - exists row. split_and!; [exact Hr | exact Hid|]. unfold g. rewrite Hlast. reflexivity. }
  assert (forall row', row' ∈ currentRowsOf (map g docs) ids ->
                       exists d row, d ∈ docs /\ row ∈ rows /\
                                     vrow_id row' = doc_id d /\ vrow_id row = doc_id d /\
                                     g d = withVisibility d
                                             (nextVisibilityOf (vrow_visibility row) audience value) /\
                                     nextVisibilityOf (vrow_visibility row') audience value
                                     = nextVisibilityOf (vrow_visibility row) audience value)
    as Hrow'.
  { intros row' Hr'. rewrite Hrows' in Hr'.
    apply list_elem_of_In, in_map_iff in Hr' as (d & <- & Hd).
    apply filter_In in Hd as [Hd Hi]. apply bool_decide_eq_true in Hi.
    apply list_elem_of_In in Hd.
    destruct (Hg d Hd Hi) as (row & Hr & Hid & Hgd).
    exists d, row. split_and!; auto.
    - cbn [visibilityRowOf vrow_id]. apply Hgid.
    - cbn [visibilityRowOf vrow_visibility]. rewrite Hgd.
      apply nextVisibilityOf_idempotent. }
  split_and!.
  - unfold fetchRelationRows. rewrite map_map. apply map_ext. intros d.
    unfold g. destruct (lastRequest _ _ _ _); [apply patchDoc_relationRow | reflexivity].
  - rewrite Hrows'. unfold rows, currentRowsOf. rewrite !map_map.
    apply map_ext. intros d. cbn [visibilityRowOf vrow_id]. apply Hgid.
  - intros row' Hr'.
    destruct (Hrow' row' Hr') as (d & row & Hd & Hr & Hid' & Hid & _ & Hnext).
    rewrite Hid', <- Hid, Hnext. apply Hacc. exact Hr.
  - apply commitRows_fixed. intros row' Hr'.
    destruct (Hrow' row' Hr') as (d & row & Hd & Hr & Hid' & Hid & Hgd & Hnext).
    unfold commitRow, applyPatch. rewrite map_map.
    apply map_ext_in. intros d2 Hd2. apply list_elem_of_In in Hd2.
    unfold patchDoc at 1. rewrite Hgid.
    destruct (strEq (doc_id d2) (vrow_id row')) eqn:E; [|reflexivity].
    apply strEq_eq in E.
    assert (doc_id d2 ∈ ids) as Hi2.
    { rewrite E, Hid'. apply (currentRowsOf_ids docs ids). rewrite <- Hid.
      apply list_elem_of_In, in_map, list_elem_of_In. exact Hr. }
    destruct (Hg d2 Hd2 Hi2) as (row2 & Hr2 & Hid2 & Hgd2).
    assert (g d2 = withVisibility d2
                     (nextVisibilityOf (vrow_visibility row') audience value)) as Hsame.
    { unfold g in *.
      assert (doc_id d2 = doc_id d) as Ed by congruence.
      rewrite Ed. rewrite Ed in Hgd2.
      destruct (lastRequest audience value rows (doc_id d)) as [n|] eqn:Hl.
      - rewrite Hnext. unfold withVisibility in Hgd.
        assert (doc_visibility (patchDoc (doc_id d) n d)
                = doc_visibility (patchDoc (doc_id d)
                                    (nextVisibilityOf (vrow_visibility row) audience value) d))
          as Hv by (rewrite Hgd; reflexivity).
        fold (withVisibility d n) in Hv.
        fold (withVisibility d (nextVisibilityOf (vrow_visibility row) audience value)) in Hv.
        rewrite !withVisibility_visibility in Hv. injection Hv as Hp He.
        destruct n as [np ne],
          (nextVisibilityOf (vrow_visibility row) audience value) as [rp re].
        simpl in Hp, He. subst. reflexivity.
      - exfalso.
        pose proof (withVisibility_visibility d
                      (nextVisibilityOf (vrow_visibility row) audience value)) as Hv.
        rewrite <- Hgd in Hv.
        destruct (lastRequest_some audience value rows (doc_id d)) as (r3 & _ & _ & Hl3).
        + rewrite <- Hid. apply list_elem_of_In, in_map, list_elem_of_In. exact Hr.
        + congruence. }
    rewrite Hsame. unfold withVisibility, patchDoc.
    rewrite strEq_refl. reflexivity.
Qed.

Lemma relatedOf_rows (docs docs' : list Doc) (seedIds : list string) :
  fetchRelationRows docs' = fetchRelationRows docs ->
  relatedOf docs' seedIds = relatedOf docs seedIds.
Proof.
  intros E. unfold relatedOf, resolveRelatedRecipeIds. rewrite E. reflexivity.
Qed.

(** C8. When a propagation has returned, running it again with the same
    seeds, audience and value on the resulting store returns as well,
    with the same result, and leaves the visibility of every recipe as
    the first run left it. The write clients answer a request by its
    recipe id and its next state alone. *)
Theorem propagation_idempotent (env : Env) (clients : list WriteClient)
    (seedIds : list string) (audience : AdminAudience) (value : bool)
    (w w1 : World) (result : PropagationResult) :
  setRecipesVisibility env clients seedIds audience value w = (Normal result, w1) ->
  exists w2,
    setRecipesVisibility env clients seedIds audience value w1 = (Normal result, w2) /\
    store w2 = store w1.
Proof.
  intros Hrun. rewrite setRecipesVisibility_unfold in Hrun.
  rewrite setRecipesVisibility_unfold.
  destruct (tokenConfigured env); [|discriminate]. cbv zeta in *.
  destruct (writeRows env clients audience value _ [] w) as [[updated|e] w1'] eqn:Hw;
    [|discriminate].
  injection Hrun as <- <-.
  destruct (writeRows_returns _ _ _ _ _ _ _ _ _ Hw) as (Hstore & Hupd & Hacc & _).
  destruct (committed_store_rows env clients audience value (store w)
              (relatedOf (store w) seedIds) Hacc) as (Hrel & Hids & Hacc' & Hfix).
  rewrite <- Hstore in Hrel, Hids, Hacc', Hfix.
  rewrite (relatedOf_rows _ _ _ Hrel).
  destruct (writeRows_accepted env clients audience value _ Hacc' [] w1')
    as (w2 & Hrun2 & Hstore2).
  exists w2. rewrite Hrun2. split.
  - simpl. rewrite Hids, Hupd. reflexivity.
  - rewrite Hstore2. exact Hfix.
Qed.

(** ** Sub-recipe navigation *)

Lemma resolveTarget_assign (rows : list NormalizedRow)
    (result : TargetMap) (label : string) :
  resolveTarget rows result label = assign label (entryOf rows label) result.
Proof.
  unfold resolveTarget, entryOf. destruct (isEmpty _); reflexivity.
Qed.

Lemma lookup_own (result : TargetMap) (k : string) : result !! k = own result !! k.
Proof. reflexivity. Qed.

(** An assignment to a key other than [__proto__] creates or overwrites
    the own property and leaves the prototype. *)
Lemma assign_ordinary (key : string) (value : option SubRecipeTarget)
    (result : TargetMap) :
  key <> "__proto__" ->
  assign key value result
  = {| own := <[key := value]> (own result); proto := proto result |}.
Proof.
  intros Hne. unfold assign. rewrite (proj2 (strEq_neq _ _) Hne).
  destruct (own result !! key); reflexivity.
Qed.

(** The first assignment to [__proto__] sets the prototype and creates
    no property. *)
Lemma assign_proto (value : option SubRecipeTarget) (result : TargetMap) :
  result !! "__proto__" = None ->
  proto result = ObjectPrototype ->
  assign "__proto__" value result
  = {| own := own result;
       proto := match value with
                | Some t => TargetPrototype t
                | None => NullPrototype
                end |}.
Proof.
  rewrite lookup_own. intros Hown Hproto. unfold assign.
  rewrite Hown, Hproto. reflexivity.
Qed.

Lemma assign_lookup (key : string) (value : option SubRecipeTarget)
    (result : TargetMap) (k : string) :
  k <> "__proto__" ->
  assign key value result !! k = if decide (key = k) then Some value else result !! k.
Proof.
  intros Hk. rewrite !lookup_own. unfold assign.
  destruct (decide (key = k)) as [-> | Hne].
  - rewrite (proj2 (strEq_neq _ _) Hk).
    destruct (own result !! k); cbn [own]; apply lookup_insert_eq.
  - destruct (own result !! key);
      [|destruct (strEq key "__proto__" && inheritsProtoAccessor (proto result))];
      cbn [own]; rewrite ?lookup_insert_ne by exact Hne; reflexivity.
Qed.

(** The own properties after the loop over the labels, for every key
    but [__proto__]. *)
Lemma resolveTargets_lookup (rows : list NormalizedRow) (labels : list string) :
  forall (result : TargetMap) (k : string),
    k <> "__proto__" ->
    fold_left (resolveTarget rows) labels result !! k
    = if bool_decide (k ∈ labels) then Some (entryOf rows k) else result !! k.
Proof.
  induction labels as [|label labels IH]; intros result k Hk; cbn [fold_left].
  - rewrite bool_decide_eq_false_2 by apply not_elem_of_nil. reflexivity.
  - rewrite IH, resolveTarget_assign, assign_lookup by exact Hk.
    destruct (decide (k ∈ labels)) as [Hin | Hnin].
    + rewrite !bool_decide_eq_true_2 by set_solver. reflexivity.
    + rewrite (bool_decide_eq_false_2 _ Hnin).
      destruct (decide (label = k)) as [-> | Hne].
      * rewrite bool_decide_eq_true_2 by set_solver. reflexivity.
      * rewrite bool_decide_eq_false_2 by set_solver. reflexivity.
Qed.

(** Labels other than [__proto__] leave the prototype, and the absence
    of an own property [__proto__], as they are. *)
Lemma resolveTargets_keep_proto (rows : list NormalizedRow) (labels : list string) :
  forall result : TargetMap,
    "__proto__" ∉ labels ->
    fold_left (resolveTarget rows) labels result !! "__proto__" = result !! "__proto__" /\
    proto (fold_left (resolveTarget rows) labels result) = proto result.
Proof.
  induction labels as [|label labels IH]; intros result Hnin; cbn [fold_left].
  - auto.
  - apply not_elem_of_cons in Hnin as [Hne Hnin].
    destruct (IH (resolveTarget rows result label) Hnin) as [-> ->].
    rewrite resolveTarget_assign, assign_ordinary by congruence.
    rewrite !lookup_own. cbn [own proto].
    rewrite lookup_insert_ne by congruence. auto.
Qed.

(** The key [__proto__] after the loop over distinct labels: it is no
    own property, and the prototype is the entry of the label
    [__proto__] when it is among the labels. *)
Lemma resolveTargets_proto (rows : list NormalizedRow) (labels : list string) :
  forall result : TargetMap,
    NoDup labels ->
    result !! "__proto__" = None ->
    proto result = ObjectPrototype ->
    fold_left (resolveTarget rows) labels result !! "__proto__" = None /\
    proto (fold_left (resolveTarget rows) labels result)
    = if bool_decide ("__proto__" ∈ labels)
      then prototypeOf (entryOf rows "__proto__") else ObjectPrototype.
Proof.
  induction labels as [|label labels IH]; intros result Hnd Hown Hproto; cbn [fold_left].
  - rewrite bool_decide_eq_false_2 by apply not_elem_of_nil. auto.
  - apply NoDup_cons in Hnd as [Hnin Hnd].
    rewrite resolveTarget_assign.
    destruct (decide (label = "__proto__")) as [-> | Hne].
    + rewrite (assign_proto _ _ Hown Hproto).
      destruct (resolveTargets_keep_proto rows labels
                  {| own := own result;
                     proto := match entryOf rows "__proto__" with
                              | Some t => TargetPrototype t
                              | None => NullPrototype
                              end |} Hnin) as [-> ->].
      rewrite bool_decide_eq_true_2 by set_solver. split; [exact Hown | reflexivity].
    + rewrite assign_ordinary by exact Hne.
      assert ({| own := <[label := entryOf rows label]> (own result);
                 proto := proto result |} !! "__proto__" = None) as Hown'.
      { rewrite lookup_own. cbn [own]. rewrite lookup_insert_ne by exact Hne. exact Hown. }
      destruct (IH _ Hnd Hown' Hproto) as [-> ->].
      split; [reflexivity|].
      rewrite (bool_decide_ext ("__proto__" ∈ label :: labels) ("__proto__" ∈ labels));
        [reflexivity | set_solver].
Qed.

Lemma uniqueOf_fold (values acc : list string) (x : string) :
  x ∈ fold_left (fun set v => setAdd v set) values acc <-> x ∈ acc \/ x ∈ values.
Proof.
  revert acc. induction values as [|v values IH]; intros acc; cbn [fold_left].
  - set_solver.
  - rewrite IH, elem_of_setAdd. set_solver.
Qed.

Lemma elem_of_uniqueTrimmed (values : list string) (k : string) :
  k ∈ uniqueTrimmed values <-> k <> "" /\ exists v, v ∈ values /\ k = trim v.
Proof.
  unfold uniqueTrimmed, uniqueOf. rewrite uniqueOf_fold. split.
  - intros [H | H]; [inversion H|].
    apply list_elem_of_In, filter_In in H as [H Hne].
    apply in_map_iff in H as (v & <- & Hv). apply truthy_true in Hne.
    split; [exact Hne|]. exists v. split; [apply list_elem_of_In; exact Hv | reflexivity].
  - intros [Hne (v & Hv & ->)]. right. apply list_elem_of_In, filter_In.
    split; [apply in_map, list_elem_of_In; exact Hv | apply truthy_true; exact Hne].
Qed.

Lemma scoreTitleMatch_nonneg (labelNorm titleNorm : string) :
  0 <= scoreTitleMatch labelNorm titleNorm.
Proof.
  pose proof (scoreTitleMatch_range labelNorm titleNorm) as H. simpl in H. lia.
Qed.

(** The loop keeps the maximum of the scores, and a target whose flag
    tells whether that maximum reaches 72. *)
Lemma bestTarget_fold (labelNorm : string) (rows : list NormalizedRow) :
  forall init : option SubRecipeTarget * Z,
    0 <= snd init ->
    (snd init = 0 -> fst init = None) ->
    (0 < snd init -> exists t, fst init = Some t /\ directMatch t = (72 <=? snd init)) ->
    let best :=
      fold_left
        (fun best row =>
           let score := scoreTitleMatch labelNorm (nrow_norm row) in
           if snd best <? score then
             (Some {| target_id := nrow_id row; target_title := nrow_title row;
                      target_pluNumber := nrow_pluNumber row;
                      directMatch := 72 <=? score |}, score)
           else best)
        rows init in
    snd best
    = Z.max (snd init)
        (fold_right Z.max 0 (map (fun row => scoreTitleMatch labelNorm (nrow_norm row)) rows)) /\
    (snd best = 0 -> fst best = None) /\
    (0 < snd best -> exists t, fst best = Some t /\ directMatch t = (72 <=? snd best)).
Proof.
  cbv zeta. induction rows as [|row rows IH]; intros init H0 Hnone Hsome;
    cbn [fold_left map fold_right].
  - split_and!; [lia | exact Hnone | exact Hsome].
  - pose proof (scoreTitleMatch_nonneg labelNorm (nrow_norm row)) as Hs.
    destruct (snd init <? scoreTitleMatch labelNorm (nrow_norm row)) eqn:Hlt.
    + apply Z.ltb_lt in Hlt.
      destruct (IH (Some {| target_id := nrow_id row; target_title := nrow_title row;
                            target_pluNumber := nrow_pluNumber row;
                            directMatch := 72 <=? scoreTitleMatch labelNorm (nrow_norm row) |},
                    scoreTitleMatch labelNorm (nrow_norm row)))
        as (H1 & H2 & H3); cbn [fst snd]; [lia | lia | eauto |].
      cbn [fst snd] in H1. split_and!; [lia | exact H2 | exact H3].
    + apply Z.ltb_ge in Hlt.
      destruct (IH init H0 Hnone Hsome) as (H1 & H2 & H3).
      split_and!; [lia | exact H2 | exact H3].
Qed.

Lemma bestTarget_flag (labelNorm : string) (rows : list NormalizedRow) :
  (snd (bestTarget labelNorm rows) = 0 -> fst (bestTarget labelNorm rows) = None) /\
  (0 < snd (bestTarget labelNorm rows) ->
   exists t, fst (bestTarget labelNorm rows) = Some t /\
             directMatch t = (72 <=? snd (bestTarget labelNorm rows))).
Proof.
  destruct (bestTarget_fold labelNorm rows (None, 0)) as (_ & H2 & H3);
    [simpl; lia | intros _; reflexivity | simpl; lia |].
  split; [exact H2 | exact H3].
Qed.

Lemma bestTarget_score (label : string) (options : NavigationOptions) (docs : list Doc) :
  snd (bestTarget (normalizeComparableText label) (fetchTitleRows options docs))
  = bestMatchScore label (corpusTitles options docs).
Proof.
  unfold bestTarget, bestMatchScore, corpusTitles.
  destruct (bestTarget_fold (normalizeComparableText label) (fetchTitleRows options docs)
              (None, 0)) as (H1 & _);
    [simpl; lia | intros _; reflexivity | simpl; lia |].
  etransitivity; [exact H1|]. cbn [snd]. unfold fetchTitleRows. rewrite !map_map. cbn [nrow_norm nrow_title].
  unfold score.
  set (scores := map _ _).
  assert (0 <= fold_right Z.max 0 scores) as Hpos.
  { clearbody scores. induction scores; cbn [fold_right]; lia. }
  lia.
Qed.

Lemma bestMatchScore_blank (label : string) (titles : list string) :
  normalizeComparableText label = "" -> bestMatchScore label titles = 0.
Proof.
  intros E. unfold bestMatchScore, score. rewrite E.
  induction titles as [|t titles IH]; [reflexivity|].
  cbn [map fold_right]. rewrite IH. reflexivity.
Qed.


End Properties.

(** ** Worked examples *)

Example expand_chain_from_A :
  expandComponent chainGraph ["A"] = Some ["A"; "B"; "C"; "D"].
Proof. vm_compute. reflexivity. Qed.

Example expand_chain_from_C :
  expandComponent chainGraph ["C"] = Some ["C"; "B"; "D"; "A"].
Proof. vm_compute. reflexivity. Qed.

Example expand_two_components :
  expandComponent twoComponents ["A"; "C"] = Some ["A"; "C"; "B"; "D"].
Proof. vm_compute. reflexivity. Qed.

Example score_nine_of_ten :
  score "a b c d e f g h i j" "x a b c d e f g h i" = 78.
Proof. vm_compute. reflexivity. Qed.

Example score_seven_of_ten :
  score "a b c d e f g h i j" "x a b c d e f g" = 68.
Proof. vm_compute. reflexivity. Qed.

Example score_five_of_ten :
  score "a b c d e f g h i j" "x a b c d e" = 0.
Proof. vm_compute. reflexivity. Qed.

Example score_three_of_four : score "a b c d" "x a b c" = 72.
Proof. vm_compute. reflexivity. Qed.

Example score_equal : score "Pickled  Red-Onion!" "pickled red onion" = 120.
Proof. vm_compute. reflexivity. Qed.

Example score_contained : score "red onion" "Pickled Red Onion" = 85.
Proof. vm_compute. reflexivity. Qed.

Example score_blank : score "!!!" "Pickled Red Onion" = 0.
Proof. vm_compute. reflexivity. Qed.

Example extract_label :
  extractPtnReference (Some "10 PTN Pickled Red Onio") = Some "Pickled Red Onio".
Proof. vm_compute. reflexivity. Qed.

(** A no-break space (U+00A0) and a byte order mark (U+FEFF) are white
    space: [trim] removes them, and [\s+] accepts them after the
    marker. *)
Example trim_no_break_space :
  trim (String 0xA0 ("Aioli" +:+ String 0xFEFF "")) = "Aioli" /\
  extractPtnReference (Some ("2 PTN" +:+ String 0xA0 ("Aioli" +:+ String 0xA0 "")))
  = Some "Aioli".
Proof. vm_compute. auto. Qed.

(** A line separator (U+2028) is a line terminator: [.] does not match
    it, so the capture cannot reach the end of the text. *)
Example extract_line_separator :
  extractPtnReference (Some ("1 PTN A" +:+ String 0x2028 "B")) = None.
Proof. vm_compute. reflexivity. Qed.

(** Code units outside ASCII separate the words of the normaliser. *)
Example normalize_outside_ascii :
  normalizeComparableText ("caf" +:+ String 0xE9 " au lait") = "caf au lait".
Proof. vm_compute. reflexivity. Qed.

(** The lower-case mapping outside ASCII: a capital I with a dot
    (U+0130) becomes [i] and a combining dot (U+0307), which separates
    words; the Kelvin sign (U+212A) becomes [k]; a capital sigma at the
    end of a word becomes the final sigma (U+03C2); a letter written as a
    surrogate pair (U+10400) is mapped as one code point. *)
Example toLowerCase_outside_ascii :
  toLowerCase (String 0x130 "ZMIR") = "i" +:+ String 0x307 "zmir" /\
  normalizeComparableText (String 0x212A (" 2 " +:+ String 0x130 "zmir")) = "k 2 i zmir" /\
  toLowerCase (String 0x39F (String 0x394 (String 0x39F (String 0x3A3 ""))))
  = String 0x3BF (String 0x3B4 (String 0x3BF (String 0x3C2 ""))) /\
  toLowerCase (String 0xD801 (String 0xDC00 "")) = String 0xD801 (String 0xDC28 "").
Proof. vm_compute. auto. Qed.

Example extract_lower_case_marker :
  extractPtnReference (Some "2 ptn  Aioli ") = Some "Aioli".
Proof. vm_compute. reflexivity. Qed.

Example extract_no_marker : extractPtnReference (Some "10 g CAPTN Salt") = None.
Proof. vm_compute. reflexivity. Qed.

Example graph_of_sample :
  buildAdjacency (fetchRelationRows sampleDocs) !! "m" = Some ["a"; "b"; "c"; "d"] /\
  buildAdjacency (fetchRelationRows sampleDocs) !! "b" = Some ["m"] /\
  buildAdjacency (fetchRelationRows sampleDocs) !! "z" = Some [].
Proof. vm_compute. auto. Qed.

Example related_of_sample :
  resolveRelatedRecipeIds sampleDocs [" d "] = Some ["d"; "m"; "a"; "b"; "c"].
Proof. vm_compute. reflexivity. Qed.

(** The third of five members fails with a permission denial on every
    client: the propagation raises the permission error, the first two
    members are changed and the other three are not. *)
Example partial_failure_sample :
  setRecipesVisibility sampleEnv deniedChain ["m"] AudEnterprise true sampleWorld
  = (Throw (permissionError ["SANITY_API_WRITE_TOKEN"; "SANITY_API_TOKEN"]), sampleFailed) /\
  map (fun d => (doc_id d, doc_visibility d)) (store sampleFailed)
  = [ ("m", Some (mkVisibility (Some false) (Some true)));
      ("a", Some (mkVisibility (Some true) (Some true)));
      ("z", Some (mkVisibility (Some true) (Some false)));
      ("b", None);
      ("c", Some (mkVisibility None (Some true)));
      ("d", None) ].
Proof. vm_compute. auto. Qed.

Example chain_falls_through :
  patchRecipeVisibility sampleEnv mixedChain "a" (mkNext true true) sampleWorld
  = (Normal tt,
     {| store := applyPatch "a" (mkNext true true) sampleDocs;
        commitLog := [("SANITY_API_WRITE_TOKEN", "a"); ("SANITY_API_TOKEN", "a");
                      ("SANITY_API_READ_TOKEN", "a")] |}).
Proof. vm_compute. reflexivity. Qed.

Example chain_project_error :
  fst (patchRecipeVisibility sampleEnv [foreignClient "SANITY_API_WRITE_TOKEN"] "a"
         (mkNext true true) sampleWorld)
  = Throw (projectError sampleEnv).
Proof. vm_compute. reflexivity. Qed.

Example chain_stops_at_unknown_failure :
  patchRecipeVisibility sampleEnv
    [foreignClient "SANITY_API_WRITE_TOKEN"; unreachableClient "SANITY_API_TOKEN";
     acceptingClient "SANITY_API_READ_TOKEN"] "a" (mkNext true true) sampleWorld
  = (Throw (ErrorObject "fetch failed"),
     {| store := sampleDocs;
        commitLog := [("SANITY_API_WRITE_TOKEN", "a"); ("SANITY_API_TOKEN", "a")] |}).
Proof. vm_compute. reflexivity. Qed.

Example no_token_configured :
  setRecipesVisibility (mkEnv None (Some "") None None) acceptingChain ["m"]
    AudPublic true sampleWorld
  = (Throw missingTokenError, sampleWorld).
Proof. vm_compute. reflexivity. Qed.

Example empty_seed_list :
  setRecipesVisibility sampleEnv acceptingChain ["  "; ""] AudPublic true sampleWorld
  = (Normal {| updatedIds := []; relatedIds := [] |}, sampleWorld).
Proof. vm_compute. reflexivity. Qed.

(** ** Witnesses and counterexamples *)

(** The chain graph has no empty id. *)
Lemma chainGraph_no_empty_id : forall y, ~ edge chainGraph "" y.
Proof. intros y (ns & E & _). vm_compute in E. discriminate. Qed.

(** The component of A in the chain graph. *)
Lemma expandComponent_reachable_witness :
  (forall y, ~ edge chainGraph "" y) /\
  exists visited,
    expandComponent chainGraph ["A"] = Some visited /\
    forall x, x ∈ visited <->
              exists s, s ∈ ["A"] /\ is_Some (chainGraph !! s) /\ reachable chainGraph s x.
Proof.
  split; [exact chainGraph_no_empty_id|].
  apply (expandComponent_reachable chainGraph ["A"]). exact chainGraph_no_empty_id.
Defined.

(** C6 as stated fails: a seed that is no key of the adjacency structure
    is reachable from itself along zero edges and is not returned. *)
Lemma expandComponent_skips_absent_seed :
  ~ (forall (adjacency : gmap string (list string)) (seeds : list string),
        exists visited,
          expandComponent adjacency seeds = Some visited /\
          forall x, x ∈ visited <-> exists s, s ∈ seeds /\ reachable adjacency s x).
Proof.
  intros H. destruct (H chainGraph ["A"; "Z"]) as (visited & Hrun & Hspec).
  vm_compute in Hrun. injection Hrun as <-.
  assert ("Z" ∈ ["A"; "B"; "C"; "D"]) as Hin.
  { apply Hspec. exists "Z". split; [set_solver | apply rtc_refl]. }
  set_solver.
Qed.

(** A recipe without edges, given as the only seed, and an unknown id
    given as the only seed. *)
Lemma keyed_seed_in_component_witness :
  ("a" ∈ ["a"] /\ loneRecipe !! "a" = Some [] /\
   exists visited, expandComponent loneRecipe ["a"] = Some visited /\ visited = ["a"]) /\
  ("b" ∈ ["b"] /\ loneRecipe !! "b" = None /\
   ("b" ∉ fst (fold_left (enqueueSeed loneRecipe) ["b"] ([], [])))).
Proof.
  assert ("a" ∈ ["a"]) as Ha by (apply list_elem_of_here).
  assert ("b" ∈ ["b"]) as Hb by (apply list_elem_of_here).
  assert (loneRecipe !! "a" = Some []) as Hkey by (vm_compute; reflexivity).
  assert (loneRecipe !! "b" = None) as Hnone by (vm_compute; reflexivity).
  split.
  - split; [exact Ha|]. split; [exact Hkey|].
    destruct (keyed_seed_in_component loneRecipe ["a"] "a" Ha)
      as (visited & Hrun & _ & Hsingle & _).
    exists visited. split; [exact Hrun | exact (Hsingle eq_refl Hkey)].
  - split; [exact Hb|]. split; [exact Hnone|].
    destruct (keyed_seed_in_component loneRecipe ["b"] "b" Hb)
      as (visited & _ & _ & _ & Hskip).
    exact (proj1 (Hskip Hnone)).
Defined.

(** C3 as stated fails: a seed that is absent from the adjacency
    structure is skipped. *)
Lemma absent_seed_not_included :
  ~ (forall (adjacency : gmap string (list string)) (seeds : list string) (s : string),
        s ∈ seeds -> adjacency !! s = None ->
        exists visited, expandComponent adjacency seeds = Some visited /\ s ∈ visited).
Proof.
  intros H. destruct (H loneRecipe ["b"] "b") as (visited & Hrun & Hin).
  - apply list_elem_of_here.
  - vm_compute. reflexivity.
  - vm_compute in Hrun. injection Hrun as <-. inversion Hin.
Qed.

(** The sample corpus and its propagation run. *)
Lemma sample_ids_distinct : NoDup (map doc_id (store sampleWorld)).
Proof. apply (bool_decide_unpack _). vm_compute. exact I. Qed.

Lemma sample_run :
  setRecipesVisibility sampleEnv acceptingChain ["m"] AudEnterprise true sampleWorld
  = (Normal sampleResult, sampleAfter).
Proof. vm_compute. reflexivity. Qed.

(** The frame property on the sample run: the main recipe and its four
    sub-recipes get the enterprise flag and keep their public flag, a
    missing one being written as false; the unrelated recipe [z] is
    untouched. *)
Lemma propagation_frame_witness :
  NoDup (map doc_id (store sampleWorld)) /\
  setRecipesVisibility sampleEnv acceptingChain ["m"] AudEnterprise true sampleWorld
  = (Normal sampleResult, sampleAfter) /\
  store sampleAfter
  = [ mkDoc "m" (Some "Feast") 1
        (Some [ mkIngredient (Some "1 PTN Alpha Dip") None;
                mkIngredient None (Some "2 PTN Beta Dip");
                mkIngredient (Some "3 PTN Gamma Dip") (Some "3 PTN Gamma Dip");
                mkIngredient (Some "4 PTN Delta Dip") None ])
        (Some (mkVisibility (Some false) (Some true)));
      mkDoc "a" (Some "Alpha Dip") 2 None
        (Some (mkVisibility (Some true) (Some true)));
      mkDoc "z" (Some "Bread") 3 (Some [mkIngredient (Some "flour") (Some "500 g flour")])
        (Some (mkVisibility (Some true) (Some false)));
      mkDoc "b" (Some "Beta Dip") 4 None
        (Some (mkVisibility (Some false) (Some true)));
      mkDoc "c" (Some "Gamma Dip") 5 None
        (Some (mkVisibility (Some false) (Some true)));
      mkDoc "d" (Some "Delta Dip") 6 None
        (Some (mkVisibility (Some false) (Some true))) ].
Proof.
  split; [exact sample_ids_distinct|]. split; [exact sample_run|].
  exact (propagation_frame sampleEnv acceptingChain ["m"] AudEnterprise true
           sampleWorld sampleAfter sampleResult sample_ids_distinct sample_run).
Defined.

(** The sample run, repeated. *)
Lemma propagation_idempotent_witness :
  setRecipesVisibility sampleEnv acceptingChain ["m"] AudEnterprise true sampleWorld
  = (Normal sampleResult, sampleAfter) /\
  exists w2,
    setRecipesVisibility sampleEnv acceptingChain ["m"] AudEnterprise true sampleAfter
    = (Normal sampleResult, w2) /\
    store w2 = store sampleAfter.
Proof.
  split; [exact sample_run|].
  apply (propagation_idempotent sampleEnv acceptingChain ["m"] AudEnterprise true
           sampleWorld sampleAfter sampleResult sample_run).
Defined.

(** The sample run with recipe [b] denied on every client. *)
Lemma partial_failure_visible_witness :
  setRecipesVisibility sampleEnv deniedChain ["m"] AudEnterprise true sampleWorld
  = (Throw (permissionError ["SANITY_API_WRITE_TOKEN"; "SANITY_API_TOKEN"]), sampleFailed) /\
  store sampleFailed = commitRows AudEnterprise true rowsBefore (store sampleWorld) /\
  ["m"; "a"] = map vrow_id rowsBefore /\
  (forall entry, entry ∈ commitLog sampleFailed ->
                 entry ∈ commitLog sampleWorld
                 \/ snd entry ∈ map vrow_id (rowsBefore ++ [rowFailing])).
Proof.
  apply (partial_failure_visible sampleEnv deniedChain ["m"] AudEnterprise true
           sampleWorld sampleCommitted sampleFailed rowsBefore rowsAfter rowFailing
           ["m"; "a"]
           (permissionError ["SANITY_API_WRITE_TOKEN"; "SANITY_API_TOKEN"])).
  - vm_compute. reflexivity.
  - vm_compute. reflexivity.
  - vm_compute. reflexivity.
  - vm_compute. reflexivity.
Defined.

Lemma foreign_failure :
  host_mismatch (ErrorObject "Session does not match project host").
Proof.
  eexists. split; [reflexivity|]. apply includes_spec. vm_compute. reflexivity.
Qed.

Lemma denied_failure :
  permission_denial (ErrorObject "Insufficient permissions; permission update required").
Proof.
  eexists. split; [reflexivity|]. split.
  - rewrite <- includes_spec. vm_compute. discriminate.
  - apply includes_spec. vm_compute. reflexivity.
Qed.

(** A chain whose first two clients fail recoverably and whose third
    accepts. *)
Lemma mixedChain_recoverable :
  forall c, c ∈ [foreignClient "SANITY_API_WRITE_TOKEN"; deniedClient "SANITY_API_TOKEN" "a"] ->
            recoverable c "a" (mkNext true true).
Proof.
  intros c Hc. apply elem_of_cons in Hc as [-> | Hc].
  - eexists. split; [reflexivity|]. left. exact foreign_failure.
  - apply elem_of_cons in Hc as [-> | Hc]; [|inversion Hc].
    eexists. split; [reflexivity|]. right. exact denied_failure.
Qed.

(** A chain all of whose clients are denied the update of recipe [b]. *)
Lemma deniedChain_recoverable :
  forall c, c ∈ deniedChain -> recoverable c "b" (mkNext false true).
Proof.
  intros c Hc. unfold deniedChain in Hc.
  apply elem_of_cons in Hc as [-> | Hc];
    [|apply elem_of_cons in Hc as [-> | Hc]; [|inversion Hc]];
    (eexists; split; [reflexivity|]; right; exact denied_failure).
Qed.

Lemma deniedChain_saw : saw permission_denial deniedChain "b" (mkNext false true).
Proof.
  exists (deniedClient "SANITY_API_WRITE_TOKEN" "b"). split; [apply list_elem_of_here|].
  eexists. split; [reflexivity | exact denied_failure].
Qed.

(** The mixed chain accepts after two recoverable failures; the denied
    chain is exhausted, and the error names the two sources that were
    tried. *)
Lemma write_chain_classification_witness :
  patchRecipeVisibility sampleEnv mixedChain "a" (mkNext true true) sampleWorld
  = (Normal tt,
     {| store := applyPatch "a" (mkNext true true) (store sampleWorld);
        commitLog :=
          commitLog sampleWorld
          ++ attemptsOf ([foreignClient "SANITY_API_WRITE_TOKEN";
                          deniedClient "SANITY_API_TOKEN" "a"]
                         ++ [acceptingClient "SANITY_API_READ_TOKEN"]) "a" |}) /\
  (forall c, c ∈ deniedChain -> recoverable c "b" (mkNext false true)) /\
  saw permission_denial deniedChain "b" (mkNext false true) /\
  exists error,
    patchRecipeVisibility sampleEnv deniedChain "b" (mkNext false true) sampleWorld
    = (Throw error,
       {| store := store sampleWorld;
          commitLog := commitLog sampleWorld ++ attemptsOf deniedChain "b" |}) /\
    permission_error ["SANITY_API_WRITE_TOKEN"; "SANITY_API_TOKEN"] error.
Proof.
  split.
  { apply (proj1 (write_chain_classification sampleEnv mixedChain "a" (mkNext true true)
                    sampleWorld)
             [foreignClient "SANITY_API_WRITE_TOKEN"; deniedClient "SANITY_API_TOKEN" "a"]
             (acceptingClient "SANITY_API_READ_TOKEN") []).
    - reflexivity.
    - exact mixedChain_recoverable.
    - reflexivity. }
  split; [exact deniedChain_recoverable|]. split; [exact deniedChain_saw|].
  destruct (write_chain_classification sampleEnv deniedChain "b" (mkNext false true)
              sampleWorld) as (_ & _ & Hexhausted & _).
  destruct (Hexhausted deniedChain_recoverable) as (error & Hrun & Hperm & _).
  exists error. split; [exact Hrun | exact (Hperm deniedChain_saw)].
Defined.

(** The error of the exhausted chain, in full. *)
Example chain_exhausted_message :
  fst (patchRecipeVisibility sampleEnv deniedChain "b" (mkNext false true) sampleWorld)
  = Throw (ErrorObject "Sanity token lacks update permission for recipe documents. Tried: SANITY_API_WRITE_TOKEN, SANITY_API_TOKEN. Use a token with update grants (prefer SANITY_API_WRITE_TOKEN) and restart the dev server.").
Proof. vm_compute. reflexivity. Qed.

(** A label and a title with capital letters and punctuation, whose
    words are the same in another order: the tier is that of the word
    overlap. *)
Lemma score_tiers_witness :
  words_of (toLowerCase "Pickled  Red-Onion!") ["pickled"; "red"; "onion"] /\
  words_of (toLowerCase "Onion, red (pickled)") ["onion"; "red"; "pickled"] /\
  normalizeComparableText "Pickled  Red-Onion!" = "pickled red onion" /\
  normalizeComparableText "Onion, red (pickled)" = "onion red pickled" /\
  score_tier "pickled red onion" "onion red pickled"
    ["pickled"; "red"; "onion"] ["onion"; "red"; "pickled"]
    (score "Pickled  Red-Onion!" "Onion, red (pickled)").
Proof.
  assert (words_of (toLowerCase "Pickled  Red-Onion!") ["pickled"; "red"; "onion"]) as HL
    by exact (alnumWords_words_of (toLowerCase "Pickled  Red-Onion!")).
  assert (words_of (toLowerCase "Onion, red (pickled)") ["onion"; "red"; "pickled"]) as HT
    by exact (alnumWords_words_of (toLowerCase "Onion, red (pickled)")).
  split; [exact HL|]. split; [exact HT|].
  exact (score_tiers "Pickled  Red-Onion!" "Onion, red (pickled)" _ _ HL HT).
Defined.

Example score_same_words : score "Pickled  Red-Onion!" "Onion, red (pickled)" = 78.
Proof. vm_compute. reflexivity. Qed.

(** A title that starts with a capital I with a dot (U+0130): in lower
    case the [i] is a word of its own, of which the first word of the
    label is a continuation. *)
Example score_dotted_capital :
  normalizeComparableText (String 0x130 "skender Kebap") = "i skender kebap" /\
  score "Iskender Kebap" (String 0x130 "skender Kebap") = 78.
Proof. vm_compute. auto. Qed.


Example navigation_sample :
  findSubRecipeTargets ["Alpha Di"; " Beta Dip"; "Zeta"] sampleOptions sampleDocs
    !! "Alpha Di"
  = Some (Some {| target_id := "a"; target_title := Some "Alpha Dip";
                  target_pluNumber := 2; directMatch := true |}) /\
  findSubRecipeTargets ["Alpha Di"; " Beta Dip"; "Zeta"] sampleOptions sampleDocs
    !! "Zeta" = Some None.
Proof. vm_compute. auto. Qed.

(** The label [__proto__] with a best-match score below 60: the
    assignment makes [null] the prototype of the result and creates no
    property, and reading the key gives [undefined]. *)
Example navigation_proto_unresolved :
  let result := findSubRecipeTargets ["__proto__"] sampleOptions sampleDocs in
  bestMatchScore "__proto__" (corpusTitles sampleOptions sampleDocs) = 0 /\
  result !! "__proto__" = None /\ proto result = NullPrototype /\
  readTarget result "__proto__" = None.
Proof. vm_compute. auto. Qed.

(** The label [__proto__] with a best-match score of 120: the
    assignment makes the target the prototype of the result and creates
    no property, and reading the key gives the target. *)
Example navigation_proto_resolved :
  let docs := [mkDoc "p" (Some "Proto") 7 None None] in
  let target := {| target_id := "p"; target_title := Some "Proto";
                   target_pluNumber := 7; directMatch := true |} in
  let result := findSubRecipeTargets ["__proto__"] sampleOptions docs in
  bestMatchScore "__proto__" (corpusTitles sampleOptions docs) = 120 /\
  result !! "__proto__" = None /\ proto result = TargetPrototype target /\
  readTarget result "__proto__" = Some target.
Proof. vm_compute. auto. Qed.


(** * Further properties of the source *)

Ltac ascending_list :=
  cbn [ascending]; repeat split;
  intros ? ?Hy; rewrite ?elem_of_cons, ?elem_of_nil in Hy; lia.

Ltac decide_gaps :=
  repeat match goal with
         | |- context [?a <? ?b] =>
             first [ rewrite (proj2 (Z.ltb_lt a b)) by lia
                   | rewrite (proj2 (Z.ltb_ge a b)) by lia ]
         end.

Section FurtherProperties.
Context `{runtime : Runtime}.

(** ** Trimming *)

Lemma trimStart_nonspace (c : codeUnit) (s : string) :
  isWhiteSpace c = false -> trimStart (String c s) = String c s.
Proof. intros H. simpl. rewrite H. reflexivity. Qed.

Lemma trimStart_idempotent (s : string) : trimStart (trimStart s) = trimStart s.
Proof.
  destruct (trimStart_head s) as [-> | (c & r & -> & Hc)]; [reflexivity|].
  apply trimStart_nonspace. exact Hc.
Qed.

Lemma trimEnd_idempotent (s : string) : trimEnd (trimEnd s) = trimEnd s.
Proof.
  induction s as [|c s IH]; [reflexivity|].
  cbn [trimEnd]. destruct (isWhiteSpace c && isEmpty (trimEnd s)) eqn:E; [reflexivity|].
  cbn [trimEnd]. rewrite IH, E. reflexivity.
Qed.

Lemma trim_idempotent (s : string) : trim (trim s) = trim s.
Proof.
  unfold trim. destruct (trimStart_head s) as [-> | (c & r & -> & Hc)]; [reflexivity|].
  rewrite (trimEnd_cons_nonspace c r Hc), (trimStart_nonspace c _ Hc).
  rewrite (trimEnd_cons_nonspace c _ Hc), trimEnd_idempotent. reflexivity.
Qed.

Lemma trim_trimStart (s : string) : trim (trimStart s) = trim s.
Proof. unfold trim. rewrite trimStart_idempotent. reflexivity. Qed.

(** ** Reference extractor *)

Lemma extracted_token (value : option string) (label : string) :
  extractPtnReference value = Some label ->
  exists capture, label = trim capture /\ truthy (trim capture) = true.
Proof.
  unfold extractPtnReference. destruct value as [v|]; [|discriminate].
  destruct (matchPtn None v) as [capture|]; [|discriminate].
  destruct (truthy (trim capture)) eqn:Ht; [|discriminate].
  intros H. injection H as <-. exists capture. auto.
Qed.

(** X1. A label returned by [extractPtnReference] is never empty and
    carries no white space at either end. *)
Theorem extractPtnReference_trimmed (value : option string) (label : string) :
  extractPtnReference value = Some label ->
  label <> "" /\ trim label = label.
Proof.
  intros H. apply extracted_token in H as (capture & -> & Ht). split.
  - apply truthy_true. exact Ht.
  - apply trim_idempotent.
Qed.

Lemma ptnPrefix_lower (s rest : string) :
  ptnPrefix s = Some rest ->
  exists p t n, s = String p (String t (String n rest)) /\
                lowerChar p = (cu "p") /\ lowerChar t = (cu "t") /\ lowerChar n = (cu "n").
Proof.
  unfold ptnPrefix. destruct s as [|p [|t [|n r]]]; try discriminate.
  destruct (N.eqb (lowerChar p) (cu "p")) eqn:Ep; [|discriminate].
  destruct (N.eqb (lowerChar t) (cu "t")) eqn:Et; [|discriminate].
  destruct (N.eqb (lowerChar n) (cu "n")) eqn:En; [|discriminate].
  simpl. intros H. injection H as <-.
  apply N.eqb_eq in Ep, Et, En. exists p, t, n. auto.
Qed.

Lemma matchPtn_position (s : string) :
  forall prev capture,
    matchPtn prev s = Some capture ->
    exists before p t n rest,
      s = before +:+ String p (String t (String n "")) +:+ rest /\
      lowerChar p = (cu "p") /\ lowerChar t = (cu "t") /\ lowerChar n = (cu "n").
Proof.
  induction s as [|c s IH]; intros prev capture H.
  - cbn [matchPtn] in H. unfold matchPtnAt in H.
    destruct (isWordCharOpt prev); simpl in H; discriminate.
  - cbn [matchPtn] in H.
    destruct (matchPtnAt prev (String c s)) as [cap|] eqn:Hat.
    + unfold matchPtnAt in Hat. destruct (isWordCharOpt prev); [discriminate|].
      destruct (ptnPrefix (String c s)) as [rest|] eqn:Hp; [|discriminate].
      apply ptnPrefix_lower in Hp as (p & t & n & E & Hp & Ht & Hn).
      exists "", p, t, n, rest. rewrite E. auto.
    + apply IH in H as (before & p & t & n & rest & E & Hp).
      exists (String c before), p, t, n, rest. rewrite E. auto.
Qed.

Lemma lowerChar_ascii (c d : codeUnit) :
  lowerChar c = d -> isAscii d = true -> isAscii c = true.
Proof.
  unfold lowerChar, isUpper, isAscii, charCode. intros <-.
  destruct ((65 <=? c) && (c <=? 90))%N eqn:E; [|tauto].
  apply andb_true_iff in E as [_ E]. apply N.leb_le in E.
  intros _. apply N.ltb_lt. lia.
Qed.

Lemma matchPtn_marker (s : string) :
  forall prev capture,
    matchPtn prev s = Some capture -> contains (toLowerCase s) "ptn".
Proof.
  intros prev capture H.
  apply matchPtn_position in H as (before & p & t & n & rest & -> & Hp & Ht & Hn).
  destruct (toLowerCase_segment before (String p (String t (String n ""))) rest)
    as (before' & after' & E).
  { cbn [allChars].
    rewrite (lowerChar_ascii p _ Hp eq_refl), (lowerChar_ascii t _ Ht eq_refl),
      (lowerChar_ascii n _ Hn eq_refl). reflexivity. }
  exists before', after'. rewrite E. cbn [lowerAscii]. rewrite Hp, Ht, Hn. reflexivity.
Qed.

(** X2. A text in which the letters [ptn] do not occur, in either case,
    yields no label. *)
Theorem extractPtnReference_needs_marker (v : string) :
  ~ contains (toLowerCase v) "ptn" -> extractPtnReference (Some v) = None.
Proof.
  intros Hno. unfold extractPtnReference.
  destruct (matchPtn None v) as [capture|] eqn:Hm; [|reflexivity].
  exfalso. apply Hno. eapply matchPtn_marker. exact Hm.
Qed.

Lemma matchPtn_skip (pre rest : string) :
  allChars (fun c => negb (N.eqb (lowerChar c) (cu "p"))) pre = true ->
  forall prev,
    matchPtn prev (pre +:+ String (cu " ") rest) = matchPtn (Some (cu " ")) rest.
Proof.
  induction pre as [|c pre IH]; intros Hpre prev.
  - simpl. unfold matchPtnAt.
    destruct (isWordCharOpt prev); [reflexivity|].
    destruct rest as [|t [|n r]]; reflexivity.
  - cbn [allChars] in Hpre. apply andb_true_iff in Hpre as [Hc Hpre].
    apply negb_true_iff in Hc.
    change (String c pre +:+ String (cu " ") rest) with (String c (pre +:+ String (cu " ") rest)).
    cbn [matchPtn].
    assert (matchPtnAt prev (String c (pre +:+ String (cu " ") rest)) = None) as ->.
    { unfold matchPtnAt. destruct (isWordCharOpt prev); [reflexivity|].
      unfold ptnPrefix. destruct (pre +:+ String (cu " ") rest) as [|t [|n r]]; try reflexivity.
      rewrite Hc. reflexivity. }
    apply IH. exact Hpre.
Qed.

Lemma spacesThenCapture_cons (c : codeUnit) (s : string) :
  spacesThenCapture (String c s)
  = if isWhiteSpace c then
      match spacesThenCapture s with
      | Some capture => Some capture
      | None => dotPlusToEnd s
      end
    else None.
Proof. reflexivity. Qed.

Lemma spacesThenCapture_label (label : string) :
  allChars (fun c => negb (isLineTerminator c)) label = true ->
  trim label <> "" ->
  forall c, isWhiteSpace c = true ->
            spacesThenCapture (String c label) = Some (trimStart label).
Proof.
  induction label as [|d label IH]; intros Hlt Hne c Hc.
  - exfalso. apply Hne. reflexivity.
  - rewrite spacesThenCapture_cons, Hc.
    cbn [allChars] in Hlt. apply andb_true_iff in Hlt as [Hd Hlt].
    destruct (isWhiteSpace d) eqn:Hw.
    + assert (trim label <> "") as Hne'.
      { unfold trim in *. cbn [trimStart] in Hne. rewrite Hw in Hne. exact Hne. }
      rewrite (IH Hlt Hne' d Hw). cbn [trimStart]. rewrite Hw. reflexivity.
    + assert (spacesThenCapture (String d label) = None) as ->.
      { rewrite spacesThenCapture_cons, Hw. reflexivity. }
      unfold dotPlusToEnd. cbn [truthy isEmpty negb allChars andb].
      rewrite Hd, Hlt. cbn [andb trimStart]. rewrite Hw. reflexivity.
Qed.

(** X3. In a text made of a part without the letter [p], the marker
    [PTN] between spaces, and a label that has a visible character and
    no line break, the extracted label is the trimmed label. *)
Theorem extractPtnReference_label (pre label : string) :
  allChars (fun c => negb (N.eqb (lowerChar c) (cu "p"))) pre = true ->
  allChars (fun c => negb (isLineTerminator c)) label = true ->
  trim label <> "" ->
  extractPtnReference (Some (pre +:+ " PTN " +:+ label)) = Some (trim label).
Proof.
  intros Hpre Hlt Hne. unfold extractPtnReference.
  change (pre +:+ " PTN " +:+ label)
    with (pre +:+ String (cu " ") (String (cu "P") (String (cu "T") (String (cu "N") (String (cu " ") label))))).
  rewrite (matchPtn_skip pre _ Hpre). cbn [matchPtn].
  assert (matchPtnAt (Some (cu " "))
            (String (cu "P") (String (cu "T") (String (cu "N") (String (cu " ") label))))
          = Some (trimStart label)) as ->.
  { unfold matchPtnAt. cbn [isWordCharOpt]. 
    change (isWordChar (cu " ")) with false. cbv iota.
    change (ptnPrefix (String (cu "P") (String (cu "T") (String (cu "N") (String (cu " ") label)))))
      with (Some (String (cu " ") label)).
    cbn [firstChar isWordCharOpt]. change (isWordChar (cu " ")) with false. cbv iota.
    apply spacesThenCapture_label; [exact Hlt | exact Hne | reflexivity]. }
  rewrite trim_trimStart.
  destruct (truthy (trim label)) eqn:Ht; [reflexivity|].
  exfalso. apply Hne. unfold truthy in Ht. apply negb_false_iff, isEmpty_true in Ht. exact Ht.
Qed.

(** ** Sets of labels and of ids *)

Lemma NoDup_setAdd (x : string) (set : list string) :
  NoDup set -> NoDup (setAdd x set).
Proof.
  intros Hnd. unfold setAdd. case_bool_decide as Hx; [exact Hnd|].
  apply NoDup_app. split_and!; [exact Hnd | | apply NoDup_singleton].
  intros y Hy Hy'. apply list_elem_of_singleton in Hy'. subst. contradiction.
Qed.

Lemma setAdd_fresh (x : string) (set : list string) :
  x ∉ set -> setAdd x set = set ++ [x].
Proof. intros H. unfold setAdd. rewrite bool_decide_eq_false_2 by exact H. reflexivity. Qed.

Lemma uniqueOf_fold_NoDup (values acc : list string) :
  NoDup acc -> NoDup (fold_left (fun set v => setAdd v set) values acc).
Proof.
  revert acc. induction values as [|v values IH]; intros acc Hacc; cbn [fold_left].
  - exact Hacc.
  - apply IH, NoDup_setAdd, Hacc.
Qed.

Lemma uniqueOf_fold_distinct (values acc : list string) :
  NoDup (acc ++ values) ->
  fold_left (fun set v => setAdd v set) values acc = acc ++ values.
Proof.
  revert acc. induction values as [|v values IH]; intros acc Hnd; cbn [fold_left].
  - rewrite app_nil_r. reflexivity.
  - assert (v ∉ acc) as Hv.
    { apply NoDup_app in Hnd as (_ & Hdis & _). intros Hin.
      apply (Hdis v Hin). apply list_elem_of_here. }
    rewrite (setAdd_fresh v acc Hv), IH; rewrite <- List.app_assoc; [reflexivity | exact Hnd].
Qed.

Lemma map_fixed {A} (f : A -> A) (l : list A) :
  (forall x, In x l -> f x = x) -> map f l = l.
Proof.
  intros H. rewrite <- (map_id l) at 2. apply map_ext_in. exact H.
Qed.

Lemma uniqueTrimmed_NoDup (values : list string) : NoDup (uniqueTrimmed values).
Proof. unfold uniqueTrimmed, uniqueOf. apply uniqueOf_fold_NoDup, NoDup_nil_2. Qed.

Lemma uniqueTrimmed_idempotent (values : list string) :
  uniqueTrimmed (uniqueTrimmed values) = uniqueTrimmed values.
Proof.
  set (u := uniqueTrimmed values).
  assert (forall x, In x u -> x <> "" /\ trim x = x) as Hu.
  { intros x Hx. apply list_elem_of_In, elem_of_uniqueTrimmed in Hx as (Hne & v & _ & ->).
    split; [exact Hne | apply trim_idempotent]. }
  unfold uniqueTrimmed at 1. rewrite (map_fixed trim u) by (intros x Hx; apply Hu, Hx).
  rewrite (filter_all truthy u) by (intros x Hx; apply truthy_true, Hu, Hx).
  unfold uniqueOf. rewrite uniqueOf_fold_distinct; [reflexivity|].
  apply uniqueTrimmed_NoDup.
Qed.

(** X4. The seed list is normalised twice on its way into the graph
    traversal, by [setRecipesVisibility] and again by
    [resolveRelatedRecipeIds]; the normalised list has no duplicate, no
    blank and no untrimmed id, normalising it again changes nothing, and
    the ids resolved from the normalised seeds are those resolved from
    the seeds as given. *)
Theorem seed_normalisation (docs : list Doc) (seedIds : list string) :
  NoDup (uniqueTrimmed seedIds) /\
  (forall s, s ∈ uniqueTrimmed seedIds -> s <> "" /\ trim s = s) /\
  uniqueTrimmed (uniqueTrimmed seedIds) = uniqueTrimmed seedIds /\
  resolveRelatedRecipeIds docs (uniqueTrimmed seedIds)
  = resolveRelatedRecipeIds docs seedIds.
Proof.
  split_and!.
  - apply uniqueTrimmed_NoDup.
  - intros s Hs. apply elem_of_uniqueTrimmed in Hs as (Hne & v & _ & ->).
    split; [exact Hne | apply trim_idempotent].
  - apply uniqueTrimmed_idempotent.
  - unfold resolveRelatedRecipeIds. rewrite uniqueTrimmed_idempotent. reflexivity.
Qed.

Lemma collectPtnLabels_fold (lines : list Ingredient) (acc : list string) :
  let labels :=
    fold_left
      (fun labels ingredient =>
         let fromItem := extractPtnReference (ing_item ingredient) in
         let fromText := extractPtnReference (ing_text ingredient) in
         setAddOpt fromText (setAddOpt fromItem labels))
      lines acc in
  (NoDup acc -> NoDup labels) /\
  (forall label,
      label ∈ labels <->
      label ∈ acc \/
      exists ingredient, ingredient ∈ lines /\
                         (extractPtnReference (ing_item ingredient) = Some label \/
                          extractPtnReference (ing_text ingredient) = Some label)).
Proof.
  cbv zeta. revert acc. induction lines as [|ing lines IH]; intros acc; cbn [fold_left].
  - split; [auto|]. intros label. split; [auto|].
    intros [H | (i & Hi & _)]; [exact H | inversion Hi].
  - destruct (IH (setAddOpt (extractPtnReference (ing_text ing))
                    (setAddOpt (extractPtnReference (ing_item ing)) acc))) as [Hnd Hin].
    split.
    + intros Hacc. apply Hnd.
      destruct (extractPtnReference (ing_text ing)), (extractPtnReference (ing_item ing));
        cbn [setAddOpt]; auto using NoDup_setAdd.
    + intros label. rewrite Hin. clear Hin Hnd IH.
      assert (label ∈ setAddOpt (extractPtnReference (ing_text ing))
                       (setAddOpt (extractPtnReference (ing_item ing)) acc)
              <-> label ∈ acc \/ extractPtnReference (ing_item ing) = Some label
                  \/ extractPtnReference (ing_text ing) = Some label) as ->.
      { destruct (extractPtnReference (ing_text ing)) as [t|],
          (extractPtnReference (ing_item ing)) as [i|];
          cbn [setAddOpt]; rewrite ?elem_of_setAdd; split; intros H;
          repeat match goal with
                 | H : _ \/ _ |- _ => destruct H
                 | H : Some _ = Some _ |- _ => injection H as ->
                 | H : None = Some _ |- _ => discriminate H
                 end; subst; auto. }
      split.
      * intros [[H | [H | H]] | (i & Hi & H)]; auto.
        -- right. exists ing. split; [apply list_elem_of_here | auto].
        -- right. exists ing. split; [apply list_elem_of_here | auto].
        -- right. exists i. split; [apply list_elem_of_further; exact Hi | exact H].
      * intros [H | (i & Hi & H)]; [auto|].
        apply elem_of_cons in Hi as [-> | Hi]; [left; right; tauto|].
        right. exists i. auto.
Qed.

(** X5. The labels collected from the ingredient lines of a recipe are
    exactly the labels extracted from the [item] or the [text] of one of
    its lines, each listed once, none blank. *)
Theorem collectPtnLabels_labels (ingredients : option (list Ingredient)) :
  NoDup (collectPtnLabels ingredients) /\
  (forall label,
      label ∈ collectPtnLabels ingredients <->
      exists lines ingredient,
        ingredients = Some lines /\ ingredient ∈ lines /\
        (extractPtnReference (ing_item ingredient) = Some label \/
         extractPtnReference (ing_text ingredient) = Some label)) /\
  (forall label, label ∈ collectPtnLabels ingredients -> label <> "" /\ trim label = label).
Proof.
  assert (forall label,
             label ∈ collectPtnLabels ingredients <->
             exists lines ingredient,
               ingredients = Some lines /\ ingredient ∈ lines /\
               (extractPtnReference (ing_item ingredient) = Some label \/
                extractPtnReference (ing_text ingredient) = Some label)) as Hchar.
  { intros label. destruct ingredients as [lines|]; cbn [collectPtnLabels].
    - destruct (collectPtnLabels_fold lines []) as [_ Hin]. rewrite Hin. split.
      + intros [H | (i & Hi & H)]; [inversion H|]. exists lines, i. auto.
      + intros (l & i & E & Hi & H). injection E as <-. right. exists i. auto.
    - split; [intros H; inversion H | intros (l & i & E & _); discriminate]. }
  split_and!.
  - destruct ingredients as [lines|]; cbn [collectPtnLabels]; [|apply NoDup_nil_2].
    destruct (collectPtnLabels_fold lines []) as [Hnd _]. apply Hnd, NoDup_nil_2.
  - exact Hchar.
  - intros label Hl.
    apply Hchar in Hl as (l & i & _ & _ & [H | H]);
      apply extracted_token in H as (capture & -> & Ht);
      (split; [apply truthy_true; exact Ht | apply trim_idempotent]).
Qed.

(** ** Normal forms *)

(** X6. Normalising a normalised text changes nothing; the tokens of
    the result of [normalizeComparableText] are the words of the
    lower-cased text, its runs of characters of [[a-z0-9]]; the result
    consists of such characters and spaces; and scoring normalised
    texts is scoring the texts. *)
Theorem normalizeComparableText_idempotent (value : string) :
  normalizeComparableText (normalizeComparableText value)
  = normalizeComparableText value /\
  words_of (toLowerCase value) (tokensOf (normalizeComparableText value)) /\
  allChars (fun c => isLowerAlnum c || N.eqb (cu " ") c) (normalizeComparableText value)
  = true /\
  (forall other,
      score (normalizeComparableText value) other = score value other /\
      score other (normalizeComparableText value) = score other value).
Proof.
  assert (forall w, In w (alnumWords (toLowerCase value)) ->
                    w <> "" /\ allChars isLowerAlnum w = true) as Hw
    by apply alnumWords_words.
  assert (allChars (fun c => isLowerAlnum c || N.eqb (cu " ") c) (normalForm value) = true)
    as Hchars.
  { unfold normalForm. apply allChars_join; [reflexivity|].
    intros w Hin. eapply allChars_weaken; [|apply Hw, Hin].
    intros c Hc. rewrite Hc. reflexivity. }
  assert (normalizeComparableText (normalizeComparableText value)
          = normalizeComparableText value) as Hidem.
  { rewrite (normalizeComparableText_normalForm value).
    rewrite (normalizeComparableText_normalForm (normalForm value)).
    unfold normalForm at 1. rewrite toLowerCase_fixed.
    - unfold alnumWords at 1. unfold normalForm.
      rewrite tokens_of_joined; [reflexivity | reflexivity |].
      intros w Hin. destruct (Hw w Hin) as [Hne Hal]. split; [exact Hne|].
      eapply allChars_weaken; [|exact Hal]. intros c Hc. rewrite Hc. reflexivity.
    - eapply allChars_weaken; [|exact Hchars]. intros c Hc.
      apply orb_true_iff in Hc as [Hc | Hc].
      + apply alnum_ascii, Hc.
      + apply N.eqb_eq in Hc. subst c. reflexivity.
    - eapply allChars_weaken; [|exact Hchars]. intros c Hc.
      apply orb_true_iff in Hc as [Hc | Hc].
      + rewrite (alnum_not_upper c Hc). reflexivity.
      + apply N.eqb_eq in Hc. subst c. reflexivity. }
  split_and!.
  - exact Hidem.
  - rewrite normalizeComparableText_normalForm, tokensOf_normalForm.
    apply alnumWords_words_of.
  - rewrite normalizeComparableText_normalForm. exact Hchars.
  - intros other. unfold score. rewrite Hidem. split; reflexivity.
Qed.

(** ** Best title and edges *)

Lemma bestTitle_fold_first (labelNorm : string) (titles : list TitleIndexRow) :
  forall init : option string * Z,
    let best :=
      fold_left
        (fun best row =>
           let score := scoreTitleMatch labelNorm (tir_norm row) in
           if snd best <? score then (Some (tir_id row), score) else best)
        titles init in
    (best = init /\ forall r, r ∈ titles -> rowScore labelNorm r <= snd init) \/
    (exists before row after,
        titles = before ++ row :: after /\
        best = (Some (tir_id row), rowScore labelNorm row) /\
        snd init < rowScore labelNorm row /\
        (forall r, r ∈ before -> rowScore labelNorm r < rowScore labelNorm row) /\
        (forall r, r ∈ after -> rowScore labelNorm r <= rowScore labelNorm row)).
Proof.
  cbv zeta. induction titles as [|row titles IH]; intros init; cbn [fold_left].
  - left. split; [reflexivity|]. intros r Hr. inversion Hr.
  - fold (rowScore labelNorm row).
    destruct (snd init <? rowScore labelNorm row) eqn:Hlt.
    + apply Z.ltb_lt in Hlt.
      destruct (IH (Some (tir_id row), rowScore labelNorm row))
        as [[Hbest Hrest] | (before & r & after & -> & Hbest & Hgt & Hb & Ha)].
      * right. exists [], row, titles. cbn [snd] in Hrest.
        split_and!; [reflexivity | exact Hbest | exact Hlt | | exact Hrest].
        intros x Hx. inversion Hx.
      * right. exists (row :: before), r, after. cbn [snd] in Hgt.
        split_and!; [reflexivity | exact Hbest | lia | | exact Ha].
        intros x Hx. apply elem_of_cons in Hx as [-> | Hx]; [exact Hgt | auto].
    + apply Z.ltb_ge in Hlt.
      destruct (IH init) as [[Hbest Hrest] | (before & r & after & -> & Hbest & Hgt & Hb & Ha)].
      * left. split; [exact Hbest|].
        intros x Hx. apply elem_of_cons in Hx as [-> | Hx]; [exact Hlt | auto].
      * right. exists (row :: before), r, after.
        split_and!; [reflexivity | exact Hbest | exact Hgt | | exact Ha].
        intros x Hx. apply elem_of_cons in Hx as [-> | Hx]; [lia | auto].
Qed.

Lemma bestTitle_first (labelNorm : string) (titles : list TitleIndexRow) :
  (bestTitle labelNorm titles = (None, 0) /\
   forall r, r ∈ titles -> rowScore labelNorm r <= 0) \/
  (exists before row after,
      titles = before ++ row :: after /\
      bestTitle labelNorm titles = (Some (tir_id row), rowScore labelNorm row) /\
      0 < rowScore labelNorm row /\
      (forall r, r ∈ before -> rowScore labelNorm r < rowScore labelNorm row) /\
      (forall r, r ∈ after -> rowScore labelNorm r <= rowScore labelNorm row)).
Proof. exact (bestTitle_fold_first labelNorm titles (None, 0)). Qed.

(** X7. [resolveLabelTargetId] returns the id of the first title row
    that has the highest score for the label, provided that score is at
    least 72; it returns nothing exactly when every row scores below
    72. *)
Theorem resolveLabelTargetId_first_best (label : string) (titles : list TitleIndexRow) :
  match resolveLabelTargetId label titles with
  | Some target =>
      exists before row after,
        titles = before ++ row :: after /\
        tir_id row = target /\
        72 <= rowScore (normalizeComparableText label) row /\
        (forall r, r ∈ before ->
                   rowScore (normalizeComparableText label) r
                   < rowScore (normalizeComparableText label) row) /\
        (forall r, r ∈ after ->
                   rowScore (normalizeComparableText label) r
                   <= rowScore (normalizeComparableText label) row)
  | None =>
      forall r, r ∈ titles -> rowScore (normalizeComparableText label) r < 72
  end.
Proof.
  unfold resolveLabelTargetId. cbv zeta.
  destruct (isEmpty (normalizeComparableText label)) eqn:Hempty.
  { apply isEmpty_true in Hempty. rewrite Hempty. intros r _.
    unfold rowScore, scoreTitleMatch. simpl. lia. }
  destruct (bestTitle_first (normalizeComparableText label) titles)
    as [[Hbest Hrest] | (before & row & after & E & Hbest & Hgt & Hb & Ha)].
  - rewrite Hbest. cbn [fst snd]. change (72 <=? 0) with false. cbv iota.
    intros r Hr. specialize (Hrest r Hr). lia.
  - rewrite Hbest. cbn [fst snd].
    destruct (72 <=? rowScore (normalizeComparableText label) row) eqn:H72.
    + apply Z.leb_le in H72. exists before, row, after. auto.
    + apply Z.leb_gt in H72. intros r Hr. rewrite E in Hr.
      apply elem_of_app in Hr as [Hr | Hr]; [specialize (Hb r Hr); lia|].
      apply elem_of_cons in Hr as [-> | Hr]; [lia | specialize (Ha r Hr); lia].
Qed.

Lemma linkRows_pairs (titles : list TitleIndexRow) (rows : list RelationRecipeRow) :
  forall st,
    fold_left (linkRow titles) rows st
    = fold_left (linkPair titles) (labelPairs rows) st.
Proof.
  induction rows as [|row rows IH]; intros st; [reflexivity|].
  cbn [fold_left labelPairs flat_map]. rewrite fold_left_app, IH. f_equal.
  unfold linkRow. generalize (collectPtnLabels (row_ingredients row)) as labels.
  intros labels. revert st. induction labels as [|l labels IHl]; intros st; [reflexivity|].
  cbn [fold_left map]. apply IHl.
Qed.

Lemma linkedBy_snoc (titles : list TitleIndexRow) (done : list (string * string))
    (owner label a b : string) :
  linkedBy titles (done ++ [(owner, label)]) a b <->
  linkedBy titles done a b \/
  (a = owner /\ resolveLabelTargetId label titles = Some b /\ b <> "" /\ b <> owner).
Proof.
  unfold linkedBy. split.
  - intros (l & Hin & Hres & Hne & Hneq).
    apply elem_of_app in Hin as [Hin | Hin]; [left; eauto|].
    apply list_elem_of_singleton in Hin. injection Hin as -> ->. right. auto.
  - intros [(l & Hin & H) | (-> & Hres & Hne & Hneq)].
    + exists l. split; [apply elem_of_app; left; exact Hin | exact H].
    + exists label. split; [|auto].
      apply elem_of_app. right. apply list_elem_of_singleton. reflexivity.
Qed.

Lemma linkPair_invariant (rows : list RelationRecipeRow)
    (done : list (string * string)) (owner label : string) (st : GraphState) :
  owner ∈ map row_id rows ->
  edgeInvariant rows done st ->
  edgeInvariant rows (done ++ [(owner, label)])
    (linkPair (titleIndex rows) st (owner, label)).
Proof.
  intros Howner. destruct st as [adjacency cache].
  intros (Hkeys & Hcache & Hedges). cbn [fst snd] in *.
  unfold linkPair, linkLabel. cbn [fst snd].
  unfold edgeInvariant.
  set (cache' := match cache !! label with
                 | Some _ => cache
                 | None => <[label := resolveLabelTargetId label (titleIndex rows)]> cache
                 end).
  assert (forall l v, cache' !! l = Some v -> v = resolveLabelTargetId l (titleIndex rows)) as Hcache'.
  { intros l v. unfold cache'. destruct (cache !! label) eqn:E; [apply Hcache|].
    destruct (decide (label = l)) as [->|Hne].
    - rewrite lookup_insert_eq. congruence.
    - rewrite lookup_insert_ne by exact Hne. apply Hcache. }
  assert (cache' !! label = Some (resolveLabelTargetId label (titleIndex rows))) as Hhit.
  { unfold cache'. destruct (cache !! label) eqn:E.
    - rewrite E. f_equal. apply Hcache. exact E.
    - apply lookup_insert_eq. }
  rewrite Hhit.
  assert (forall a b,
             (linkedBy (titleIndex rows) done a b \/ linkedBy (titleIndex rows) done b a) \/
             ((a = owner /\ resolveLabelTargetId label (titleIndex rows) = Some b /\ b <> "" /\ b <> owner)
              \/ (b = owner /\ resolveLabelTargetId label (titleIndex rows) = Some a /\ a <> ""
                  /\ a <> owner))
             <-> linkedBy (titleIndex rows) (done ++ [(owner, label)]) a b
                 \/ linkedBy (titleIndex rows) (done ++ [(owner, label)]) b a) as Hsnoc.
  { intros a b. rewrite !linkedBy_snoc. tauto. }
  destruct (resolveLabelTargetId label (titleIndex rows)) as [target|] eqn:Hres.
  2:{ split_and!; cbn [fst snd]; [exact Hkeys | exact Hcache' |].
      intros a b. rewrite Hedges, <- Hsnoc. split; [tauto|].
      intros [H | [(_ & H & _) | (_ & H & _)]]; [exact H | discriminate..]. }
  destruct (isEmpty target || strEq target owner) eqn:Hskip.
  { split_and!; cbn [fst snd]; [exact Hkeys | exact Hcache' |].
    intros a b. rewrite Hedges, <- Hsnoc. split; [tauto|].
    assert (target = "" \/ target = owner) as Hbad.
    { apply orb_true_iff in Hskip as [H | H];
        [left; apply isEmpty_true, H | right; apply strEq_eq, H]. }
    intros [H | [(_ & H & Hne & Hneq) | (_ & H & Hne & Hneq)]]; [exact H | |];
      injection H as <-; destruct Hbad; contradiction. }
  apply orb_false_iff in Hskip as [Hne Hneq].
  apply isEmpty_false in Hne. apply strEq_neq in Hneq.
  assert (target ∈ map row_id rows) as Htarget.
  { apply resolveLabelTargetId_id in Hres.
    rewrite titleIndex_ids in Hres. exact Hres. }
  assert (is_Some (adjacency !! owner)) as Ko by (apply Hkeys; exact Howner).
  assert (is_Some (addNeighbour owner target adjacency !! target)) as Kt.
  { apply addNeighbour_keys, Hkeys. exact Htarget. }
  split_and!; cbn [fst snd].
  - intros k. rewrite !addNeighbour_keys. apply Hkeys.
  - exact Hcache'.
  - intros a b. rewrite (addNeighbour_edge target owner) by exact Kt.
    rewrite (addNeighbour_edge owner target) by exact Ko.
    rewrite Hedges, <- Hsnoc. split.
    + intros [[H | [-> ->]] | [-> ->]]; [tauto | right; left; auto | right; right; auto].
    + intros [H | [(-> & H & _) | (-> & H & _)]]; [tauto | |];
        injection H as <-; tauto.
Qed.

Lemma linkPairs_invariant (rows : list RelationRecipeRow) (todo : list (string * string)) :
  forall done st,
    (forall p, p ∈ todo -> fst p ∈ map row_id rows) ->
    edgeInvariant rows done st ->
    edgeInvariant rows (done ++ todo) (fold_left (linkPair (titleIndex rows)) todo st).
Proof.
  induction todo as [|[owner label] todo IH]; intros done st Hown Hinv; cbn [fold_left].
  - rewrite app_nil_r. exact Hinv.
  - replace (done ++ (owner, label) :: todo) with ((done ++ [(owner, label)]) ++ todo)
      by (rewrite <- List.app_assoc; reflexivity).
    apply IH.
    + intros p Hp. apply Hown. apply list_elem_of_further. exact Hp.
    + apply linkPair_invariant; [|exact Hinv].
      apply (Hown (owner, label)). apply list_elem_of_here.
Qed.

Lemma elem_of_labelPairs (rows : list RelationRecipeRow) (owner label : string) :
  (owner, label) ∈ labelPairs rows <->
  exists row, row ∈ rows /\ row_id row = owner /\
              label ∈ collectPtnLabels (row_ingredients row).
Proof.
  unfold labelPairs. rewrite list_elem_of_In, in_flat_map. split.
  - intros (row & Hrow & Hin). apply in_map_iff in Hin as (l & E & Hl).
    injection E as <- <-. exists row.
    split_and!; [apply list_elem_of_In, Hrow | reflexivity | apply list_elem_of_In, Hl].
  - intros (row & Hrow & <- & Hl). exists row.
    split; [apply list_elem_of_In, Hrow|].
    apply in_map_iff. exists label. split; [reflexivity | apply list_elem_of_In, Hl].
Qed.

(** X8. Two recipes are adjacent in the relation graph exactly when a
    label collected from the ingredient lines of one of them resolves to
    the other one, a different recipe; the label cache does not change
    which edges are built, and both ends of an edge are recipes of the
    corpus. *)
Theorem buildAdjacency_edges (rows : list RelationRecipeRow) (a b : string) :
  (edge (buildAdjacency rows) a b <-> links rows a b \/ links rows b a) /\
  (edge (buildAdjacency rows) a b -> a ∈ map row_id rows /\ b ∈ map row_id rows).
Proof.
  assert (edgeInvariant rows (labelPairs rows)
            (fold_left (linkRow (titleIndex rows)) rows (emptyAdjacency rows, ∅))) as Hinv.
  { rewrite linkRows_pairs.
    apply (linkPairs_invariant rows (labelPairs rows) []).
    - intros [o l] Hp. apply elem_of_labelPairs in Hp as (row & Hrow & <- & _).
      cbn [fst]. apply list_elem_of_In, in_map, list_elem_of_In. exact Hrow.
    - split_and!; cbn [fst snd].
      + intros k. rewrite emptyAdjacency_lookup. case_bool_decide as Hk.
        * split; [intros _; exact Hk | eauto].
        * split; [intros [x Hx]; discriminate | contradiction].
      + intros label v H. rewrite lookup_empty in H. discriminate.
      + intros x y. split.
        * intros (ns & H & Hy). rewrite emptyAdjacency_lookup in H.
          case_bool_decide; [|discriminate]. injection H as <-. inversion Hy.
        * intros [(l & Hl & _) | (l & Hl & _)]; inversion Hl. }
  destruct Hinv as (Hkeys & _ & Hedges).
  assert (forall o t, linkedBy (titleIndex rows) (labelPairs rows) o t <-> links rows o t)
    as Hlinks.
  { intros o t. unfold linkedBy, links. split.
    - intros (l & Hp & H). apply elem_of_labelPairs in Hp as (row & Hrow & Hid & Hl).
      exists row, l. tauto.
    - intros (row & l & Hrow & Hid & Hl & H). exists l.
      split; [|exact H]. apply elem_of_labelPairs. exists row. auto. }
  unfold buildAdjacency. split.
  - rewrite Hedges, !Hlinks. reflexivity.
  - intros Hedge. split.
    + destruct Hedge as (ns & Ha & _). apply Hkeys. eauto.
    + apply Hedges in Hedge.
      assert (edge (fold_left (linkRow (titleIndex rows)) rows (emptyAdjacency rows, ∅)).1 b a)
        as (ns & Hb & _) by (apply Hedges; tauto).
      apply Hkeys. eauto.
Qed.

(** ** Traversal *)

Lemma visitNeighbours_NoDup (neighbours : list string) :
  forall visited queue,
    NoDup visited -> NoDup (fst (fold_left visitNeighbour neighbours (visited, queue))).
Proof.
  induction neighbours as [|n neighbours IH]; intros visited queue Hnd; cbn [fold_left].
  - exact Hnd.
  - assert (visitNeighbour (visited, queue) n
            = if bool_decide (n ∈ visited) then (visited, queue)
              else (visited ++ [n], queue ++ [n])) as -> by reflexivity.
    case_bool_decide as Hn; [apply IH, Hnd|].
    apply IH. apply NoDup_app. split_and!; [exact Hnd | | apply NoDup_singleton].
    intros x Hx Hx'. apply list_elem_of_singleton in Hx'. subst. contradiction.
Qed.

Lemma enqueueSeeds_NoDup (adjacency : gmap string (list string)) (seeds : list string) :
  forall visited queue,
    NoDup visited -> NoDup (fst (fold_left (enqueueSeed adjacency) seeds (visited, queue))).
Proof.
  induction seeds as [|s seeds IH]; intros visited queue Hnd; cbn [fold_left].
  - exact Hnd.
  - assert (enqueueSeed adjacency (visited, queue) s
            = if negb (bool_decide (is_Some (adjacency !! s)))
                 || bool_decide (s ∈ visited)
              then (visited, queue)
              else (visited ++ [s], queue ++ [s])) as -> by reflexivity.
    destruct (negb (bool_decide (is_Some (adjacency !! s)))
              || bool_decide (s ∈ visited)) eqn:Hskip; [apply IH, Hnd|].
    apply orb_false_iff in Hskip as [_ Hnew]. apply bool_decide_eq_false in Hnew.
    apply IH. apply NoDup_app. split_and!; [exact Hnd | | apply NoDup_singleton].
    intros x Hx Hx'. apply list_elem_of_singleton in Hx'. subst. contradiction.
Qed.

Lemma drainQueue_sound (adjacency : gmap string (list string)) (seeds : list string)
    (fuel : nat) :
  forall visited queue result,
    NoDup visited ->
    (forall x, x ∈ queue -> x ∈ visited) ->
    (forall x, x ∈ visited ->
               exists s, s ∈ seeds /\ is_Some (adjacency !! s) /\ reachable adjacency s x) ->
    drainQueue fuel adjacency visited queue = Some result ->
    NoDup result /\
    (forall x, x ∈ result ->
               exists s, s ∈ seeds /\ is_Some (adjacency !! s) /\ reachable adjacency s x).
Proof.
  induction fuel as [|fuel IH]; intros visited queue result Hnd HQ HR Hrun.
  - destruct queue; simpl in Hrun; [|discriminate]. injection Hrun as <-. auto.
  - destruct queue as [|current rest]; [simpl in Hrun; injection Hrun as <-; auto|].
    cbn [drainQueue] in Hrun.
    assert (forall x, x ∈ rest -> x ∈ visited) as HQ'.
    { intros x Hx. apply HQ. apply list_elem_of_further. exact Hx. }
    destruct (isEmpty current); [eapply IH; eassumption|].
    destruct (adjacency !! current) as [neighbours|] eqn:Hadj; [|eapply IH; eassumption].
    destruct (visitNeighbours_fold neighbours neighbours visited rest) as (HV & HQn & _);
      [auto|].
    eapply IH; [| | |exact Hrun].
    + apply visitNeighbours_NoDup, Hnd.
    + intros x Hx. apply HQn in Hx as [Hx | [Hx _]]; apply HV; auto.
    + intros x Hx. apply HV in Hx as [Hx | Hx]; [auto|].
      destruct (HR current) as (s & Hs & Hk & Hreach); [apply HQ, list_elem_of_here|].
      exists s. split_and!; [exact Hs | exact Hk|].
      eapply rtc_r; [exact Hreach|]. exists neighbours. auto.
Qed.

(** X9. For every adjacency structure and seed list, also one with an
    empty id, the component expander returns a list without duplicates
    in which every id is reachable from a seed that is a key of the
    adjacency structure. *)
Theorem expandComponent_sound (adjacency : gmap string (list string))
    (seeds : list string) :
  exists visited,
    expandComponent adjacency seeds = Some visited /\
    NoDup visited /\
    forall x, x ∈ visited ->
              exists s, s ∈ seeds /\ is_Some (adjacency !! s) /\ reachable adjacency s x.
Proof.
  destruct (expandComponent_returns adjacency seeds) as [visited Hrun].
  exists visited. split; [exact Hrun|]. unfold expandComponent in Hrun.
  destruct (enqueueSeeds_invariant adjacency seeds) as (HQ & HR & _ & _).
  eapply drainQueue_sound; [| exact HQ | exact HR | exact Hrun].
  apply enqueueSeeds_NoDup, NoDup_nil_2.
Qed.

Lemma buildAdjacency_edge_ids (rows : list RelationRecipeRow) (a b : string) :
  edge (buildAdjacency rows) a b -> a ∈ map row_id rows /\ b ∈ map row_id rows.
Proof.
  destruct (buildAdjacency_invariant rows) as (Hkeys & _ & Hsym & _).
  unfold buildAdjacency. intros Hedge. split.
  - destruct Hedge as (ns & Ha & _). apply Hkeys. eauto.
  - apply Hsym in Hedge as (ns & Hb & _). apply Hkeys. eauto.
Qed.

Lemma buildAdjacency_reachable_ids (rows : list RelationRecipeRow) (a b : string) :
  reachable (buildAdjacency rows) a b -> a ∈ map row_id rows -> b ∈ map row_id rows.
Proof.
  intros Hreach. induction Hreach as [a | a m b Hedge _ IH]; [auto|].
  intros _. apply IH. apply (buildAdjacency_edge_ids rows a m Hedge).
Qed.

Lemma fetchRelationRows_ids (docs : list Doc) :
  map row_id (fetchRelationRows docs) = map doc_id docs.
Proof. unfold fetchRelationRows. rewrite map_map. reflexivity. Qed.

Lemma resolveRelatedRecipeIds_sound (docs : list Doc) (seedIds ids : list string) :
  resolveRelatedRecipeIds docs seedIds = Some ids ->
  NoDup ids /\
  forall x, x ∈ ids ->
            exists s, s ∈ uniqueTrimmed seedIds /\ s ∈ map doc_id docs /\
                      reachable (buildAdjacency (fetchRelationRows docs)) s x.
Proof.
  unfold resolveRelatedRecipeIds.
  destruct (length (uniqueTrimmed seedIds) =? 0)%nat.
  { intros [= <-]. split; [apply NoDup_nil_2 | intros x Hx; inversion Hx]. }
  destruct (length (fetchRelationRows docs) =? 0)%nat.
  { intros [= <-]. split; [apply NoDup_nil_2 | intros x Hx; inversion Hx]. }
  intros Hrun. unfold expandComponent in Hrun.
  destruct (enqueueSeeds_invariant (buildAdjacency (fetchRelationRows docs))
              (uniqueTrimmed seedIds)) as (HQ & HR & _ & _).
  destruct (drainQueue_sound _ _ _ _ _ _
              (enqueueSeeds_NoDup _ _ [] [] NoDup_nil_2) HQ HR Hrun) as [Hnd Hreach].
  split; [exact Hnd|]. intros x Hx.
  destruct (Hreach x Hx) as (s & Hs & Hk & Hr).
  exists s. split_and!; [exact Hs | | exact Hr].
  rewrite <- fetchRelationRows_ids. apply buildAdjacency_keys. exact Hk.
Qed.

Lemma expandComponent_complete (adjacency : gmap string (list string))
    (seeds visited : list string) :
  (forall y, ~ edge adjacency "" y) ->
  expandComponent adjacency seeds = Some visited ->
  forall s x, s ∈ seeds -> is_Some (adjacency !! s) -> reachable adjacency s x ->
              x ∈ visited.
Proof.
  intros Hempty Hrun. unfold expandComponent in Hrun.
  pose proof (drainQueue_invariant adjacency seeds _ Hempty _ _ _
                (enqueueSeeds_invariant adjacency seeds) Hrun)
    as (_ & _ & HC & HS).
  assert (forall a b, reachable adjacency a b -> a ∈ visited -> b ∈ visited) as Hclosed.
  { intros a b Hreach. induction Hreach as [a | a m b Hedge _ IH]; [auto|].
    intros Ha. apply IH. destruct (HC a Ha) as [Hq | Hcl]; [inversion Hq | auto]. }
  intros s x Hs Hk Hreach. eapply Hclosed; [exact Hreach | auto].
Qed.

(** X10. In a corpus without an empty recipe id, the related ids of a
    seed list are, without repetition, exactly the recipes reachable in
    the relation graph of the corpus from a seed whose trimmed text is
    the id of a recipe; they are all recipes of the corpus. *)
Theorem resolveRelatedRecipeIds_component (docs : list Doc) (seedIds : list string) :
  "" ∉ map doc_id docs ->
  exists ids,
    resolveRelatedRecipeIds docs seedIds = Some ids /\
    NoDup ids /\
    (forall x, x ∈ ids -> x ∈ map doc_id docs) /\
    (forall x, x ∈ ids <->
               exists s, s ∈ seedIds /\ trim s ∈ map doc_id docs /\
                         reachable (buildAdjacency (fetchRelationRows docs)) (trim s) x).
Proof.
  intros Hids.
  destruct (resolveRelatedRecipeIds_returns docs seedIds) as [ids Hrun].
  exists ids. destruct (resolveRelatedRecipeIds_sound _ _ _ Hrun) as [Hnd Hsound].
  split_and!; [exact Hrun | exact Hnd | |].
  - intros x Hx. destruct (Hsound x Hx) as (s & _ & Hs & Hreach).
    rewrite <- fetchRelationRows_ids in *.
    eapply buildAdjacency_reachable_ids; eassumption.
  - intros x. split.
    + intros Hx. destruct (Hsound x Hx) as (s & Hs & Hd & Hreach).
      apply elem_of_uniqueTrimmed in Hs as (_ & v & Hv & ->). eauto.
    + intros (v & Hv & Hd & Hreach).
      assert (trim v ∈ uniqueTrimmed seedIds) as Hs.
      { apply elem_of_uniqueTrimmed. split; [|eauto].
        intros E. apply Hids. rewrite <- E. exact Hd. }
      unfold resolveRelatedRecipeIds in Hrun.
      destruct (length (uniqueTrimmed seedIds) =? 0)%nat eqn:Hu.
      { apply length_zero_nil in Hu. rewrite Hu in Hs. inversion Hs. }
      destruct (length (fetchRelationRows docs) =? 0)%nat eqn:Hr.
      { apply length_zero_nil in Hr. unfold fetchRelationRows in Hr.
        destruct docs; [inversion Hd | discriminate]. }
      eapply expandComponent_complete; [| exact Hrun | exact Hs | | exact Hreach].
      * intros y Hedge. apply buildAdjacency_edge_ids in Hedge as [Hk _].
        rewrite fetchRelationRows_ids in Hk. contradiction.
      * apply buildAdjacency_keys. rewrite fetchRelationRows_ids. exact Hd.
Qed.

(** The ids a request resolves to: none repeated, all recipes of the
    corpus, each reached from a trimmed seed that is a recipe. *)
Lemma relatedOf_ids (docs : list Doc) (seedIds : list string) :
  NoDup (relatedOf docs seedIds) /\
  forall x, x ∈ relatedOf docs seedIds ->
            x ∈ map doc_id docs /\
            exists s, s ∈ seedIds /\ trim s ∈ map doc_id docs.
Proof.
  unfold relatedOf.
  destruct (length (uniqueTrimmed seedIds) =? 0)%nat;
    [split; [apply NoDup_nil_2 | intros x Hx; inversion Hx]|].
  destruct (resolveRelatedRecipeIds docs (uniqueTrimmed seedIds)) as [ids|] eqn:Hrun;
    [|split; [apply NoDup_nil_2 | intros x Hx; inversion Hx]].
  destruct (resolveRelatedRecipeIds_sound _ _ _ Hrun) as [Hnd Hsound].
  split; [exact Hnd|]. intros x Hx.
  destruct (Hsound x Hx) as (s & Hs & Hd & Hreach).
  rewrite uniqueTrimmed_idempotent in Hs.
  split.
  - rewrite <- fetchRelationRows_ids in *.
    eapply buildAdjacency_reachable_ids; eassumption.
  - apply elem_of_uniqueTrimmed in Hs as (_ & v & Hv & ->). eauto.
Qed.

Lemma relatedOf_seed (docs : list Doc) (seedIds : list string) (s : string) :
  s ∈ seedIds -> trim s <> "" -> trim s ∈ map doc_id docs ->
  trim s ∈ relatedOf docs seedIds.
Proof.
  intros Hs Hne Hd.
  assert (trim s ∈ uniqueTrimmed seedIds) as Hu.
  { apply elem_of_uniqueTrimmed. eauto. }
  unfold relatedOf.
  destruct (length (uniqueTrimmed seedIds) =? 0)%nat eqn:E.
  { apply length_zero_nil in E. rewrite E in Hu. inversion Hu. }
  destruct (resolveRelatedRecipeIds_seed docs (uniqueTrimmed seedIds) (trim s))
    as (ids & Hrun & Hin); [rewrite uniqueTrimmed_idempotent; exact Hu | exact Hd|].
  rewrite Hrun. exact Hin.
Qed.

(** ** Every outcome of a propagation *)

Lemma patch_world (env : Env) (clients : list WriteClient) (recipeId : string)
    (next : NextVisibility) (w : World) :
  (forall v, fst (patchRecipeVisibility env clients recipeId next v)
             = fst (patchRecipeVisibility env clients recipeId next w)) /\
  store (snd (patchRecipeVisibility env clients recipeId next w))
  = match fst (patchRecipeVisibility env clients recipeId next w) with
    | Normal _ => applyPatch recipeId next (store w)
    | Throw _ => store w
    end /\
  (forall entry, entry ∈ commitLog (snd (patchRecipeVisibility env clients recipeId next w)) ->
                 entry ∈ commitLog w \/ snd entry = recipeId).
Proof. apply (tryClients_world env recipeId next clients false false [] w). Qed.

(** The write loop stops at the first row whose write throws: the rows
    before it are committed, no commit is attempted for a later row. *)
Lemma writeRows_outcome (env : Env) (clients : list WriteClient)
    (audience : AdminAudience) (value : bool) (rows : list VisibilityRow) :
  forall updated w,
    exists done rest,
      rows = done ++ rest /\
      store (snd (writeRows env clients audience value rows updated w))
      = commitRows audience value done (store w) /\
      (forall entry,
          entry ∈ commitLog (snd (writeRows env clients audience value rows updated w)) ->
          entry ∈ commitLog w \/ snd entry ∈ map vrow_id (done ++ take 1 rest)) /\
      match fst (writeRows env clients audience value rows updated w) with
      | Normal result => rest = [] /\ result = updated ++ map vrow_id done
      | Throw error =>
          exists row post,
            rest = row :: post /\
            forall v, fst (patchRecipeVisibility env clients (vrow_id row)
                             (nextVisibilityOf (vrow_visibility row) audience value) v)
                      = Throw error
      end.
Proof.
  induction rows as [|row rows IH]; intros updated w; cbn [writeRows].
  - exists [], []. simpl. rewrite app_nil_r. split_and!; auto.
  - unfold bind.
    destruct (patch_world env clients (vrow_id row)
                (nextVisibilityOf (vrow_visibility row) audience value) w)
      as (Hfst & Hstore & Hlog).
    destruct (patchRecipeVisibility env clients (vrow_id row) _ w) as [[[]|e] w1] eqn:Hp;
      cbn [fst snd] in *.
    + destruct (IH (updated ++ [vrow_id row]) w1) as (done & rest & -> & Hst & Hl & Hres).
      exists (row :: done), rest. split_and!.
      * reflexivity.
      * rewrite Hst, Hstore. reflexivity.
      * intros entry He. apply Hl in He as [He | He].
        -- apply Hlog in He as [He | He]; [auto|]. right. rewrite He. simpl. set_solver.
        -- right. simpl. set_solver.
      * destruct (fst (writeRows env clients audience value (done ++ rest) _ w1)).
        -- destruct Hres as [-> ->]. split; [reflexivity|].
           rewrite <- List.app_assoc. reflexivity.
        -- exact Hres.
    + exists [], (row :: rows). split_and!.
      * reflexivity.
      * rewrite Hstore. reflexivity.
      * intros entry He. apply Hlog in He as [He | He]; [auto|].
        right. rewrite He. simpl. set_solver.
      * exists row, rows. split; [reflexivity|]. exact Hfst.
Qed.

(** X11. Whatever the write clients answer, a propagation with a token
    configured leaves the store equal to the initial store with the
    writes of a prefix of the component's rows committed, in the order
    of the rows. It returns exactly when that prefix is all the rows,
    with their ids as the updated ids; otherwise it throws the error of
    the first row left, and no commit was attempted for any later row.
    Without a token it throws before anything is read or written. *)
Theorem propagation_outcome (env : Env) (clients : list WriteClient)
    (seedIds : list string) (audience : AdminAudience) (value : bool) (w : World) :
  let rows := currentRowsOf (store w) (relatedOf (store w) seedIds) in
  let run := setRecipesVisibility env clients seedIds audience value w in
  if tokenConfigured env then
    exists done rest,
      rows = done ++ rest /\
      store (snd run) = commitRows audience value done (store w) /\
      (forall entry, entry ∈ commitLog (snd run) ->
                     entry ∈ commitLog w \/ snd entry ∈ map vrow_id (done ++ take 1 rest)) /\
      match fst run with
      | Normal result =>
          rest = [] /\
          updatedIds result = map vrow_id done /\
          relatedIds result = relatedOf (store w) seedIds
      | Throw error =>
          exists row post,
            rest = row :: post /\
            forall v, fst (patchRecipeVisibility env clients (vrow_id row)
                             (nextVisibilityOf (vrow_visibility row) audience value) v)
                      = Throw error
      end
  else run = (Throw missingTokenError, w).
Proof.
  cbv zeta. rewrite setRecipesVisibility_unfold.
  destruct (tokenConfigured env); [|reflexivity]. cbv zeta.
  destruct (writeRows_outcome env clients audience value
              (currentRowsOf (store w) (relatedOf (store w) seedIds)) [] w)
    as (done & rest & Hrows & Hstore & Hlog & Hres).
  exists done, rest.
  destruct (writeRows env clients audience value _ [] w) as [[updated|e] w1];
    cbn [fst snd] in *.
  - destruct Hres as [-> ->]. split_and!; auto.
  - split_and!; auto.
Qed.

Lemma commitRows_relationRows (audience : AdminAudience) (value : bool)
    (rows : list VisibilityRow) (docs : list Doc) :
  fetchRelationRows (commitRows audience value rows docs) = fetchRelationRows docs /\
  map doc_pluNumber (commitRows audience value rows docs) = map doc_pluNumber docs.
Proof.
  rewrite commitRows_closed. unfold fetchRelationRows. rewrite !map_map.
  split; apply map_ext; intros d;
    destruct (lastRequest audience value rows (doc_id d)); try reflexivity.
  - apply patchDoc_relationRow.
  - unfold withVisibility, patchDoc. destruct (strEq _ _); reflexivity.
Qed.

Lemma setRecipesVisibility_store (env : Env) (clients : list WriteClient)
    (seedIds : list string) (audience : AdminAudience) (value : bool) (w : World) :
  exists done rest,
    currentRowsOf (store w) (relatedOf (store w) seedIds) = done ++ rest /\
    store (snd (setRecipesVisibility env clients seedIds audience value w))
    = commitRows audience value done (store w).
Proof.
  rewrite setRecipesVisibility_unfold.
  destruct (tokenConfigured env);
    [|exists [], (currentRowsOf (store w) (relatedOf (store w) seedIds)); auto].
  cbv zeta.
  destruct (writeRows_outcome env clients audience value
              (currentRowsOf (store w) (relatedOf (store w) seedIds)) [] w)
    as (done & rest & Hrows & Hstore & _).
  exists done, rest.
  destruct (writeRows env clients audience value _ [] w) as [[updated|e] w1];
    cbn [fst snd] in *; auto.
Qed.

(** X12. For every outcome of a propagation, also one that throws half
    way: the store keeps its documents in place with their ids, titles,
    ingredient lines and PLU numbers; a document whose id is not among
    the related ids of the request is left as it was; and the related
    ids of any request are the same on the resulting store as before. *)
Theorem propagation_preserves (env : Env) (clients : list WriteClient)
    (seedIds : list string) (audience : AdminAudience) (value : bool) (w : World) :
  let after := store (snd (setRecipesVisibility env clients seedIds audience value w)) in
  map relationRowOf after = map relationRowOf (store w) /\
  map doc_pluNumber after = map doc_pluNumber (store w) /\
  (forall i d d', store w !! i = Some d -> after !! i = Some d' ->
                  doc_id d ∉ relatedOf (store w) seedIds -> d' = d) /\
  (forall seeds, resolveRelatedRecipeIds after seeds
                 = resolveRelatedRecipeIds (store w) seeds).
Proof.
  cbv zeta.
  destruct (setRecipesVisibility_store env clients seedIds audience value w)
    as (done & rest & Hrows & ->).
  destruct (commitRows_relationRows audience value done (store w)) as [Hrel Hplu].
  split_and!; [exact Hrel | exact Hplu | |].
  - intros i d d' Hd Hd' Hout. rewrite commitRows_closed in Hd'.
    rewrite list_lookup_fmap, Hd in Hd'. simpl in Hd'. injection Hd' as <-.
    rewrite lastRequest_none; [reflexivity|].
    intros Hin.
    assert (doc_id d ∈ map vrow_id (currentRowsOf (store w) (relatedOf (store w) seedIds)))
      as Hall by (rewrite Hrows, map_app; set_solver).
    apply currentRowsOf_ids in Hall as [_ Hall]. contradiction.
  - intros seeds. unfold resolveRelatedRecipeIds. rewrite Hrel. reflexivity.
Qed.

(** X13. With a token configured, a request none of whose seeds is,
    once trimmed, the id of a recipe returns empty lists of updated and
    related ids and leaves the store and the commit log as they were. *)
Theorem unknown_seeds_no_write (env : Env) (clients : list WriteClient)
    (seedIds : list string) (audience : AdminAudience) (value : bool) (w : World) :
  tokenConfigured env = true ->
  (forall s, s ∈ seedIds -> trim s ∉ map doc_id (store w)) ->
  setRecipesVisibility env clients seedIds audience value w
  = (Normal {| updatedIds := []; relatedIds := [] |}, w).
Proof.
  intros Htoken Hseeds. rewrite setRecipesVisibility_unfold, Htoken. cbv zeta.
  assert (relatedOf (store w) seedIds = []) as ->.
  { destruct (relatedOf (store w) seedIds) as [|x ids] eqn:E; [reflexivity|].
    destruct (relatedOf_ids (store w) seedIds) as [_ Hin].
    destruct (Hin x) as (_ & s & Hs & Hd); [rewrite E; set_solver|].
    exfalso. exact (Hseeds s Hs Hd). }
  rewrite currentRowsOf_nil. reflexivity.
Qed.

Lemma NoDup_filter_map {A B} (f : A -> B) (P : A -> bool) (l : list A) :
  NoDup (map f l) -> NoDup (map f (List.filter P l)).
Proof.
  induction l as [|a l IH]; intros Hnd; [exact Hnd|].
  cbn [map] in Hnd. apply NoDup_cons in Hnd as [Hfresh Hnd]. cbn [List.filter].
  destruct (P a); [|auto]. cbn [map]. apply NoDup_cons. split; [|auto].
  intros Hin. apply Hfresh. apply list_elem_of_In, in_map_iff in Hin as (x & E & Hx).
  apply filter_In in Hx as [Hx _]. apply list_elem_of_In, in_map_iff. eauto.
Qed.

(** X14. When a propagation returns, the updated ids are the ids of the
    corpus documents among the related ids, in store order, and contain
    the same ids as the related ids; in a store with distinct ids the
    two lists are permutations of each other, so the two counts the
    route reports are equal. The updated ids are empty exactly when no
    seed is, once trimmed, the id of a recipe. *)
Theorem propagation_counts (env : Env) (clients : list WriteClient)
    (seedIds : list string) (audience : AdminAudience) (value : bool)
    (w w' : World) (result : PropagationResult) :
  setRecipesVisibility env clients seedIds audience value w = (Normal result, w') ->
  updatedIds result
  = map doc_id (List.filter (fun d => bool_decide (doc_id d ∈ relatedIds result)) (store w)) /\
  (forall x, x ∈ updatedIds result <-> x ∈ relatedIds result) /\
  (NoDup (map doc_id (store w)) ->
   updatedIds result ≡ₚ relatedIds result /\
   length (updatedIds result) = length (relatedIds result)) /\
  ("" ∉ map doc_id (store w) ->
   (updatedIds result = [] <-> forall s, s ∈ seedIds -> trim s ∉ map doc_id (store w))).
Proof.
  intros Hrun. rewrite setRecipesVisibility_unfold in Hrun.
  destruct (tokenConfigured env); [|discriminate]. cbv zeta in Hrun.
  destruct (writeRows env clients audience value _ [] w) as [[updated|e] w1] eqn:Hw;
    [|discriminate].
  injection Hrun as <- <-. cbn [updatedIds relatedIds].
  destruct (writeRows_returns _ _ _ _ _ _ _ _ _ Hw) as (_ & -> & _). cbn [app].
  destruct (relatedOf_ids (store w) seedIds) as [Hnd Hin].
  assert (forall x, x ∈ map vrow_id (currentRowsOf (store w) (relatedOf (store w) seedIds))
                    <-> x ∈ relatedOf (store w) seedIds) as Hsame.
  { intros x. rewrite currentRowsOf_ids. split; [tauto|].
    intros Hx. split; [apply Hin; exact Hx | exact Hx]. }
  split_and!.
  - unfold currentRowsOf. rewrite map_map. reflexivity.
  - exact Hsame.
  - intros Hids.
    assert (map vrow_id (currentRowsOf (store w) (relatedOf (store w) seedIds))
            ≡ₚ relatedOf (store w) seedIds) as Hperm.
    { apply NoDup_Permutation; [| exact Hnd | exact Hsame].
      unfold currentRowsOf. rewrite map_map. cbn [visibilityRowOf vrow_id].
      apply NoDup_filter_map. exact Hids. }
    split; [exact Hperm | rewrite Hperm; reflexivity].
  - intros Hempty. split.
    + intros E s Hs Hd.
      assert (trim s ∈ relatedOf (store w) seedIds) as Hrel.
      { apply relatedOf_seed; [exact Hs | | exact Hd].
        intros E'. apply Hempty. rewrite <- E'. exact Hd. }
      apply Hsame in Hrel. rewrite E in Hrel. inversion Hrel.
    + intros Hseeds.
      destruct (map vrow_id _) as [|x ids] eqn:E; [reflexivity|].
      destruct (Hin x) as (_ & s & Hs & Hd); [apply Hsame; rewrite ?E; set_solver|].
      exfalso. exact (Hseeds s Hs Hd).
Qed.

(** ** Navigation targets *)

Lemma fetchTitleRows_scope (options : NavigationOptions) (docs : list Doc) :
  fetchTitleRows options docs = map normalizedRowOf (scopeOf options docs).
Proof. reflexivity. Qed.

Lemma scopeOf_docs (options : NavigationOptions) (docs : list Doc) (d : Doc) :
  d ∈ scopeOf options docs ->
  d ∈ docs /\ (includeAll options = false -> visibilityPredicate (audience options) d = true).
Proof.
  unfold scopeOf. destruct (includeAll options).
  - intros Hd. split; [exact Hd | discriminate].
  - intros Hd. apply list_elem_of_In, filter_In in Hd as [Hd Hp].
    split; [apply list_elem_of_In; exact Hd | intros _; exact Hp].
Qed.

(** The inner loop keeps the first document with the highest score. *)
Lemma bestTarget_fold_first (label : string) (docs : list Doc) :
  forall init : option SubRecipeTarget * Z,
    let best :=
      fold_left
        (fun best row =>
           let score := scoreTitleMatch (normalizeComparableText label) (nrow_norm row) in
           if snd best <? score then
             (Some {| target_id := nrow_id row; target_title := nrow_title row;
                      target_pluNumber := nrow_pluNumber row;
                      directMatch := 72 <=? score |}, score)
           else best)
        (map normalizedRowOf docs) init in
    (best = init /\ forall d, d ∈ docs -> docScore label d <= snd init) \/
    (exists before d after,
        docs = before ++ d :: after /\
        best = (Some (targetOf label d), docScore label d) /\
        snd init < docScore label d /\
        (forall r, r ∈ before -> docScore label r < docScore label d) /\
        (forall r, r ∈ after -> docScore label r <= docScore label d)).
Proof.
  cbv zeta. induction docs as [|d docs IH]; intros init; cbn [map fold_left].
  - left. split; [reflexivity|]. intros r Hr. inversion Hr.
  - change (scoreTitleMatch (normalizeComparableText label) (nrow_norm (normalizedRowOf d)))
      with (docScore label d).
    change {| target_id := nrow_id (normalizedRowOf d);
              target_title := nrow_title (normalizedRowOf d);
              target_pluNumber := nrow_pluNumber (normalizedRowOf d);
              directMatch := 72 <=? docScore label d |}
      with (targetOf label d).
    destruct (snd init <? docScore label d) eqn:Hlt.
    + apply Z.ltb_lt in Hlt.
      destruct (IH (Some (targetOf label d), docScore label d))
        as [[Hbest Hrest] | (before & r & after & -> & Hbest & Hgt & Hb & Ha)].
      * right. exists [], d, docs. cbn [snd] in Hrest.
        split_and!; [reflexivity | exact Hbest | exact Hlt | | exact Hrest].
        intros x Hx. inversion Hx.
      * right. exists (d :: before), r, after. cbn [snd] in Hgt.
        split_and!; [reflexivity | exact Hbest | lia | | exact Ha].
        intros x Hx. apply elem_of_cons in Hx as [-> | Hx]; [exact Hgt | auto].
    + apply Z.ltb_ge in Hlt.
      destruct (IH init) as [[Hbest Hrest] | (before & r & after & -> & Hbest & Hgt & Hb & Ha)].
      * left. split; [exact Hbest|].
        intros x Hx. apply elem_of_cons in Hx as [-> | Hx]; [exact Hlt | auto].
      * right. exists (d :: before), r, after.
        split_and!; [reflexivity | exact Hbest | exact Hgt | | exact Ha].
        intros x Hx. apply elem_of_cons in Hx as [-> | Hx]; [lia | auto].
Qed.

Lemma bestTarget_first (label : string) (options : NavigationOptions) (docs : list Doc) :
  (bestTarget (normalizeComparableText label) (fetchTitleRows options docs) = (None, 0) /\
   forall d, d ∈ scopeOf options docs -> docScore label d <= 0) \/
  (exists before d after,
      scopeOf options docs = before ++ d :: after /\
      bestTarget (normalizeComparableText label) (fetchTitleRows options docs)
      = (Some (targetOf label d), docScore label d) /\
      0 < docScore label d /\
      (forall r, r ∈ before -> docScore label r < docScore label d) /\
      (forall r, r ∈ after -> docScore label r <= docScore label d)).
Proof. exact (bestTarget_fold_first label (scopeOf options docs) (None, 0)). Qed.

Lemma findSubRecipeTargets_fold (labels : list string) (options : NavigationOptions)
    (docs : list Doc) :
  findSubRecipeTargets labels options docs
  = fold_left (resolveTarget (fetchTitleRows options docs)) (uniqueTrimmed labels)
      emptyObject.
Proof.
  unfold findSubRecipeTargets.
  destruct (length (uniqueTrimmed labels) =? 0)%nat eqn:Hlen; [|reflexivity].
  apply length_zero_nil in Hlen. rewrite Hlen. reflexivity.
Qed.

(** The own properties of the result. *)
Lemma findSubRecipeTargets_lookup (labels : list string) (options : NavigationOptions)
    (docs : list Doc) (key : string) :
  findSubRecipeTargets labels options docs !! key
  = if bool_decide (key ∈ uniqueTrimmed labels) && negb (strEq key "__proto__")
    then Some (entryOf (fetchTitleRows options docs) key)
    else None.
Proof.
  rewrite findSubRecipeTargets_fold.
  destruct (strEq_spec key "__proto__") as [E | Hne].
  - rewrite andb_false_r. subst key.
    apply (resolveTargets_proto _ _ emptyObject (uniqueTrimmed_NoDup labels));
      reflexivity.
  - rewrite andb_true_r, resolveTargets_lookup by exact Hne.
    case_bool_decide; [reflexivity | apply lookup_empty].
Qed.

(** The prototype of the result. *)
Lemma findSubRecipeTargets_proto (labels : list string) (options : NavigationOptions)
    (docs : list Doc) :
  proto (findSubRecipeTargets labels options docs)
  = if bool_decide ("__proto__" ∈ uniqueTrimmed labels)
    then prototypeOf (entryOf (fetchTitleRows options docs) "__proto__")
    else ObjectPrototype.
Proof.
  rewrite findSubRecipeTargets_fold.
  apply (resolveTargets_proto _ _ emptyObject (uniqueTrimmed_NoDup labels));
    reflexivity.
Qed.

(** What is read under a key of the request is the entry of the key,
    for [__proto__] as for every other key. *)
Lemma findSubRecipeTargets_read (labels : list string) (options : NavigationOptions)
    (docs : list Doc) (key : string) :
  key ∈ uniqueTrimmed labels ->
  readTarget (findSubRecipeTargets labels options docs) key
  = entryOf (fetchTitleRows options docs) key.
Proof.
  intros Hk. unfold readTarget. rewrite <- lookup_own, findSubRecipeTargets_lookup.
  rewrite bool_decide_eq_true_2 by exact Hk.
  destruct (strEq_spec key "__proto__") as [E | Hne]; [|reflexivity].
  subst key. cbn [andb negb]. rewrite findSubRecipeTargets_proto.
  rewrite bool_decide_eq_true_2 by exact Hk.
  destruct (entryOf _ _); reflexivity.
Qed.

(** X15. A target the resolver returns for a label is built from a
    document of the corpus the request may see (every recipe when
    [includeAll] is set, those visible to the audience otherwise): the
    first document, in the order of the fetch, whose title has the
    highest score for the label; that score is at least 60 and the
    direct flag tells whether it is at least 72. *)
Theorem findSubRecipeTargets_target (labels : list string) (options : NavigationOptions)
    (docs : list Doc) (key : string) (t : SubRecipeTarget) :
  findSubRecipeTargets labels options docs !! key = Some (Some t) ->
  exists before d after,
    scopeOf options docs = before ++ d :: after /\
    t = targetOf key d /\
    directMatch t = (72 <=? docScore key d) /\
    60 <= docScore key d /\
    (forall r, r ∈ before -> docScore key r < docScore key d) /\
    (forall r, r ∈ after -> docScore key r <= docScore key d) /\
    d ∈ docs /\
    (includeAll options = false -> visibilityPredicate (audience options) d = true).
Proof.
  rewrite findSubRecipeTargets_lookup.
  destruct (bool_decide (key ∈ uniqueTrimmed labels) && negb (strEq key "__proto__"));
    [|discriminate].
  unfold entryOf. destruct (isEmpty (normalizeComparableText key)); [discriminate|].
  cbv zeta.
  destruct (bestTarget_first key options docs)
    as [[-> _] | (before & d & after & Hscope & -> & Hpos & Hb & Ha)]; cbn [fst snd].
  - simpl. discriminate.
  - destruct (60 <=? docScore key d) eqn:H60; [|discriminate].
    intros [= <-]. apply Z.leb_le in H60.
    destruct (scopeOf_docs options docs d) as [Hd Hvis]; [rewrite Hscope; set_solver|].
    exists before, d, after. split_and!; auto.
Qed.

Lemma uniqueTrimmed_fixed (values : list string) :
  NoDup values ->
  (forall x, x ∈ values -> x <> "" /\ trim x = x) ->
  uniqueTrimmed values = values.
Proof.
  intros Hnd Hfix. unfold uniqueTrimmed, uniqueOf.
  rewrite map_fixed by (intros x Hx; apply Hfix, list_elem_of_In, Hx).
  rewrite filter_all
    by (intros x Hx; apply truthy_true, Hfix, list_elem_of_In, Hx).
  apply (uniqueOf_fold_distinct values []). exact Hnd.
Qed.

(** X16. The own properties of the resolver's result are named by the
    trimmed forms of the labels that are not blank, except [__proto__],
    which names the prototype of the result and no property; the entry
    of a key does not depend on the other labels of the request; and a
    key without a letter or digit is mapped to the unresolved marker. *)
Theorem findSubRecipeTargets_keys (labels : list string) (options : NavigationOptions)
    (docs : list Doc) (key : string) :
  (is_Some (findSubRecipeTargets labels options docs !! key) <->
   key <> "" /\ key <> "__proto__" /\ exists v, v ∈ labels /\ key = trim v) /\
  (is_Some (findSubRecipeTargets labels options docs !! key) ->
   findSubRecipeTargets labels options docs !! key
   = findSubRecipeTargets [key] options docs !! key) /\
  (is_Some (findSubRecipeTargets labels options docs !! key) ->
   normalizeComparableText key = "" ->
   findSubRecipeTargets labels options docs !! key = Some None).
Proof.
  rewrite findSubRecipeTargets_lookup.
  destruct (strEq_spec key "__proto__") as [Hp | Hp]; cbn [negb].
  { rewrite andb_false_r.
    split_and!; try (intros [x Hx]; discriminate).
    split; [intros [x Hx]; discriminate | intros (_ & Hne & _); contradiction]. }
  rewrite andb_true_r. split_and!.
  - case_bool_decide as Hk.
    + split; [intros _ | eauto].
      apply elem_of_uniqueTrimmed in Hk as [Hne Hv]. auto.
    + split; [intros [x Hx]; discriminate|]. intros (Hne & _ & Hv).
      exfalso. apply Hk, elem_of_uniqueTrimmed. auto.
  - case_bool_decide as Hk; [|intros [x Hx]; discriminate]. intros _.
    rewrite findSubRecipeTargets_lookup, (proj2 (strEq_neq _ _) Hp), andb_true_r.
    apply elem_of_uniqueTrimmed in Hk as (Hne & v & _ & ->).
    rewrite (uniqueTrimmed_fixed [trim v]).
    + rewrite bool_decide_eq_true_2 by set_solver. reflexivity.
    + apply NoDup_singleton.
    + intros x Hx. apply list_elem_of_singleton in Hx as ->.
      split; [exact Hne | apply trim_idempotent].
  - case_bool_decide as Hk; [|intros [x Hx]; discriminate]. intros _ Hblank.
    unfold entryOf. rewrite Hblank. reflexivity.
Qed.

Lemma entryOf_thresholds (label : string) (options : NavigationOptions) (docs : list Doc) :
  hasDirectLink (entryOf (fetchTitleRows options docs) label)
  = (72 <=? bestMatchScore label (corpusTitles options docs)) /\
  (entryOf (fetchTitleRows options docs) label = None
   <-> bestMatchScore label (corpusTitles options docs) < 60).
Proof.
  unfold entryOf.
  destruct (isEmpty (normalizeComparableText label)) eqn:Hblank.
  { apply isEmpty_true in Hblank. rewrite (bestMatchScore_blank _ _ Hblank).
    split; [reflexivity|]. split; [lia | reflexivity]. }
  cbv zeta. rewrite <- bestTarget_score.
  destruct (bestTarget_flag (normalizeComparableText label) (fetchTitleRows options docs))
    as (_ & Hflag).
  destruct (60 <=? snd (bestTarget _ _)) eqn:H60.
  - apply Z.leb_le in H60. destruct Hflag as (t & Ht & Hd); [lia|].
    rewrite Ht. cbn [hasDirectLink]. split; [exact Hd|].
    split; [discriminate | lia].
  - apply Z.leb_gt in H60. cbn [hasDirectLink]. split.
    + symmetry. apply Z.leb_gt. lia.
    + split; [intros _; exact H60 | reflexivity].
Qed.

Lemma extractPtnReference_blank : extractPtnReference (Some "") = None.
Proof. reflexivity. Qed.

Lemma ptnLabel_lineLabel (ingredient : Ingredient) :
  ptnLabel ingredient = lineLabel ingredient.
Proof.
  unfold ptnLabel, lineLabel. cbv zeta.
  destruct (extractPtnReference (ing_item ingredient)); [reflexivity|].
  destruct (ing_text ingredient); [reflexivity | apply extractPtnReference_blank].
Qed.

Lemma lineLabel_trimmed (ingredient : Ingredient) (label : string) :
  lineLabel ingredient = Some label -> label <> "" /\ trim label = label.
Proof.
  unfold lineLabel. intros H.
  assert (exists value, extractPtnReference value = Some label) as [value Hv].
  { destruct (extractPtnReference (ing_item ingredient)) eqn:E; [|eauto].
    injection H as <-. eauto. }
  apply extracted_token in Hv as (capture & -> & Ht).
  split; [apply truthy_true; exact Ht | apply trim_idempotent].
Qed.

Lemma elem_of_subRecipeLabels (ingredientRows : list Ingredient) (label : string) :
  label ∈ subRecipeLabels ingredientRows
  <-> exists ingredient, ingredient ∈ ingredientRows /\ lineLabel ingredient = Some label.
Proof.
  unfold subRecipeLabels, uniqueOf, definedStrings. rewrite uniqueOf_fold.
  split.
  - intros [H | H]; [inversion H|].
    apply list_elem_of_In, in_flat_map in H as (value & Hvalue & Hin).
    apply in_map_iff in Hvalue as (ingredient & <- & Hi).
    exists ingredient. split; [apply list_elem_of_In; exact Hi|].
    destruct (lineLabel ingredient) as [s|]; [|inversion Hin].
    destruct (truthy s); [|inversion Hin].
    destruct Hin as [-> | []]. reflexivity.
  - intros (ingredient & Hi & Hl). right.
    apply list_elem_of_In, in_flat_map. exists (Some label).
    split; [rewrite <- Hl; apply in_map, list_elem_of_In; exact Hi|].
    destruct (lineLabel_trimmed _ _ Hl) as [Hne _].
    apply truthy_true in Hne. rewrite Hne. left. reflexivity.
Qed.

Lemma subRecipeLabels_fixed (ingredientRows : list Ingredient) :
  uniqueTrimmed (subRecipeLabels ingredientRows) = subRecipeLabels ingredientRows.
Proof.
  apply uniqueTrimmed_fixed.
  - unfold subRecipeLabels, uniqueOf. apply uniqueOf_fold_NoDup, NoDup_nil_2.
  - intros x Hx. apply elem_of_subRecipeLabels in Hx as (ingredient & _ & Hl).
    exact (lineLabel_trimmed _ _ Hl).
Qed.

Lemma subRecipeTargets_lookup (ingredientRows : list Ingredient)
    (options : NavigationOptions) (docs : list Doc) (key : string) :
  subRecipeTargets ingredientRows options docs !! key
  = if bool_decide (key ∈ subRecipeLabels ingredientRows) && negb (strEq key "__proto__")
    then Some (entryOf (fetchTitleRows options docs) key)
    else None.
Proof.
  unfold subRecipeTargets. cbv zeta.
  destruct (0 <? length (subRecipeLabels ingredientRows))%nat eqn:Hlen.
  - rewrite findSubRecipeTargets_lookup, subRecipeLabels_fixed. reflexivity.
  - destruct (subRecipeLabels ingredientRows); [|discriminate].
    rewrite bool_decide_eq_false_2 by apply not_elem_of_nil. apply lookup_empty.
Qed.

(** What the page reads under a label of the recipe is the entry of the
    label. *)
Lemma subRecipeTargets_read (ingredientRows : list Ingredient)
    (options : NavigationOptions) (docs : list Doc) (key : string) :
  key ∈ subRecipeLabels ingredientRows ->
  readTarget (subRecipeTargets ingredientRows options docs) key
  = entryOf (fetchTitleRows options docs) key.
Proof.
  intros Hk. unfold subRecipeTargets. cbv zeta.
  destruct (0 <? length (subRecipeLabels ingredientRows))%nat eqn:Hlen.
  - apply findSubRecipeTargets_read. rewrite subRecipeLabels_fixed. exact Hk.
  - destruct (subRecipeLabels ingredientRows); [inversion Hk | discriminate].
Qed.

(** X17. On the recipe page, the own properties of the fetched object
    are named by the labels shown for the lines of the recipe, except
    [__proto__], which names its prototype. The target read for a line
    is the property named by its label when the label is not
    [__proto__]; for every label, the line links to a recipe exactly
    when the best-match score of its label is at least 72, and no
    target is read for it exactly when that score is below 60. *)
Theorem page_labels_resolved (ingredientRows : list Ingredient)
    (options : NavigationOptions) (docs : list Doc)
    (ingredient : Ingredient) (label : string) :
  ingredient ∈ ingredientRows ->
  ptnLabel ingredient = Some label ->
  let targets := subRecipeTargets ingredientRows options docs in
  (label <> "__proto__" -> targets !! label = Some (lineTarget targets ingredient)) /\
  (hasDirectLink (lineTarget targets ingredient) = true
   <-> 72 <= bestMatchScore label (corpusTitles options docs)) /\
  (lineTarget targets ingredient = None
   <-> bestMatchScore label (corpusTitles options docs) < 60) /\
  (forall key, is_Some (targets !! key)
               <-> key <> "__proto__" /\
                   exists line, line ∈ ingredientRows /\ ptnLabel line = Some key).
Proof.
  intros Hin Hlabel. cbv zeta.
  assert (label ∈ subRecipeLabels ingredientRows) as Hk.
  { apply elem_of_subRecipeLabels. exists ingredient.
    rewrite <- ptnLabel_lineLabel. auto. }
  unfold lineTarget. rewrite Hlabel, (subRecipeTargets_read _ _ _ _ Hk).
  destruct (entryOf_thresholds label options docs) as [Hdirect Hnone].
  split_and!.
  - intros Hne. rewrite subRecipeTargets_lookup.
    rewrite bool_decide_eq_true_2, (proj2 (strEq_neq _ _) Hne) by exact Hk. reflexivity.
  - rewrite Hdirect. apply Z.leb_le.
  - exact Hnone.
  - intros key. rewrite subRecipeTargets_lookup.
    destruct (strEq_spec key "__proto__") as [Hp | Hp]; cbn [negb].
    { rewrite andb_false_r. split; [intros [x Hx]; discriminate | tauto]. }
    rewrite andb_true_r. case_bool_decide as Hkey.
    + split; [intros _ | eauto]. split; [exact Hp|].
      apply elem_of_subRecipeLabels in Hkey as (line & Hl & He).
      exists line. rewrite ptnLabel_lineLabel. auto.
    + split; [intros [x Hx]; discriminate|].
      intros (_ & line & Hl & He). exfalso. apply Hkey, elem_of_subRecipeLabels.
      exists line. rewrite <- ptnLabel_lineLabel. auto.
Qed.

(** ** Listing pages *)

Lemma normalizePage_positive (value : option JsNumber) : 1 <= normalizePage value.
Proof.
  unfold normalizePage. cbv zeta.
  destruct (0 <? _) eqn:E; [apply Z.ltb_lt in E|]; lia.
Qed.

Lemma normalizePage_pageNumber (p : Z) :
  normalizePage (pageNumber p) = if 0 <? p then p else 1.
Proof. unfold normalizePage, pageNumber. rewrite Qfloor_Z. reflexivity. Qed.

Lemma normalizePageSize_sizes (value : option JsNumber) :
  normalizePageSize value = 10 \/ normalizePageSize value = 50 \/
  normalizePageSize value = 100.
Proof.
  unfold normalizePageSize. destruct value as [[| |q]|]; auto.
  destruct (Qeq_bool q (inject_Z 50)); [auto|].
  destruct (Qeq_bool q (inject_Z 100)); auto.
Qed.

(** The number of pages is the least number of pages of [pageSize]
    entries that hold [total] entries, and at least one. *)
Lemma totalPages_bounds (total pageSize : Z) :
  0 <= total -> 0 < pageSize ->
  let totalPages := Z.max 1 (ceilDiv total pageSize) in
  1 <= totalPages /\
  (totalPages - 1) * pageSize < Z.max 1 total <= totalPages * pageSize.
Proof.
  intros Htotal Hsize. cbv zeta. unfold ceilDiv.
  pose proof (Z.div_mod (- total) pageSize) as Hdiv.
  pose proof (Z.mod_pos_bound (- total) pageSize Hsize) as Hmod.
  specialize (Hdiv ltac:(lia)).
  set (q := (- total) / pageSize) in *. set (r := (- total) mod pageSize) in *.
  assert (q <= 0) as Hq by nia.
  destruct (Z.eq_dec total 0) as [-> | Hpos].
  - assert (q = 0) as -> by nia. simpl. lia.
  - assert (q <= -1) as Hq' by nia.
    rewrite (Z.max_r 1 (- q)) by lia. rewrite (Z.max_r 1 total) by lia. nia.
Qed.

Lemma slice_length {A} (start size : Z) (l : list A) :
  0 <= start -> 0 <= size ->
  Z.of_nat (length (slice start (start + size) l))
  = Z.max 0 (Z.min size (Z.of_nat (length l) - start)).
Proof.
  intros Hstart Hsize. unfold slice.
  rewrite length_take, length_drop. lia.
Qed.

Lemma slice_lookup {A} (start size : Z) (l : list A) (i : nat) :
  0 <= start -> (i < Z.to_nat size)%nat ->
  slice start (start + size) l !! i = l !! (Z.to_nat start + i)%nat.
Proof.
  intros Hstart Hi. unfold slice.
  replace (start + size - start) with size by lia.
  rewrite lookup_take_lt by exact Hi. apply lookup_drop.
Qed.

(** X18. The listing window, for every requested page and page size
    (missing, not finite, fractional, negative or too large): the page
    size is 10, 50 or 100; the number of pages is the least number of
    pages that holds all matches, and at least one; the page is the
    requested page clamped to the last page; the items are the matches
    at the positions of that page, as many as the page size or as are
    left; and when something matches, the page returned is not empty. *)
Theorem listRecipes_window {A} (matches : list A) (page pageSize : option JsNumber) :
  let r := listRecipes matches page pageSize in
  let n := res_pageSize r in
  let start := (res_page r - 1) * n in
  (n = 10 \/ n = 50 \/ n = 100) /\
  res_total r = Z.of_nat (length matches) /\
  (res_totalPages r - 1) * n < Z.max 1 (res_total r) <= res_totalPages r * n /\
  1 <= res_page r <= res_totalPages r /\
  res_page r = Z.min (normalizePage page) (res_totalPages r) /\
  Z.of_nat (length (res_items r)) = Z.min n (res_total r - start) /\
  (forall i, (i < Z.to_nat n)%nat ->
             res_items r !! i = matches !! (Z.to_nat start + i)%nat) /\
  (matches <> [] -> res_items r <> []).
Proof.
  cbv zeta. unfold listRecipes. cbv zeta.
  cbn [res_items res_total res_page res_pageSize res_totalPages].
  pose proof (normalizePage_positive page) as Hpage.
  pose proof (normalizePageSize_sizes pageSize) as Hsize.
  set (n := normalizePageSize pageSize) in *.
  set (p := normalizePage page) in *.
  rewrite (Z.max_r 0 (Z.of_nat (length matches))) by lia.
  destruct (totalPages_bounds (Z.of_nat (length matches)) n) as (HT & Hlow & Hhigh);
    [lia | lia |].
  set (T := Z.max 1 (ceilDiv (Z.of_nat (length matches)) n)) in *.
  assert (0 <= (Z.min p T - 1) * n) as Hstart by nia.
  assert ((Z.min p T - 1) * n <= (T - 1) * n) as Hle by nia.
  assert (Z.of_nat (length (slice ((Z.min p T - 1) * n) ((Z.min p T - 1) * n + n) matches))
          = Z.min n (Z.of_nat (length matches) - (Z.min p T - 1) * n)) as Hlen.
  { rewrite slice_length by lia.
    destruct matches; simpl length in *; [|lia].
    assert (T = 1) as -> by nia. lia. }
  split; [exact Hsize|]. split; [lia|]. split; [lia|]. split; [lia|].
  split; [lia|]. split; [exact Hlen|]. split.
  - intros i Hi. apply slice_lookup; [exact Hstart | exact Hi].
  - intros Hne Hnil. rewrite Hnil in Hlen. simpl in Hlen.
    destruct matches; [contradiction|]. simpl length in *. lia.
Qed.

Lemma chunks_concat {A} (n : nat) (l : list A) (m : nat) :
  concat (map (fun i => take n (drop (i * n) l)) (seq 0 m)) = take (m * n) l.
Proof.
  induction m as [|m IH]; [reflexivity|].
  rewrite seq_S, map_app, concat_app, IH. simpl. rewrite app_nil_r.
  rewrite take_take_drop. f_equal. lia.
Qed.

Lemma map_fmap {A B C} (f : B -> C) (g : A -> B) (l : list A) :
  map f (g <$> l) = map (fun x => f (g x)) l.
Proof. induction l as [|x l IH]; [reflexivity|]. cbn. rewrite IH. reflexivity. Qed.

(** X19. The pages of a listing partition the matches: the items of the
    pages 1 to [totalPages], one after the other, are the matches in
    their order; and a request for a page after the last one returns the
    last page. *)
Theorem listRecipes_partition {A} (matches : list A) (pageSize : option JsNumber) :
  let totalPages := res_totalPages (listRecipes matches None pageSize) in
  concat (map (fun p => res_items (listRecipes matches (pageNumber p) pageSize))
            (seqZ 1 totalPages)) = matches /\
  (forall p, totalPages <= p ->
             listRecipes matches (pageNumber p) pageSize
             = listRecipes matches (pageNumber totalPages) pageSize).
Proof.
  cbv zeta. unfold listRecipes. cbv zeta. cbn [res_items res_totalPages].
  pose proof (normalizePageSize_sizes pageSize) as Hsize.
  set (n := normalizePageSize pageSize) in *.
  rewrite (Z.max_r 0 (Z.of_nat (length matches))) by lia.
  destruct (totalPages_bounds (Z.of_nat (length matches)) n) as (HT & Hlow & Hhigh);
    [lia | lia |].
  set (T := Z.max 1 (ceilDiv (Z.of_nat (length matches)) n)) in *.
  split.
  - unfold seqZ. rewrite map_fmap.
    rewrite (map_ext_in _ (fun i => take (Z.to_nat n) (drop (i * Z.to_nat n) matches))).
    + rewrite chunks_concat. apply take_ge. nia.
    + intros i Hi. apply in_seq in Hi.
      rewrite normalizePage_pageNumber.
      rewrite (proj2 (Z.ltb_lt 0 (Z.of_nat i + 1))) by lia.
      rewrite Z.min_l by lia. unfold slice. f_equal; [f_equal; lia|].
      f_equal. nia.
  - intros p Hp. rewrite !normalizePage_pageNumber.
    rewrite (proj2 (Z.ltb_lt 0 p)) by lia. rewrite (proj2 (Z.ltb_lt 0 T)) by lia.
    rewrite (Z.min_r p T) by lia. rewrite Z.min_id. reflexivity.
Qed.

(** ** Compact pagination *)

Lemma elem_of_insertAscending (x : Z) (l : list Z) (y : Z) :
  y ∈ insertAscending x l <-> y = x \/ y ∈ l.
Proof.
  induction l as [|z l IH]; cbn [insertAscending].
  - rewrite list_elem_of_singleton, elem_of_nil. tauto.
  - destruct (x <=? z).
    + rewrite elem_of_cons. reflexivity.
    + rewrite elem_of_cons, IH, elem_of_cons. tauto.
Qed.

Lemma elem_of_sortAscending (l : list Z) (y : Z) : y ∈ sortAscending l <-> y ∈ l.
Proof.
  induction l as [|x l IH]; [reflexivity|].
  unfold sortAscending in *. cbn [fold_right].
  rewrite elem_of_insertAscending, IH, elem_of_cons. reflexivity.
Qed.

Lemma ascending_insert (x : Z) (l : list Z) :
  ascending l -> x ∉ l -> ascending (insertAscending x l).
Proof.
  induction l as [|z l IH]; intros Hasc Hx; cbn [insertAscending].
  - split; [intros y Hy; inversion Hy | exact I].
  - assert (x <> z) as Hne by (intros ->; apply Hx, list_elem_of_here).
    assert (x ∉ l) as Hl by (intros H; apply Hx, list_elem_of_further, H).
    destruct Hasc as [Hz Hasc]. destruct (x <=? z) eqn:E.
    + apply Z.leb_le in E. split; [|split; assumption].
      intros y Hy. apply elem_of_cons in Hy as [-> | Hy]; [lia|].
      specialize (Hz y Hy). lia.
    + apply Z.leb_gt in E. split; [|apply IH; assumption].
      intros y Hy. apply elem_of_insertAscending in Hy as [-> | Hy]; [lia | auto].
Qed.

Lemma ascending_sort (l : list Z) : NoDup l -> ascending (sortAscending l).
Proof.
  induction l as [|x l IH]; intros Hnd; [exact I|].
  apply NoDup_cons in Hnd as [Hx Hnd]. unfold sortAscending in *. cbn [fold_right].
  apply ascending_insert; [apply IH; exact Hnd|].
  intros H. apply Hx. apply (elem_of_sortAscending l x). exact H.
Qed.

(** An ascending list is determined by its members. *)
Lemma ascending_unique (l1 l2 : list Z) :
  ascending l1 -> ascending l2 -> (forall x, x ∈ l1 <-> x ∈ l2) -> l1 = l2.
Proof.
  revert l2. induction l1 as [|x l1 IH]; intros [|y l2] H1 H2 Hsame.
  - reflexivity.
  - exfalso. apply (not_elem_of_nil y), Hsame, list_elem_of_here.
  - exfalso. apply (not_elem_of_nil x), Hsame, list_elem_of_here.
  - destruct H1 as [Hx H1], H2 as [Hy H2].
    assert (x = y) as <-.
    { pose proof (proj1 (Hsame x) (list_elem_of_here _ _)) as Hxy.
      pose proof (proj2 (Hsame y) (list_elem_of_here _ _)) as Hyx.
      apply elem_of_cons in Hxy as [E | Hxy]; [exact E|].
      apply elem_of_cons in Hyx as [E | Hyx]; [congruence|].
      specialize (Hx _ Hyx). specialize (Hy _ Hxy). lia. }
    f_equal. apply IH; [exact H1 | exact H2|]. intros z. split; intros Hz.
    + pose proof (proj1 (Hsame z) (list_elem_of_further _ _ _ Hz)) as H.
      apply elem_of_cons in H as [-> | H]; [|exact H].
      specialize (Hx _ Hz). lia.
    + pose proof (proj2 (Hsame z) (list_elem_of_further _ _ _ Hz)) as H.
      apply elem_of_cons in H as [-> | H]; [|exact H].
      specialize (Hy _ Hz). lia.
Qed.

Lemma elem_of_addPage (p q : option Z) (l : list (option Z)) :
  q ∈ addPage p l <-> q ∈ l \/ q = p.
Proof.
  unfold addPage. case_bool_decide as Hp.
  - split; [auto|]. intros [H | ->]; assumption.
  - rewrite elem_of_app, list_elem_of_singleton. reflexivity.
Qed.

Lemma NoDup_addPage (p : option Z) (l : list (option Z)) :
  NoDup l -> NoDup (addPage p l).
Proof.
  intros Hnd. unfold addPage. case_bool_decide as Hp; [exact Hnd|].
  apply NoDup_app. split_and!; [exact Hnd | | apply NoDup_singleton].
  intros y Hy Hy'. apply list_elem_of_singleton in Hy'. subst. contradiction.
Qed.

Lemma elem_of_defined (l : list (option Z)) (z : Z) : z ∈ omap id l <-> Some z ∈ l.
Proof.
  rewrite list_elem_of_omap. split.
  - intros (y & Hy & E). simpl in E. subst y. exact Hy.
  - intros H. exists (Some z). auto.
Qed.

Lemma NoDup_defined (l : list (option Z)) : NoDup l -> NoDup (omap id l).
Proof.
  induction l as [|[z|] l IH]; intros Hnd; [apply NoDup_nil_2 | |];
    apply NoDup_cons in Hnd as [Hx Hnd]; cbn.
  - apply NoDup_cons. split; [|auto]. rewrite elem_of_defined. exact Hx.
  - auto.
Qed.

Lemma NoDup_filter_bool {A} (P : A -> bool) (l : list A) :
  NoDup l -> NoDup (List.filter P l).
Proof.
  induction l as [|a l IH]; intros Hnd; [exact Hnd|].
  apply NoDup_cons in Hnd as [Hfresh Hnd]. cbn [List.filter].
  destruct (P a); [|auto]. apply NoDup_cons. split; [|auto].
  intros Hin. apply Hfresh. apply list_elem_of_In, filter_In in Hin as [Hin _].
  apply list_elem_of_In. exact Hin.
Qed.

Lemma roundDouble_small (z : Z) : Z.abs z <= 2 ^ 53 -> roundDouble z = z.
Proof.
  intros H. unfold roundDouble. cbv zeta.
  rewrite (proj2 (Z.leb_le _ _) H). reflexivity.
Qed.

(** Rounding does not change whether a difference exceeds one. *)
Lemma roundDouble_gap (d : Z) : (1 <? roundDouble d) = (1 <? d).
Proof.
  unfold roundDouble. cbv zeta.
  destruct (Z.abs d <=? 2 ^ 53) eqn:E; [reflexivity|].
  apply Z.leb_gt in E.
  assert (53 <= Z.log2 (Z.abs d)) as Hlog by (apply Z.log2_le_pow2; lia).
  set (unit := 2 ^ (Z.log2 (Z.abs d) - 52)).
  assert (2 <= unit) as Hunit.
  { unfold unit. change 2 with (2 ^ 1) at 1. apply Z.pow_le_mono_r; lia. }
  assert (unit <= Z.abs d) as Hle.
  { unfold unit. transitivity (2 ^ Z.log2 (Z.abs d)).
    - apply Z.pow_le_mono_r; lia.
    - apply Z.log2_spec. lia. }
  assert (1 <= Z.abs d / unit) as Hsig.
  { apply Z.div_le_lower_bound; lia. }
  set (significand := Z.abs d / unit) in *.
  set (up := _ || _).
  assert (1 <= (if up then significand + 1 else significand)) as Hs
    by (destruct up; lia).
  destruct (Z.sgn_spec d) as [[Hd ->] | [[Hd ->] | [Hd ->]]]; [|lia|].
  - rewrite (proj2 (Z.ltb_lt 1 d)) by lia. apply Z.ltb_lt. nia.
  - rewrite (proj2 (Z.ltb_ge 1 d)) by lia. apply Z.ltb_ge. nia.
Qed.

(** Below 2^53 the pages are computed without rounding. *)
Lemma compactPages_exact (total : Z) (current : option Z) :
  match current with Some c => 1 <= c <= total /\ total < 2 ^ 53 | None => True end ->
  compactPages total current = exactPages total current.
Proof.
  intros Hc. unfold compactPages, exactPages. cbv zeta.
  destruct current as [c|]; cbn [option_map]; [|reflexivity].
  rewrite !roundDouble_small by lia. rewrite Z.add_0_r. reflexivity.
Qed.

(** The pages shown are, in ascending order and without repetition, the
    candidate pages between 1 and the last page. *)
Lemma exactPages_spec (total : Z) (current : option Z) :
  ascending (exactPages total current) /\
  forall z, z ∈ exactPages total current
            <-> 1 <= z <= total /\ candidatePage total current z.
Proof.
  unfold exactPages. cbv zeta. cbn [fold_left].
  set (base := addPage _ (addPage _ (addPage _ (addPage _ (addPage _ []))))).
  assert (NoDup base) as Hbase by (repeat apply NoDup_addPage; apply NoDup_nil_2).
  assert (forall a b : Z, Some a = Some b <-> a = b) as HS by (intros; split; congruence).
  assert (forall a : Z, Some a = None <-> False) as HN by (intros; split; [discriminate | tauto]).
  assert (forall z, Some z ∈ base
                    <-> z = 1 \/ z = total \/
                        match current with
                        | Some c => c - 1 <= z <= c + 1
                        | None => False
                        end) as Hmem.
  { intros z. unfold base. rewrite !elem_of_addPage, elem_of_nil.
    destruct current as [c|]; cbn [option_map]; rewrite ?HS, ?HN; lia. }
  clearbody base.
  set (near := match current with Some c => c <=? 3 | None => false end).
  set (far := match current with Some c => total - 2 <=? c | None => false end).
  set (pages := if far then _ else _).
  assert (NoDup pages) as Hnd.
  { unfold pages. destruct far, near; repeat apply NoDup_addPage; exact Hbase. }
  assert (forall z, Some z ∈ pages <-> candidatePage total current z) as Hpages.
  { intros z. unfold pages, candidatePage, near, far.
    destruct current as [c|].
    - destruct (total - 2 <=? c) eqn:Hfar, (c <=? 3) eqn:Hnear;
        rewrite ?elem_of_addPage, Hmem, ?HS;
        try apply Z.leb_le in Hfar; try apply Z.leb_gt in Hfar;
        try apply Z.leb_le in Hnear; try apply Z.leb_gt in Hnear; lia.
    - rewrite Hmem. tauto. }
  clearbody pages. split.
  - apply ascending_sort, NoDup_defined, NoDup_filter_bool, Hnd.
  - intros z. rewrite elem_of_sortAscending, elem_of_defined.
    rewrite list_elem_of_In, filter_In, <- list_elem_of_In, Hpages.
    cbn [inRange]. rewrite andb_true_iff, !Z.leb_le. tauto.
Qed.

Lemma exactPages_small (total c : Z) :
  1 <= c <= total -> total <= 5 -> exactPages total (Some c) = seqZ 1 total.
Proof.
  intros Hc Ht.
  assert (total = 1 \/ total = 2 \/ total = 3 \/ total = 4 \/ total = 5) as Htotal by lia.
  assert (c = 1 \/ c = 2 \/ c = 3 \/ c = 4 \/ c = 5) as Hcur by lia.
  destruct Htotal as [-> | [-> | [-> | [-> | ->]]]];
    destruct Hcur as [-> | [-> | [-> | [-> | ->]]]];
    try lia; vm_compute; reflexivity.
Qed.

Lemma exactPages_large (total c : Z) :
  1 <= c <= total -> 6 <= total ->
  exactPages total (Some c)
  = if c <=? 3 then [1; 2; 3; 4; total]
    else if total - 2 <=? c then [1; total - 3; total - 2; total - 1; total]
    else [1; c - 1; c; c + 1; total].
Proof.
  intros Hc Ht.
  destruct (exactPages_spec total (Some c)) as [Hasc Hmem].
  destruct (c <=? 3) eqn:Hnear; [apply Z.leb_le in Hnear | apply Z.leb_gt in Hnear].
  - apply ascending_unique; [exact Hasc | ascending_list|].
    intros z. rewrite Hmem. unfold candidatePage.
    rewrite !elem_of_cons, elem_of_nil. lia.
  - destruct (total - 2 <=? c) eqn:Hfar; [apply Z.leb_le in Hfar | apply Z.leb_gt in Hfar].
    + apply ascending_unique; [exact Hasc | ascending_list|].
      intros z. rewrite Hmem. unfold candidatePage.
      rewrite !elem_of_cons, elem_of_nil. lia.
    + apply ascending_unique; [exact Hasc | ascending_list|].
      intros z. rewrite Hmem. unfold candidatePage.
      rewrite !elem_of_cons, elem_of_nil. lia.
Qed.

Lemma exactPages_nan (total : Z) :
  1 <= total ->
  exactPages total None = if total =? 1 then [1] else [1; total].
Proof.
  intros Ht. destruct (exactPages_spec total None) as [Hasc Hmem].
  destruct (total =? 1) eqn:E; [apply Z.eqb_eq in E | apply Z.eqb_neq in E].
  - apply ascending_unique; [exact Hasc | ascending_list|].
    intros z. rewrite Hmem. unfold candidatePage.
    rewrite !elem_of_cons, elem_of_nil. lia.
  - apply ascending_unique; [exact Hasc | ascending_list|].
    intros z. rewrite Hmem. unfold candidatePage.
    rewrite !elem_of_cons, elem_of_nil. lia.
Qed.

(** The tokens for a current page between 1 and the last page. *)
Lemma compactTokens_cases (total c : Z) :
  1 <= c <= total ->
  total < 2 ^ 53 ->
  compactTokens total (Some c)
  = if total <=? 5 then map PageToken (seqZ 1 total)
    else if c <=? 3 then
      [PageToken 1; PageToken 2; PageToken 3; PageToken 4; Ellipsis; PageToken total]
    else if total - 2 <=? c then
      [PageToken 1; Ellipsis; PageToken (total - 3); PageToken (total - 2);
       PageToken (total - 1); PageToken total]
    else
      [PageToken 1; Ellipsis; PageToken (c - 1); PageToken c; PageToken (c + 1);
       Ellipsis; PageToken total].
Proof.
  intros Hc Hbound. unfold compactTokens.
  rewrite compactPages_exact by (split; [exact Hc | exact Hbound]).
  destruct (total <=? 5) eqn:Hsmall; [apply Z.leb_le in Hsmall | apply Z.leb_gt in Hsmall].
  - rewrite exactPages_small by lia.
    assert (total = 1 \/ total = 2 \/ total = 3 \/ total = 4 \/ total = 5) as Htotal by lia.
    destruct Htotal as [-> | [-> | [-> | [-> | ->]]]]; reflexivity.
  - rewrite exactPages_large by lia.
    destruct (c <=? 3) eqn:Hnear; [apply Z.leb_le in Hnear | apply Z.leb_gt in Hnear].
    + cbn [tokensFrom app]. rewrite !roundDouble_gap. decide_gaps. reflexivity.
    + destruct (total - 2 <=? c) eqn:Hfar;
        [apply Z.leb_le in Hfar | apply Z.leb_gt in Hfar];
        cbn [tokensFrom app]; rewrite !roundDouble_gap; decide_gaps; reflexivity.
Qed.

Lemma compactTokens_nan (total : Z) :
  1 <= total ->
  compactTokens total None
  = if total <=? 1 then [PageToken 1]
    else if total <=? 2 then [PageToken 1; PageToken 2]
    else [PageToken 1; Ellipsis; PageToken total].
Proof.
  intros Ht. unfold compactTokens.
  rewrite (compactPages_exact total None I), exactPages_nan by exact Ht.
  destruct (total =? 1) eqn:E; [apply Z.eqb_eq in E | apply Z.eqb_neq in E].
  - subst. reflexivity.
  - rewrite (proj2 (Z.leb_gt total 1)) by lia.
    destruct (total <=? 2) eqn:E2; [apply Z.leb_le in E2 | apply Z.leb_gt in E2].
    + assert (total = 2) as -> by lia. reflexivity.
    + cbn [tokensFrom app]. rewrite !roundDouble_gap. decide_gaps. reflexivity.
Qed.

(** X20. For a number of pages below 2^53 and a current page between 1
    and the number of pages, as the listing returns them, the tokens
    are: every page when there are at
    most five; the first four pages, an ellipsis and the last page when
    the current page is among the first three; the first page, an
    ellipsis and the last four pages when it is among the last three;
    and otherwise the first page, an ellipsis, the current page with
    its two neighbours, an ellipsis and the last page. *)
Theorem buildCompactPagination_tokens (totalPages page : Z) :
  1 <= page <= totalPages ->
  totalPages < 2 ^ 53 ->
  buildCompactPagination (JsFinite (inject_Z totalPages)) (JsFinite (inject_Z page))
  = if totalPages <=? 5 then map PageToken (seqZ 1 totalPages)
    else if page <=? 3 then
      [PageToken 1; PageToken 2; PageToken 3; PageToken 4; Ellipsis; PageToken totalPages]
    else if totalPages - 2 <=? page then
      [PageToken 1; Ellipsis; PageToken (totalPages - 3); PageToken (totalPages - 2);
       PageToken (totalPages - 1); PageToken totalPages]
    else
      [PageToken 1; Ellipsis; PageToken (page - 1); PageToken page; PageToken (page + 1);
       Ellipsis; PageToken totalPages].
Proof.
  intros Hpage Hbound. unfold buildCompactPagination.
  destruct (Qle_bool (inject_Z totalPages) 1) eqn:Hone.
  - apply Qle_bool_iff in Hone. unfold Qle in Hone. simpl in Hone.
    assert (totalPages = 1) as -> by lia. reflexivity.
  - cbv zeta. rewrite Qfloor_Z. unfold clampCurrent. rewrite Qfloor_Z.
    rewrite (Z.max_r 1 totalPages) by lia.
    rewrite (Z.max_r 1 page) by lia. rewrite (Z.min_l page totalPages) by lia.
    apply compactTokens_cases; [exact Hpage | exact Hbound].
Qed.

Lemma pagesOf_tokensFrom (sorted : list Z) :
  forall prev, pagesOf (tokensFrom prev sorted) = sorted.
Proof.
  induction sorted as [|value rest IH]; intros prev; [reflexivity|].
  cbn [tokensFrom]. unfold pagesOf in *.
  destruct (match prev with Some p => 1 <? roundDouble (value - p) | None => false end);
    cbn; rewrite IH; reflexivity.
Qed.

Lemma clampCurrent_range (total : Z) (currentPage : JsNumber) (c : Z) :
  1 <= total -> clampCurrent total currentPage = Some c -> 1 <= c <= total.
Proof.
  intros Ht. unfold clampCurrent.
  destruct currentPage as [|[]|q]; intros [= <-]; lia.
Qed.

Lemma lastPage_positive (totalPages : JsNumber) : 1 <= lastPage totalPages.
Proof.
  unfold lastPage. destruct totalPages as [| |q]; try lia.
  destruct (Qle_bool q 1) eqn:E; [lia|].
  assert (1 <= q)%Q as Hq.
  { apply Qlt_le_weak, Qnot_le_lt. intros H. apply Qle_bool_iff in H. congruence. }
  apply Qfloor_resp_le in Hq. exact Hq.
Qed.

Lemma compactTokens_single (current : option Z) :
  match current with Some c => 1 <= c <= 1 | None => True end ->
  compactTokens 1 current = [PageToken 1].
Proof.
  destruct current as [c|]; intros Hc; [|reflexivity].
  assert (c = 1) as -> by lia. reflexivity.
Qed.

(** The early return of [buildCompactPagination] agrees with the rest of
    the function. *)
Lemma buildCompactPagination_compact (totalPages currentPage : JsNumber) :
  buildCompactPagination totalPages currentPage
  = compactTokens (lastPage totalPages) (clampCurrent (lastPage totalPages) currentPage).
Proof.
  pose proof (lastPage_positive totalPages) as Hpos.
  unfold buildCompactPagination, lastPage in *.
  assert (forall current, [PageToken 1] = compactTokens 1 (clampCurrent 1 current)) as Hone.
  { intros current. symmetry. apply compactTokens_single.
    destruct (clampCurrent 1 current) as [c|] eqn:E; [|exact I].
    apply (clampCurrent_range 1 current c); [lia | exact E]. }
  destruct totalPages as [| |q]; try apply Hone.
  destruct (Qle_bool q 1); [apply Hone|].
  cbv zeta. rewrite (Z.max_r 1 (Qfloor q)) by exact Hpos. reflexivity.
Qed.

Lemma compactTokens_ends (total : Z) (current : option Z) :
  1 <= total < 2 ^ 53 ->
  match current with Some c => 1 <= c <= total | None => True end ->
  head (compactTokens total current) = Some (PageToken 1) /\
  last (compactTokens total current) = Some (PageToken total) /\
  (length (compactTokens total current) <= 7)%nat.
Proof.
  intros [Ht Hbound] Hc. destruct current as [c|].
  - rewrite compactTokens_cases by assumption.
    destruct (total <=? 5) eqn:Hsmall.
    + apply Z.leb_le in Hsmall.
      assert (total = 1 \/ total = 2 \/ total = 3 \/ total = 4 \/ total = 5) as Htotal by lia.
      destruct Htotal as [-> | [-> | [-> | [-> | ->]]]];
        (split_and!; [reflexivity | reflexivity | simpl; lia]).
    + destruct (c <=? 3); [|destruct (total - 2 <=? c)];
        (split_and!; [reflexivity | reflexivity | simpl; lia]).
  - rewrite compactTokens_nan by exact Ht.
    destruct (total <=? 1) eqn:E1; [apply Z.leb_le in E1; assert (total = 1) as -> by lia|].
    + split_and!; [reflexivity | reflexivity | simpl; lia].
    + destruct (total <=? 2) eqn:E2.
      * apply Z.leb_le in E2. apply Z.leb_gt in E1. assert (total = 2) as -> by lia.
        split_and!; [reflexivity | reflexivity | simpl; lia].
      * split_and!; [reflexivity | reflexivity | simpl; lia].
Qed.

(** X21. For every pair of arguments, also fractions, infinities and
    [NaN], with a last page below 2^53: the tokens start with page 1 and end with the last page (the
    floor of the number of pages, or 1); there are at most seven of
    them; their page numbers are strictly ascending, lie between 1 and
    the last page and are the candidate pages; the ellipses stand
    exactly where two page numbers in a row differ by more than one; and
    the clamped current page is among the pages. *)
Theorem buildCompactPagination_shape (totalPages currentPage : JsNumber) :
  let tokens := buildCompactPagination totalPages currentPage in
  let total := lastPage totalPages in
  let current := clampCurrent total currentPage in
  total < 2 ^ 53 ->
  head tokens = Some (PageToken 1) /\
  last tokens = Some (PageToken total) /\
  (length tokens <= 7)%nat /\
  ascending (pagesOf tokens) /\
  (forall p, p ∈ pagesOf tokens <-> 1 <= p <= total /\ candidatePage total current p) /\
  tokens = tokensFrom None (pagesOf tokens) /\
  (forall c, current = Some c -> c ∈ pagesOf tokens).
Proof.
  cbv zeta. intros Hbound. rewrite buildCompactPagination_compact.
  pose proof (lastPage_positive totalPages) as Hpos.
  set (total := lastPage totalPages) in *.
  assert (match clampCurrent total currentPage with
          | Some c => 1 <= c <= total
          | None => True
          end) as Hc.
  { destruct (clampCurrent total currentPage) as [c|] eqn:E; [|exact I].
    apply (clampCurrent_range total currentPage c Hpos E). }
  destruct (compactTokens_ends total (clampCurrent total currentPage)
              (conj Hpos Hbound) Hc) as (Hhead & Hlast & Hlen).
  destruct (exactPages_spec total (clampCurrent total currentPage)) as [Hasc Hmem].
  unfold compactTokens in *. rewrite pagesOf_tokensFrom.
  rewrite compactPages_exact in *
    by (destruct (clampCurrent total currentPage); [split; assumption | exact I]).
  split_and!; [exact Hhead | exact Hlast | exact Hlen | exact Hasc | exact Hmem
              | reflexivity |].
  intros c E. apply Hmem. rewrite E in Hc |- *. split; [exact Hc|].
  unfold candidatePage. lia.
Qed.

(** ** Page links of a listing *)

Lemma lastPage_integer (totalPages : Z) :
  1 <= totalPages -> lastPage (JsFinite (inject_Z totalPages)) = totalPages.
Proof.
  intros Ht. unfold lastPage.
  destruct (Qle_bool (inject_Z totalPages) 1) eqn:E; [|apply Qfloor_Z].
  apply Qle_bool_iff in E. unfold Qle in E. simpl in E. lia.
Qed.

Lemma clampCurrent_integer (total page : Z) :
  1 <= page <= total -> clampCurrent total (JsFinite (inject_Z page)) = Some page.
Proof. intros Hp. unfold clampCurrent. rewrite Qfloor_Z. f_equal. lia. Qed.

Lemma elem_of_pagesOf (tokens : list PaginationToken) (p : Z) :
  p ∈ pagesOf tokens <-> PageToken p ∈ tokens.
Proof.
  unfold pagesOf. rewrite list_elem_of_omap. split.
  - intros ([q|] & Hq & E); [|discriminate]. injection E as ->. exact Hq.
  - intros H. exists (PageToken p). auto.
Qed.

Lemma pagination_pages (totalPages page p : Z) :
  1 <= page <= totalPages ->
  totalPages < 2 ^ 53 ->
  PageToken p ∈ buildCompactPagination (JsFinite (inject_Z totalPages))
                  (JsFinite (inject_Z page))
  <-> 1 <= p <= totalPages /\ candidatePage totalPages (Some page) p.
Proof.
  intros Hp Hbound. rewrite buildCompactPagination_compact, lastPage_integer by lia.
  rewrite clampCurrent_integer by exact Hp.
  rewrite <- elem_of_pagesOf. unfold compactTokens. rewrite pagesOf_tokensFrom.
  rewrite compactPages_exact by (split; assumption).
  apply exactPages_spec.
Qed.

Lemma normalizePageSize_pageNumber (n : Z) :
  n = 10 \/ n = 50 \/ n = 100 -> normalizePageSize (pageNumber n) = n.
Proof. intros [-> | [-> | ->]]; reflexivity. Qed.

(** A page between 1 and the number of pages of a listing, requested
    with the page size of the listing over the same documents, is
    returned as that very page, with the same page size and number of
    pages, and with items when anything matches. *)
Lemma listRecipes_page {A} (matches : list A) (page pageSize : option JsNumber)
    (p : Z) :
  let data := listRecipes matches page pageSize in
  1 <= p <= res_totalPages data ->
  let linked := listRecipes matches (pageNumber p) (pageNumber (res_pageSize data)) in
  res_page linked = p /\
  res_pageSize linked = res_pageSize data /\
  res_totalPages linked = res_totalPages data /\
  (matches <> [] -> res_items linked <> []).
Proof.
  cbv zeta. unfold listRecipes. cbv zeta.
  cbn [res_items res_total res_page res_pageSize res_totalPages].
  pose proof (normalizePageSize_sizes pageSize) as Hsize.
  set (n := normalizePageSize pageSize) in *.
  rewrite (normalizePageSize_pageNumber n Hsize).
  rewrite (Z.max_r 0 (Z.of_nat (length matches))) by lia.
  destruct (totalPages_bounds (Z.of_nat (length matches)) n) as (HT & Hlow & Hhigh);
    [lia | lia |].
  set (T := Z.max 1 (ceilDiv (Z.of_nat (length matches)) n)) in *.
  intros Hp.
  rewrite normalizePage_pageNumber, (proj2 (Z.ltb_lt 0 p)) by lia.
  rewrite (Z.min_l p T) by lia.
  split_and!; try reflexivity.
  intros Hne Hnil.
  assert (Z.of_nat (length (slice ((p - 1) * n) ((p - 1) * n + n) matches)) = 0) as Hlen
    by (rewrite Hnil; reflexivity).
  rewrite slice_length in Hlen by nia.
  destruct matches; [contradiction|]. simpl length in *. nia.
Qed.

Lemma listRecipes_pages {A} (matches : list A) (page pageSize : option JsNumber) :
  let data := listRecipes matches page pageSize in
  1 <= res_page data <= res_totalPages data /\
  res_totalPages data <= Z.max 1 (res_total data).
Proof.
  cbv zeta. unfold listRecipes. cbv zeta.
  cbn [res_items res_total res_page res_pageSize res_totalPages].
  pose proof (normalizePage_positive page) as Hpage.
  pose proof (normalizePageSize_sizes pageSize) as Hsize.
  set (n := normalizePageSize pageSize) in *.
  rewrite (Z.max_r 0 (Z.of_nat (length matches))) by lia.
  destruct (totalPages_bounds (Z.of_nat (length matches)) n) as (HT & Hlow & Hhigh);
    [lia | lia |].
  set (T := Z.max 1 (ceilDiv (Z.of_nat (length matches)) n)) in *.
  split; [lia|]. nia.
Qed.

(** X22. On the listing page, for a listing of fewer than 2^53
    documents: the pagination bar shows the page of the listing, and
    every page it links to (a page token, or the previous or next page
    when there is one) lies between 1 and the number of pages of the
    listing. The links carry the page size of the listing and the
    active category. When the selected category is empty or one of the
    category options, the listing with the parameters of a link is the
    linked page of the same listing, with the same page size and number
    of pages, and with items when anything matches. Otherwise the active
    category is empty, and the listing with the parameters of a link is
    taken over the documents of every category. *)
Theorem listing_page_links {A} (matchesOf : option string -> list A)
    (selectedCategory : string) (counts : gmap string Z)
    (page pageSize : option JsNumber) (p : Z) :
  let data := listAccessibleRecipes matchesOf selectedCategory page pageSize in
  let activeCategory := activeCategoryOf selectedCategory counts in
  let pageTokens :=
    buildCompactPagination (JsFinite (inject_Z (res_totalPages data)))
      (JsFinite (inject_Z (res_page data))) in
  res_total data < 2 ^ 53 ->
  PageToken p ∈ pageTokens \/
  (p = res_page data - 1 /\ 1 < res_page data) \/
  (p = res_page data + 1 /\ res_page data < res_totalPages data) ->
  let linked := listAccessibleRecipes matchesOf activeCategory (pageNumber p)
                  (pageNumber (res_pageSize data)) in
  PageToken (res_page data) ∈ pageTokens /\
  1 <= p <= res_totalPages data /\
  (selectedCategory = "" \/ is_Some (counts !! selectedCategory) ->
   activeCategory = selectedCategory /\
   res_page linked = p /\
   res_pageSize linked = res_pageSize data /\
   res_totalPages linked = res_totalPages data /\
   (res_items data <> [] -> res_items linked <> [])) /\
  (selectedCategory <> "" -> counts !! selectedCategory = None ->
   activeCategory = "" /\
   linked = listRecipes (matchesOf None) (pageNumber p) (pageNumber (res_pageSize data))).
Proof.
  cbv zeta. unfold listAccessibleRecipes.
  set (matches := matchesOf (normalizeCategory (Some selectedCategory))).
  destruct (listRecipes_pages matches page pageSize) as [Hc HT].
  intros Hbound Hlink.
  assert (res_totalPages (listRecipes matches page pageSize) < 2 ^ 53) as HT'.
  { assert (0 <= res_total (listRecipes matches page pageSize))
      by (unfold listRecipes; cbn [res_total]; lia).
    lia. }
  assert (1 <= p <= res_totalPages (listRecipes matches page pageSize)) as Hp.
  { destruct Hlink as [Hlink | Hlink]; [|lia].
    apply pagination_pages in Hlink; [tauto | exact Hc | exact HT']. }
  split; [|split; [exact Hp|split]].
  - apply pagination_pages; [exact Hc | exact HT'|]. split; [exact Hc|].
    unfold candidatePage. lia.
  - intros Hsel.
    assert (activeCategoryOf selectedCategory counts = selectedCategory) as ->.
    { unfold activeCategoryOf. destruct Hsel as [-> | Hsel]; [reflexivity|].
      rewrite (bool_decide_eq_true_2 _ Hsel).
      destruct (truthy selectedCategory) eqn:E; [reflexivity|].
      unfold truthy in E. apply negb_false_iff, isEmpty_true in E. auto. }
    split; [reflexivity|]. fold matches.
    destruct (listRecipes_page matches page pageSize p Hp) as (H1 & H2 & H3 & H4).
    split_and!; [exact H1 | exact H2 | exact H3|].
    intros Hitems. apply H4. intros Hnil. apply Hitems.
    unfold listRecipes. cbn [res_items]. rewrite Hnil.
    unfold slice. rewrite drop_nil. apply take_nil.
  - intros Hne Hnone.
    assert (activeCategoryOf selectedCategory counts = "") as ->.
    { unfold activeCategoryOf. rewrite bool_decide_eq_false_2, andb_false_r; [reflexivity|].
      rewrite Hnone. intros [x Hx]. discriminate. }
    split; reflexivity.
Qed.

(** ** Category options *)

Lemma occurrences_nonneg (name : string) (rows : list (option string)) :
  0 <= occurrences name rows.
Proof. unfold occurrences. lia. Qed.

Lemma occurrences_app (name : string) (a b : list (option string)) :
  occurrences name (a ++ b) = occurrences name a + occurrences name b.
Proof. unfold occurrences. rewrite List.filter_app, length_app. lia. Qed.

Lemma occurrences_single (name : string) (row : option string) :
  occurrences name [row]
  = match row with
    | Some value => if strEq (trim value) name then 1 else 0
    | None => 0
    end.
Proof.
  unfold occurrences. destruct row as [value|]; cbn [List.filter]; [|reflexivity].
  destruct (strEq (trim value) name); reflexivity.
Qed.

Lemma categoryCounts_fold (rows : list (option string)) :
  forall (done : list (option string)) (counts : gmap string Z),
    (forall name, counts !! name
                  = if strEq name "" || (occurrences name done =? 0)
                    then None else Some (occurrences name done)) ->
    forall name,
      fold_left countCategory rows counts !! name
      = if strEq name "" || (occurrences name (done ++ rows) =? 0)
        then None else Some (occurrences name (done ++ rows)).
Proof.
  induction rows as [|row rows IH]; intros done counts Hinv name; cbn [fold_left].
  - rewrite app_nil_r. apply Hinv.
  - replace (done ++ row :: rows) with ((done ++ [row]) ++ rows)
      by (rewrite <- List.app_assoc; reflexivity).
    apply IH. clear name. intros name. rewrite occurrences_app, occurrences_single.
    pose proof (occurrences_nonneg name done) as Hpos.
    unfold countCategory. destruct row as [value|];
      [|rewrite Z.add_0_r; apply Hinv].
    cbv zeta. destruct (isEmpty (trim value)) eqn:Hblank.
    + apply isEmpty_true in Hblank. rewrite Hblank, Hinv.
      destruct (strEq_spec "" name) as [<- | Hne]; [reflexivity|].
      rewrite Z.add_0_r. reflexivity.
    + apply isEmpty_false in Hblank.
      destruct (strEq_spec (trim value) name) as [<- | Hne].
      * rewrite lookup_insert_eq, Hinv.
        destruct (strEq_spec (trim value) "") as [E | _]; [contradiction|].
        cbn [orb].
        destruct (occurrences (trim value) done =? 0) eqn:Hz.
        -- apply Z.eqb_eq in Hz. rewrite Hz. reflexivity.
        -- apply Z.eqb_neq in Hz.
           rewrite (proj2 (Z.eqb_neq _ 0)) by lia. reflexivity.
      * rewrite lookup_insert_ne by exact Hne. rewrite Hinv, Z.add_0_r. reflexivity.
Qed.

(** X23. The category options: a name has an entry exactly when it is
    not empty and is the trimmed category of some row, and its count is
    the number of rows whose trimmed category it is; rows without a
    category or with a blank one are not counted. *)
Theorem categoryCounts_counts (rows : list (option string)) (name : string) :
  categoryCounts rows !! name
  = (if strEq name "" || (occurrences name rows =? 0)
     then None else Some (occurrences name rows)) /\
  (is_Some (categoryCounts rows !! name)
   <-> name <> "" /\ exists value, Some value ∈ rows /\ trim value = name).
Proof.
  assert (categoryCounts rows !! name
          = if strEq name "" || (occurrences name rows =? 0)
            then None else Some (occurrences name rows)) as Hcount.
  { unfold categoryCounts.
    apply (categoryCounts_fold rows [] ∅). intros k. rewrite lookup_empty.
    destruct (strEq k ""); reflexivity. }
  split; [exact Hcount|]. rewrite Hcount.
  assert (occurrences name rows <> 0
          <-> exists value, Some value ∈ rows /\ trim value = name) as Hocc.
  { unfold occurrences. split.
    - intros Hne.
      destruct (List.filter _ rows) as [|row l] eqn:E; [simpl in Hne; lia|].
      assert (In row (List.filter
                        (fun row => match row with
                                    | Some value => strEq (trim value) name
                                    | None => false
                                    end) rows)) as Hin by (rewrite E; left; reflexivity).
      apply filter_In in Hin as [Hin Hp]. destruct row as [value|]; [|discriminate].
      apply strEq_eq in Hp. exists value.
      split; [apply list_elem_of_In; exact Hin | exact Hp].
    - intros (value & Hin & Hp) Hz.
      assert (In (Some value)
                (List.filter
                   (fun row => match row with
                               | Some value => strEq (trim value) name
                               | None => false
                               end) rows)) as Hf.
      { apply filter_In. split; [apply list_elem_of_In; exact Hin|].
        apply strEq_eq. exact Hp. }
      destruct (List.filter _ rows); [inversion Hf | simpl in Hz; lia]. }
  destruct (strEq_spec name "") as [E | Hne]; cbn [orb].
  - split; [intros [x Hx]; discriminate | intros [H _]; contradiction].
  - destruct (occurrences name rows =? 0) eqn:Hz.
    + apply Z.eqb_eq in Hz. split; [intros [x Hx]; discriminate|].
      intros [_ Hex]. apply Hocc in Hex. contradiction.
    + apply Z.eqb_neq in Hz. split; [|eauto].
      intros _. split; [exact Hne | apply Hocc; exact Hz].
Qed.

(** ** Admin route *)

Lemma setRecipesVisibility_nothing_updated (env : Env) (clients : list WriteClient)
    (seedIds : list string) (audience : AdminAudience) (value : bool)
    (w w' : World) (result : PropagationResult) :
  setRecipesVisibility env clients seedIds audience value w = (Normal result, w') ->
  updatedIds result = [] -> w' = w.
Proof.
  intros Hrun Hnone. rewrite setRecipesVisibility_unfold in Hrun.
  destruct (tokenConfigured env); [|discriminate]. cbv zeta in Hrun.
  destruct (writeRows env clients audience value _ [] w) as [[updated|e] w1] eqn:Hw;
    [|discriminate].
  injection Hrun as <- <-. cbn [updatedIds] in Hnone.
  destruct (writeRows_returns _ _ _ _ _ _ _ _ _ Hw) as (_ & Hupd & _).
  rewrite Hnone in Hupd. cbn [app] in Hupd.
  destruct (currentRowsOf (store w) (relatedOf (store w) seedIds)); [|discriminate].
  cbn [writeRows] in Hw. injection Hw as _ <-. reflexivity.
Qed.

Lemma failureResponse_status (error : Thrown) :
  statusOf (failureResponse error) = 403 \/ statusOf (failureResponse error) = 500.
Proof.
  unfold failureResponse. cbv zeta. cbn [statusOf].
  destruct (includes _ "permission"); auto.
Qed.

(** X24. Every answer of the [PATCH] handler. A success answer is given
    only for a request that passed every check, after the write of
    every row of the component was committed, and it counts at least
    one updated recipe. An error answer has status 400, 401, 403, 404
    or 500, and with 400, 401 or 404 neither the store nor the commit
    log has changed. The handler itself throws only for a [null] body,
    before anything is read or written. *)
Theorem PATCH_outcomes (check : option string) (body : RequestBody)
    (env : Env) (clients : list WriteClient) (w : World) :
  match PATCH check body env clients w with
  | (Normal (OkResponse updatedCount relatedCount), w') =>
      exists targetIds audience flag,
        check = None /\
        validRequest body targetIds audience flag /\
        store w' = commitRows audience flag
                     (currentRowsOf (store w) (relatedOf (store w) targetIds)) (store w) /\
        updatedCount
        = Z.of_nat (length (currentRowsOf (store w) (relatedOf (store w) targetIds))) /\
        relatedCount = Z.of_nat (length (relatedOf (store w) targetIds)) /\
        1 <= updatedCount
  | (Normal (ErrorResponse status _), w') =>
      (status = 400 \/ status = 401 \/ status = 403 \/ status = 404 \/ status = 500) /\
      (status = 400 \/ status = 401 \/ status = 404 -> w' = w)
  | (Throw error, w') => check = None /\ body = NullBody /\ w' = w
  end.
Proof.
  unfold PATCH. destruct check as [reason|]; [simpl; split; [lia | reflexivity]|].
  destruct body as [| |id ids audienceField value];
    [simpl; split; [lia | reflexivity] | simpl; auto |].
  cbv zeta.
  destruct (length (targetIdsOf id ids) =? 0)%nat eqn:Hlen;
    [simpl; split; [lia | reflexivity]|].
  destruct (existsb _ (targetIdsOf id ids)) eqn:Hdraft;
    [simpl; split; [lia | reflexivity]|].
  destruct (audienceOf audienceField) as [audience|] eqn:Haud;
    [|simpl; split; [lia | reflexivity]].
  destruct value as [[|flag| | | |]|]; try (simpl; split; [lia | reflexivity]).
  destruct (setRecipesVisibility env clients (targetIdsOf id ids) audience flag w)
    as [[result|error] w'] eqn:Hrun.
  - destruct (length (updatedIds result) =? 0)%nat eqn:Hupd.
    + apply length_zero_nil in Hupd. split; [lia|]. intros _.
      eapply setRecipesVisibility_nothing_updated; eassumption.
    + exists (targetIdsOf id ids), audience, flag.
      assert (validRequest (Fields id ids audienceField (Some (JsonBool flag)))
                (targetIdsOf id ids) audience flag) as Hvalid.
      { exists id, ids, audienceField. split_and!; [reflexivity | reflexivity | | | exact Haud].
        - intros E. rewrite E in Hlen. discriminate.
        - intros targetId Hin.
          destruct (startsWith targetId "drafts.") eqn:Hs; [|reflexivity].
          assert (existsb (fun t => startsWith t "drafts.") (targetIdsOf id ids) = true)
            as Hex by (apply existsb_exists; exists targetId;
                       split; [apply list_elem_of_In; exact Hin | exact Hs]).
          congruence. }
      rewrite setRecipesVisibility_unfold in Hrun.
      destruct (tokenConfigured env); [|discriminate]. cbv zeta in Hrun.
      destruct (writeRows env clients audience flag _ [] w) as [[updated|e] w1] eqn:Hw;
        [|discriminate].
      injection Hrun as <- <-. cbn [updatedIds relatedIds] in *.
      destruct (writeRows_returns _ _ _ _ _ _ _ _ _ Hw) as (Hstore & -> & _).
      cbn [app] in *. rewrite length_map in *.
      split_and!; [reflexivity | exact Hvalid | exact Hstore | reflexivity | reflexivity|].
      destruct (currentRowsOf (store w) (relatedOf (store w) (targetIdsOf id ids)));
        [discriminate | simpl length; lia].
  - unfold failureResponse. cbv zeta.
    destruct (includes _ "permission"); split; (lia || intros [H | [H | H]]; lia).
Qed.

Lemma PATCH_valid (body : RequestBody) (targetIds : list string)
    (audience : AdminAudience) (flag : bool) (env : Env) (clients : list WriteClient)
    (w : World) :
  validRequest body targetIds audience flag ->
  PATCH None body env clients w
  = match setRecipesVisibility env clients targetIds audience flag w with
    | (Normal updated, w') =>
        if (length (updatedIds updated) =? 0)%nat
        then (Normal (ErrorResponse 404 "Not found"), w')
        else (Normal (OkResponse (Z.of_nat (length (updatedIds updated)))
                        (Z.of_nat (length (relatedIds updated)))), w')
    | (Throw error, w') => (Normal (failureResponse error), w')
    end.
Proof.
  intros (id & ids & audienceField & -> & -> & Hne & Hdraft & Haud).
  unfold PATCH. cbv zeta.
  destruct (length (targetIdsOf id ids) =? 0)%nat eqn:Hlen.
  { apply length_zero_nil in Hlen. contradiction. }
  destruct (existsb _ (targetIdsOf id ids)) eqn:Hex.
  { apply existsb_exists in Hex as (t & Hin & Hs).
    rewrite (Hdraft t) in Hs by (apply list_elem_of_In; exact Hin). discriminate. }
  rewrite Haud. reflexivity.
Qed.

Lemma permissionError_status (attemptedSources : list string) :
  statusOf (failureResponse (permissionError attemptedSources)) = 403.
Proof.
  unfold failureResponse, permissionError. cbv zeta.
  match goal with
  | |- context [toLowerCase (?s +:+ ?after)] =>
      rewrite (toLowerCase_contains "" s after "permission" eq_refl eq_refl
               : includes (toLowerCase (s +:+ after)) "permission" = true)
  end.
  reflexivity.
Qed.

(** X25. For a request that passed every check, an error thrown by the
    propagation is answered with its message and with status 403 when
    the lower-cased message contains "permission", 500 otherwise; in
    particular the error of a write chain that ran out of clients after
    a permission failure is answered with 403, a missing token, an
    exhausted chain without permission failure of this kind and a
    thrown value that is no error with 500. The store is the one the
    propagation left. *)
Theorem PATCH_failure_status (body : RequestBody) (targetIds : list string)
    (audience : AdminAudience) (flag : bool) (env : Env) (clients : list WriteClient)
    (w : World) (error : Thrown) :
  validRequest body targetIds audience flag ->
  fst (setRecipesVisibility env clients targetIds audience flag w) = Throw error ->
  PATCH None body env clients w
  = (Normal (failureResponse error),
     snd (setRecipesVisibility env clients targetIds audience flag w)) /\
  (statusOf (failureResponse error) = 403 \/ statusOf (failureResponse error) = 500) /\
  (statusOf (failureResponse error) = 403
   <-> exists message, error = ErrorObject message /\
                       contains (toLowerCase message) "permission") /\
  (forall attemptedSources,
      error = permissionError attemptedSources -> statusOf (failureResponse error) = 403) /\
  (error = missingTokenError \/ error = credentialError \/ error = OtherValue ->
   statusOf (failureResponse error) = 500).
Proof.
  intros Hvalid Hthrow. split_and!.
  - rewrite (PATCH_valid _ _ _ _ _ _ _ Hvalid).
    destruct (setRecipesVisibility env clients targetIds audience flag w)
      as [[result|e] w'];  cbn [fst snd] in *; [discriminate|].
    injection Hthrow as ->. reflexivity.
  - apply failureResponse_status.
  - unfold failureResponse. cbv zeta. cbn [statusOf].
    destruct error as [message|].
    + destruct (includes (toLowerCase message) "permission") eqn:Hinc.
      * split; [intros _ | reflexivity]. exists message.
        split; [reflexivity | apply includes_spec; exact Hinc].
      * split; [discriminate|]. intros (m & [= <-] & Hc).
        apply includes_spec in Hc. congruence.
    + lower_ascii. split; [discriminate|]. intros (m & E & _). discriminate.
  - intros attemptedSources ->. apply permissionError_status.
  - intros [-> | [-> | ->]]; unfold failureResponse, missingTokenError, credentialError;
      cbv zeta; lower_ascii; reflexivity.
Qed.

(** ** Owner page and actions *)

(** X26. The range shown above the owner table for a listing: 0 to 0
    when nothing matches; otherwise it runs from the position of the
    first item of the page to that of the last one, within 1 and the
    total, and spans as many positions as the page has items. *)
Theorem listing_range {A} (matches : list A) (page pageSize : option JsNumber) :
  let data := listRecipes matches page pageSize in
  (matches = [] -> rangeFrom data = 0 /\ rangeTo data = 0 /\ res_items data = []) /\
  (matches <> [] ->
   1 <= rangeFrom data <= rangeTo data /\
   rangeTo data <= res_total data /\
   Z.of_nat (length (res_items data)) = rangeTo data - rangeFrom data + 1 /\
   forall i, (i < length (res_items data))%nat ->
             res_items data !! i = matches !! (Z.to_nat (rangeFrom data - 1) + i)%nat).
Proof.
  cbv zeta. unfold rangeFrom, rangeTo, listRecipes. cbv zeta.
  cbn [res_items res_total res_page res_pageSize res_totalPages].
  pose proof (normalizePage_positive page) as Hpage.
  pose proof (normalizePageSize_sizes pageSize) as Hsize.
  set (n := normalizePageSize pageSize) in *.
  set (p := normalizePage page) in *.
  rewrite (Z.max_r 0 (Z.of_nat (length matches))) by lia.
  destruct (totalPages_bounds (Z.of_nat (length matches)) n) as (HT & Hlow & Hhigh);
    [lia | lia |].
  set (T := Z.max 1 (ceilDiv (Z.of_nat (length matches)) n)) in *.
  split.
  - intros ->. simpl. split_and!; try reflexivity.
    unfold slice. rewrite drop_nil, take_nil. reflexivity.
  - intros Hne.
    assert (0 < Z.of_nat (length matches)) as Hlen
      by (destruct matches; [contradiction | simpl length; lia]).
    rewrite (proj2 (Z.eqb_neq (Z.of_nat (length matches)) 0)) by lia.
    assert (0 <= (Z.min p T - 1) * n) as Hstart by nia.
    assert ((Z.min p T - 1) * n <= (T - 1) * n) as Hle by nia.
    pose proof (slice_length ((Z.min p T - 1) * n) n matches Hstart ltac:(lia)) as Hslice.
    split_and!; try nia.
    intros i Hi. replace ((Z.min p T - 1) * n + 1 - 1) with ((Z.min p T - 1) * n) by lia.
    apply slice_lookup; [exact Hstart|]. lia.
Qed.

Lemma trimEnd_plain (s : string) :
  allChars (fun c => negb (isWhiteSpace c)) s = true -> trimEnd s = s.
Proof.
  induction s as [|c s IH]; intros H; [reflexivity|].
  cbn [allChars] in H. apply andb_true_iff in H as [Hc H]. apply negb_true_iff in Hc.
  rewrite trimEnd_cons_nonspace by exact Hc. rewrite (IH H). reflexivity.
Qed.

Lemma trim_plain (s : string) :
  allChars (fun c => negb (isWhiteSpace c)) s = true -> trim s = s.
Proof.
  intros H. unfold trim.
  assert (trimStart s = s) as ->.
  { destruct s as [|c s]; [reflexivity|]. cbn [allChars] in H.
    apply andb_true_iff in H as [Hc _]. apply negb_true_iff in Hc.
    apply trimStart_nonspace. exact Hc. }
  apply trimEnd_plain. exact H.
Qed.

Lemma plainId_parts (id : string) :
  plainId id = true ->
  allChars (fun c => negb (isWhiteSpace c)) id = true /\
  allChars (fun c => negb (isComma c)) id = true.
Proof.
  intros H. split; (eapply allChars_weaken; [|exact H]);
    intros c Hc; apply andb_true_iff in Hc; tauto.
Qed.

Lemma stringsOf_strings (values : list string) :
  stringsOf (map JsonString values) = values.
Proof.
  induction values as [|v values IH]; [reflexivity|].
  cbn. unfold stringsOf in IH. rewrite IH. reflexivity.
Qed.

Lemma parse_names (audience : AdminAudience) (value : bool) :
  parseAudience (formField (Some (audienceName audience))) = Normal audience /\
  parseValue (formField (Some (valueName value))) = Normal value /\
  audienceOf (Some (JsonString (audienceName audience))) = Some audience.
Proof. destruct audience, value; split_and!; reflexivity. Qed.

Lemma targets_fixed (ids : list string) :
  (forall id, id ∈ ids -> plainId id = true) ->
  let targets := uniqueOf (List.filter truthy ids) in
  NoDup targets /\
  (forall id, id ∈ targets <-> id ∈ ids /\ id <> "") /\
  uniqueTrimmed targets = targets.
Proof.
  intros Hplain. cbv zeta.
  assert (forall id, id ∈ uniqueOf (List.filter truthy ids) <-> id ∈ ids /\ id <> "") as Hmem.
  { intros id. unfold uniqueOf. rewrite uniqueOf_fold. split.
    - intros [H | H]; [inversion H|].
      apply list_elem_of_In, filter_In in H as [H Ht].
      split; [apply list_elem_of_In; exact H | apply truthy_true; exact Ht].
    - intros [H Hne]. right. apply list_elem_of_In, filter_In.
      split; [apply list_elem_of_In; exact H | apply truthy_true; exact Hne]. }
  assert (NoDup (uniqueOf (List.filter truthy ids))) as Hnd
    by (unfold uniqueOf; apply uniqueOf_fold_NoDup, NoDup_nil_2).
  split_and!; [exact Hnd | exact Hmem|].
  apply uniqueTrimmed_fixed; [exact Hnd|].
  intros id Hid. apply Hmem in Hid as [Hid Hne]. split; [exact Hne|].
  apply trim_plain, plainId_parts, Hplain, Hid.
Qed.

(** X27. The page action of the owner table, for a page whose recipe
    ids contain neither white space nor a comma, with the admin key
    configured: joined into the hidden field and split again, the ids
    reach the [PATCH] handler as the distinct non-empty ids of the page,
    in their order. A page without such an id makes the action throw
    before anything is sent; otherwise the body sent passes the checks
    of the handler unless an id is a draft id, and the handler
    propagates from exactly those ids. *)
Theorem setPageVisibilityAction_request (adminApiKey : option string)
    (ids : list string) (audience : AdminAudience) (value : bool) :
  envSet adminApiKey = true ->
  (forall id, id ∈ ids -> plainId id = true) ->
  let targets := uniqueOf (List.filter truthy ids) in
  let action :=
    setPageVisibilityAction adminApiKey (Some (currentPageIds ids))
      (Some (audienceName audience)) (Some (valueName value)) in
  let body := Fields None (Some (JsonArray (map JsonString targets)))
                (Some (JsonString (audienceName audience))) (Some (JsonBool value)) in
  (forall id, id ∈ targets <-> id ∈ ids /\ id <> "") /\
  (targets = [] ->
   action = Throw (ErrorObject "No recipes in current page to update.")) /\
  (targets <> [] ->
   action = Normal body /\
   targetIdsOf None (Some (JsonArray (map JsonString targets))) = targets /\
   ((forall id, id ∈ targets -> startsWith id "drafts." = false) ->
    validRequest body targets audience value /\
    forall env clients w,
      PATCH None body env clients w
      = match setRecipesVisibility env clients targets audience value w with
        | (Normal updated, w') =>
            if (length (updatedIds updated) =? 0)%nat
            then (Normal (ErrorResponse 404 "Not found"), w')
            else (Normal (OkResponse (Z.of_nat (length (updatedIds updated)))
                            (Z.of_nat (length (relatedIds updated)))), w')
        | (Throw error, w') => (Normal (failureResponse error), w')
        end)).
Proof.
  intros Hkey Hplain. cbv zeta.
  destruct (targets_fixed ids Hplain) as (Hnd & Hmem & Hfixed).
  destruct (parse_names audience value) as (Haud & Hval & Hfield).
  set (targets := uniqueOf (List.filter truthy ids)) in *.
  assert (uniqueOf (List.filter truthy
                      (map trim (splitWhere isComma (formField (Some (currentPageIds ids))))))
          = targets) as Hsplit.
  { unfold formField, currentPageIds.
    rewrite trim_plain.
    2:{ apply (allChars_join _ (cu ",")); [reflexivity|].
        intros id Hid. apply plainId_parts, Hplain, list_elem_of_In, Hid. }
    destruct ids as [|id0 ids0]; [reflexivity|].
    rewrite (splitWhere_join isComma (cu ",")); [| reflexivity | discriminate |].
    - rewrite map_fixed; [reflexivity|].
      intros id Hid. apply trim_plain, plainId_parts, Hplain, list_elem_of_In, Hid.
    - intros id Hid. apply plainId_parts, Hplain, list_elem_of_In, Hid. }
  assert (targetIdsOf None (Some (JsonArray (map JsonString targets))) = targets) as Htargets.
  { unfold targetIdsOf. cbv zeta. rewrite stringsOf_strings. cbn [List.filter truthy isEmpty negb].
    exact Hfixed. }
  split_and!.
  - exact Hmem.
  - intros Hnone. unfold setPageVisibilityAction. cbv zeta.
    rewrite Haud, Hval, Hsplit, Hnone. reflexivity.
  - intros Hsome.
    assert (setPageVisibilityAction adminApiKey (Some (currentPageIds ids))
              (Some (audienceName audience)) (Some (valueName value))
            = Normal (Fields None (Some (JsonArray (map JsonString targets)))
                        (Some (JsonString (audienceName audience)))
                        (Some (JsonBool value)))) as Haction.
    { unfold setPageVisibilityAction. cbv zeta. rewrite Haud, Hval, Hsplit.
      destruct (length targets =? 0)%nat eqn:Hlen.
      { apply length_zero_nil in Hlen. contradiction. }
      unfold applyVisibility. rewrite Hkey. cbn [negb]. cbv zeta.
      rewrite Hfixed, Hlen. reflexivity. }
    split_and!; [exact Haction | exact Htargets|].
    intros Hdraft.
    assert (validRequest
              (Fields None (Some (JsonArray (map JsonString targets)))
                 (Some (JsonString (audienceName audience))) (Some (JsonBool value)))
              targets audience value) as Hvalid.
    { exists None, (Some (JsonArray (map JsonString targets))),
        (Some (JsonString (audienceName audience))).
      split_and!; [reflexivity | symmetry; exact Htargets | exact Hsome | exact Hdraft
                  | exact Hfield]. }
    split; [exact Hvalid|]. intros env clients w. apply PATCH_valid. exact Hvalid.
Qed.

(** ** Propagation as the readers see it *)

(** X28. When a propagation returns, every document of the store whose
    id is among the related ids passes the reader's visibility
    predicate of the requested audience exactly when the requested
    value is true; when the value is true it also passes the predicate
    of the combined audience, so the navigation resolver and the
    listings of that audience see it; and the set of documents seen
    with [includeAll] is the same as before. *)
Theorem propagation_visible (env : Env) (clients : list WriteClient)
    (seedIds : list string) (requested : AdminAudience) (value : bool)
    (w w' : World) (result : PropagationResult) (d : Doc) :
  setRecipesVisibility env clients seedIds requested value w = (Normal result, w') ->
  d ∈ store w' ->
  doc_id d ∈ relatedIds result ->
  visibilityPredicate (filterOf requested) d = value /\
  (value = true -> visibilityPredicate FilterAll d = true) /\
  (value = true ->
   d ∈ scopeOf {| audience := filterOf requested; includeAll := false |} (store w')) /\
  map doc_id (store w') = map doc_id (store w).
Proof.
  intros Hrun Hd Hid. rewrite setRecipesVisibility_unfold in Hrun.
  destruct (tokenConfigured env); [|discriminate]. cbv zeta in Hrun.
  destruct (writeRows env clients requested value _ [] w) as [[updated|e] w1] eqn:Hw;
    [|discriminate].
  injection Hrun as <- <-. cbn [relatedIds] in Hid.
  destruct (writeRows_returns _ _ _ _ _ _ _ _ _ Hw) as (Hstore & _).
  rewrite Hstore in Hd |- *. rewrite commitRows_closed in Hd |- *.
  assert (visibilityPredicate (filterOf requested) d = value) as Hvis.
  { apply list_elem_of_In, in_map_iff in Hd as (d0 & <- & Hd0).
    assert (doc_id d0 ∈ relatedOf (store w) seedIds) as Hid0.
    { destruct (lastRequest requested value _ (doc_id d0)); [|exact Hid].
      unfold withVisibility in Hid. rewrite patchDoc_id in Hid. exact Hid. }
    destruct (lastRequest_some requested value
                (currentRowsOf (store w) (relatedOf (store w) seedIds)) (doc_id d0))
      as (row & _ & _ & ->).
    { apply currentRowsOf_ids. split; [|exact Hid0].
      apply list_elem_of_In, in_map, Hd0. }
    unfold visibilityPredicate. rewrite withVisibility_visibility.
    destruct requested; reflexivity. }
  split_and!.
  - exact Hvis.
  - intros ->. unfold visibilityPredicate in *.
    destruct requested; cbn [filterOf] in Hvis; rewrite Hvis; [reflexivity|].
    apply orb_true_r.
  - intros ->. unfold scopeOf. cbn [includeAll audience].
    apply list_elem_of_In, filter_In. split; [apply list_elem_of_In; exact Hd | exact Hvis].
  - rewrite map_map. apply map_ext. intros d0.
    destruct (lastRequest requested value _ (doc_id d0)); [|reflexivity].
    apply patchDoc_id.
Qed.

(** ** Page links and the relation graph *)

Lemma buildAdjacency_linked (rows : list RelationRecipeRow) :
  edgeInvariant rows (labelPairs rows)
    (fold_left (linkRow (titleIndex rows)) rows (emptyAdjacency rows, ∅)).
Proof.
  rewrite linkRows_pairs.
  apply (linkPairs_invariant rows (labelPairs rows) []).
  - intros [o l] Hp. apply elem_of_labelPairs in Hp as (row & Hrow & <- & _).
    cbn [fst]. apply list_elem_of_In, in_map, list_elem_of_In. exact Hrow.
  - split_and!; cbn [fst snd].
    + intros k. rewrite emptyAdjacency_lookup. case_bool_decide as Hk.
      * split; [intros _; exact Hk | eauto].
      * split; [intros [x Hx]; discriminate | contradiction].
    + intros label v H. rewrite lookup_empty in H. discriminate.
    + intros x y. split.
      * intros (ns & H & Hy). rewrite emptyAdjacency_lookup in H.
        case_bool_decide; [|discriminate]. injection H as <-. inversion Hy.
      * intros [(l & Hl & _) | (l & Hl & _)]; inversion Hl.
Qed.

Lemma links_edge (rows : list RelationRecipeRow) (a b : string) :
  links rows a b ->
  edge (buildAdjacency rows) a b /\ edge (buildAdjacency rows) b a.
Proof.
  intros (row & l & Hrow & Hid & Hl & H).
  destruct (buildAdjacency_linked rows) as (_ & _ & Hedges).
  assert (linkedBy (titleIndex rows) (labelPairs rows) a b) as Hlinked.
  { exists l. split; [|exact H]. apply elem_of_labelPairs. exists row. auto. }
  unfold buildAdjacency. split; apply Hedges; auto.
Qed.

(** The two best-match loops, of the graph builder and of the
    navigation resolver, agree on every corpus. *)
Lemma best_loops_agree (labelNorm : string) (docs : list Doc) :
  forall (b1 : option string * Z) (b2 : option SubRecipeTarget * Z),
    snd b1 = snd b2 ->
    fst b1 = option_map target_id (fst b2) ->
    let r1 :=
      fold_left
        (fun best row =>
           let score := scoreTitleMatch labelNorm (tir_norm row) in
           if snd best <? score then (Some (tir_id row), score) else best)
        (titleIndex (fetchRelationRows docs)) b1 in
    let r2 :=
      fold_left
        (fun best row =>
           let score := scoreTitleMatch labelNorm (nrow_norm row) in
           if snd best <? score then
             (Some {| target_id := nrow_id row; target_title := nrow_title row;
                      target_pluNumber := nrow_pluNumber row;
                      directMatch := 72 <=? score |}, score)
           else best)
        (map normalizedRowOf docs) b2 in
    snd r1 = snd r2 /\ fst r1 = option_map target_id (fst r2).
Proof.
  cbv zeta. induction docs as [|d docs IH]; intros b1 b2 Hs Hf.
  - split; assumption.
  - unfold titleIndex, fetchRelationRows in *. cbn [map fold_left].
    cbn [tir_norm tir_id relationRowOf row_title row_id normalizedRowOf nrow_norm
         nrow_id nrow_title nrow_pluNumber].
    rewrite Hs.
    destruct (snd b2 <? scoreTitleMatch labelNorm
                          (normalizeComparableText (titleOrEmpty (doc_title d)))).
    + apply IH; reflexivity.
    + apply IH; assumption.
Qed.

Lemma resolveRelatedRecipeIds_closed (docs : list Doc) (seedIds ids : list string)
    (a b : string) :
  "" ∉ map doc_id docs ->
  resolveRelatedRecipeIds docs seedIds = Some ids ->
  a ∈ ids ->
  edge (buildAdjacency (fetchRelationRows docs)) a b ->
  b ∈ ids.
Proof.
  intros Hids Hrun Ha Hedge. unfold resolveRelatedRecipeIds in Hrun.
  destruct (length (uniqueTrimmed seedIds) =? 0)%nat;
    [injection Hrun as <-; inversion Ha|].
  destruct (length (fetchRelationRows docs) =? 0)%nat;
    [injection Hrun as <-; inversion Ha|].
  unfold expandComponent in Hrun.
  assert (forall y, ~ edge (buildAdjacency (fetchRelationRows docs)) "" y) as Hempty.
  { intros y He. apply buildAdjacency_edge_ids in He as [Hk _].
    rewrite fetchRelationRows_ids in Hk. contradiction. }
  pose proof (drainQueue_invariant _ (uniqueTrimmed seedIds) _ Hempty _ _ _
                (enqueueSeeds_invariant _ (uniqueTrimmed seedIds)) Hrun)
    as (_ & _ & HC & _).
  destruct (HC a Ha) as [Hq | Hcl]; [inversion Hq | auto].
Qed.

(** X29. What the owner's recipe page links directly is an edge of the
    relation graph. When a line of a recipe is shown with a direct link
    to another recipe, resolved over the whole corpus, the graph built
    for the propagation joins the two recipes in both directions; so in
    a corpus without an empty id every propagation that reaches one of
    them reaches the other. *)
Theorem direct_link_edge (docs : list Doc) (owner : Doc) (lines : list Ingredient)
    (line : Ingredient) (options : NavigationOptions) (t : SubRecipeTarget) :
  includeAll options = true ->
  owner ∈ docs ->
  doc_ingredients owner = Some lines ->
  line ∈ lines ->
  lineTarget (subRecipeTargets lines options docs) line = Some t ->
  hasDirectLink (Some t) = true ->
  target_id t <> "" ->
  target_id t <> doc_id owner ->
  edge (buildAdjacency (fetchRelationRows docs)) (doc_id owner) (target_id t) /\
  edge (buildAdjacency (fetchRelationRows docs)) (target_id t) (doc_id owner) /\
  ("" ∉ map doc_id docs ->
   forall seedIds ids,
     resolveRelatedRecipeIds docs seedIds = Some ids ->
     (doc_id owner ∈ ids <-> target_id t ∈ ids)).
Proof.
  intros Hall Howner Hlines Hline Htarget Hdirect Hne Hother.
  cbn [hasDirectLink] in Hdirect.
  unfold lineTarget in Htarget.
  destruct (ptnLabel line) as [label|] eqn:Hlabel; [|discriminate].
  assert (label ∈ subRecipeLabels lines) as Hk.
  { apply elem_of_subRecipeLabels. exists line.
    rewrite <- ptnLabel_lineLabel. auto. }
  rewrite (subRecipeTargets_read _ _ _ _ Hk) in Htarget.
  assert (label ∈ collectPtnLabels (Some lines)) as Hcollected.
  { cbn [collectPtnLabels]. destruct (collectPtnLabels_fold lines []) as [_ Hin].
    apply Hin. right. exists line. split; [exact Hline|].
    rewrite ptnLabel_lineLabel in Hlabel. unfold lineLabel in Hlabel.
    destruct (extractPtnReference (ing_item line)) as [fromItem|] eqn:Hitem; [|auto].
    left. exact Hlabel. }
  assert (resolveLabelTargetId label (titleIndex (fetchRelationRows docs))
          = Some (target_id t)) as Hresolved.
  { unfold entryOf in Htarget. unfold resolveLabelTargetId. cbv zeta in *.
    destruct (isEmpty (normalizeComparableText label)); [discriminate|].
    destruct (best_loops_agree (normalizeComparableText label) docs (None, 0) (None, 0)
                eq_refl eq_refl) as [Hscore Hbest].
    assert (fetchTitleRows options docs = map normalizedRowOf docs) as Hrows
      by (unfold fetchTitleRows; rewrite Hall; reflexivity).
    rewrite Hrows in Htarget. unfold bestTitle, bestTarget in *.
    destruct (bestTarget_flag (normalizeComparableText label) (map normalizedRowOf docs))
      as (_ & Hflag).
    unfold bestTarget in Hflag.
    destruct (60 <=? snd (fold_left _ (map normalizedRowOf docs) (None, 0))) eqn:H60;
      [|discriminate].
    apply Z.leb_le in H60. destruct Hflag as (t' & Ht' & Hd); [lia|].
    rewrite Ht' in Htarget, Hbest. injection Htarget as ->.
    rewrite Hscore, <- Hd, Hdirect. exact Hbest. }
  assert (links (fetchRelationRows docs) (doc_id owner) (target_id t)) as Hlinks.
  { exists (relationRowOf owner), label.
    split_and!; [| reflexivity | | exact Hresolved | exact Hne | exact Hother].
    - unfold fetchRelationRows. apply list_elem_of_In, in_map, list_elem_of_In, Howner.
    - cbn [relationRowOf row_ingredients]. rewrite Hlines. exact Hcollected. }
  destruct (links_edge _ _ _ Hlinks) as [Hab Hba].
  split_and!; [exact Hab | exact Hba|].
  intros Hids seedIds ids Hrun. split; intros Hin.
  - eapply resolveRelatedRecipeIds_closed; eassumption.
  - eapply resolveRelatedRecipeIds_closed; eassumption.
Qed.

End FurtherProperties.

(** ** Witnesses of the further properties *)

Lemma extractPtnReference_trimmed_witness :
  extractPtnReference (Some "2 ptn  Aioli ") = Some "Aioli" /\
  "Aioli" <> "" /\ trim "Aioli" = "Aioli".
Proof.
  assert (extractPtnReference (Some "2 ptn  Aioli ") = Some "Aioli") as H
    by (vm_compute; reflexivity).
  split; [exact H|]. apply (extractPtnReference_trimmed _ _ H).
Defined.

Lemma extractPtnReference_needs_marker_witness :
  ~ contains (toLowerCase "500 g Flour") "ptn" /\
  extractPtnReference (Some "500 g Flour") = None.
Proof.
  assert (~ contains (toLowerCase "500 g Flour") "ptn") as H.
  { rewrite <- includes_spec. vm_compute. discriminate. }
  split; [exact H|]. apply (extractPtnReference_needs_marker "500 g Flour" H).
Defined.

Lemma extractPtnReference_label_witness :
  extractPtnReference (Some ("10" +:+ " PTN " +:+ " Pickled Red Onio "))
  = Some (trim " Pickled Red Onio ").
Proof.
  apply (extractPtnReference_label "10" " Pickled Red Onio ").
  - vm_compute. reflexivity.
  - vm_compute. reflexivity.
  - vm_compute. discriminate.
Defined.

Lemma resolveRelatedRecipeIds_component_witness :
  ("" ∉ map doc_id sampleDocs) /\
  exists ids,
    resolveRelatedRecipeIds sampleDocs [" a "; "nope"] = Some ids /\
    NoDup ids /\
    (forall x, x ∈ ids -> x ∈ map doc_id sampleDocs) /\
    (forall x, x ∈ ids <->
               exists s, s ∈ [" a "; "nope"] /\ trim s ∈ map doc_id sampleDocs /\
                         reachable (buildAdjacency (fetchRelationRows sampleDocs))
                           (trim s) x).
Proof.
  assert ("" ∉ map doc_id sampleDocs) as H.
  { intros H. apply list_elem_of_In in H. simpl in H.
    repeat destruct H as [H | H]; try discriminate H; exact H. }
  split; [exact H|]. apply (resolveRelatedRecipeIds_component sampleDocs [" a "; "nope"] H).
Defined.

Lemma unknown_seeds_no_write_witness :
  tokenConfigured sampleEnv = true /\
  (forall s, s ∈ ["nope"; " "] -> trim s ∉ map doc_id (store sampleWorld)) /\
  setRecipesVisibility sampleEnv deniedChain ["nope"; " "] AudPublic true sampleWorld
  = (Normal {| updatedIds := []; relatedIds := [] |}, sampleWorld).
Proof.
  assert (forall s, s ∈ ["nope"; " "] -> trim s ∉ map doc_id (store sampleWorld)) as H.
  { intros s Hs Hd. apply list_elem_of_In in Hs, Hd. simpl in Hs.
    destruct Hs as [<- | [<- | []]]; vm_compute in Hd;
      repeat destruct Hd as [Hd | Hd]; try discriminate Hd; exact Hd. }
  split_and!; [reflexivity | exact H|].
  apply (unknown_seeds_no_write sampleEnv deniedChain ["nope"; " "] AudPublic true
           sampleWorld eq_refl H).
Defined.

Lemma propagation_counts_witness :
  setRecipesVisibility sampleEnv acceptingChain ["m"] AudEnterprise true sampleWorld
  = (Normal sampleResult, sampleAfter) /\
  updatedIds sampleResult
  = map doc_id (List.filter (fun d => bool_decide (doc_id d ∈ relatedIds sampleResult))
                  (store sampleWorld)) /\
  (forall x, x ∈ updatedIds sampleResult <-> x ∈ relatedIds sampleResult) /\
  (NoDup (map doc_id (store sampleWorld)) ->
   updatedIds sampleResult ≡ₚ relatedIds sampleResult /\
   length (updatedIds sampleResult) = length (relatedIds sampleResult)) /\
  (("" ∉ map doc_id (store sampleWorld)) ->
   (updatedIds sampleResult = [] <->
    forall s, s ∈ ["m"] -> trim s ∉ map doc_id (store sampleWorld))).
Proof.
  split; [apply sample_run|].
  apply (propagation_counts sampleEnv acceptingChain ["m"] AudEnterprise true
           sampleWorld sampleAfter sampleResult sample_run).
Defined.

Lemma findSubRecipeTargets_target_witness :
  exists t,
    findSubRecipeTargets ["Gamma"; " Bread "] (mkNavOptions FilterPublic false) sampleDocs
      !! "Bread" = Some (Some t) /\
    exists before d after,
      scopeOf (mkNavOptions FilterPublic false) sampleDocs = before ++ d :: after /\
      t = targetOf "Bread" d /\
      directMatch t = (72 <=? docScore "Bread" d) /\
      60 <= docScore "Bread" d /\
      (forall r, r ∈ before -> docScore "Bread" r < docScore "Bread" d) /\
      (forall r, r ∈ after -> docScore "Bread" r <= docScore "Bread" d) /\
      d ∈ sampleDocs /\
      (includeAll (mkNavOptions FilterPublic false) = false ->
       visibilityPredicate (audience (mkNavOptions FilterPublic false)) d = true).
Proof.
  exists (mkTarget "z" (Some "Bread") 3 true).
  assert (findSubRecipeTargets ["Gamma"; " Bread "] (mkNavOptions FilterPublic false)
            sampleDocs !! "Bread" = Some (Some (mkTarget "z" (Some "Bread") 3 true))) as H
    by (vm_compute; reflexivity).
  split; [exact H|].
  apply (findSubRecipeTargets_target ["Gamma"; " Bread "] (mkNavOptions FilterPublic false)
           sampleDocs "Bread" _ H).
Defined.

Lemma page_labels_resolved_witness :
  let line := mkIngredient None (Some "2 PTN Beta Dip") in
  let lines := [mkIngredient (Some "1 PTN Alpha Dip") None; line] in
  let targets := subRecipeTargets lines sampleOptions sampleDocs in
  line ∈ lines /\
  ptnLabel line = Some "Beta Dip" /\
  ("Beta Dip" <> "__proto__" -> targets !! "Beta Dip" = Some (lineTarget targets line)) /\
  (hasDirectLink (lineTarget targets line) = true
   <-> 72 <= bestMatchScore "Beta Dip" (corpusTitles sampleOptions sampleDocs)) /\
  (lineTarget targets line = None
   <-> bestMatchScore "Beta Dip" (corpusTitles sampleOptions sampleDocs) < 60) /\
  (forall key, is_Some (targets !! key)
               <-> key <> "__proto__" /\ exists l, l ∈ lines /\ ptnLabel l = Some key).
Proof.
  cbv zeta.
  assert (mkIngredient None (Some "2 PTN Beta Dip")
          ∈ [mkIngredient (Some "1 PTN Alpha Dip") None;
             mkIngredient None (Some "2 PTN Beta Dip")]) as Hin by set_solver.
  split; [exact Hin|]. split; [reflexivity|].
  apply (page_labels_resolved _ sampleOptions sampleDocs _ "Beta Dip" Hin eq_refl).
Defined.

Lemma buildCompactPagination_tokens_witness :
  1 <= 9 <= 20 /\ 20 < 2 ^ 53 /\
  buildCompactPagination (JsFinite (inject_Z 20)) (JsFinite (inject_Z 9))
  = [PageToken 1; Ellipsis; PageToken 8; PageToken 9; PageToken 10; Ellipsis; PageToken 20].
Proof.
  split; [lia|]. split; [reflexivity|].
  apply (buildCompactPagination_tokens 20 9); [lia | reflexivity].
Defined.

(** Beyond 2^53 the neighbours of the current page are rounded: for
    2^53 + 2 pages and the last page as the current one, the page before
    it is computed as 2^53, and six tokens are shown. *)
Example buildCompactPagination_rounded :
  buildCompactPagination (JsFinite (inject_Z (2 ^ 53 + 2)))
    (JsFinite (inject_Z (2 ^ 53 + 2)))
  = [PageToken 1; Ellipsis; PageToken (2 ^ 53 - 1); PageToken (2 ^ 53); Ellipsis;
     PageToken (2 ^ 53 + 2)].
Proof. vm_compute. reflexivity. Qed.

(** For 2^54 pages and the current page 2^53 + 2 the neighbours are
    computed as 2^53 and 2^53 + 4, and nine tokens are shown. *)
Example buildCompactPagination_rounded_neighbours :
  buildCompactPagination (JsFinite (inject_Z (2 ^ 54)))
    (JsFinite (inject_Z (2 ^ 53 + 2)))
  = [PageToken 1; Ellipsis; PageToken (2 ^ 53); Ellipsis; PageToken (2 ^ 53 + 2);
     Ellipsis; PageToken (2 ^ 53 + 4); Ellipsis; PageToken (2 ^ 54)].
Proof. vm_compute. reflexivity. Qed.

Lemma buildCompactPagination_shape_witness :
  let tokens := buildCompactPagination (JsFinite (41 # 2)) JsNaN in
  lastPage (JsFinite (41 # 2)) < 2 ^ 53 /\
  head tokens = Some (PageToken 1) /\
  last tokens = Some (PageToken 20) /\
  (length tokens <= 7)%nat /\
  tokens = [PageToken 1; Ellipsis; PageToken 20].
Proof.
  cbv zeta.
  assert (lastPage (JsFinite (41 # 2)) < 2 ^ 53) as Hbound by reflexivity.
  split; [exact Hbound|].
  destruct (buildCompactPagination_shape (JsFinite (41 # 2)) JsNaN Hbound)
    as (Hhead & Hlast & Hlen & _).
  split; [exact Hhead|]. split; [exact Hlast|]. split; [exact Hlen|].
  vm_compute. reflexivity.
Defined.

(** The 115 documents of the category [Sauces], which is one of the
    options, among 300 documents, on page 3 with ten documents a page;
    the bar links to page 12. *)
Lemma listing_page_links_witness :
  let counts : gmap string Z := <["Sauces" := 115]> ∅ in
  let data := listAccessibleRecipes sampleMatchesOf "Sauces" (pageNumber 3) (pageNumber 10) in
  let activeCategory := activeCategoryOf "Sauces" counts in
  let pageTokens :=
    buildCompactPagination (JsFinite (inject_Z (res_totalPages data)))
      (JsFinite (inject_Z (res_page data))) in
  let linked := listAccessibleRecipes sampleMatchesOf activeCategory (pageNumber 12)
                  (pageNumber (res_pageSize data)) in
  res_total data < 2 ^ 53 /\
  (PageToken 12 ∈ pageTokens \/
   (12 = res_page data - 1 /\ 1 < res_page data) \/
   (12 = res_page data + 1 /\ res_page data < res_totalPages data)) /\
  ("Sauces" = "" \/ is_Some (counts !! "Sauces")) /\
  activeCategory = "Sauces" /\
  res_page linked = 12 /\
  res_pageSize linked = res_pageSize data /\
  res_totalPages linked = res_totalPages data /\
  (res_items data <> [] -> res_items linked <> []).
Proof.
  cbv zeta.
  assert (res_total (listAccessibleRecipes sampleMatchesOf "Sauces" (pageNumber 3)
                       (pageNumber 10)) < 2 ^ 53) as Hbound by (vm_compute; reflexivity).
  assert (PageToken 12
          ∈ buildCompactPagination
              (JsFinite (inject_Z (res_totalPages
                 (listAccessibleRecipes sampleMatchesOf "Sauces" (pageNumber 3)
                    (pageNumber 10)))))
              (JsFinite (inject_Z (res_page
                 (listAccessibleRecipes sampleMatchesOf "Sauces" (pageNumber 3)
                    (pageNumber 10)))))) as H.
  { apply list_elem_of_In. vm_compute. auto 10. }
  assert ("Sauces" = "" \/ is_Some ((<["Sauces" := 115]> ∅ : gmap string Z) !! "Sauces"))
    as Hsel.
  { right. exists 115. apply lookup_insert_eq. }
  split; [exact Hbound|]. split; [left; exact H|]. split; [exact Hsel|].
  destruct (listing_page_links sampleMatchesOf "Sauces" (<["Sauces" := 115]> ∅)
              (pageNumber 3) (pageNumber 10) 12 Hbound (or_introl H))
    as (_ & _ & Hsame & _).
  exact (Hsame Hsel).
Defined.

Lemma PATCH_failure_status_witness :
  let body := Fields None (Some (JsonArray [JsonString " m "; JsonNull]))
                (Some (JsonString "enterprise")) (Some (JsonBool true)) in
  let error := permissionError ["SANITY_API_WRITE_TOKEN"; "SANITY_API_TOKEN"] in
  validRequest body ["m"] AudEnterprise true /\
  fst (setRecipesVisibility sampleEnv deniedChain ["m"] AudEnterprise true sampleWorld)
  = Throw error /\
  PATCH None body sampleEnv deniedChain sampleWorld
  = (Normal (failureResponse error),
     snd (setRecipesVisibility sampleEnv deniedChain ["m"] AudEnterprise true sampleWorld)) /\
  statusOf (failureResponse error) = 403.
Proof.
  cbv zeta.
  assert (validRequest
            (Fields None (Some (JsonArray [JsonString " m "; JsonNull]))
               (Some (JsonString "enterprise")) (Some (JsonBool true)))
            ["m"] AudEnterprise true) as Hvalid.
  { exists None, (Some (JsonArray [JsonString " m "; JsonNull])),
      (Some (JsonString "enterprise")).
    split_and!; [reflexivity | reflexivity | discriminate | | reflexivity].
    intros t Ht. apply list_elem_of_singleton in Ht as ->. reflexivity. }
  assert (fst (setRecipesVisibility sampleEnv deniedChain ["m"] AudEnterprise true
                 sampleWorld)
          = Throw (permissionError ["SANITY_API_WRITE_TOKEN"; "SANITY_API_TOKEN"])) as Hrun
    by (vm_compute; reflexivity).
  destruct (PATCH_failure_status _ _ _ _ sampleEnv deniedChain sampleWorld _ Hvalid Hrun)
    as (Hpatch & _ & _ & Hperm & _).
  split_and!; [exact Hvalid | exact Hrun | exact Hpatch|].
  apply (Hperm _ eq_refl).
Defined.

Lemma setPageVisibilityAction_request_witness :
  let ids := ["m"; "a"; ""; "m"] in
  let body := Fields None (Some (JsonArray [JsonString "m"; JsonString "a"]))
                (Some (JsonString "enterprise")) (Some (JsonBool true)) in
  envSet (Some "key") = true /\
  (forall id, id ∈ ids -> plainId id = true) /\
  setPageVisibilityAction (Some "key") (Some (currentPageIds ids))
    (Some "enterprise") (Some "true") = Normal body /\
  validRequest body ["m"; "a"] AudEnterprise true.
Proof.
  cbv zeta.
  assert (forall id, id ∈ ["m"; "a"; ""; "m"] -> plainId id = true) as Hplain.
  { intros id Hid. apply list_elem_of_In in Hid. simpl in Hid.
    destruct Hid as [<- | [<- | [<- | [<- | []]]]]; reflexivity. }
  destruct (setPageVisibilityAction_request (Some "key") ["m"; "a"; ""; "m"]
              AudEnterprise true eq_refl Hplain) as (_ & _ & Hsome).
  destruct Hsome as (Haction & _ & Hvalid); [discriminate|].
  split_and!; [reflexivity | exact Hplain | exact Haction|].
  apply Hvalid. intros id Hid. apply list_elem_of_In in Hid. simpl in Hid.
  destruct Hid as [<- | [<- | []]]; reflexivity.
Defined.

Lemma propagation_visible_witness :
  let d := withVisibility (mkDoc "b" (Some "Beta Dip") 4 None None)
             (mkNext false true) in
  setRecipesVisibility sampleEnv acceptingChain ["m"] AudEnterprise true sampleWorld
  = (Normal sampleResult, sampleAfter) /\
  d ∈ store sampleAfter /\
  doc_id d ∈ relatedIds sampleResult /\
  visibilityPredicate (filterOf AudEnterprise) d = true /\
  d ∈ scopeOf {| audience := FilterEnterprise; includeAll := false |} (store sampleAfter).
Proof.
  cbv zeta.
  assert (withVisibility (mkDoc "b" (Some "Beta Dip") 4 None None) (mkNext false true)
          ∈ store sampleAfter) as Hd.
  { apply list_elem_of_In. vm_compute. auto 10. }
  assert (doc_id (withVisibility (mkDoc "b" (Some "Beta Dip") 4 None None)
                    (mkNext false true)) ∈ relatedIds sampleResult) as Hid.
  { apply list_elem_of_In. vm_compute. auto 10. }
  destruct (propagation_visible sampleEnv acceptingChain ["m"] AudEnterprise true
              sampleWorld sampleAfter sampleResult _ sample_run Hd Hid)
    as (Hvis & _ & Hscope & _).
  split_and!; [apply sample_run | exact Hd | exact Hid | exact Hvis|].
  apply Hscope. reflexivity.
Defined.

Lemma direct_link_edge_witness :
  let owner := mkDoc "m" (Some "Feast") 1
                 (Some [ mkIngredient (Some "1 PTN Alpha Dip") None;
                         mkIngredient None (Some "2 PTN Beta Dip");
                         mkIngredient (Some "3 PTN Gamma Dip") (Some "3 PTN Gamma Dip");
                         mkIngredient (Some "4 PTN Delta Dip") None ])
                 None in
  let line := mkIngredient None (Some "2 PTN Beta Dip") in
  let t := mkTarget "b" (Some "Beta Dip") 4 true in
  owner ∈ sampleDocs /\
  (exists lines,
      doc_ingredients owner = Some lines /\ line ∈ lines /\
      lineTarget (subRecipeTargets lines sampleOptions sampleDocs) line = Some t) /\
  edge (buildAdjacency (fetchRelationRows sampleDocs)) "m" "b" /\
  edge (buildAdjacency (fetchRelationRows sampleDocs)) "b" "m".
Proof.
  cbv zeta.
  set (lines := [ mkIngredient (Some "1 PTN Alpha Dip") None;
                  mkIngredient None (Some "2 PTN Beta Dip");
                  mkIngredient (Some "3 PTN Gamma Dip") (Some "3 PTN Gamma Dip");
                  mkIngredient (Some "4 PTN Delta Dip") None ]).
  assert (mkDoc "m" (Some "Feast") 1 (Some lines) None ∈ sampleDocs) as Howner
    by (apply list_elem_of_here).
  assert (mkIngredient None (Some "2 PTN Beta Dip") ∈ lines) as Hline
    by (apply list_elem_of_further, list_elem_of_here).
  assert (lineTarget (subRecipeTargets lines sampleOptions sampleDocs)
            (mkIngredient None (Some "2 PTN Beta Dip"))
          = Some (mkTarget "b" (Some "Beta Dip") 4 true)) as Htarget
    by (vm_compute; reflexivity).
  destruct (direct_link_edge sampleDocs _ lines _ sampleOptions _ eq_refl Howner eq_refl
              Hline Htarget eq_refl) as (Hab & Hba & _);
    [discriminate | discriminate |].
  split_and!; [exact Howner | exists lines; auto | exact Hab | exact Hba].
Defined.
